(** * regex-backend: the state-machine builder and its runtime

    A shallow embedding of
    [include/regex-backend/state_machine_internal/builder.h]: the node
    store, the construction state (cursors and conflict policy), the
    builder combinators, the optimizer passes and the three runtime
    queries [find], [find_many] and [matches].

    Node indices are 1-based naturals, 0 being the null reference.
    Transition symbols and input bytes are integers.  Builder code runs
    in a small state-and-failure monad over the machine; the runtime
    queries are pure functions of the node store. *)

From stdpp Require Import list numbers relations.

(** ** Template parameters and enumerations *)

Inductive ConflictAction := Skip | Overwrite | Error.

Inductive MatchErrorMode := Panic | Return.

#[global] Instance ConflictAction_eq_dec : EqDecision ConflictAction.
Proof. solve_decision. Defined.

(** ** Nodes

    The node type and its key type live in [node.h], the node store in
    [node_store.h]; neither is among the sources at hand, so the
    definitions of this part follow the data model of the
    specification, each under a comment that says so. *)

Module Key_T.
(** Modelled from the spec: a transition key is a concrete symbol, the
    default sentinel or the end-of-input sentinel. *)
Inductive t := value (c : Z) | deflt | eof.
#[global] Instance eq_dec : EqDecision t.
Proof. solve_decision. Defined.
End Key_T.

(** Modelled from the spec: the accept record of a node, a value and
    the count [back_by] of symbols to give back. *)
Record Value_T (V : Type) := mkValue { payload : V; back_by : nat }.
Arguments mkValue {V} _ _.
Arguments payload {V} _.
Arguments back_by {V} _.

(** Modelled from the spec: a node maps keys to child indices, 0
    standing for an absent child, and carries an optional accept
    record.  The map is kept as an association list in insertion order
    that never stores an absent (zero) child. *)
Record Node_T (V : Type) := mkNode {
  transitions : list (Key_T.t * nat);
  value : option (Value_T V)
}.
Arguments mkNode {V} _ _.
Arguments transitions {V} _.
Arguments value {V} _.

#[global] Instance Value_T_eq_dec {V} `{EqDecision V} : EqDecision (Value_T V).
Proof. solve_decision. Defined.

(** Lookup, update and removal in the association list of a node. *)
Fixpoint assoc_get (k : Key_T.t) (l : list (Key_T.t * nat)) : nat :=
  match l with
  | [] => 0
  | (k', v) :: r => if decide (k' = k) then v else assoc_get k r
  end.

Fixpoint assoc_put (k : Key_T.t) (v : nat) (l : list (Key_T.t * nat))
  : list (Key_T.t * nat) :=
  match l with
  | [] => [(k, v)]
  | (k', v') :: r =>
      if decide (k' = k) then (k, v) :: r else (k', v') :: assoc_put k v r
  end.

Definition assoc_del (k : Key_T.t) (l : list (Key_T.t * nat))
  : list (Key_T.t * nat) :=
  filter (λ e, e.1 ≠ k) l.

Section Node.
Context {V : Type}.

(** Modelled from the spec: [Node_T()], the freshly constructed node,
    has no edge and no accept record. *)
Definition empty_node : Node_T V := mkNode [] None.

(** Modelled from the spec: [node.transition(key)] read as a value,
    0 when the key has no child. *)
Definition transition (n : Node_T V) (k : Key_T.t) : nat :=
  assoc_get k (transitions n).

(** Modelled from the spec: the write [node.transition(key) = v]. *)
Definition set_transition (k : Key_T.t) (v : nat) (n : Node_T V) : Node_T V :=
  mkNode (if decide (v = 0) then assoc_del k (transitions n)
          else assoc_put k v (transitions n))
         (value n).

(** Modelled from the spec: [node.def()], the child under the default
    sentinel. *)
Definition def (n : Node_T V) : nat := transition n Key_T.deflt.

(** Modelled from the spec: [node.get_eof()], the child under the
    end-of-input sentinel. *)
Definition get_eof (n : Node_T V) : nat := transition n Key_T.eof.

(** Modelled from the spec: [node.rt_get_transition(symbol)] takes the
    concrete key first, else the default edge. *)
Definition rt_get_transition (n : Node_T V) (c : Z) : nat :=
  let loc := transition n (Key_T.value c) in
  if decide (loc = 0) then def n else loc.

(** Modelled from the spec: [node.get_transitions()], the outgoing
    edges as (key, child). *)
Definition get_transitions (n : Node_T V) : list (Key_T.t * nat) :=
  transitions n.

(** Modelled from the spec: [node.each_transition(f)] where [f]
    rewrites the child through its reference; every edge is replaced by
    [f key child], and an edge rewritten to 0 is absent afterwards. *)
Definition each_transition (f : Key_T.t → nat → nat) (n : Node_T V)
  : Node_T V :=
  mkNode (filter (λ e, e.2 ≠ 0) (map (λ e, (e.1, f e.1 e.2)) (transitions n)))
         (value n).

(** Modelled from the spec: [node.is_null()] holds of a node with no
    accept record and no outgoing edge. *)
Definition is_null (n : Node_T V) : bool :=
  match value n, filter (λ e, e.2 ≠ 0) (transitions n) with
  | None, [] => true
  | _, _ => false
  end.

(** Modelled from the spec: [node.nullify()] clears the edges and the
    accept record. *)
Definition nullify (n : Node_T V) : Node_T V := empty_node.

End Node.

(** ** The UTF-8 validator *)

Module utf_validator.

Inductive Error :=
| None
| OverlappingSequence
| StrayByte
| TruncatedSequence
| InterruptedSequence.

#[global] Instance Error_eq_dec : EqDecision Error.
Proof. solve_decision. Defined.

(** [std::countl_one] on the low [bits] bits of [c]. *)
Fixpoint countl_one_from (bits : nat) (c : Z) : nat :=
  match bits with
  | 0 => 0
  | S b => if Z.testbit c (Z.of_nat b) then S (countl_one_from b c) else 0
  end.

Definition countl_one (c : Z) : nat := countl_one_from 8 (c `mod` 256).

(** [next(c)] on the validator whose field [count] is the first
    argument: the error and the new [count]. *)
Definition next (count : nat) (c : Z) : Error * nat :=
  let is_utf8 := negb (Z.land c 128 =? 0)%Z in
  if is_utf8 then
    let is_header := (Z.land c 192 =? 192)%Z in
    if is_header && negb (count =? 0) then (OverlappingSequence, count)
    else if negb is_header && (count =? 0) then (StrayByte, count)
    else if is_header then (None, countl_one c - 1)
    else (None, count - 1)
  else (if count =? 0 then None else InterruptedSequence, count).

(** [final()]. *)
Definition final (count : nat) : Error :=
  if count =? 0 then None else TruncatedSequence.

End utf_validator.

(** ** Runtime queries *)

Section Runtime.
Context {V : Type}.

(** [IS_UTF8] and [ON_MATCH_ERROR]. *)
Variable IS_UTF8 : bool.
Variable ON_MATCH_ERROR : MatchErrorMode.

(** The node store as the runtime reads it: [m_nodes[i]], 0-based. *)
Local Abbreviation store := (list (Node_T V)).

(** What [find] hands back.  [find_empty] is the result with an empty
    range and no value; a match carries the two ends of its range as
    offsets into the input.  [find_out_of_range] stands for a read of
    the store outside its bounds. *)
Inductive find_result :=
| find_error (e : utf_validator.Error)
| find_panic (e : utf_validator.Error)
| find_out_of_range
| find_empty
| find_match (range_begin range_end : Z) (val : V).

(** The [err(msg)] macro of [find]. *)
Definition find_err (e : utf_validator.Error) : find_result :=
  match ON_MATCH_ERROR with
  | Panic => find_panic e
  | Return => find_error e
  end.

(** The local variables of [find]'s loop. *)
Record find_state := mkFind {
  current_node : nat;
  most_specific_matched_node : nat;
  match_begin : nat;
  match_end : nat;
  uv_count : nat
}.

(** The [for] loop of [find] from position [i] on, [rest] being the
    input from [i]: either an early result, or the locals on leaving. *)
Fixpoint find_loop (m_nodes : store) (rest : list Z) (i : nat)
    (st : find_state) : find_result + find_state :=
  match rest with
  | [] => inr st
  | c :: rest' =>
      match m_nodes !! (current_node st - 1) with
      | Datatypes.None => inl find_out_of_range
      | Some node =>
          let '(error, count) :=
            if IS_UTF8 then utf_validator.next (uv_count st) c
            else (utf_validator.None, uv_count st) in
          if decide (error ≠ utf_validator.None) then inl (find_err error)
          else
            let loc := rt_get_transition node c in
            if decide (loc ≠ 0) then
              match m_nodes !! (loc - 1) with
              | Datatypes.None => inl find_out_of_range
              | Some reached =>
                  if value reached is Some _ then
                    find_loop m_nodes rest' (S i)
                      (mkFind loc loc (match_begin st) (i + 1) count)
                  else
                    find_loop m_nodes rest' (S i)
                      (mkFind loc (most_specific_matched_node st)
                         (match_begin st) (match_end st) count)
              end
            else if decide (most_specific_matched_node st = 0) then
              find_loop m_nodes rest' (S i) (mkFind 1 0 (i + 1) (i + 1) count)
            else
              inr (mkFind (current_node st) (most_specific_matched_node st)
                     (match_begin st) (match_end st) count)
      end
  end.

(** [size_t] subtraction. *)
Definition size_t_sub (a b : nat) : Z :=
  ((Z.of_nat a - Z.of_nat b) `mod` 2 ^ 64)%Z.

Definition find (m_nodes : store) (input : list Z) : find_result :=
  match find_loop m_nodes input 0 (mkFind 1 0 0 0 0) with
  | inl r => r
  | inr st =>
      let error :=
        if IS_UTF8 then utf_validator.final (uv_count st)
        else utf_validator.None in
      if decide (error ≠ utf_validator.None) then find_err error
      else if decide (most_specific_matched_node st ≠ 0) then
        match m_nodes !! (most_specific_matched_node st - 1) with
        | Datatypes.None => find_out_of_range
        | Some node =>
            match value node with
            | Datatypes.None => find_out_of_range
            | Some val =>
                find_match (Z.of_nat (match_begin st))
                  (size_t_sub (match_end st) (back_by val)) (payload val)
            end
        end
      else find_empty
  end.

(** What [matches] hands back: [match_value o] is success with the
    accept record when [o] is [Some], the null value otherwise. *)
Inductive match_result :=
| match_error (e : utf_validator.Error)
| match_panic (e : utf_validator.Error)
| match_out_of_range
| match_value (dat : option (Value_T V)).

Definition success (r : match_result) : bool :=
  match r with match_value (Some _) => true | _ => false end.

Definition match_err (e : utf_validator.Error) : match_result :=
  match ON_MATCH_ERROR with
  | Panic => match_panic e
  | Return => match_error e
  end.

(** The [for] loop of [matches]: an early result, or [current] and the
    validator on leaving. *)
Fixpoint matches_loop (m_nodes : store) (rest : list Z) (current count : nat)
  : match_result + nat * nat :=
  match rest with
  | [] => inr (current, count)
  | c :: rest' =>
      match m_nodes !! (current - 1) with
      | Datatypes.None => inl match_out_of_range
      | Some node =>
          let next := rt_get_transition node c in
          let '(error, count') :=
            if IS_UTF8 then utf_validator.next count c
            else (utf_validator.None, count) in
          if decide (error ≠ utf_validator.None) then inl (match_err error)
          else if decide (next ≠ 0) then matches_loop m_nodes rest' next count'
          else inl (match_value Datatypes.None)
      end
  end.

Definition matches (INCLUDE_EOF : bool) (m_nodes : store) (input : list Z)
  : match_result :=
  match matches_loop m_nodes input 1 0 with
  | inl r => r
  | inr (current, count) =>
      let error :=
        if IS_UTF8 then utf_validator.final count else utf_validator.None in
      if decide (error ≠ utf_validator.None) then match_err error
      else
        let after_eof :=
          if INCLUDE_EOF then
            match m_nodes !! (current - 1) with
            | Datatypes.None => inl match_out_of_range
            | Some node =>
                if decide (get_eof node ≠ 0) then inr (get_eof node)
                else inl (match_value Datatypes.None)
            end
          else inr current in
        match after_eof with
        | inl r => r
        | inr current' =>
            match m_nodes !! (current' - 1) with
            | Datatypes.None => match_out_of_range
            | Some node => match_value (value node)
            end
        end
  end.

End Runtime.

(** ** [find_many]

    The generator is unrolled into the list of results that a
    range-[for] over it visits, and the way the iteration ends. *)

Inductive generator_end :=
| gen_done
| gen_panic (e : utf_validator.Error)
| gen_out_of_range
| gen_invalid_span
| gen_unfinished.

Section FindMany.
Context {V : Type}.
Variable IS_UTF8 : bool.
Variable ON_MATCH_ERROR : MatchErrorMode.

(** [next.range.size()]. *)
Definition range_size (r : @find_result V) : Z :=
  match r with
  | find_match range_begin range_end _ =>
      ((range_end - range_begin) `mod` 2 ^ 64)%Z
  | _ => 0%Z
  end.

(** A result of a scan of [data], reported against the whole input,
    [data] starting at [offset]. *)
Definition shift_result (offset : nat) (r : @find_result V) : find_result :=
  match r with
  | find_match b e v => find_match (Z.of_nat offset + b) (Z.of_nat offset + e) v
  | _ => r
  end.

(** [load_next] followed by the test [it != end], repeated: one round
    per unit of [fuel], [gen_unfinished] when the rounds are used up
    with the iteration still going.  [load_next] tests
    [next.range.size() == 0] and nothing else: a span whose end lies
    before its beginning has a size other than 0 in [size_t], so it is
    yielded and the iteration goes on from its end.  Where that end
    lies beyond [data.end()], [{next.range.end(), data.end()}] is no
    part of the input and has no defined content; the unrolling stops
    there with [gen_invalid_span]. *)
Fixpoint find_many_from (fuel : nat) (m_nodes : list (Node_T V))
    (offset : nat) (data : list Z) : list find_result * generator_end :=
  match fuel with
  | 0 => ([], gen_unfinished)
  | S fuel' =>
      let next := find IS_UTF8 ON_MATCH_ERROR m_nodes data in
      match next with
      | find_panic e => ([], gen_panic e)
      | find_out_of_range => ([], gen_out_of_range)
      | find_match b e _ =>
          if decide (range_size next = 0%Z) then ([], gen_done)
          else if decide (e ≤ Z.of_nat (length data))%Z then
            let data' := drop (Z.to_nat e) data in
            if decide (length data' = 0) then ([], gen_done)
            else
              let '(rs, fin) :=
                find_many_from fuel' m_nodes (offset + Z.to_nat e) data' in
              (shift_result offset next :: rs, fin)
          else ([], gen_invalid_span)
      | _ => ([], gen_done)
      end
  end.

(** [find_many(input)], unrolled for one round more than the input has
    bytes: an iteration that ends does so within these rounds, and one
    that does not never ends. *)
Definition find_many (m_nodes : list (Node_T V)) (input : list Z)
  : list find_result * generator_end :=
  find_many_from (S (length input)) m_nodes 0 input.

End FindMany.

(** ** The machine under construction *)

Record StateMachine (V : Type) := mkMachine {
  m_nodes : list (Node_T V);
  on_conflict : ConflictAction;
  cursors : list nat
}.
Arguments mkMachine {V} _ _ _.
Arguments m_nodes {V} _.
Arguments on_conflict {V} _.
Arguments cursors {V} _.

(** The diagnostics a conflict panic prints, one per line. *)
Inductive Diagnostic :=
| back_by_conflict (node existing attempted : nat)
| default_conflict (node existing attempted : nat)
| value_conflict (from to : nat) (transition : Key_T.t).

(** The assertions of the builder. *)
Inductive Assertion :=
| get_node_outside_storage
| get_node_null_reference
| link_to_null_node
| link_from_null_node
| msb_set_in_ascii
| no_replacements_created.

(** The ways a builder call does not return. *)
Inductive Failure :=
| conflict_panic (errors : list Diagnostic)
| assertion_failed (a : Assertion)
| out_of_range
| out_of_fuel.

Inductive Outcome (V A : Type) :=
| Ok (a : A) (s : StateMachine V)
| Fail (f : Failure).
Arguments Ok {V A} _ _.
Arguments Fail {V A} _.

Definition Build (V A : Type) : Type := StateMachine V → Outcome V A.

#[global] Instance Build_ret {V} : MRet (Build V) := λ A a s, Ok a s.
#[global] Instance Build_bind {V} : MBind (Build V) := λ A B f m s,
  match m s with
  | Ok a s' => f a s'
  | Fail e => Fail e
  end.

Definition fail {V A} (e : Failure) : Build V A := λ _, Fail e.

(** A loop over a vector that threads its local variables. *)
Fixpoint foldM {V A B} (body : B → A → Build V B) (l : list A) (b : B)
  : Build V B :=
  match l with
  | [] => mret b
  | a :: l' => b' ← body b a; foldM body l' b'
  end.

Definition for_each {V A} (l : list A) (body : A → Build V ()) : Build V () :=
  foldM (λ _ a, body a) l ().

Section Primitives.
Context {V : Type}.

Definition get_cursors : Build V (list nat) := λ s, Ok (cursors s) s.
Definition set_cursors (cs : list nat) : Build V () := λ s,
  Ok () (mkMachine (m_nodes s) (on_conflict s) cs).
Definition get_on_conflict : Build V ConflictAction := λ s,
  Ok (on_conflict s) s.

(** Modelled from the spec: [m_nodes.size()] of the node store. *)
Definition size : Build V nat := λ s, Ok (length (m_nodes s)) s.

(** [m_nodes = new_nodes]. *)
Definition set_nodes (new_nodes : list (Node_T V)) : Build V () := λ s,
  Ok () (mkMachine new_nodes (on_conflict s) (cursors s)).

(** Modelled from the spec: [m_nodes.push(n)] appends to the node
    store; the new size, which is the index of the node, is returned. *)
Definition push (n : Node_T V) : Build V nat := λ s,
  Ok (S (length (m_nodes s)))
     (mkMachine (m_nodes s ++ [n]) (on_conflict s) (cursors s)).

(** [new_node()], returning [node_index] of the node pushed. *)
Definition new_node : Build V nat := push empty_node.

(** [get_node(index)] read as a value. *)
Definition get_node (index : nat) : Build V (Node_T V) := λ s,
  if decide (index ≤ length (m_nodes s)) then
    match index with
    | 0 => Fail (assertion_failed get_node_null_reference)
    | S i =>
        match m_nodes s !! i with
        | Some n => Ok n s
        | None => Fail (assertion_failed get_node_outside_storage)
        end
    end
  else Fail (assertion_failed get_node_outside_storage).

(** A write through the reference [get_node(index)]. *)
Definition update_node (index : nat) (f : Node_T V → Node_T V)
  : Build V () := λ s,
  match get_node index s with
  | Ok n _ =>
      Ok () (mkMachine (<[index - 1 := f n]> (m_nodes s))
               (on_conflict s) (cursors s))
  | Fail e => Fail e
  end.

(** Modelled from the spec: [m_nodes[i]] of the node store, 0-based,
    read; an index beyond the store has no defined result. *)
Definition store_read (i : nat) : Build V (Node_T V) := λ s,
  match m_nodes s !! i with
  | Some n => Ok n s
  | None => Fail out_of_range
  end.

(** Modelled from the spec: [m_nodes[i]] of the node store, 0-based,
    written through. *)
Definition store_update (i : nat) (f : Node_T V → Node_T V) : Build V () :=
  λ s,
  match m_nodes s !! i with
  | Some n =>
      Ok () (mkMachine (<[i := f n]> (m_nodes s)) (on_conflict s) (cursors s))
  | None => Fail out_of_range
  end.

(** [has_cursor(index)]. *)
Definition has_cursor (index : nat) : Build V bool := λ s,
  Ok (bool_decide (index ∈ cursors s)) s.

(** [is_deletable_node(index)]. *)
Definition is_deletable_node (index : nat) : Build V bool :=
  if decide (index = 1) then mret false
  else
    n ← get_node index;
    if negb (is_null n) then mret false
    else
      c ← has_cursor index;
      if (c : bool) then mret false else mret true.

End Primitives.

(** ** The public builder surface and the cursor primitives *)

Section Builder.
Context {V : Type}.

(** [IS_UTF8], and the depth granted to the recursion of
    [make_nonambiguous_link]. *)
Variable IS_UTF8 : bool.
Variable fuel : nat.

(** The dynamic constructor: a store holding the root, the default
    construction state. *)
Definition new_machine : StateMachine V := mkMachine [empty_node] Error [1].

Definition root : Build V () := set_cursors [1].

Definition conflict (ca : ConflictAction) : Build V () := λ s,
  Ok () (mkMachine (m_nodes s) ca (cursors s)).

(** One round of the loop of [match_default] over the cursors, then
    the call. *)
Definition match_default_round (default_node_idx : nat)
    (locals : list nat * list Diagnostic) (cursor : nat)
  : Build V (list nat * list Diagnostic) :=
  let '(new_cursors, errors) := locals in
  n ← get_node cursor;
  let deflt := def n in
  if decide (deflt = 0) then
    update_node cursor (set_transition Key_T.deflt default_node_idx);;
    mret (new_cursors, errors)
  else
    policy ← get_on_conflict;
    match policy with
    | Skip => mret (new_cursors ++ [deflt], errors)
    | Overwrite =>
        update_node cursor (set_transition Key_T.deflt default_node_idx);;
        mret (new_cursors, errors)
    | Error =>
        mret (new_cursors,
              errors ++ [default_conflict cursor deflt default_node_idx])
    end.

Definition match_default : Build V () :=
  default_node_idx ← new_node;
  cs ← get_cursors;
  '(new_cursors, errors) ←
    foldM (match_default_round default_node_idx) cs ([default_node_idx], []);
  if errors is [] then set_cursors new_cursors
  else fail (conflict_panic errors).

Definition cursor_transition (child : Key_T.t) : Build V () :=
  cs ← get_cursors;
  '(cursors_without_specified_child, cursors_with_specified_child) ←
    foldM (λ '(without, with_) cur,
      node ← get_node cur;
      if decide (transition node child = 0) then mret (without ++ [cur], with_)
      else mret (without, with_ ++ [cur]))
      cs ([], []);
  new_cursors ←
    (if cursors_without_specified_child is [] then mret []
     else
       goes_to_idx ← new_node;
       for_each cursors_without_specified_child (λ cur,
         update_node cur (set_transition child goes_to_idx));;
       mret [goes_to_idx]);
  new_cursors ←
    foldM (λ new_cursors cur,
      node ← get_node cur;
      mret (new_cursors ++ [transition node child]))
      cursors_with_specified_child new_cursors;
  set_cursors new_cursors.

Definition match_eof : Build V () := cursor_transition Key_T.eof.

(** [make_nonambiguous_link(from, transition, to, watch_nodes)].  The
    recursion follows the graph under [to]; [fuel] bounds its depth. *)
Fixpoint make_nonambiguous_link_rec (depth : nat) (from : nat)
    (transition_ : Key_T.t) (to : nat) (watch_nodes : list nat)
  : Build V (list nat) :=
  match depth with
  | 0 => fail out_of_fuel
  | S depth' =>
      if decide (to = 0) then fail (assertion_failed link_to_null_node)
      else if decide (from = 0) then
        fail (assertion_failed link_from_null_node)
      else
        from_node ← get_node from;
        let current_target := transition from_node transition_ in
        if decide (current_target = 0) then
          update_node from (set_transition transition_ to);;
          mret []
        else if decide (current_target = to) then mret []
        else
          nidx ← new_node;
          target_node ← get_node current_target;
          update_node nidx (λ _, target_node);;
          update_node nidx (each_transition (λ k v,
            if decide (v = current_target) then nidx else v));;
          let tracked_nodes :=
            if decide (to ∈ watch_nodes) then [nidx]
            else if decide (current_target ∈ watch_nodes) then [nidx]
            else [] in
          to_node ← get_node to;
          node ← get_node nidx;
          (if value to_node is Some _ then
             if value node is Some _ then
               policy ← get_on_conflict;
               match policy with
               | Error =>
                   fail (conflict_panic [value_conflict from to transition_])
               | Skip => mret ()
               | Overwrite =>
                   update_node nidx (λ node,
                     mkNode (transitions node) (value to_node))
               end
             else
               update_node nidx (λ node,
                 mkNode (transitions node) (value to_node))
           else mret ());;
          to_node ← get_node to;
          tracked_nodes ←
            foldM (λ tracked_nodes '(key, reference),
              node ← get_node nidx;
              let node_transition := transition node key in
              if decide (node_transition = nidx ∧ reference = 0) then
                update_node nidx (set_transition key current_target);;
                mret tracked_nodes
              else if decide (reference = to ∧ node_transition = 0) then
                update_node nidx (set_transition key current_target);;
                mret tracked_nodes
              else if decide (reference = to ∧ node_transition = nidx) then
                mret tracked_nodes
              else if decide (reference = 0) then mret tracked_nodes
              else
                res ← make_nonambiguous_link_rec depth' nidx key reference
                        watch_nodes;
                mret (tracked_nodes ++ res))
              (get_transitions to_node) tracked_nodes;
          update_node from (set_transition transition_ nidx);;
          mret tracked_nodes
  end.

Definition make_nonambiguous_link := make_nonambiguous_link_rec fuel.

(** The [(key >> shift) & drop_mask] of the UTF-8 branch of
    [match_any_of]. *)
Definition utf8_packed_byte (key : Z) (shift : Z) : Z :=
  Z.land (Z.shiftr key shift) 191.

(** The keys the UTF-8 branch of [match_any_of] walks for one option,
    or the assertion it fails. *)
Definition utf8_keys (key : Z) : Assertion + list Z :=
  if decide (Z.land key (Z.shiftl 255 24) ≠ 0)%Z then
    inr [utf8_packed_byte key 24; utf8_packed_byte key 16;
         utf8_packed_byte key 8; utf8_packed_byte key 0]
  else if decide (Z.land key (Z.shiftl 255 16) ≠ 0)%Z then
    inr [utf8_packed_byte key 16; utf8_packed_byte key 8;
         utf8_packed_byte key 0]
  else if decide (Z.land key (Z.shiftl 255 8) ≠ 0)%Z then
    inr [utf8_packed_byte key 8; utf8_packed_byte key 0]
  else if decide (Z.land key 128 = 0)%Z then inr [key]
  else inl msb_set_in_ascii.

Definition cursor_discreet_transition (transition_ : Key_T.t) : Build V () :=
  cs ← get_cursors;
  '(cursors_with_child, cursors_without_child, cursors_with_default) ←
    foldM (λ '(with_child, without_child, with_default) cursor,
      node ← get_node cursor;
      let current_target := transition node transition_ in
      if decide (def node ≠ 0) then
        mret (with_child, without_child, with_default ++ [cursor])
      else if decide (current_target = 0) then
        mret (with_child, without_child ++ [cursor], with_default)
      else mret (with_child ++ [cursor], without_child, with_default))
      cs ([], [], []);
  new_cursors ←
    (if cursors_without_child is [] then mret []
     else
       default_idx ← new_node;
       for_each cursors_without_child (λ cur,
         update_node cur (set_transition transition_ default_idx));;
       mret [default_idx]);
  new_cursors ←
    foldM (λ new_cursors cursor,
      node ← get_node cursor;
      let old_target := transition node transition_ in
      inter_idx ← new_node;
      old_node ← get_node old_target;
      update_node inter_idx (λ _, old_node);;
      (if decide (old_target = cursor) then
         update_node inter_idx (set_transition transition_ inter_idx)
       else mret ());;
      update_node cursor (set_transition transition_ inter_idx);;
      mret (new_cursors ++ [inter_idx]))
      cursors_with_child new_cursors;
  '(new_cursors, clone_tasks) ←
    foldM (λ '(new_cursors, clone_tasks) cursor,
      node ← get_node cursor;
      let old_transition := transition node transition_ in
      if decide (old_transition ≠ 0) then
        let default_idx := def node in
        replacements ←
          make_nonambiguous_link cursor transition_ default_idx [default_idx];
        match replacements with
        | [] => fail (assertion_failed no_replacements_created)
        | intermediary :: _ => mret (new_cursors ++ [intermediary], clone_tasks)
        end
      else
        intermediary ← new_node;
        update_node cursor (set_transition transition_ intermediary);;
        node ← get_node cursor;
        mret (new_cursors ++ [intermediary],
              clone_tasks ++ [(intermediary, def node)]))
      cursors_with_default (new_cursors, []);
  for_each clone_tasks (λ '(ci_node, ci_clone_from),
    source ← get_node ci_clone_from;
    update_node ci_node (λ _, source));;
  set_cursors new_cursors.

(** One round of the loop of [match_any_of] over its options. *)
Definition match_any_of_round (initial_cursors new_cursors : list nat)
    (choice : Z) : Build V (list nat) :=
  (if IS_UTF8 then
     match utf8_keys choice with
     | inl a => fail (assertion_failed a)
     | inr keys =>
         for_each keys (λ k, cursor_discreet_transition (Key_T.value k))
     end
   else cursor_discreet_transition (Key_T.value choice));;
  cs ← get_cursors;
  set_cursors initial_cursors;;
  mret (new_cursors ++ cs).

Definition match_any_of (options : list Z) : Build V () :=
  tidx ← new_node;
  initial_cursors ← get_cursors;
  new_cursors ← foldM (match_any_of_round initial_cursors) options [];
  set_cursors new_cursors.

Definition match_sequence (seq : list Z) : Build V () :=
  for_each seq (λ part, match_any_of [part]).

(** [ConsumeResult]; [mappings] is read with [operator[]], an unmapped
    index reading as 0. *)
Record ConsumeResult := mkConsume {
  mappings : list (nat * nat);
  terminals : list nat
}.

Definition mappings_at (r : ConsumeResult) (old : nat) : nat :=
  match list_find (λ e, e.1 = old) (mappings r) with
  | Some (_, (_, new)) => new
  | None => 0
  end.

(** The node built by writing [n.transition(k) = v + offset] for every
    edge of a node of the consumed pattern. *)
Definition rebased (offset : nat) (edges : list (Key_T.t * nat)) : Node_T V :=
  foldl (λ n e, set_transition e.1 (e.2 + offset) n) empty_node edges.

Definition consume_regex_except_root (regex : StateMachine ())
  : Build V ConsumeResult :=
  sz ← size;
  let base_index := sz - 1 in
  foldM (λ r '(idx, node),
    let terminals' :=
      if value node is Some _ then terminals r ++ [idx + base_index]
      else terminals r in
    let n := rebased base_index (get_transitions node) in
    new_idx ← push n;
    mret (mkConsume (mappings r ++ [(idx, new_idx)]) terminals'))
    (zip (seq 2 (length (m_nodes regex) - 1)) (drop 1 (m_nodes regex)))
    (mkConsume [] []).

Definition merge_regex_into_machine (regex : StateMachine ()) : Build V () :=
  sz ← size;
  let base_idx := sz - 1 in
  result ← consume_regex_except_root regex;
  match m_nodes regex !! 0 with
  | None => fail out_of_range
  | Some regex_root =>
      let new_root_transitions : Node_T V :=
        rebased base_idx (get_transitions regex_root) in
      cs ← get_cursors;
      terminals ←
        foldM (λ terminals cursor,
          foldM (λ terminals '(key, dest),
            new_terminals ← make_nonambiguous_link cursor key dest terminals;
            mret (terminals ++ new_terminals))
            (get_transitions new_root_transitions) terminals)
          cs (terminals result);
      set_cursors terminals
  end.

(** [match(pattern)]. *)
Definition match_ (pattern : StateMachine ()) : Build V () :=
  merge_regex_into_machine pattern.

Definition match_many_optionally (pattern : StateMachine ()) : Build V () :=
  cursors_before ← get_cursors;
  res ← consume_regex_except_root pattern;
  match m_nodes pattern !! 0 with
  | None => fail out_of_range
  | Some pattern_root =>
      for_each (get_transitions pattern_root) (λ '(key, old_transition),
        let new_transition := mappings_at res old_transition in
        for_each (terminals res) (λ terminal,
          make_nonambiguous_link terminal key new_transition [];; mret ()));;
      for_each (get_transitions pattern_root) (λ '(key, old_transition),
        let new_transition := mappings_at res old_transition in
        for_each cursors_before (λ terminal,
          make_nonambiguous_link terminal key new_transition [];; mret ()));;
      set_cursors (cursors_before ++ terminals res)
  end.

Definition match_many (pattern : StateMachine ()) : Build V () :=
  match_ pattern;; match_many_optionally pattern.

End Builder.

(** [exit_point(back_by)], for machines without a value type: one round
    of its loop over the cursors, then the call. *)
Definition exit_point_round (back_by_ : nat) (errors : list Diagnostic)
    (cur : nat) : Build () (list Diagnostic) :=
  node ← get_node cur;
  match value node with
  | Some v =>
      if decide (back_by v ≠ back_by_) then
        policy ← get_on_conflict;
        match policy with
        | Skip => mret errors
        | Overwrite =>
            update_node cur (λ node,
              mkNode (transitions node)
                (Some (mkValue (payload v) back_by_)));;
            mret errors
        | Error =>
            mret (errors ++ [back_by_conflict cur (back_by v) back_by_])
        end
      else mret errors
  | None =>
      update_node cur (λ node,
        mkNode (transitions node) (Some (mkValue () back_by_)));;
      mret errors
  end.

Definition exit_point (back_by_ : nat) : Build () () :=
  cs ← get_cursors;
  errors ← foldM (exit_point_round back_by_) cs [];
  if errors is [] then mret () else fail (conflict_panic errors).

(** ** The optimizer *)

Section Optimizer.
Context {V : Type} `{EqDecision V}.

(** Unchecked reads and writes of a local [std::vector]; [vec_read1]
    and [vec_write1] take the 1-based index [v] and touch [vec[v - 1]],
    which lies outside every vector when [v] is 0. *)
Definition vec_read {A} (vec : list A) (i : nat) : Build V A :=
  match vec !! i with
  | Some x => mret x
  | None => fail out_of_range
  end.

Definition vec_write {A} (vec : list A) (i : nat) (x : A)
  : Build V (list A) :=
  if decide (i < length vec) then mret (<[i := x]> vec) else fail out_of_range.

Definition vec_read1 {A} (vec : list A) (v : nat) : Build V A :=
  match v with
  | 0 => fail out_of_range
  | S i => vec_read vec i
  end.

Definition vec_write1 {A} (vec : list A) (v : nat) (x : A)
  : Build V (list A) :=
  match v with
  | 0 => fail out_of_range
  | S i => vec_write vec i x
  end.

(** [n.each_transition(f)] for a callback that reads and writes local
    variables [b] of the caller besides the child. *)
Definition each_transition_with {B}
    (f : B → Key_T.t → nat → Build V (B * nat)) (b : B) (n : Node_T V)
  : Build V (B * Node_T V) :=
  '(b', edges) ←
    foldM (λ '(b, edges) '(k, v),
      '(b', v') ← f b k v;
      mret (b', edges ++ [(k, v')]))
      (transitions n) (b, []);
  mret (b', mkNode (filter (λ e, e.2 ≠ 0) edges) (value n)).

(** The same on the node [m_nodes[i]] of the store. *)
Definition each_transition_at {B} (i : nat)
    (f : B → Key_T.t → nat → Build V (B * nat)) (b : B) : Build V B :=
  n ← store_read i;
  '(b', n') ← each_transition_with f b n;
  store_update i (λ _, n');;
  mret b'.

Fixpoint nullify_nullrefs_loop (rounds : nat) (nulls : list bool)
  : Build V () :=
  match rounds with
  | 0 => fail out_of_fuel
  | S rounds' =>
      sz ← size;
      '(nulls, has_nulled) ←
        foldM (λ '(nulls, has_nulled) i,
          skip ← vec_read nulls i;
          if (skip : bool) then mret (nulls, has_nulled)
          else
            each_transition_at i (λ _ k v,
              null ← vec_read1 nulls v;
              mret ((), if (null : bool) then 0 else v)) ();;
            deletable ← is_deletable_node (i + 1);
            if (deletable : bool) then
              nulls' ← vec_write nulls i true;
              mret (nulls', true)
            else mret (nulls, has_nulled))
          (seq 0 sz) (nulls, false);
      if (has_nulled : bool) then nullify_nullrefs_loop rounds' nulls
      else mret ()
  end.

Definition nullify_nullrefs : Build V () :=
  sz ← size;
  nulls ←
    foldM (λ nulls i,
      deletable ← is_deletable_node (i + 1);
      if (deletable : bool) then vec_write nulls i true else mret nulls)
      (seq 0 sz) (replicate sz false);
  nullify_nullrefs_loop (S sz) nulls.

(** The comparison of [node] (index [node_idx]) with [other] (index
    [other_idx]) in [remove_duplicates_once], once cursor state and
    value agree: it walks the transitions of [node]. *)
Definition transitions_equal (node : Node_T V) (node_idx : nat)
    (other : Node_T V) (other_idx : nat) : bool :=
  forallb (λ '(k, node_tzn),
    let other_tzn := transition other k in
    let node_tzn_is_self_referencing := bool_decide (node_tzn = node_idx) in
    let other_tzn_is_self_referencing := bool_decide (other_tzn = other_idx) in
    if node_tzn_is_self_referencing && other_tzn_is_self_referencing then true
    else bool_decide (node_tzn = other_tzn))
    (get_transitions node).

Definition remove_duplicates_once : Build V bool :=
  sz ← size;
  cs ← get_cursors;
  cursors_vec ←
    foldM (λ vec c, vec_write1 vec c true) cs (replicate sz false);
  '(cursors_vec, has_removed_dup) ←
    foldM (λ '(cursors_vec, has_removed_dup) node_idx,
      node ← store_read (node_idx - 1);
      node_cursor ← vec_read cursors_vec (node_idx - 1);
      if is_null node && negb node_cursor then
        mret (cursors_vec, has_removed_dup)
      else
        matchers ←
          foldM (λ matchers other_idx,
            other ← store_read (other_idx - 1);
            other_cursor ← vec_read cursors_vec (other_idx - 1);
            if is_null other && negb other_cursor then mret matchers
            else if negb (eqb other_cursor node_cursor) then mret matchers
            else if decide (value node ≠ value other) then mret matchers
            else if transitions_equal node node_idx other other_idx then
              mret (matchers ++ [other_idx])
            else mret matchers)
            (seq 2 (node_idx - 2)) [];
        if matchers is [] then mret (cursors_vec, has_removed_dup)
        else
          cursors_vec ←
            foldM (λ cursors_vec old_idx,
              let new_idx := node_idx in
              sz ← size;
              for_each (seq 0 sz) (λ i,
                store_update i (each_transition (λ k v,
                  if decide (v = old_idx) then new_idx else v)));;
              update_node old_idx nullify;;
              vec_write1 cursors_vec old_idx false)
              matchers cursors_vec;
          mret (cursors_vec, true))
      (reverse (seq 2 (sz - 1))) (cursors_vec, false);
  set_cursors
    (omap (λ '(i, c), if (c : bool) then Some i else None)
       (zip (seq 1 (length cursors_vec)) cursors_vec));;
  mret has_removed_dup.

Fixpoint remove_duplicates_loop (rounds : nat) : Build V () :=
  match rounds with
  | 0 => fail out_of_fuel
  | S rounds' =>
      again ← remove_duplicates_once;
      if (again : bool) then remove_duplicates_loop rounds' else mret ()
  end.

Definition remove_duplicates : Build V () :=
  sz ← size;
  remove_duplicates_loop (S sz).

Fixpoint nullify_orphans_loop (rounds : nat) (reachables : list bool)
  : Build V (list bool) :=
  match rounds with
  | 0 => fail out_of_fuel
  | S rounds' =>
      sz ← size;
      '(reachables, has_expanded) ←
        foldM (λ '(reachables, has_expanded) i,
          reachable ← vec_read reachables i;
          if (reachable : bool) then
            each_transition_at i (λ '(reachables, has_expanded) k t,
              seen ← vec_read1 reachables t;
              if (seen : bool) then mret (reachables, has_expanded, t)
              else
                reachables' ← vec_write1 reachables t true;
                mret (reachables', true, t))
              (reachables, has_expanded)
          else mret (reachables, has_expanded))
          (seq 0 sz) (reachables, false);
      if (has_expanded : bool) then nullify_orphans_loop rounds' reachables
      else mret reachables
  end.

Definition nullify_orphans : Build V () :=
  sz ← size;
  reachables ← vec_write (replicate sz false) 0 true;
  reachables ← nullify_orphans_loop (S sz) reachables;
  cs ← get_cursors;
  cs ←
    foldM (λ done c,
      reachable ← vec_read reachables c;
      mret (done ++ [if (reachable : bool) then c else 0]))
      cs [];
  set_cursors cs;;
  for_each (seq 0 sz) (λ i,
    reachable ← vec_read reachables i;
    if (reachable : bool) then mret () else store_update i nullify);;
  cs ← get_cursors;
  set_cursors (filter (λ c, c ≠ 0) cs).

Definition remove_blanks : Build V () :=
  sz ← size;
  mappings ← vec_write (replicate sz 0) 0 1;
  '(new_nodes, mappings, idx) ←
    foldM (λ '(new_nodes, mappings, idx) i,
      node ← store_read i;
      cursor_here ← has_cursor idx;
      if is_null node && negb (bool_decide (i + 1 = 1)) && negb cursor_here
      then mret (new_nodes, mappings, idx)
      else
        mappings' ← vec_write mappings i idx;
        mret (new_nodes ++ [node], mappings', idx + 1))
      (seq 0 sz) ([], mappings, 1);
  new_nodes ←
    foldM (λ done n,
      '(_, n') ← each_transition_with (λ _ key t,
                   if decide (t ≠ 0) then
                     t' ← vec_read1 mappings t; mret ((), t')
                   else mret ((), t)) () n;
      mret (done ++ [n']))
      new_nodes [];
  cs ← get_cursors;
  new_cursors ←
    foldM (λ done c, mapped ← vec_read1 mappings c; mret (done ++ [mapped]))
      cs [];
  set_cursors new_cursors;;
  set_nodes new_nodes.

Definition optimize : Build V () :=
  nullify_nullrefs;;
  remove_duplicates;;
  nullify_nullrefs;;
  remove_duplicates;;
  nullify_orphans;;
  remove_blanks.

End Optimizer.

(** ** Reference notions the properties are stated against *)

(** Store invariant: the root exists and every child reference lies
    within the store. *)
Definition store_wf {V} (nodes : list (Node_T V)) : Prop :=
  nodes ≠ [] ∧
  Forall (λ n, Forall (λ e, e.2 ≤ length nodes) (transitions n)) nodes.

(** The greedy longest-match scan as the specification words it.  A
    configuration is the position in the input, the node the scan
    stands on, the accepting node recorded so far with the end it was
    recorded at, and the start of the attempted match. *)
Record greedy_config := mkGreedy {
  pos : nat;
  at_node : nat;
  recorded : option (nat * nat);
  attempt_begin : nat
}.

Section Greedy.
Context {V : Type}.
Variable nodes : list (Node_T V).
Variable input : list Z.

(** The child taken on symbol [c]: the concrete key first, else the
    default edge; 0 is a dead end. *)
Definition greedy_child (node : Node_T V) (c : Z) (child : nat) : Prop :=
  (transition node (Key_T.value c) = child ∧ child ≠ 0) ∨
  (transition node (Key_T.value c) = 0 ∧ transition node Key_T.deflt = child).

Inductive greedy_step : greedy_config → greedy_config → Prop :=
| greedy_advance i cur rec b c node child reached :
    input !! i = Some c →
    nodes !! (cur - 1) = Some node →
    greedy_child node c child → child ≠ 0 →
    nodes !! (child - 1) = Some reached →
    value reached = None →
    greedy_step (mkGreedy i cur rec b) (mkGreedy (S i) child rec b)
| greedy_record i cur rec b c node child reached v :
    input !! i = Some c →
    nodes !! (cur - 1) = Some node →
    greedy_child node c child → child ≠ 0 →
    nodes !! (child - 1) = Some reached →
    value reached = Some v →
    greedy_step (mkGreedy i cur rec b)
      (mkGreedy (S i) child (Some (child, S i)) b)
| greedy_restart i cur b c node :
    input !! i = Some c →
    nodes !! (cur - 1) = Some node →
    greedy_child node c 0 →
    greedy_step (mkGreedy i cur None b) (mkGreedy (S i) 1 None (S i)).

(** The scan is over at the end of the input, and at a dead end once a
    match has been recorded. *)
Definition greedy_halted (cfg : greedy_config) : Prop :=
  input !! pos cfg = None ∨
  ∃ c node, input !! pos cfg = Some c ∧
    nodes !! (at_node cfg - 1) = Some node ∧
    greedy_child node c 0 ∧ is_Some (recorded cfg).



End Greedy.

(** ** Example machines *)

(** Builder calls on machines without a value type, with the byte
    alphabet; 64 levels for the recursion of [make_nonambiguous_link]. *)
Definition built (calls : Build () ()) : StateMachine () :=
  match calls new_machine with
  | Ok _ s => s
  | Fail _ => new_machine
  end.

(** Accepts "if" and "ifdef". *)
Definition if_ifdef_machine : StateMachine () :=
  built (match_sequence false 64 [105; 102]%Z;; exit_point 0;; root;;
         match_sequence false 64 [105; 102; 100; 101; 102]%Z;; exit_point 0).

(** ** Reference notions for malformed input *)

(** Where the validator, run over the whole of [input] from position
    [i] with [count] continuation bytes pending, first objects: the
    position of the offending byte with the error, the length of the
    input for a sequence cut short by its end. *)
Fixpoint utf8_error_from (count i : nat) (input : list Z)
  : option (nat * utf_validator.Error) :=
  match input with
  | [] =>
      if decide (utf_validator.final count ≠ utf_validator.None)
      then Some (i, utf_validator.final count) else None
  | c :: rest =>
      let '(e, count') := utf_validator.next count c in
      if decide (e ≠ utf_validator.None) then Some (i, e)
      else utf8_error_from count' (S i) rest
  end.

Definition utf8_malformation (input : list Z)
  : option (nat * utf_validator.Error) :=
  utf8_error_from 0 0 input.

(** Following transitions from node [cur] over [bytes] without meeting
    a dead end: the node reached. *)
Fixpoint walk {V} (nodes : list (Node_T V)) (cur : nat) (bytes : list Z)
  : option nat :=
  match bytes with
  | [] => Some cur
  | c :: rest =>
      match nodes !! (cur - 1) with
      | None => None
      | Some node =>
          if decide (rt_get_transition node c = 0) then None
          else walk nodes (rt_get_transition node c) rest
      end
  end.

(** Accepts "a", built in UTF-8 mode. *)
Definition utf8_a_machine : StateMachine () :=
  built (match_any_of true 64 [97]%Z;; exit_point 0).

(** Accepts "foo" and reports it with the whole match given back
    ([back_by] 3). *)
Definition foo_back3_machine : StateMachine () :=
  built (match_sequence false 64 [102; 111; 111]%Z;; exit_point 3).

(** Accepts "foo", reported without its last byte ([back_by] 1). *)
Definition foo_back1_machine : StateMachine () :=
  built (match_sequence false 64 [102; 111; 111]%Z;; exit_point 1).

(** Accepts "b" and "bc"; the cursor is back on the root. *)
Definition b_bc_machine : StateMachine () :=
  built (match_any_of false 64 [98]%Z;; exit_point 0;;
         match_any_of false 64 [99]%Z;; exit_point 0;; root).

(** A path on "a" left without an accept, then "b" accepted from the
    root; the cursor is back on the root. *)
Definition a_dead_b_machine : StateMachine () :=
  built (match_any_of false 64 [97]%Z;; root;;
         match_any_of false 64 [98]%Z;; exit_point 0;; root).

(** The pattern "a" given twice as an alternative, accepted, followed
    by "b"; and a machine that splices it in with [match]. *)
Definition aa_b_pattern : StateMachine () :=
  built (match_any_of false 64 [97; 97]%Z;; exit_point 0;;
         match_any_of false 64 [98]%Z).

Definition spliced_machine : StateMachine () :=
  built (match_ 64 aa_b_pattern).

(** ** Reference notions for the UTF-8 branch of the builder *)





(** ** Reference notions for conflicts *)

(** Every cursor is the index of a node of the store. *)
Definition cursors_in_store {V} (s : StateMachine V) : Prop :=
  Forall (λ c, 1 ≤ c ≤ length (m_nodes s)) (cursors s).

(** The collision [exit_point(back_by)] meets at cursor [cur]: the node
    accepts already, with another [back_by]. *)
Definition back_by_collision (nodes : list (Node_T ())) (b cur : nat)
  : option Diagnostic :=
  match nodes !! (cur - 1) with
  | Some node =>
      match value node with
      | Some v =>
          if decide (back_by v ≠ b) then
            Some (back_by_conflict cur (back_by v) b)
          else None
      | None => None
      end
  | None => None
  end.

(** [s'] is [s] up to accept records: same size, cursors, policy and
    transitions, and each accept record either as it was or made by
    [exit_point(b)]. *)
Definition marked (b : nat) (s s' : StateMachine ()) : Prop :=
  length (m_nodes s') = length (m_nodes s) ∧
  cursors s' = cursors s ∧ on_conflict s' = on_conflict s ∧
  ∀ i n, m_nodes s !! i = Some n →
    ∃ n', m_nodes s' !! i = Some n' ∧ transitions n' = transitions n ∧
      (value n' = value n ∨ value n' = Some (mkValue () b)).

(** Every accept record of [s] is still there in [s']. *)
Definition accepts_kept (s s' : StateMachine ()) : Prop :=
  ∀ i n v, m_nodes s !! i = Some n → value n = Some v →
    ∃ n', m_nodes s' !! i = Some n' ∧ value n' = Some v.

(** Node [c] accepts with [back_by] equal to [b]. *)
Definition accepts_with (b : nat) (s : StateMachine ()) (c : nat) : Prop :=
  ∃ n v, m_nodes s !! (c - 1) = Some n ∧ value n = Some v ∧ back_by v = b.

(** An accepting path "a", "ax" and an accepting default path with an
    accepting child on 'x', all four accepts with different [back_by];
    the cursor is back on the root and the policy is set last.  A
    further [match_any_of({'a'})] fuses the 'a' branch with the default
    branch and meets two value collisions. *)
Definition two_collisions_machine (policy : ConflictAction)
  : StateMachine () :=
  built (match_any_of false 64 [97]%Z;; exit_point 2;;
         match_any_of false 64 [120]%Z;; exit_point 4;; root;;
         match_default;; exit_point 1;;
         match_any_of false 64 [120]%Z;; exit_point 3;; root;;
         conflict policy).

(** ** Notions used in the proofs *)

(** The locals of [find] read as a configuration of the greedy scan,
    and what holds of them throughout the loop. *)
Definition config_of (i : nat) (st : find_state) : greedy_config :=
  mkGreedy i (current_node st)
    (if decide (most_specific_matched_node st = 0) then None
     else Some (most_specific_matched_node st, match_end st))
    (match_begin st).

Definition find_state_ok {V} (nodes : list (Node_T V)) (st : find_state)
  : Prop :=
  (1 ≤ current_node st ≤ length nodes) ∧
  (most_specific_matched_node st ≠ 0 →
   ∃ node v, nodes !! (most_specific_matched_node st - 1) = Some node ∧
     value node = Some v).

(** [keeps P F n m Q]: run from a machine that satisfies [P] and holds
    at least [n] nodes, the call [m] either fails in a way [F] allows,
    or returns a machine that satisfies [P] again and holds no fewer
    nodes than before, with a value that satisfies [Q] at the number of
    nodes now held. *)
Definition keeps {V A} (P : StateMachine V → Prop) (F : Failure → Prop)
    (n : nat) (m : Build V A) (Q : A → nat → Prop) : Prop :=
  ∀ s, P s → n ≤ length (m_nodes s) →
    match m s with
    | Ok a s' =>
        P s' ∧ length (m_nodes s) ≤ length (m_nodes s') ∧
        Q a (length (m_nodes s'))
    | Fail e => F e
    end.

(** What a failure under policy [p] may be: a conflict panic only under
    [Error], and then with a single diagnostic. *)
Definition single_conflict (p : ConflictAction) (e : Failure) : Prop :=
  ∀ ds, e = conflict_panic ds → p = Error ∧ ∃ d, ds = [d].

(** [s] against the nodes [N0], cursors [C0] and policy [p0] of an
    earlier machine: cursors and policy are the same, every node of
    [N0] but the one at position [X] is as it was, and that one differs
    at most in its child under [key]. *)
Definition frame {V} (N0 : list (Node_T V)) (X : nat) (key : Key_T.t)
    (C0 : list nat) (p0 : ConflictAction) (s : StateMachine V) : Prop :=
  cursors s = C0 ∧ on_conflict s = p0 ∧
  (∀ i, i < length N0 → i ≠ X → m_nodes s !! i = N0 !! i) ∧
  (∀ n0, N0 !! X = Some n0 →
     ∃ n, m_nodes s !! X = Some n ∧ value n = value n0 ∧
       ∀ k, k ≠ key → transition n k = transition n0 k).

(** Node [b] is a child of node [a]; reachability is its reflexive and
    transitive closure. *)
Definition edge {V} (nodes : list (Node_T V)) (a b : nat) : Prop :=
  ∃ node k, 1 ≤ a ∧ nodes !! (a - 1) = Some node ∧
    transition node k = b ∧ b ≠ 0.

(** The machine accepting "b", its cursor on the accepting node. *)
Definition b_machine : StateMachine () :=
  built (match_any_of false 64 [98]%Z;; exit_point 0).

(** The node store a builder call leaves, empty if the call fails. *)
Definition nodes_after {V A} (o : Outcome V A) : list (Node_T V) :=
  match o with
  | Ok _ s => m_nodes s
  | Fail _ => []
  end.

(** No edge of [node] points at [t]; and the machine [s] has left node
    [t] alone: it is in the store, as constructed, no node points at it
    and no cursor stands on it. *)
Definition avoids {V} (t : nat) (node : Node_T V) : Prop :=
  Forall (λ e, e.2 ≠ t) (transitions node).

Definition untouched {V} (t : nat) (s : StateMachine V) : Prop :=
  1 ≤ t ≤ length (m_nodes s) ∧
  m_nodes s !! (t - 1) = Some empty_node ∧
  (∀ i node, m_nodes s !! i = Some node → avoids t node) ∧
  Forall (λ c, c ≠ t) (cursors s).

(** The machine accepting "a", its cursor back on the root. *)
Definition a_root_machine : StateMachine () :=
  built (match_any_of false 64 [97]%Z;; exit_point 0;; root).

(** The default child of node [c], and what [match_default] makes of it
    when it installs [d]: the collision it reports under [Error], the
    cursor it keeps under [Skip], the default child it leaves. *)
Definition default_at {V} (nodes : list (Node_T V)) (c : nat) : nat :=
  match nodes !! (c - 1) with
  | Some n => def n
  | None => 0
  end.

Definition default_collision {V} (p : ConflictAction)
    (nodes : list (Node_T V)) (d c : nat) : option Diagnostic :=
  if decide (p = Error ∧ default_at nodes c ≠ 0) then
    Some (default_conflict c (default_at nodes c) d)
  else None.

Definition default_skipped {V} (p : ConflictAction)
    (nodes : list (Node_T V)) (c : nat) : option nat :=
  if decide (p = Skip ∧ default_at nodes c ≠ 0) then
    Some (default_at nodes c)
  else None.

Definition default_left {V} (p : ConflictAction) (nodes : list (Node_T V))
    (d c : nat) : nat :=
  if decide (p = Overwrite ∨ default_at nodes c = 0) then d
  else default_at nodes c.

(** The default child a round of [match_default] finds at cursor [c]:
    what the store had when the call began or, when an earlier round
    has been at [c], what that round left.  The rounds of the call over
    the cursors [cs], each with its cursor and the default child it
    finds, [seen] being the cursors of the rounds before; the collision
    a round reports under [Error] and the cursor it keeps under
    [Skip]. *)
Definition default_found {V} (p : ConflictAction) (nodes : list (Node_T V))
    (d : nat) (seen : list nat) (c : nat) : nat :=
  if decide (c ∈ seen) then default_left p nodes d c else default_at nodes c.

Fixpoint default_rounds {V} (p : ConflictAction) (nodes : list (Node_T V))
    (d : nat) (seen cs : list nat) : list (nat * nat) :=
  match cs with
  | [] => []
  | c :: cs' =>
      (c, default_found p nodes d seen c) ::
      default_rounds p nodes d (c :: seen) cs'
  end.

Definition round_collision (p : ConflictAction) (d : nat) (round : nat * nat)
  : option Diagnostic :=
  if decide (p = Error ∧ round.2 ≠ 0) then
    Some (default_conflict round.1 round.2 d)
  else None.

Definition round_skipped (p : ConflictAction) (round : nat * nat)
  : option nat :=
  if decide (p = Skip ∧ round.2 ≠ 0) then Some round.2 else None.

(** An accepting root ([back_by] 1) with a default edge to an accepting
    node; the cursor is back on the root. *)
Definition default_machine (policy : ConflictAction) : StateMachine () :=
  built (exit_point 1;; match_default;; exit_point 0;; root;;
         conflict policy).

(** ** Reference notions for [make_nonambiguous_link] *)

(** The accept record of the node [make_nonambiguous_link] creates in
    place of a node with the record [existing], for a link to a node
    with the record [linked]. *)
Definition merged_value {V} (p : ConflictAction)
    (existing linked : option (Value_T V)) : option (Value_T V) :=
  match linked, existing with
  | None, _ => existing
  | Some _, None => linked
  | Some _, Some _ => if decide (p = Overwrite) then linked else existing
  end.

(** A node created by [make_nonambiguous_link], with the variables of
    the call that created it: its own index [nidx], the node found in
    place of which it is a copy ([current_target]), the arguments
    [from], [transition] and [to] of the call, and the accept records
    the call read from the copy and from [to] before merging them. *)
Record Clone (V : Type) := mkClone {
  clone_index : nat;
  clone_of : nat;
  clone_from : nat;
  clone_key : Key_T.t;
  clone_for : nat;
  clone_existing : option (Value_T V);
  clone_linked : option (Value_T V)
}.
Arguments mkClone {V} _ _ _ _ _ _ _.
Arguments clone_index {V} _.
Arguments clone_of {V} _.
Arguments clone_from {V} _.
Arguments clone_key {V} _.
Arguments clone_for {V} _.
Arguments clone_existing {V} _.
Arguments clone_linked {V} _.

(** The list [make_nonambiguous_link] returns, read off the record of
    the nodes it creates: the indices of those created while [to] or
    [current_target] was among [watch]. *)
Definition stand_ins {V} (watch : list nat) (log : list (Clone V))
  : list nat :=
  map clone_index
    (filter (λ c, clone_for c ∈ watch ∨ clone_of c ∈ watch) log).

(** An outcome with its result mapped. *)
Definition outcome_map {V A B} (f : A → B) (o : Outcome V A) : Outcome V B :=
  match o with
  | Ok a s => Ok (f a) s
  | Fail e => Fail e
  end.

(** The accept records of the first [L] nodes of [N] are those of the
    nodes at the same places in [N']. *)
Definition kept {V} (L : nat) (N N' : list (Node_T V)) : Prop :=
  ∀ i n, i < L → N !! i = Some n →
    ∃ n', N' !! i = Some n' ∧ value n' = value n.

(** In the store [nodes], the node recorded by [c] carries the two
    accept records its call read, merged under the policy [p]; and
    these are the records of the node copied and of the node linked to. *)
Definition stand_in_of {V} (p : ConflictAction) (nodes : list (Node_T V))
    (c : Clone V) : Prop :=
  (∃ n, nodes !! (clone_index c - 1) = Some n ∧
     value n = merged_value p (clone_existing c) (clone_linked c)) ∧
  (clone_of c ≠ clone_index c →
   ∃ n, nodes !! (clone_of c - 1) = Some n ∧ value n = clone_existing c) ∧
  (clone_for c ≠ clone_index c →
   ∃ n, nodes !! (clone_for c - 1) = Some n ∧ value n = clone_linked c).

Section LinkLog.
Context {V : Type}.

(** [make_nonambiguous_link(from, transition, to, watch_nodes)] with
    the list it returns replaced by a record of every node it creates.
    The code is that of [make_nonambiguous_link_rec] but for two places:
    where that pushes [nidx] to [tracked_nodes] if [to] or
    [current_target] is watched, this records the new node in any case,
    with the variables of the call; and the lists appended from the
    recursive calls are these records.  The call itself is this one
    with the record filtered by [watch_nodes], as
    [make_nonambiguous_link_by_log] shows. *)
Fixpoint make_nonambiguous_link_log (depth : nat) (from : nat)
    (transition_ : Key_T.t) (to : nat) : Build V (list (Clone V)) :=
  match depth with
  | 0 => fail out_of_fuel
  | S depth' =>
      if decide (to = 0) then fail (assertion_failed link_to_null_node)
      else if decide (from = 0) then
        fail (assertion_failed link_from_null_node)
      else
        from_node ← get_node from;
        let current_target := transition from_node transition_ in
        if decide (current_target = 0) then
          update_node from (set_transition transition_ to);;
          mret []
        else if decide (current_target = to) then mret []
        else
          nidx ← new_node;
          target_node ← get_node current_target;
          update_node nidx (λ _, target_node);;
          update_node nidx (each_transition (λ k v,
            if decide (v = current_target) then nidx else v));;
          to_node ← get_node to;
          node ← get_node nidx;
          let created :=
            [mkClone nidx current_target from transition_ to
               (value node) (value to_node)] in
          (if value to_node is Some _ then
             if value node is Some _ then
               policy ← get_on_conflict;
               match policy with
               | Error =>
                   fail (conflict_panic [value_conflict from to transition_])
               | Skip => mret ()
               | Overwrite =>
                   update_node nidx (λ node,
                     mkNode (transitions node) (value to_node))
               end
             else
               update_node nidx (λ node,
                 mkNode (transitions node) (value to_node))
           else mret ());;
          to_node ← get_node to;
          created ←
            foldM (λ created '(key, reference),
              node ← get_node nidx;
              let node_transition := transition node key in
              if decide (node_transition = nidx ∧ reference = 0) then
                update_node nidx (set_transition key current_target);;
                mret created
              else if decide (reference = to ∧ node_transition = 0) then
                update_node nidx (set_transition key current_target);;
                mret created
              else if decide (reference = to ∧ node_transition = nidx) then
                mret created
              else if decide (reference = 0) then mret created
              else
                res ← make_nonambiguous_link_log depth' nidx key reference;
                mret (created ++ res))
              (get_transitions to_node) created;
          update_node from (set_transition transition_ nidx);;
          mret created
  end.

End LinkLog.

(** The machine [s] under the policy [p]: [s] after [conflict(p)]. *)
Definition with_policy {V} (p : ConflictAction) (s : StateMachine V)
  : StateMachine V :=
  mkMachine (m_nodes s) p (cursors s).

(** The nodes among [log] created for two nodes that both carry an
    accept record: the value collisions of the call. *)
Definition collisions {V} (log : list (Clone V)) : list (Clone V) :=
  filter (λ c, is_Some (clone_existing c) ∧ is_Some (clone_linked c)) log.

(** How the outcome [under_error] of a call relates to the outcome
    [under_skip] of the same call on the same machine: it panics at the
    first collision the latter goes through, and is the same without. *)
Definition stops_at_first_collision {V}
    (under_skip under_error : Outcome V (list (Clone V))) : Prop :=
  match under_skip with
  | Ok log s' =>
      match collisions log with
      | [] => under_error = Ok log (with_policy Error s')
      | c :: _ =>
          under_error =
            Fail (conflict_panic
                    [value_conflict (clone_from c) (clone_for c) (clone_key c)])
      end
  | Fail _ => ∃ e, under_error = Fail e
  end.

(** ** Reference notions for the further properties *)

(** The accept record of node [n], and its child under the
    end-of-input key. *)
Definition accept_at {V} (nodes : list (Node_T V)) (n : nat)
  : option (Value_T V) :=
  node ← nodes !! (n - 1); value node.

Definition eof_child {V} (nodes : list (Node_T V)) (n : nat) : option nat :=
  node ← nodes !! (n - 1);
  if decide (get_eof node = 0) then None else Some (get_eof node).

(** A byte below 128, a continuation byte (0b10xxxxxx) and a header
    byte (0b11xxxxxx), as unsigned values. *)
Definition is_ascii (c : Z) : Prop := (0 ≤ c < 128)%Z.
Definition is_continuation (c : Z) : Prop := (128 ≤ c < 192)%Z.
Definition is_header (c : Z) : Prop := (192 ≤ c < 256)%Z.

(** One unit of input the validator takes as a whole: an ASCII byte, or
    a header byte with as many continuation bytes as its leading ones
    announce. *)
Definition utf8_unit (bytes : list Z) : Prop :=
  (∃ c, bytes = [c] ∧ is_ascii c) ∨
  (∃ h conts, bytes = h :: conts ∧ is_header h ∧
     S (length conts) = utf_validator.countl_one h ∧
     Forall is_continuation conts).

(** The bytes of [input] from position [b] up to position [m]. *)
Definition segment (input : list Z) (b m : nat) : list Z :=
  take (m - b) (drop b input).

(** What holds of the locals of [find] before round [i]: the scan
    stands on the node the bytes since [match_begin] lead to, and the
    node recorded, if any, is an accepting node that a non-empty
    prefix of those bytes leads to, ending at [match_end]. *)
Definition find_state_sound {V} (nodes : list (Node_T V)) (input : list Z)
    (i : nat) (st : find_state) : Prop :=
  match_begin st ≤ i ∧
  walk nodes 1 (segment input (match_begin st) i) = Some (current_node st) ∧
  (most_specific_matched_node st ≠ 0 →
   match_begin st < match_end st ≤ i ∧
   walk nodes 1 (segment input (match_begin st) (match_end st)) =
     Some (most_specific_matched_node st) ∧
   is_Some (accept_at nodes (most_specific_matched_node st))).

(** No accept record of the store gives bytes of the match back. *)
Definition no_give_back {V} (nodes : list (Node_T V)) : Prop :=
  Forall (λ n, ∀ v, value n = Some v → back_by v = 0) nodes.

(** The two ends of a match, and a list of spans that follow one
    another from [from] on, each non-empty and ending before [len]. *)
Definition result_span {V} (r : @find_result V) : option (Z * Z) :=
  match r with
  | find_match b e _ => Some (b, e)
  | _ => None
  end.

Fixpoint spans_chained (from len : Z) (spans : list (Z * Z)) : Prop :=
  match spans with
  | [] => True
  | (b, e) :: rest =>
      (from ≤ b < e)%Z ∧ (e < len)%Z ∧ spans_chained e len rest
  end.

(** Cursor [c] needs nothing more from [exit_point(b)] under policy
    [p]: its node accepts already, with [back_by] equal to [b], or with
    another one that [Skip] leaves alone. *)
Definition settled (b : nat) (p : ConflictAction) (nodes : list (Node_T ()))
    (c : nat) : Prop :=
  1 ≤ c ∧
  ∃ n v, nodes !! (c - 1) = Some n ∧ value n = Some v ∧
    (back_by v = b ∨ p = Skip).

(** What is left of [input] behind the prefix [w], if it begins with
    [w]. *)
Fixpoint after_prefix (w input : list Z) : option (list Z) :=
  match w with
  | [] => Some input
  | x :: w' =>
      match input with
      | [] => None
      | y :: rest => if decide (y = x) then after_prefix w' rest else None
      end
  end.

(** What [matches] makes of the node [n] its walk ends on: with
    [INCLUDE_EOF] the accept record of the child under the
    end-of-input key, else that of [n]. *)
Definition verdict {V} (include_eof : bool) (nodes : list (Node_T V))
    (n : nat) : option (Value_T V) :=
  n' ← (if include_eof then eof_child nodes n else Some n);
  accept_at nodes n'.

(** The locals of [find] once the scan has stepped onto node [n], the
    byte before position [i] consumed. *)
Definition entered {V} (nodes : list (Node_T V)) (n i : nat)
    (st : find_state) : find_state :=
  if accept_at nodes n is Some _ then
    mkFind n n (match_begin st) i (uv_count st)
  else
    mkFind n (most_specific_matched_node st) (match_begin st) (match_end st)
      (uv_count st).

(** The node [n] with an edge to each of the nodes [t], [t + 1], ...
    under the keys [keys], in this order. *)
Fixpoint add_edges {V} (keys : list Z) (t : nat) (n : Node_T V) : Node_T V :=
  match keys with
  | [] => n
  | x :: keys' => add_edges keys' (S t) (set_transition (Key_T.value x) t n)
  end.

(** The node [n] made accepting by [exit_point(b)]. *)
Definition accepting (b : nat) (n : Node_T ()) : Node_T () :=
  mkNode (transitions n) (Some (mkValue () b)).

(** A node store in the form the builder keeps: it holds a root, and
    no node has two edges under one key or an edge to the null
    reference. *)
Definition node_normal {V} (n : Node_T V) : Prop :=
  NoDup (transitions n).*1 ∧ Forall (λ e, e.2 ≠ 0) (transitions n).

Definition pattern_normal {V} (nodes : list (Node_T V)) : Prop :=
  nodes ≠ [] ∧ Forall node_normal nodes.

(** The indices of the accepting nodes among [rest], the first of which
    has index [start]. *)
Definition accepting_indices {V} (start : nat) (rest : list (Node_T V))
  : list nat :=
  omap (λ '(idx, node), if value node is Some _ then Some idx else None)
    (zip (seq start (length rest)) rest).

(** The edges of a node moved up by [offset], without its accept
    record. *)
Definition shifted {V W} (offset : nat) (n : Node_T V) : Node_T W :=
  mkNode (map (λ e, (e.1, e.2 + offset)) (transitions n)) None.

(** A machine under construction is well formed when its store is and
    every cursor is the index of a node. *)
Definition machine_wf {V} (s : StateMachine V) : Prop :=
  store_wf (m_nodes s) ∧ cursors_in_store s.

(** The calls of the public builder surface, on a machine without a
    value type, and a run of them. *)
Inductive Call :=
| call_root
| call_conflict (ca : ConflictAction)
| call_match_default
| call_match_eof
| call_match_sequence (seq : list Z)
| call_match_any_of (options : list Z)
| call_match (pattern : StateMachine ())
| call_match_many (pattern : StateMachine ())
| call_match_many_optionally (pattern : StateMachine ())
| call_exit_point (back_by_ : nat).

Definition run_call (utf8 : bool) (fuel : nat) (c : Call) : Build () () :=
  match c with
  | call_root => root
  | call_conflict ca => conflict ca
  | call_match_default => match_default
  | call_match_eof => match_eof
  | call_match_sequence seq => match_sequence utf8 fuel seq
  | call_match_any_of options => match_any_of utf8 fuel options
  | call_match pattern => match_ fuel pattern
  | call_match_many pattern => match_many fuel pattern
  | call_match_many_optionally pattern => match_many_optionally fuel pattern
  | call_exit_point b => exit_point b
  end.

Definition run_calls (utf8 : bool) (fuel : nat) (calls : list Call)
  : Build () () :=
  for_each calls (run_call utf8 fuel).

(** The pattern a call splices in, if any, is well formed. *)
Definition call_wf (c : Call) : Prop :=
  match c with
  | call_match pattern | call_match_many pattern
  | call_match_many_optionally pattern => store_wf (m_nodes pattern)
  | _ => True
  end.

(** No node stores an edge to the null reference. *)
Definition no_null_edges {V} (nodes : list (Node_T V)) : Prop :=
  Forall (λ n, Forall (λ e, e.2 ≠ 0) (transitions n)) nodes.

(** A vector of flags, one per node, that marks the root and, with a
    node, every node it has an edge to. *)
Definition marks_reachable {V} (nodes : list (Node_T V)) (flags : list bool)
  : Prop :=
  length flags = length nodes ∧ flags !! 0 = Some true ∧
  ∀ i node e, flags !! i = Some true → nodes !! i = Some node →
    e ∈ transitions node → flags !! (e.2 - 1) = Some true.

(** The flags set in [flags] are set in [flags'], of the same length. *)
Definition flags_grow (flags flags' : list bool) : Prop :=
  length flags' = length flags ∧
  ∀ i, flags !! i = Some true → flags' !! i = Some true.

(** The nodes that edges lead to from the root, by index. *)
Inductive reachable {V} (nodes : list (Node_T V)) : nat → Prop :=
| reachable_root : reachable nodes 1
| reachable_child index node e :
    reachable nodes index → nodes !! (index - 1) = Some node →
    e ∈ transitions node → e.2 ≠ 0 → reachable nodes e.2.

(** Every flag set is that of a reachable node. *)
Definition flags_sound {V} (nodes : list (Node_T V)) (flags : list bool)
  : Prop :=
  ∀ i, flags !! i = Some true → reachable nodes (S i).

(** The child of node [c] under [key], 0 when it has none. *)
Definition child_at {V} (nodes : list (Node_T V)) (key : Key_T.t) (c : nat)
  : nat :=
  match nodes !! (c - 1) with
  | Some n => transition n key
  | None => 0
  end.
(** * Properties *)

(** Closed facts are settled by evaluating the model. *)
Ltac by_evaluation :=
  repeat (lazymatch goal with |- _ ∧ _ => split end);
  vm_compute; reflexivity.

(** ** Runtime *)

(** C10. On the empty input and without the end-of-input step,
    [matches] hands back the accept record of the root: it succeeds
    exactly when the root carries one, and it never reports a UTF-8
    error. *)
Theorem matches_empty_input {V} (utf8 : bool) (mode : MatchErrorMode)
    (root_node : Node_T V) (others : list (Node_T V)) :
  matches utf8 mode false (root_node :: others) [] =
    match_value (value root_node) ∧
  (success (matches utf8 mode false (root_node :: others) []) = true ↔
   is_Some (value root_node)).
Proof.
  assert (E : matches utf8 mode false (root_node :: others) [] =
              match_value (value root_node)).
  { unfold matches; simpl. destruct utf8; reflexivity. }
  split; [exact E|]. rewrite E. simpl.
  destruct (value root_node); split; intros H; done.
Qed.

(** *** [find] and the greedy scan *)

Lemma assoc_get_elem k l : assoc_get k l ≠ 0 → (k, assoc_get k l) ∈ l.
Proof.
  induction l as [|[k' v] l IH]; simpl; [done|].
  destruct (decide (k' = k)) as [->|]; intros H.
  - apply list_elem_of_here.
  - apply list_elem_of_further, IH, H.
Qed.

Lemma drop_lookup_head {A} (l : list A) i x rest :
  drop i l = x :: rest → l !! i = Some x ∧ drop (S i) l = rest.
Proof.
  intros H. split.
  - rewrite <- (Nat.add_0_r i), <- lookup_drop, H. done.
  - replace (S i) with (i + 1) by lia. by rewrite <- drop_drop, H.
Qed.

Section GreedyFacts.
Context {V : Type}.
Variable nodes : list (Node_T V).
Variable input : list Z.

Lemma rt_get_transition_child (node : Node_T V) c :
  greedy_child node c (rt_get_transition node c).
Proof.
  unfold greedy_child, rt_get_transition, def.
  destruct (decide (transition node (Key_T.value c) = 0)); [by right|by left].
Qed.

Lemma greedy_child_functional (node : Node_T V) c a b :
  greedy_child node c a → greedy_child node c b → a = b.
Proof. unfold greedy_child. intros [[]|[]] [[]|[]]; congruence. Qed.

Lemma transition_within_store i (node : Node_T V) k :
  store_wf nodes → nodes !! i = Some node →
  transition node k ≤ length nodes.
Proof.
  intros [_ Hwf] Hn. unfold transition.
  destruct (decide (assoc_get k (transitions node) = 0)) as [->|Hne]; [lia|].
  apply assoc_get_elem in Hne.
  rewrite Forall_forall in Hwf.
  specialize (Hwf node (list_elem_of_lookup_2 _ _ _ Hn)).
  rewrite Forall_forall in Hwf. apply (Hwf _ Hne).
Qed.

Lemma rt_get_transition_within_store i (node : Node_T V) c :
  store_wf nodes → nodes !! i = Some node →
  rt_get_transition node c ≤ length nodes.
Proof.
  intros Hwf Hn. unfold rt_get_transition, def.
  destruct (decide _); eapply transition_within_store; eauto.
Qed.

(** One round of the loop of [find]: an error of the validator, a step
    of the scan, or the [break]. *)
Lemma find_loop_round (utf8 : bool) mode c rest i st :
  store_wf nodes → input !! i = Some c → find_state_ok nodes st →
  let uv : utf_validator.Error * nat :=
    if utf8 then utf_validator.next (uv_count st) c
    else (utf_validator.None, uv_count st) in
  if decide (uv.1 ≠ utf_validator.None) then
    find_loop utf8 mode nodes (c :: rest) i st = inl (find_err mode uv.1)
  else
    (∃ st', greedy_step nodes input (config_of i st) (config_of (S i) st') ∧
       find_state_ok nodes st' ∧ uv_count st' = uv.2 ∧
       find_loop utf8 mode nodes (c :: rest) i st =
         find_loop utf8 mode nodes rest (S i) st') ∨
    (greedy_halted nodes input (config_of i st) ∧
     ∃ st', find_loop utf8 mode nodes (c :: rest) i st = inr st' ∧
       config_of i st' = config_of i st ∧ find_state_ok nodes st' ∧
       uv_count st' = uv.2).
Proof.
  intros Hwf Hc [Hcur Hms]. simpl.
  destruct (lookup_lt_is_Some_2 nodes (current_node st - 1))
    as [node Hnode]; [lia|].
  rewrite Hnode.
  destruct (if utf8 then utf_validator.next (uv_count st) c
            else (utf_validator.None, uv_count st)) as [error count]; simpl.
  destruct (decide (error ≠ utf_validator.None)) as [Herr|Herr]; [done|].
  pose proof (rt_get_transition_child node c) as Hchild.
  pose proof (rt_get_transition_within_store _ node c Hwf Hnode) as Hle.
  destruct (decide (rt_get_transition node c ≠ 0)) as [Hloc|Hloc].
  - destruct (lookup_lt_is_Some_2 nodes (rt_get_transition node c - 1))
      as [reached Hreached]; [lia|].
    rewrite Hreached. left.
    destruct (value reached) as [v|] eqn:Hv.
    + eexists. split; [|split; [|split; [|reflexivity]]].
      * unfold config_of; simpl.
        destruct (decide (rt_get_transition node c = 0)) as [?|_]; [done|].
        replace (i + 1) with (S i) by lia.
        eapply greedy_record; eauto.
      * split; simpl; [lia|eauto].
      * done.
    + eexists. split; [|split; [|split; [|reflexivity]]].
      * unfold config_of; simpl. eapply greedy_advance; eauto.
      * split; simpl; [lia|eauto].
      * done.
  - assert (Hz : rt_get_transition node c = 0) by lia. rewrite Hz in Hchild.
    destruct (decide (most_specific_matched_node st = 0)) as [Hms0|Hms0].
    + left. eexists. split; [|split; [|split; [|reflexivity]]].
      * unfold config_of; simpl. rewrite Hms0; simpl.
        replace (i + 1) with (S i) by lia.
        eapply greedy_restart; eauto.
      * split; simpl; [lia|done].
      * done.
    + right. split.
      * right. exists c, node. unfold config_of; simpl.
        destruct (decide (most_specific_matched_node st = 0)); [done|].
        eauto.
      * eexists. split; [reflexivity|]. split; [done|].
        split; [split; simpl; [lia|done]|done].
Qed.


Lemma greedy_step_deterministic c1 c2 c3 :
  greedy_step nodes input c1 c2 → greedy_step nodes input c1 c3 → c2 = c3.
Proof.
  intros H1 H2.
  inversion H1; subst; inversion H2; subst;
    repeat match goal with
    | A : input !! ?i = Some ?x, B : input !! ?i = Some ?y |- _ =>
        assert (x = y) by congruence; subst y; clear B
    | A : nodes !! ?i = Some ?x, B : nodes !! ?i = Some ?y |- _ =>
        assert (x = y) by congruence; subst y; clear B
    | A : greedy_child ?n ?c ?x, B : greedy_child ?n ?c ?y |- _ =>
        pose proof (greedy_child_functional n c x y A B); subst y; clear B
    end; try congruence; try done.
Qed.

Lemma greedy_halted_no_step c1 c2 :
  greedy_halted nodes input c1 → greedy_step nodes input c1 c2 → False.
Proof.
  intros [Hend|(c & node & Hc & Hn & Hchild & Hrec)] Hstep;
    inversion Hstep; subst; simpl in *; try congruence;
    repeat match goal with
    | A : input !! ?i = Some ?x, B : input !! ?i = Some ?y |- _ =>
        assert (x = y) by congruence; subst y; clear B
    | A : nodes !! ?i = Some ?x, B : nodes !! ?i = Some ?y |- _ =>
        assert (x = y) by congruence; subst y; clear B
    | A : greedy_child ?n ?c ?x, B : greedy_child ?n ?c ?y |- _ =>
        pose proof (greedy_child_functional n c x y A B); subst; clear B
    end; try done.
Qed.

Lemma greedy_step_pos c1 c2 :
  greedy_step nodes input c1 c2 → pos c2 = S (pos c1).
Proof. by inversion 1. Qed.

Lemma greedy_run_pos c1 c2 :
  rtc (greedy_step nodes input) c1 c2 → pos c1 ≤ pos c2.
Proof.
  induction 1 as [|c1 c2 c3 Hs _ IH]; [done|].
  apply greedy_step_pos in Hs. lia.
Qed.




Lemma initial_find_state_ok : store_wf nodes → find_state_ok nodes (mkFind 1 0 0 0 0).
Proof.
  intros [Hne _]. split; simpl; [|done]. destruct nodes; [done|simpl; lia].
Qed.


End GreedyFacts.

Section GreedyValidated.
Context {V : Type}.
Variable nodes : list (Node_T V).
Variable input : list Z.
Variable mode : MatchErrorMode.




End GreedyValidated.

Ltac store_wf_by_evaluation :=
  split; [by vm_compute|];
  vm_compute; repeat (apply Forall_cons; split); try apply Forall_nil; lia.




(** *** Malformed UTF-8 *)

Lemma utf8_error_from_position count i input j e :
  utf8_error_from count i input = Some (j, e) →
  i ≤ j ∧ e ≠ utf_validator.None.
Proof.
  revert count i. induction input as [|c rest IH]; intros count i; simpl.
  - destruct (decide _) as [H|H]; [|done]. intros [= <- <-]. done.
  - destruct (utf_validator.next count c) as [e0 count'].
    destruct (decide _) as [H|H].
    + intros [= <- <-]. done.
    + intros H'. apply IH in H'. split; [lia|tauto].
Qed.

Section MalformedFacts.
Context {V : Type}.
Variable nodes : list (Node_T V).
Variable mode : MatchErrorMode.

Lemma matches_loop_reaches_error input : ∀ cur count i j e,
  store_wf nodes → 1 ≤ cur ≤ length nodes →
  utf8_error_from count i input = Some (j, e) →
  is_Some (walk nodes cur (take (j - i) input)) →
  match matches_loop true mode nodes input cur count with
  | inl r => r = match_err mode e
  | inr (_, count') => utf_validator.final count' = e
  end.
Proof.
  induction input as [|c rest IH]; intros cur count i j e Hwf Hcur; simpl.
  - destruct (decide _); [|done]. by intros [= <- <-].
  - destruct (lookup_lt_is_Some_2 nodes (cur - 1)) as [node Hnode]; [lia|].
    rewrite Hnode.
    destruct (utf_validator.next count c) as [e0 count'].
    destruct (decide (e0 ≠ utf_validator.None)) as [He0|He0].
    { by intros [= <- <-]. }
    intros Herr Hwalk.
    destruct (utf8_error_from_position _ _ _ _ _ Herr) as [Hij _].
    replace (j - i) with (S (j - S i)) in Hwalk by lia.
    simpl in Hwalk. rewrite Hnode in Hwalk.
    destruct (decide (rt_get_transition node c = 0)) as [Hz|Hnz] in Hwalk;
      [by destruct Hwalk|].
    destruct (decide (rt_get_transition node c ≠ 0)); [|done].
    pose proof (rt_get_transition_within_store nodes _ node c Hwf Hnode).
    eapply IH; eauto. lia.
Qed.

Lemma find_loop_reaches_error input rest : ∀ i st j e cfg,
  store_wf nodes → drop i input = rest → find_state_ok nodes st →
  utf8_error_from (uv_count st) i rest = Some (j, e) →
  rtc (greedy_step nodes input) (config_of i st) cfg → pos cfg = j →
  match find_loop true mode nodes rest i st with
  | inl r => r = find_err mode e
  | inr st' => utf_validator.final (uv_count st') = e
  end.
Proof.
  induction rest as [|c rest IH]; intros i st j e cfg Hwf Hdrop Hok; simpl.
  { destruct (decide _); [|done]. by intros [= <- <-]. }
  destruct (drop_lookup_head _ _ _ _ Hdrop) as [Hc Hrest].
  pose proof (find_loop_round nodes input true mode c rest i st Hwf Hc Hok)
    as Hround.
  cbv zeta in Hround. simpl in Hround |- *.
  destruct (utf_validator.next (uv_count st) c) as [e0 count'].
  simpl in Hround.
  destruct (decide (e0 ≠ utf_validator.None)) as [He0|He0].
  { intros [= <- <-] _ _. by rewrite Hround. }
  intros Herr Hrun Hpos.
  destruct (utf8_error_from_position _ _ _ _ _ Herr) as [Hij _].
  destruct (rtc_inv _ _ Hrun) as [<-|(cfg' & Hstep & Hrun')];
    [simpl in Hpos; lia|].
  destruct Hround
    as [(st' & Hstep' & Hok' & Hcount & ->)|(Hh & _)].
  - rewrite (greedy_step_deterministic _ _ _ _ _ Hstep Hstep') in Hrun'.
    eapply IH; eauto. by rewrite Hcount.
  - destruct (greedy_halted_no_step _ _ _ _ Hh Hstep).
Qed.

End MalformedFacts.

(** C4, as the code has it.  In UTF-8 mode the validator sees only the
    bytes the scan reads.  When the first malformation of the input
    lies at position [j] (the length of the input for a sequence cut
    short by its end), [matches] reports it provided the walk from the
    root meets no dead end before [j], and [find] reports it provided
    the greedy scan gets as far as [j]. *)
Theorem utf8_error_when_scan_reaches_it {V} (mode : MatchErrorMode)
    (include_eof : bool) (nodes : list (Node_T V)) (input : list Z)
    (j : nat) (e : utf_validator.Error) :
  store_wf nodes →
  utf8_malformation input = Some (j, e) →
  (is_Some (walk nodes 1 (take j input)) →
   matches true mode include_eof nodes input = match_err mode e) ∧
  (∀ cfg, rtc (greedy_step nodes input) (mkGreedy 0 1 None 0) cfg →
     pos cfg = j → find true mode nodes input = find_err mode e).
Proof.
  intros Hwf Herr.
  destruct (utf8_error_from_position _ _ _ _ _ Herr) as [_ He].
  split.
  - intros Hwalk. unfold matches.
    assert (Hroot : 1 ≤ 1 ≤ length nodes).
    { destruct Hwf as [Hne _]. destruct nodes; [done|simpl; lia]. }
    pose proof (matches_loop_reaches_error nodes mode input 1 0 0 j e
                  Hwf Hroot Herr) as H.
    rewrite Nat.sub_0_r in H. specialize (H Hwalk).
    destruct (matches_loop _ _ _ _ _ _) as [r|[cur count]]; [done|].
    rewrite H. by destruct (decide _).
  - intros cfg Hrun Hpos. unfold find.
    pose proof (find_loop_reaches_error nodes mode input input 0 _ j e cfg
                  Hwf eq_refl (initial_find_state_ok nodes Hwf) Herr Hrun Hpos)
      as H.
    destruct (find_loop _ _ _ _ _ _) as [r|st]; [done|].
    rewrite H. by destruct (decide _).
Qed.

Lemma utf8_error_when_scan_reaches_it_witness :
  store_wf (m_nodes utf8_a_machine) ∧
  utf8_malformation [97; 169]%Z = Some (1, utf_validator.StrayByte) ∧
  matches true Return false (m_nodes utf8_a_machine) [97; 169]%Z =
    match_error utf_validator.StrayByte ∧
  find true Return (m_nodes utf8_a_machine) [97; 169]%Z =
    find_error utf_validator.StrayByte.
Proof.
  assert (Hwf : store_wf (m_nodes utf8_a_machine)) by store_wf_by_evaluation.
  assert (Herr : utf8_malformation [97; 169]%Z =
                   Some (1, utf_validator.StrayByte))
    by (vm_compute; reflexivity).
  destruct (utf8_error_when_scan_reaches_it Return false _ _ _ _ Hwf Herr)
    as [Hmatches Hfind].
  split; [exact Hwf|]. split; [exact Herr|]. split.
  - apply Hmatches. vm_compute. eauto.
  - apply (Hfind (mkGreedy 1 3 (Some (3, 1)) 0)); [|reflexivity].
    eapply rtc_l; [|apply rtc_refl].
    eapply (greedy_record _ _ 0 1 None 0 97%Z _ 3);
      [reflexivity|vm_compute; reflexivity|left; by vm_compute|lia
      |vm_compute; reflexivity|reflexivity].
Defined.

(** C4 as stated fails: with the machine accepting "a", the stray
    continuation byte 0xA9 at the end of "ab\xA9" is never read by
    [find], which has stopped at the dead end on "b" with its match,
    and that of "b\xA9" is never read by [matches], which has returned
    at the dead end on "b". *)
Lemma malformed_tail_goes_unreported :
  utf8_malformation [97; 98; 169]%Z = Some (2, utf_validator.StrayByte) ∧
  find true Return (m_nodes utf8_a_machine) [97; 98; 169]%Z =
    find_match 0 1 () ∧
  utf8_malformation [98; 169]%Z = Some (1, utf_validator.StrayByte) ∧
  matches true Return false (m_nodes utf8_a_machine) [98; 169]%Z =
    match_value None.
Proof. by_evaluation. Qed.

(** *** [find_many] *)

Section FindManyFacts.
Context {V : Type}.
Variable utf8 : bool.
Variable mode : MatchErrorMode.
Variable nodes : list (Node_T V).

Lemma range_size_shift_result offset (r : @find_result V) :
  range_size (shift_result offset r) = range_size r.
Proof.
  destruct r; simpl; try done. f_equal. lia.
Qed.

Lemma find_many_from_nonempty fuel : ∀ offset data,
  Forall (λ r, range_size r ≠ 0%Z)
    (find_many_from utf8 mode fuel nodes offset data).1.
Proof.
  induction fuel as [|fuel IH]; intros offset data; simpl; [constructor|].
  destruct (find utf8 mode nodes data) as [e|e| | |b e v] eqn:Hfind;
    try constructor.
  destruct (decide (range_size (find_match b e v) = 0%Z)) as [|Hne];
    [constructor|].
  destruct (decide (e ≤ Z.of_nat (length data))%Z); [|constructor].
  destruct (decide (length (drop (Z.to_nat e) data) = 0)); [constructor|].
  specialize (IH (offset + Z.to_nat e) (drop (Z.to_nat e) data)).
  destruct (find_many_from _ _ _ _ _ _) as [rs fin].
  constructor; [|done].
  by rewrite (range_size_shift_result offset (find_match b e v)).
Qed.

Lemma find_many_from_empty_range fuel offset data :
  range_size (find utf8 mode nodes data) = 0%Z →
  (find_many_from utf8 mode (S fuel) nodes offset data).1 = [].
Proof.
  intros H. simpl.
  destruct (find utf8 mode nodes data) as [e|e| | |b e v]; try done.
  by rewrite decide_True.
Qed.

Lemma find_loop_early_result rest : ∀ i st r b e v,
  find_loop utf8 mode nodes rest i st = inl r → r ≠ find_match b e v.
Proof.
  induction rest as [|c rest IH]; intros i st r b e v; simpl; [done|].
  destruct (nodes !! (current_node st - 1)) as [node|]; [|by intros [= <-]].
  destruct (if utf8 then _ else _) as [error count].
  destruct (decide (error ≠ _)).
  { intros [= <-]. unfold find_err. by destruct mode. }
  destruct (decide (rt_get_transition node c ≠ 0)).
  - destruct (nodes !! (rt_get_transition node c - 1)) as [reached|];
      [|by intros [= <-]].
    destruct (value reached); apply IH.
  - destruct (decide (most_specific_matched_node st = 0)); [apply IH|done].
Qed.

Lemma find_match_begin data b e v :
  find utf8 mode nodes data = find_match b e v → (0 ≤ b)%Z.
Proof.
  unfold find.
  destruct (find_loop _ _ _ _ _ _) as [r|st] eqn:Hloop.
  { intros ->. by destruct (find_loop_early_result _ _ _ _ b e v Hloop). }
  destruct (decide _).
  { unfold find_err. by destruct mode. }
  destruct (decide _); [|done].
  destruct (nodes !! _) as [node|]; [|done].
  destruct (value node); [|done]. intros [= <- _ _]. lia.
Qed.

(** A round whose result ends where the data begin leaves the data as
    they are: the iteration repeats it for ever. *)
Lemma find_many_from_stuck data b e v :
  find utf8 mode nodes data = find_match b e v →
  range_size (find_match b e v : @find_result V) ≠ 0%Z →
  Z.to_nat e = 0 → data ≠ [] →
  ∀ fuel offset,
    (find_many_from utf8 mode fuel nodes offset data).2 = gen_unfinished.
Proof.
  intros Hfind Hsize He Hdata.
  induction fuel as [|fuel IH]; intros offset; [done|].
  simpl. rewrite Hfind. rewrite decide_False by done.
  rewrite decide_True by lia. rewrite He, drop_0.
  rewrite decide_False by (by destruct data).
  specialize (IH (offset + 0)).
  by destruct (find_many_from utf8 mode fuel nodes (offset + 0) data).
Qed.

(** The rounds [find_many] unrolls are enough: an iteration either
    ends within one round more than the data have bytes, and then every
    larger budget unrolls the same, or it never ends. *)
Lemma find_many_from_fuel n : ∀ data,
  length data ≤ n →
  (∀ fuel offset,
     (find_many_from utf8 mode fuel nodes offset data).2 = gen_unfinished) ∨
  (∀ fuel1 fuel2 offset,
     length data < fuel1 → length data < fuel2 →
     find_many_from utf8 mode fuel1 nodes offset data =
     find_many_from utf8 mode fuel2 nodes offset data).
Proof.
  induction n as [|n IH]; intros data Hn.
  { right. intros [|fuel1] [|fuel2] offset H1 H2; try lia. simpl.
    destruct (find utf8 mode nodes data) as [e|e| | |b e v]; try done.
    destruct (decide (range_size (find_match b e v) = 0%Z)); [done|].
    destruct (decide (e ≤ Z.of_nat (length data))%Z); [|done].
    rewrite !decide_True; [done|rewrite length_drop; lia..]. }
  destruct (find utf8 mode nodes data) as [e|e| | |b e v] eqn:Hfind;
    try (right; intros [|fuel1] [|fuel2] offset H1 H2; try lia; simpl;
         by rewrite Hfind).
  destruct (decide (range_size (find_match b e v : @find_result V) = 0%Z))
    as [Hz|Hsize].
  { right. intros [|fuel1] [|fuel2] offset H1 H2; try lia. simpl.
    rewrite Hfind. by rewrite !decide_True. }
  destruct (decide (e ≤ Z.of_nat (length data))%Z) as [He|He].
  2:{ right. intros [|fuel1] [|fuel2] offset H1 H2; try lia. simpl.
      rewrite Hfind. rewrite !(decide_False (P := _ = 0%Z)) by done.
      by rewrite !decide_False. }
  destruct (decide (length (drop (Z.to_nat e) data) = 0)) as [Hend|Hmore].
  { right. intros [|fuel1] [|fuel2] offset H1 H2; try lia. simpl.
    rewrite Hfind. rewrite !(decide_False (P := _ = 0%Z)) by done.
    rewrite !(decide_True (P := (e ≤ _)%Z)) by done.
    by rewrite !decide_True. }
  destruct (decide (Z.to_nat e = 0)) as [Hzero|Hpos].
  { left. apply (find_many_from_stuck data b e v Hfind Hsize Hzero).
    intros ->. by rewrite drop_nil in Hmore. }
  destruct (IH (drop (Z.to_nat e) data)) as [Hloop|Hsame].
  { rewrite length_drop. lia. }
  - left. intros [|fuel] offset; [done|]. simpl. rewrite Hfind.
    rewrite decide_False by done. rewrite decide_True by done.
    rewrite decide_False by done.
    specialize (Hloop fuel (offset + Z.to_nat e)).
    by destruct (find_many_from utf8 mode fuel nodes _ _).
  - right. intros [|fuel1] [|fuel2] offset H1 H2; try lia. simpl.
    rewrite Hfind. rewrite !(decide_False (P := _ = 0%Z)) by done.
    rewrite !(decide_True (P := (e ≤ _)%Z)) by done.
    rewrite !decide_False by done.
    rewrite (Hsame fuel1 fuel2); [done| |]; rewrite length_drop; lia.
Qed.

End FindManyFacts.

(** C9. [find_many] never yields a result with an empty range: every
    result visited has a range of non-zero size, and a round whose
    [find] comes back with an empty range (no match, or a match whose
    span [back_by] has emptied) ends the iteration with nothing
    yielded from it. *)
Theorem find_many_never_yields_empty {V} (utf8 : bool) (mode : MatchErrorMode)
    (nodes : list (Node_T V)) (input : list Z) :
  Forall (λ r, range_size r ≠ 0%Z) (find_many utf8 mode nodes input).1 ∧
  (∀ fuel offset data,
     range_size (find utf8 mode nodes data) = 0%Z →
     (find_many_from utf8 mode (S fuel) nodes offset data).1 = []).
Proof.
  split.
  - apply find_many_from_nonempty.
  - intros fuel offset data. apply find_many_from_empty_range.
Qed.

Lemma find_many_never_yields_empty_witness :
  find false Return (m_nodes foo_back3_machine) [102; 111; 111]%Z =
    find_match 0 0 () ∧
  range_size (find false Return (m_nodes foo_back3_machine)
                [102; 111; 111]%Z) = 0%Z ∧
  (find_many false Return (m_nodes foo_back3_machine)
     [102; 111; 111]%Z).1 = [] ∧
  find_many false Return (m_nodes foo_back1_machine)
    [102; 111; 111; 102; 111; 111; 120]%Z =
    ([find_match 0 2 (); find_match 3 5 ()], gen_done).
Proof.
  assert (H : range_size (find false Return (m_nodes foo_back3_machine)
                            [102; 111; 111]%Z) = 0%Z)
    by (vm_compute; reflexivity).
  split; [vm_compute; reflexivity|]. split; [exact H|].
  split; [|vm_compute; reflexivity].
  exact (proj2 (find_many_never_yields_empty false Return
                  (m_nodes foo_back3_machine) [102; 111; 111]%Z)
           3 0 [102; 111; 111]%Z H).
Defined.

(** ** The optimizer *)

(** C1 fails on the code, for [matches] and for [find].

    The machine built by [match_any_of({'b'}); exit_point();
    match_any_of({'c'}); exit_point(); root()] accepts "bc".  In
    [remove_duplicates_once] the accepting node reached on "bc" (index
    5, no outgoing edge) is compared with the accepting node reached
    on "b" (index 3, edge on 'c'); the comparison walks the
    transitions of node 5 only, finds nothing to object to, and node 3
    is folded into node 5.  The optimized machine no longer accepts
    "bc".

    The machine built by [match_any_of({'a'}); root();
    match_any_of({'b'}); exit_point(); root()] has an edge on 'a' to a
    node without accept or successor.  [nullify_nullrefs] drops that
    edge, which moves the dead end of the scan of "ab" one byte
    earlier: [find] finds nothing before [optimize] and "b" after. *)
Theorem optimize_changes_results :
  (b_bc_machine =
     mkMachine
       [mkNode [(Key_T.value 98, 3)] None;
        mkNode [] None;
        mkNode [(Key_T.value 99, 5)] (Some (mkValue () 0));
        mkNode [] None;
        mkNode [] (Some (mkValue () 0))]
       Error [1] ∧
   optimize b_bc_machine =
     Ok () (mkMachine
              [mkNode [(Key_T.value 98, 2)] None;
               mkNode [] (Some (mkValue () 0))]
              Error []) ∧
   matches false Return false (m_nodes b_bc_machine) [98; 99]%Z =
     match_value (Some (mkValue () 0)) ∧
   matches false Return false
     [mkNode [(Key_T.value 98, 2)] None; mkNode [] (Some (mkValue () 0))]
     [98; 99]%Z = match_value None) ∧
  (a_dead_b_machine =
     mkMachine
       [mkNode [(Key_T.value 97, 3); (Key_T.value 98, 5)] None;
        mkNode [] None;
        mkNode [] None;
        mkNode [] None;
        mkNode [] (Some (mkValue () 0))]
       Error [1] ∧
   optimize a_dead_b_machine =
     Ok () (mkMachine
              [mkNode [(Key_T.value 98, 2)] None;
               mkNode [] (Some (mkValue () 0))]
              Error []) ∧
   find false Return (m_nodes a_dead_b_machine) [97; 98]%Z = find_empty ∧
   find false Return
     [mkNode [(Key_T.value 98, 2)] None; mkNode [] (Some (mkValue () 0))]
     [97; 98]%Z = find_match 1 2 ()).
Proof. split; by_evaluation. Qed.

(** C7 fails on the code.  [nullify_orphans] tests a cursor [c]
    against [reachables[c]], the flag of node [c + 1], where the nodes
    themselves are tested against [reachables[index - 1]].  In the
    machine below, after [match] of a pattern, nodes 1, 4 and 6 are
    reachable and the cursors are 3 and 4: cursor 3 (unreachable, its
    node nullified) is kept because node 4 is reachable, and cursor 4
    (reachable) is dropped because node 5 is not. *)
Theorem nullify_orphans_keeps_orphan_cursor :
  spliced_machine =
    mkMachine
      [mkNode [(Key_T.value 97, 4)] None;
       mkNode [] None;
       mkNode [(Key_T.value 98, 6)] None;
       mkNode [(Key_T.value 98, 6)] None;
       mkNode [] None;
       mkNode [] None]
      Error [3; 4] ∧
  nullify_orphans spliced_machine =
    Ok () (mkMachine
             [mkNode [(Key_T.value 97, 4)] None;
              mkNode [] None;
              mkNode [] None;
              mkNode [(Key_T.value 98, 6)] None;
              mkNode [] None;
              mkNode [] None]
             Error [3]).
Proof. by_evaluation. Qed.

(** ** The builder *)

(** *** Running builder code *)

Section Running.
Context {V : Type}.

Lemma bind_ok {A B} (m : Build V A) (f : A → Build V B) s b s' :
  (m ≫= f) s = Ok b s' ↔ ∃ a s1, m s = Ok a s1 ∧ f a s1 = Ok b s'.
Proof.
  unfold mbind, Build_bind. destruct (m s) as [a s1|e]; split.
  - eauto.
  - by intros (a' & s1' & [= <- <-] & H).
  - done.
  - by intros (a' & s1' & ? & _).
Qed.

Lemma bind_fail {A B} (m : Build V A) (f : A → Build V B) s e :
  (m ≫= f) s = Fail e ↔
  m s = Fail e ∨ ∃ a s1, m s = Ok a s1 ∧ f a s1 = Fail e.
Proof.
  unfold mbind, Build_bind. destruct (m s) as [a s1|e']; split.
  - eauto.
  - intros [?|(a' & s1' & [= <- <-] & H)]; done.
  - intros [= ->]. by left.
  - intros [[= ->]|(a' & s1' & ? & _)]; done.
Qed.

Lemma ret_ok {A} (a b : A) (s s' : StateMachine V) :
  (mret a : Build V A) s = Ok b s' ↔ a = b ∧ s = s'.
Proof. unfold mret, Build_ret. split; [by intros [= -> ->]|by intros [-> ->]]. Qed.

(** A loop keeps what each of its rounds keeps, and fails only the way
    one of its rounds does. *)
Lemma foldM_keeps {A B} (I : B → StateMachine V → Prop) (F : Failure → Prop)
    (body : B → A → Build V B) (l : list A) :
  (∀ b a s, a ∈ l → I b s →
     match body b a s with Ok b' s' => I b' s' | Fail e => F e end) →
  ∀ b s, I b s →
    match foldM body l b s with Ok b' s' => I b' s' | Fail e => F e end.
Proof.
  induction l as [|a l IH]; intros Hbody b s HI; simpl; [done|].
  unfold mbind, Build_bind.
  pose proof (Hbody b a s (list_elem_of_here _ _) HI) as Ha.
  destruct (body b a s) as [b' s'|e]; [|done].
  apply IH; [|done]. intros b0 a0 s0 Hin. apply Hbody. by right.
Qed.

Lemma get_node_ok index s (n : Node_T V) s' :
  get_node index s = Ok n s' ↔
  s' = s ∧ 1 ≤ index ∧ m_nodes s !! (index - 1) = Some n.
Proof.
  unfold get_node. destruct (decide (index ≤ length (m_nodes s))) as [Hle|Hgt].
  - destruct index as [|i]; [split; [done|lia]|]. simpl. rewrite Nat.sub_0_r.
    destruct (m_nodes s !! i) as [n'|]; split.
    + intros [= -> ->]. split; [done|]. split; [lia|done].
    + by intros (-> & _ & [= ->]).
    + done.
    + by intros (_ & _ & ?).
  - split; [done|]. intros (_ & H1 & Hl). apply lookup_lt_Some in Hl. lia.
Qed.

Lemma get_node_fail index (s : StateMachine V) e :
  get_node index s = Fail e → ∃ a, e = assertion_failed a.
Proof.
  unfold get_node. destruct (decide _); [|intros [= <-]; eauto].
  destruct index; [intros [= <-]; eauto|].
  destruct (m_nodes s !! index); [done|intros [= <-]; eauto].
Qed.

Lemma update_node_ok index f (s s' : StateMachine V) u :
  update_node index f s = Ok u s' ↔
  ∃ n, 1 ≤ index ∧ m_nodes s !! (index - 1) = Some n ∧
    s' = mkMachine (<[index - 1 := f n]> (m_nodes s)) (on_conflict s)
           (cursors s).
Proof.
  unfold update_node. destruct (get_node index s) as [n s1|e] eqn:Hg.
  - apply get_node_ok in Hg as (-> & H1 & Hl). destruct u. split.
    + intros [= <-]. eauto.
    + intros (n' & _ & Hl' & ->). congruence.
  - split; [done|]. intros (n & H1 & Hl & _).
    assert (get_node index s = Ok n s) as Hok by (apply get_node_ok; eauto).
    congruence.
Qed.

Lemma update_node_fail index f (s : StateMachine V) e :
  update_node index f s = Fail e → ∃ a, e = assertion_failed a.
Proof.
  unfold update_node. destruct (get_node index s) eqn:Hg; [done|].
  intros [= <-]. by apply get_node_fail in Hg.
Qed.

Lemma new_node_ok (s s' : StateMachine V) i :
  new_node s = Ok i s' ↔
  i = S (length (m_nodes s)) ∧
  s' = mkMachine (m_nodes s ++ [empty_node]) (on_conflict s) (cursors s).
Proof.
  unfold new_node, push. split; [by intros [= <- <-]|by intros [-> ->]].
Qed.

End Running.

(** *** Invariants of builder code *)

Section Keeps.
Context {V : Type}.
Variable P : StateMachine V → Prop.
Variable F : Failure → Prop.

Lemma keeps_ret {A} n (a : A) (Q : A → nat → Prop) :
  (∀ L, n ≤ L → Q a L) → keeps P F n (mret a) Q.
Proof. intros Ha s Hs Hn. split; [done|]. split; [done|]. by apply Ha. Qed.

Lemma keeps_fail {A} n e (Q : A → nat → Prop) : F e → keeps P F n (fail e) Q.
Proof. intros He s Hs Hn. exact He. Qed.

Lemma keeps_bind {A B} n (m : Build V A) (f : A → Build V B)
    (Q : A → nat → Prop) (R : B → nat → Prop) :
  keeps P F n m Q →
  (∀ a k, n ≤ k → Q a k → keeps P F k (f a) R) →
  keeps P F n (m ≫= f) R.
Proof.
  intros Hm Hf s Hs Hn. unfold mbind, Build_bind.
  specialize (Hm s Hs Hn). destruct (m s) as [a s1|e]; [|done].
  destruct Hm as (Hs1 & Hlen & Ha).
  specialize (Hf a (length (m_nodes s1)) ltac:(lia) Ha s1 Hs1 ltac:(lia)).
  destruct (f a s1) as [b s2|e]; [|done].
  destruct Hf as (Hs2 & Hlen' & Hb). split; [done|]. split; [lia|done].
Qed.

Lemma keeps_weaken {A} n (m : Build V A) (Q Q' : A → nat → Prop) :
  keeps P F n m Q → (∀ a L, Q a L → Q' a L) → keeps P F n m Q'.
Proof.
  intros Hm HQ s Hs Hn. specialize (Hm s Hs Hn).
  destruct (m s); [|done]. destruct Hm as (? & ? & ?).
  split; [done|]. split; [done|]. by apply HQ.
Qed.

Lemma keeps_foldM {A B} n (body : B → A → Build V B) (l : list A)
    (I : B → nat → Prop) (b : B) :
  (∀ b k L, I b k → k ≤ L → I b L) →
  (∀ b a k, a ∈ l → n ≤ k → I b k → keeps P F k (body b a) I) →
  I b n →
  keeps P F n (foldM body l b) I.
Proof.
  intros Hmono. revert n b.
  induction l as [|a l IH]; intros n b Hbody Hb; simpl.
  - apply keeps_ret. intros L HL. by eapply Hmono.
  - eapply keeps_bind; [apply Hbody; [left|done|done]|].
    intros b' k Hk Hb'. apply IH; [|done].
    intros b0 a0 k0 Hin Hk0. apply Hbody; [by right|lia].
Qed.

Lemma keeps_for_each {A} n (body : A → Build V ()) (l : list A) :
  (∀ a k, a ∈ l → n ≤ k → keeps P F k (body a) (λ _ _, True)) →
  keeps P F n (for_each l body) (λ _ _, True).
Proof.
  intros Hbody. apply keeps_foldM; [done| |done].
  intros _ a k Ha Hk _. by apply Hbody.
Qed.

Hypothesis F_assertion : ∀ a, F (assertion_failed a).

Lemma keeps_get_node n index :
  keeps P F n (get_node index)
    (λ node _, ∃ s, P s ∧ 1 ≤ index ∧ m_nodes s !! (index - 1) = Some node).
Proof.
  intros s Hs Hn. destruct (get_node index s) as [node s'|e] eqn:E.
  - apply get_node_ok in E as (-> & H1 & Hnode). eauto 10.
  - apply get_node_fail in E as [a ->]. apply F_assertion.
Qed.

Lemma keeps_update_node n index f :
  (∀ s node, P s → n ≤ length (m_nodes s) → 1 ≤ index →
     m_nodes s !! (index - 1) = Some node →
     P (mkMachine (<[index - 1 := f node]> (m_nodes s)) (on_conflict s)
          (cursors s))) →
  keeps P F n (update_node index f) (λ _ _, True).
Proof.
  intros Hf s Hs Hn. destruct (update_node index f s) as [u s'|e] eqn:E.
  - apply update_node_ok in E as (node & H1 & Hnode & ->). simpl.
    rewrite length_insert. eauto.
  - apply update_node_fail in E as [a ->]. apply F_assertion.
Qed.

Lemma keeps_new_node n :
  (∀ s, P s → n ≤ length (m_nodes s) →
     P (mkMachine (m_nodes s ++ [empty_node]) (on_conflict s) (cursors s))) →
  keeps P F n new_node
    (λ i L, n < i ≤ L ∧ ∃ s, P s ∧ i = S (length (m_nodes s))).
Proof.
  intros Hp s Hs Hn. simpl. rewrite length_app. simpl.
  split; [by apply Hp|]. split; [lia|]. split; [lia|eauto].
Qed.

Lemma keeps_get_cursors n :
  keeps P F n get_cursors (λ cs _, ∃ s, P s ∧ cs = cursors s).
Proof. intros s Hs Hn. simpl. eauto. Qed.

Lemma keeps_set_cursors n cs :
  (∀ s, P s → n ≤ length (m_nodes s) →
     P (mkMachine (m_nodes s) (on_conflict s) cs)) →
  keeps P F n (set_cursors cs) (λ _ _, True).
Proof. intros Hp s Hs Hn. simpl. split; [by apply Hp|done]. Qed.

Lemma keeps_get_on_conflict n :
  keeps P F n get_on_conflict (λ p _, ∃ s, P s ∧ p = on_conflict s).
Proof. intros s Hs Hn. simpl. eauto. Qed.

End Keeps.

(** One step through builder code: the rule for the head of the call
    is applied, leaving what is specific to the invariant at hand. *)
Ltac keeps_head :=
  lazymatch goal with
  | |- keeps _ _ _ (mret _) _ => apply keeps_ret
  | |- keeps _ _ _ (fail _) _ => apply keeps_fail
  | |- keeps _ _ _ (get_node _) _ => apply keeps_get_node
  | |- keeps _ _ _ (update_node _ _) _ => apply keeps_update_node
  | |- keeps _ _ _ new_node _ => apply keeps_new_node
  | |- keeps _ _ _ get_cursors _ => apply keeps_get_cursors
  | |- keeps _ _ _ (set_cursors _) _ => apply keeps_set_cursors
  | |- keeps _ _ _ get_on_conflict _ => apply keeps_get_on_conflict
  | |- keeps _ _ _ (for_each _ _) _ => apply keeps_for_each
  end.

Ltac keeps_step :=
  lazymatch goal with
  | |- keeps _ _ _ ((if _ then _ else _) ≫= _) _ =>
      eapply (keeps_bind _ _ _ _ _ (λ _ _, True))
  | |- keeps _ _ _ ((match _ with _ => _ end) ≫= _) _ =>
      eapply (keeps_bind _ _ _ _ _ (λ _ _, True))
  | |- keeps _ _ _ (fail _ ≫= _) _ =>
      eapply (keeps_bind _ _ _ _ _ (λ _ _, True))
  | |- keeps _ _ _ (foldM _ _ _ ≫= _) _ => fail "a loop"
  | |- keeps _ _ _ (_ ≫= _) _ =>
      eapply keeps_bind;
        [first [keeps_head | eapply keeps_weaken; [keeps_head|]]|]
  | |- keeps _ _ _ (if decide _ then _ else _) _ => destruct (decide _)
  | |- keeps _ _ _ (match ?x with _ => _ end) _ => destruct x eqn:?
  | |- _ => keeps_head
  end.

Ltac keeps_walk := repeat (keeps_step; try done; intros; cbv beta in * |-).

(** *** Conflicts in [make_nonambiguous_link] *)

Lemma make_nonambiguous_link_conflict {V} (p : ConflictAction) depth :
  ∀ n from key to watch,
  keeps (V:=V) (λ s, on_conflict s = p) (single_conflict p) n
    (make_nonambiguous_link_rec depth from key to watch) (λ _ _, True).
Proof.
  assert (Ha : ∀ a, single_conflict p (assertion_failed a)) by done.
  induction depth as [|depth IH]; intros n from key to watch; simpl.
  { by apply keeps_fail. }
  keeps_walk.
  - intros ds [= <-].
    repeat match goal with H : ∃ _, _ |- _ => destruct H as (? & ? & ?) end.
    split; [congruence|eauto].
  - eapply (keeps_bind _ _ _ _ _ (λ _ _, True)).
    + apply keeps_foldM; [done| |done]. intros tracked [key' reference] ? _ _ _.
      keeps_walk.
      eapply keeps_bind; [apply IH|]. intros. by apply keeps_ret.
    + intros. keeps_walk.
Qed.

(** *** UTF-8 options of [match_any_of] *)

Lemma forallb_Z_range (P : Z → bool) (lo n : nat) :
  forallb P (map Z.of_nat (seq lo n)) = true →
  ∀ z, (Z.of_nat lo ≤ z < Z.of_nat (lo + n))%Z → P z = true.
Proof.
  intros H z Hz. rewrite forallb_forall in H. apply H.
  apply in_map_iff. exists (Z.to_nat z). split; [lia|].
  apply in_seq. lia.
Qed.

Lemma land_shifted_byte key s :
  (0 ≤ s)%Z →
  Z.land key (Z.shiftl 255 s) = Z.shiftl (Z.land (Z.shiftr key s) 255) s.
Proof.
  intros Hs. apply Z.bits_inj'. intros n Hn.
  rewrite Z.land_spec.
  destruct (decide (n < s)%Z) as [Hlt|Hge].
  - rewrite !Z.shiftl_spec_low by lia. by rewrite andb_false_r.
  - rewrite !Z.shiftl_spec by lia. rewrite Z.land_spec, Z.shiftr_spec by lia.
    by replace (n - s + s)%Z with n by lia.
Qed.

Lemma land_shifted_byte_zero key s :
  (0 ≤ s)%Z → (0 ≤ key < 2 ^ (s + 8))%Z →
  Z.land key (Z.shiftl 255 s) = 0%Z ↔ (key < 2 ^ s)%Z.
Proof.
  intros Hs Hkey. rewrite land_shifted_byte by done.
  rewrite Z.shiftl_eq_0_iff by done.
  change 255%Z with (Z.ones 8). rewrite Z.land_ones by lia.
  rewrite Z.shiftr_div_pow2 by done.
  assert (0 < 2 ^ s)%Z by (apply Z.pow_pos_nonneg; lia).
  assert (key `div` 2 ^ s < 2 ^ 8)%Z.
  { apply Z.div_lt_upper_bound; [done|]. rewrite <- Z.pow_add_r by lia.
    lia. }
  assert (0 ≤ key `div` 2 ^ s)%Z by (apply Z.div_pos; lia).
  rewrite Z.mod_small by lia.
  split; intros H'.
  - apply Z.div_small_iff in H'; lia.
  - apply Z.div_small. lia.
Qed.







(** *** Conflicts in [exit_point] *)

Lemma marked_refl b s : marked b s s.
Proof. repeat split; try done. intros i n Hn. exists n. eauto. Qed.

Lemma accepts_kept_refl s : accepts_kept s s.
Proof. intros i n v Hn Hv. eauto. Qed.

Lemma get_node_at {V} (s : StateMachine V) c n :
  1 ≤ c → m_nodes s !! (c - 1) = Some n → get_node c s = Ok n s.
Proof. intros. by apply get_node_ok. Qed.

Lemma update_node_at {V} (s : StateMachine V) c n f :
  1 ≤ c → m_nodes s !! (c - 1) = Some n →
  update_node c f s =
    Ok () (mkMachine (<[c - 1 := f n]> (m_nodes s)) (on_conflict s)
             (cursors s)).
Proof.
  intros. destruct (update_node c f s) as [[] s'|e] eqn:E.
  - apply update_node_ok in E as (n' & _ & Hn' & ->). congruence.
  - assert (update_node c f s = Ok () (mkMachine (<[c - 1 := f n]> (m_nodes s))
             (on_conflict s) (cursors s))) as E' by (apply update_node_ok; eauto).
    congruence.
Qed.

(** Setting the accept record of node [c] to one made by
    [exit_point(b)] keeps [marked]. *)
Lemma marked_set_value b s0 s c n :
  marked b s0 s → m_nodes s !! (c - 1) = Some n →
  marked b s0
    (mkMachine (<[c - 1 := mkNode (transitions n) (Some (mkValue () b))]>
                  (m_nodes s)) (on_conflict s) (cursors s)).
Proof.
  intros (Hlen & Hcs & Hpol & Hnodes) Hn.
  split; [simpl; by rewrite length_insert|]. split; [done|]. split; [done|].
  intros i n0 Hn0. simpl.
  destruct (Hnodes i n0 Hn0) as (n' & Hn' & Ht & Hv).
  destruct (decide (i = c - 1)) as [->|Hne].
  - rewrite list_lookup_insert_eq by (by eapply lookup_lt_Some).
    eexists. split; [done|]. simpl. split; [congruence|by right].
  - rewrite list_lookup_insert_ne by done. eauto.
Qed.

Lemma accepts_kept_set_value s0 s c n v :
  accepts_kept s0 s → m_nodes s !! (c - 1) = Some n → value n = None →
  accepts_kept s0
    (mkMachine (<[c - 1 := mkNode (transitions n) (Some v)]> (m_nodes s))
       (on_conflict s) (cursors s)).
Proof.
  intros Hkept Hn Hv i n0 v0 Hn0 Hv0. simpl.
  destruct (Hkept i n0 v0 Hn0 Hv0) as (n' & Hn' & Hv').
  destruct (decide (i = c - 1)) as [->|Hne]; [congruence|].
  rewrite list_lookup_insert_ne by done. eauto.
Qed.

Lemma back_by_collision_kept b s0 s c :
  marked b s0 s → accepts_kept s0 s →
  back_by_collision (m_nodes s) b c = back_by_collision (m_nodes s0) b c.
Proof.
  intros (Hlen & _ & _ & Hnodes) Hkept. unfold back_by_collision.
  destruct (m_nodes s0 !! (c - 1)) as [n0|] eqn:Hn0.
  - destruct (Hnodes _ _ Hn0) as (n' & Hn' & _ & Hv). rewrite Hn'.
    destruct (value n0) as [v0|] eqn:Hv0.
    + destruct (Hkept _ _ _ Hn0 Hv0) as (n'' & Hn'' & Hv'').
      assert (n'' = n') as -> by congruence.
      by rewrite Hv''.
    + destruct Hv as [->| ->]; [done|]. simpl.
      by destruct (decide (b ≠ b)).
  - apply lookup_ge_None in Hn0. rewrite <- Hlen in Hn0.
    apply lookup_ge_None in Hn0. by rewrite Hn0.
Qed.

(** One round under a policy that keeps what is there. *)
Lemma exit_point_round_keeping b s0 s errors c :
  on_conflict s0 ≠ Overwrite →
  marked b s0 s → accepts_kept s0 s → 1 ≤ c ≤ length (m_nodes s0) →
  ∃ s', exit_point_round b errors c s =
          Ok (errors ++
              if decide (on_conflict s0 = Error)
              then option_list (back_by_collision (m_nodes s0) b c) else [])
             s' ∧
    marked b s0 s' ∧ accepts_kept s0 s'.
Proof.
  intros Hpol Hm Hk Hc.
  pose proof (back_by_collision_kept b s0 s c Hm Hk) as Hcoll.
  pose proof Hm as (Hlen & _ & Hp & _).
  destruct (lookup_lt_is_Some_2 (m_nodes s) (c - 1)) as [n Hn]; [lia|].
  unfold exit_point_round, mbind, Build_bind.
  rewrite (get_node_at s c n) by (done || lia).
  unfold back_by_collision at 1 in Hcoll. rewrite Hn in Hcoll.
  destruct (value n) as [v|] eqn:Hv.
  - destruct (decide (back_by v ≠ b)) as [Hne|He].
    + unfold get_on_conflict. rewrite Hp.
      destruct (on_conflict s0) eqn:Hp0; [| done |].
      * eexists. split; [|done]. unfold mret, Build_ret.
        rewrite decide_False by done. by rewrite app_nil_r.
      * eexists. split; [|done]. unfold mret, Build_ret.
        rewrite decide_True by done. by rewrite <- Hcoll.
    + eexists. split; [|done]. unfold mret, Build_ret.
      rewrite <- Hcoll. destruct (decide _); by rewrite app_nil_r.
  - rewrite (update_node_at s c n) by (done || lia).
    eexists. split; [|split].
    + unfold mret, Build_ret. rewrite <- Hcoll.
      destruct (decide _); by rewrite app_nil_r.
    + by apply marked_set_value.
    + by apply accepts_kept_set_value.
Qed.

Lemma exit_point_loop_keeping b s0 cs : ∀ s errors,
  on_conflict s0 ≠ Overwrite →
  marked b s0 s → accepts_kept s0 s →
  Forall (λ c, 1 ≤ c ≤ length (m_nodes s0)) cs →
  ∃ s', foldM (exit_point_round b) cs errors s =
          Ok (errors ++
              if decide (on_conflict s0 = Error)
              then omap (back_by_collision (m_nodes s0) b) cs else [])
             s' ∧
    marked b s0 s' ∧ accepts_kept s0 s'.
Proof.
  induction cs as [|c cs IH]; intros s errors Hpol Hm Hk Hcs.
  { exists s. simpl. split; [|done]. unfold mret, Build_ret.
    destruct (decide _); by rewrite app_nil_r. }
  apply Forall_cons in Hcs as [Hc Hcs]. simpl.
  destruct (exit_point_round_keeping b s0 s errors c Hpol Hm Hk Hc)
    as (s1 & E1 & Hm1 & Hk1).
  unfold mbind at 1, Build_bind. rewrite E1.
  match goal with |- context [foldM _ cs ?e s1] =>
    destruct (IH s1 e Hpol Hm1 Hk1 Hcs) as (s' & -> & Hm' & Hk') end.
  exists s'. split; [|done]. f_equal.
  rewrite <- app_assoc. f_equal.
  destruct (decide _); [|done].
  by destruct (back_by_collision (m_nodes s0) b c).
Qed.

Lemma accepts_with_set_value b (s : StateMachine ()) c n done_ :
  m_nodes s !! (c - 1) = Some n →
  Forall (accepts_with b s) done_ →
  Forall (accepts_with b
            (mkMachine
               (<[c - 1 := mkNode (transitions n) (Some (mkValue () b))]>
                  (m_nodes s)) (on_conflict s) (cursors s)))
    (c :: done_).
Proof.
  intros Hn Hdone. apply Forall_cons. split.
  - eexists _, _. simpl.
    rewrite list_lookup_insert_eq by (by eapply lookup_lt_Some). done.
  - eapply Forall_impl; [exact Hdone|]. intros d (nd & vd & Hnd & Hvd & Hbd).
    unfold accepts_with; simpl.
    destruct (decide (d - 1 = c - 1)) as [->|Hne].
    + rewrite list_lookup_insert_eq by (by eapply lookup_lt_Some).
      eexists _, _. done.
    + rewrite list_lookup_insert_ne by done. eauto.
Qed.

(** One round under [Overwrite]. *)
Lemma exit_point_round_overwriting b s0 s errors c (done_ : list nat) :
  on_conflict s0 = Overwrite →
  marked b s0 s → Forall (accepts_with b s) done_ →
  1 ≤ c ≤ length (m_nodes s0) →
  ∃ s', exit_point_round b errors c s = Ok errors s' ∧
    marked b s0 s' ∧ Forall (accepts_with b s') (c :: done_).
Proof.
  intros Hpol Hm Hdone Hc.
  pose proof Hm as (Hlen & _ & Hp & _).
  destruct (lookup_lt_is_Some_2 (m_nodes s) (c - 1)) as [n Hn]; [lia|].
  unfold exit_point_round, mbind, Build_bind.
  rewrite (get_node_at s c n) by (done || lia).
  destruct (value n) as [v|] eqn:Hv.
  - destruct (decide (back_by v ≠ b)) as [Hne|He].
    + unfold get_on_conflict. rewrite Hp, Hpol.
      rewrite (update_node_at s c n) by (done || lia).
      destruct v as [[] bv]. simpl.
      eexists. split; [done|]. split; [by apply marked_set_value|].
      by apply accepts_with_set_value.
    + eexists. split; [done|]. split; [done|].
      apply Forall_cons. split; [|done].
      exists n, v. split; [done|]. split; [done|].
      destruct (decide (back_by v = b)); [done|tauto].
  - rewrite (update_node_at s c n) by (done || lia).
    eexists. split; [done|]. split; [by apply marked_set_value|].
    by apply accepts_with_set_value.
Qed.

Lemma exit_point_loop_overwriting b s0 cs : ∀ s errors done_,
  on_conflict s0 = Overwrite →
  marked b s0 s → Forall (accepts_with b s) done_ →
  Forall (λ c, 1 ≤ c ≤ length (m_nodes s0)) cs →
  ∃ s', foldM (exit_point_round b) cs errors s = Ok errors s' ∧
    marked b s0 s' ∧ Forall (accepts_with b s') (cs ++ done_).
Proof.
  induction cs as [|c cs IH]; intros s errors done_ Hpol Hm Hd Hcs.
  { exists s. done. }
  apply Forall_cons in Hcs as [Hc Hcs]. simpl.
  destruct (exit_point_round_overwriting b s0 s errors c done_ Hpol Hm Hd Hc)
    as (s1 & E1 & Hm1 & Hd1).
  unfold mbind at 1, Build_bind. rewrite E1.
  destruct (IH s1 errors _ Hpol Hm1 Hd1 Hcs) as (s' & -> & Hm' & Hd').
  exists s'. split; [done|]. split; [done|].
  rewrite Forall_app in Hd'. destruct Hd' as [H1 H2].
  apply Forall_cons in H2 as [H2 H3].
  apply Forall_cons. split; [done|]. apply Forall_app. done.
Qed.

Lemma exit_point_conflicts b (s : StateMachine ()) :
  cursors_in_store s →
  match on_conflict s with
  | Error =>
      let errors := omap (back_by_collision (m_nodes s) b) (cursors s) in
      (errors = [] ∧
       ∃ s', exit_point b s = Ok () s' ∧ marked b s s' ∧ accepts_kept s s') ∨
      (errors ≠ [] ∧ exit_point b s = Fail (conflict_panic errors))
  | Skip => ∃ s', exit_point b s = Ok () s' ∧ marked b s s' ∧ accepts_kept s s'
  | Overwrite =>
      ∃ s', exit_point b s = Ok () s' ∧ marked b s s' ∧
        Forall (accepts_with b s') (cursors s)
  end.
Proof.
  intros Hcs. unfold exit_point, mbind at 1, Build_bind, get_cursors.
  destruct (on_conflict s) eqn:Hpol.
  - destruct (exit_point_loop_keeping b s (cursors s) s [] ltac:(congruence)
                (marked_refl b s) (accepts_kept_refl s) Hcs)
      as (s' & E & Hm & Hk).
    unfold mbind, Build_bind. rewrite E, Hpol. simpl. eauto.
  - destruct (exit_point_loop_overwriting b s (cursors s) s [] [] Hpol
                (marked_refl b s) (Forall_nil_2 _) Hcs)
      as (s' & E & Hm & Hk).
    unfold mbind, Build_bind. rewrite E. simpl.
    rewrite app_nil_r in Hk. eauto.
  - destruct (exit_point_loop_keeping b s (cursors s) s [] ltac:(congruence)
                (marked_refl b s) (accepts_kept_refl s) Hcs)
      as (s' & E & Hm & Hk).
    unfold mbind, Build_bind. rewrite E, Hpol. simpl.
    destruct (omap _ _) as [|d ds]; [left; eauto|right; done].
Qed.

(** *** Conflicts in [make_nonambiguous_link] and its callers *)

Section PolicyKept.
Context {V : Type}.
Variable p : ConflictAction.

Local Abbreviation policy_is := (λ s : StateMachine V, on_conflict s = p).

Lemma single_conflict_assertion a : single_conflict p (assertion_failed a).
Proof. done. Qed.

Lemma cursor_discreet_transition_conflict fuel n key :
  keeps policy_is (single_conflict p) n
    (cursor_discreet_transition fuel key) (λ _ _, True).
Proof.
  pose proof single_conflict_assertion as Ha.
  unfold cursor_discreet_transition.
  eapply keeps_bind; [by apply keeps_get_cursors|]. intros cs k1 _ _.
  eapply (keeps_bind _ _ _ _ _ (λ _ _, True)).
  { apply keeps_foldM; [done| |done]. intros [[? ?] ?] c k2 _ _ _. keeps_walk. }
  intros [[with_child without_child] with_default] k2 _ _.
  eapply (keeps_bind _ _ _ _ _ (λ _ _, True)).
  { destruct without_child; keeps_walk. }
  intros new_cursors k3 _ _.
  eapply (keeps_bind _ _ _ _ _ (λ _ _, True)).
  { apply keeps_foldM; [done| |done]. intros ? c k4 _ _ _. keeps_walk. }
  intros new_cursors' k4 _ _.
  eapply (keeps_bind _ _ _ _ _ (λ _ _, True)).
  { apply keeps_foldM; [done| |done]. intros [? ?] c k5 _ _ _. keeps_walk.
    eapply keeps_bind; [apply make_nonambiguous_link_conflict|].
    intros. keeps_walk. }
  intros [new_cursors'' clone_tasks] k5 _ _.
  keeps_walk.
Qed.

Lemma match_any_of_conflict utf8 fuel n options :
  keeps policy_is (single_conflict p) n
    (match_any_of utf8 fuel options) (λ _ _, True).
Proof.
  pose proof single_conflict_assertion as Ha.
  unfold match_any_of. keeps_walk.
  eapply (keeps_bind _ _ _ _ _ (λ _ _, True)); [|intros; keeps_walk].
  apply keeps_foldM; [done| |done]. intros ? choice kk _ _ _.
  unfold match_any_of_round. destruct utf8.
  - destruct (utf8_keys choice) as [a'|keys].
    + keeps_walk.
    + eapply (keeps_bind _ _ _ _ _ (λ _ _, True)); [|intros; keeps_walk].
      apply keeps_for_each. intros. apply cursor_discreet_transition_conflict.
  - eapply keeps_bind; [apply cursor_discreet_transition_conflict|].
    intros; keeps_walk.
Qed.

End PolicyKept.

(** *** Conflicts in [match_default] *)

Lemma assoc_get_put_eq k v l : assoc_get k (assoc_put k v l) = v.
Proof.
  induction l as [|[k' v'] l IH]; simpl.
  - by rewrite decide_True.
  - destruct (decide (k' = k)) as [->|]; simpl.
    + by rewrite decide_True.
    + by rewrite decide_False.
Qed.

Lemma def_set_default {V} (n : Node_T V) d :
  d ≠ 0 → def (set_transition Key_T.deflt d n) = d.
Proof.
  intros Hd. unfold def, transition, set_transition. simpl.
  rewrite decide_False by done. apply assoc_get_put_eq.
Qed.

Section MatchDefault.
Context {V : Type}.
Variable p : ConflictAction.
Variable d : nat.
Hypothesis d_nonzero : d ≠ 0.

Lemma match_default_round_outcome (s : StateMachine V) nc errs c :
  on_conflict s = p → 1 ≤ c ≤ length (m_nodes s) →
  ∃ s', match_default_round d (nc, errs) c s =
          Ok (nc ++ option_list (default_skipped p (m_nodes s) c),
              errs ++ option_list (default_collision p (m_nodes s) d c)) s' ∧
    on_conflict s' = p ∧ cursors s' = cursors s ∧
    length (m_nodes s') = length (m_nodes s) ∧
    (∀ i, i ≠ c - 1 → m_nodes s' !! i = m_nodes s !! i) ∧
    default_at (m_nodes s') c = default_left p (m_nodes s) d c.
Proof.
  intros Hp Hc.
  destruct (lookup_lt_is_Some_2 (m_nodes s) (c - 1)) as [n Hn]; [lia|].
  unfold match_default_round, mbind, Build_bind.
  rewrite (get_node_at s c n) by (done || lia).
  unfold default_skipped, default_collision, default_left, default_at.
  rewrite Hn.
  destruct (decide (def n = 0)) as [Hz|Hnz].
  - rewrite (update_node_at s c n) by (done || lia).
    rewrite !decide_False by (by intros [_ ?]). rewrite !app_nil_r.
    eexists. split; [reflexivity|]. simpl.
    split; [done|]. split; [done|]. split; [by rewrite length_insert|].
    split.
    + intros i Hi. by rewrite list_lookup_insert_ne.
    + rewrite list_lookup_insert_eq by (by eapply lookup_lt_Some).
      rewrite def_set_default by done. rewrite decide_True; tauto.
  - unfold get_on_conflict. rewrite Hp. destruct p.
    + rewrite decide_True by done. rewrite decide_False by (by intros [? _]).
      rewrite app_nil_r.
      eexists. split; [reflexivity|]. simpl.
      split; [done|]. split; [done|]. split; [done|]. split; [done|].
      rewrite Hn. rewrite decide_False; [done|]. by intros [?|?].
    + rewrite (update_node_at s c n) by (done || lia).
      rewrite !decide_False by (by intros [? _]). rewrite !app_nil_r.
      eexists. split; [reflexivity|]. simpl.
      split; [done|]. split; [done|]. split; [by rewrite length_insert|].
      split.
      * intros i Hi. by rewrite list_lookup_insert_ne.
      * rewrite list_lookup_insert_eq by (by eapply lookup_lt_Some).
        by rewrite def_set_default.
    + rewrite decide_False by (by intros [? _]). rewrite decide_True by done.
      rewrite app_nil_r.
      eexists. split; [reflexivity|]. simpl.
      split; [done|]. split; [done|]. split; [done|]. split; [done|].
      rewrite Hn. rewrite decide_False; [done|]. by intros [?|?].
Qed.

Lemma foldM_cons {A B} (body : B → A → Build V B) a l b (s : StateMachine V) :
  foldM body (a :: l) b s =
    match body b a s with
    | Ok b' s' => foldM body l b' s'
    | Fail e => Fail e
    end.
Proof. done. Qed.

Lemma omap_cons_option_list {A B} (f : A → option B) a l :
  omap f (a :: l) = option_list (f a) ++ omap f l.
Proof.
  change (omap f (a :: l))
    with (match f a with
          | Some y => y :: omap f l
          | Datatypes.None => omap f l end).
  by destruct (f a).
Qed.

End MatchDefault.

(** *** Runs of builder code, step by step *)

Section Evaluation.
Context {V : Type}.
Implicit Types s : StateMachine V.

Lemma bind_run {A B} (m : Build V A) (f : A → Build V B) s :
  (m ≫= f) s = match m s with Ok a s' => f a s' | Fail e => Fail e end.
Proof. done. Qed.

Lemma ret_run {A} (a : A) s : (mret a : Build V A) s = Ok a s.
Proof. done. Qed.

Lemma get_cursors_run s : get_cursors s = Ok (cursors s) s.
Proof. done. Qed.

Lemma set_cursors_run cs s :
  set_cursors cs s = Ok () (mkMachine (m_nodes s) (on_conflict s) cs).
Proof. done. Qed.

Lemma new_node_run s :
  new_node s =
    Ok (S (length (m_nodes s)))
       (mkMachine (m_nodes s ++ [empty_node]) (on_conflict s) (cursors s)).
Proof. done. Qed.

Lemma foldM_one {A B} (body : B → A → Build V B) a b s :
  foldM body [a] b s = body b a s.
Proof. simpl. rewrite bind_run. by destruct (body b a s). Qed.

Lemma foldM_none {A B} (body : B → A → Build V B) b s :
  foldM body [] b s = Ok b s.
Proof. done. Qed.

End Evaluation.

Lemma transition_set_transition_eq {V} (n : Node_T V) k v :
  v ≠ 0 → transition (set_transition k v n) k = v.
Proof.
  intros Hv. unfold transition, set_transition. simpl.
  rewrite decide_False by done. apply assoc_get_put_eq.
Qed.

(** *** The frame of [make_nonambiguous_link] *)

Lemma assoc_get_put_ne k k' v l :
  k ≠ k' → assoc_get k (assoc_put k' v l) = assoc_get k l.
Proof.
  intros Hne. induction l as [|[k0 v0] l IH]; simpl.
  - by rewrite decide_False.
  - destruct (decide (k0 = k')) as [->|]; simpl.
    + by rewrite !decide_False.
    + by rewrite IH.
Qed.

Lemma assoc_get_del_ne k k' l :
  k ≠ k' → assoc_get k (assoc_del k' l) = assoc_get k l.
Proof.
  intros Hne. unfold assoc_del. induction l as [|[k0 v0] l IH]; simpl; [done|].
  rewrite filter_cons. simpl.
  destruct (decide (k0 ≠ k')) as [H|H]; simpl.
  - by rewrite IH.
  - assert (k0 = k') as -> by (destruct (decide (k0 = k')); tauto).
    by rewrite decide_False.
Qed.

Lemma transition_set_transition_ne {V} (n : Node_T V) k k' v :
  k ≠ k' → transition (set_transition k' v n) k = transition n k.
Proof.
  intros Hne. unfold transition, set_transition. simpl.
  destruct (decide (v = 0)); [by apply assoc_get_del_ne|by apply assoc_get_put_ne].
Qed.

Section Frame.
Context {V : Type}.
Variable N0 : list (Node_T V).
Variable X : nat.
Variable key : Key_T.t.
Variable C0 : list nat.
Variable p0 : ConflictAction.

Lemma frame_push (s : StateMachine V) node :
  length N0 ≤ length (m_nodes s) →
  frame N0 X key C0 p0 s →
  frame N0 X key C0 p0
    (mkMachine (m_nodes s ++ [node]) (on_conflict s) (cursors s)).
Proof.
  intros Hlen (Hc & Hp & Hothers & Hfrom). repeat split; simpl; try done.
  - intros i Hi Hne. rewrite lookup_app_l by lia. by apply Hothers.
  - intros n0 Hn0. destruct (Hfrom n0 Hn0) as (n & Hn & Hv & Hk).
    exists n. split; [|done]. rewrite lookup_app_l; [done|].
    by eapply lookup_lt_Some.
Qed.

Lemma frame_update_fresh (s : StateMachine V) index node :
  length N0 < index →
  frame N0 X key C0 p0 s →
  frame N0 X key C0 p0
    (mkMachine (<[index - 1 := node]> (m_nodes s)) (on_conflict s)
       (cursors s)).
Proof.
  intros Hfresh (Hc & Hp & Hothers & Hfrom). repeat split; simpl; try done.
  - intros i Hi Hne. rewrite list_lookup_insert_ne by lia. by apply Hothers.
  - intros n0 Hn0. destruct (Hfrom n0 Hn0) as (n & Hn & Hv & Hk).
    exists n. split; [|done]. rewrite list_lookup_insert_ne; [done|].
    apply lookup_lt_Some in Hn0. lia.
Qed.

Lemma frame_update_from (s : StateMachine V) node v :
  m_nodes s !! X = Some node →
  frame N0 X key C0 p0 s →
  frame N0 X key C0 p0
    (mkMachine (<[X := set_transition key v node]> (m_nodes s))
       (on_conflict s) (cursors s)).
Proof.
  intros Hnode (Hc & Hp & Hothers & Hfrom). repeat split; simpl; try done.
  - intros i Hi Hne. rewrite list_lookup_insert_ne by done. by apply Hothers.
  - intros n0 Hn0. destruct (Hfrom n0 Hn0) as (n & Hn & Hv & Hk).
    assert (n = node) as -> by congruence.
    exists (set_transition key v node).
    rewrite list_lookup_insert_eq by (by eapply lookup_lt_Some).
    split; [done|]. split; [done|].
    intros k Hne. rewrite transition_set_transition_ne by done. by apply Hk.
Qed.

Lemma make_nonambiguous_link_keeps_frame depth :
  ∀ n from key' to watch,
  length N0 ≤ n →
  length N0 < from ∨ (from = S X ∧ key' = key) →
  keeps (frame N0 X key C0 p0) (λ _, True) n
    (make_nonambiguous_link_rec depth from key' to watch)
    (λ r L, Forall (λ t, n < t ≤ L) r ∧ (watch = [] → r = [])).
Proof.
  induction depth as [|depth IH]; intros n from key' to watch Hn Hfrom; simpl.
  { by apply keeps_fail. }
  assert (Hwrite : ∀ (s : StateMachine V) node v,
    frame N0 X key C0 p0 s → 1 ≤ from →
    m_nodes s !! (from - 1) = Some node →
    frame N0 X key C0 p0
      (mkMachine (<[from - 1 := set_transition key' v node]> (m_nodes s))
         (on_conflict s) (cursors s))).
  { intros s node v Hs H1 Hnode. destruct Hfrom as [Hfresh|[-> ->]].
    - by apply frame_update_fresh.
    - simpl in *. rewrite Nat.sub_0_r in *. by apply frame_update_from. }
  keeps_walk.
  - by apply Hwrite.
  - apply frame_push; [lia|done].
  - apply frame_update_fresh; [lia|done].
  - apply frame_update_fresh; [lia|done].
  - apply frame_update_fresh; [lia|done].
  - apply frame_update_fresh; [lia|done].
  - match goal with H : _ < ?i ≤ _ ∧ _ |- _ =>
      destruct H as [Hi _]; rename i into nidx end.
    eapply (keeps_bind _ _ _ _ _
              (λ r L, Forall (λ t, n < t ≤ L) r ∧ (watch = [] → r = []))).
    + apply keeps_foldM.
      * intros b0 kk LL [Hb Hw] HkL. split; [|done].
        eapply Forall_impl; [exact Hb|]. simpl. intros; lia.
      * intros tracked [key'' reference] kk Hin Hkk [Htr Hw].
        keeps_walk.
        all: try (apply frame_update_fresh; [lia|done]).
        all: try (split; [|done]; eapply Forall_impl; [exact Htr|];
                  simpl; intros; lia).
        eapply keeps_bind; [apply IH; lia|].
        intros res kk' Hkk' [Hres Hresw]. cbv beta in *. apply keeps_ret.
        intros LL HLL. split.
        -- apply Forall_app. split; (eapply Forall_impl; [eassumption|]);
             simpl; intros; lia.
        -- intros ->. by rewrite Hw, Hresw.
      * split.
        -- repeat destruct (decide _); repeat constructor; lia.
        -- intros ->. rewrite decide_False by (by intros ?%elem_of_nil).
           by rewrite decide_False by (by intros ?%elem_of_nil).
    + intros tracked kk Hkk [Htr Hw].
      keeps_walk.
      * by apply Hwrite.
      * split; [|done]. eapply Forall_impl; [exact Htr|]. simpl. intros; lia.
Qed.

End Frame.

(** *** The nodes [make_nonambiguous_link] creates *)

(** The accept record of a node is not touched by calls made once the
    node is there: a call writes accept records to the nodes it
    creates only. *)
Section LinkValue.
Context {V : Type}.
Variable X : nat.
Variable v0 : option (Value_T V).

Local Abbreviation holds :=
  (λ s : StateMachine V, ∃ node, m_nodes s !! X = Some node ∧ value node = v0).

Lemma holds_push (s : StateMachine V) node :
  holds s →
  holds (mkMachine (m_nodes s ++ [node]) (on_conflict s) (cursors s)).
Proof.
  intros (n & Hn & Hv). exists n. split; [|done]. simpl.
  rewrite lookup_app_l; [done|]. by eapply lookup_lt_Some.
Qed.

Lemma holds_update_fresh (s : StateMachine V) index node :
  X < index - 1 → holds s →
  holds (mkMachine (<[index - 1 := node]> (m_nodes s)) (on_conflict s)
           (cursors s)).
Proof.
  intros Hi (n & Hn & Hv). exists n. split; [|done]. simpl.
  rewrite list_lookup_insert_ne by lia. done.
Qed.

Lemma holds_update_edge (s : StateMachine V) index node k v :
  m_nodes s !! (index - 1) = Some node → holds s →
  holds (mkMachine (<[index - 1 := set_transition k v node]> (m_nodes s))
           (on_conflict s) (cursors s)).
Proof.
  intros Hnode (n & Hn & Hv). simpl.
  destruct (decide (index - 1 = X)) as [Heq|Hne].
  - rewrite Heq in *. assert (n = node) as -> by congruence.
    exists (set_transition k v node). split; [|done].
    apply list_lookup_insert_eq. by eapply lookup_lt_Some.
  - exists n. split; [|done]. by rewrite list_lookup_insert_ne.
Qed.

Lemma make_nonambiguous_link_keeps_value depth :
  ∀ n from key to watch, X < n →
  keeps holds (λ _, True) n
    (make_nonambiguous_link_rec depth from key to watch) (λ _ _, True).
Proof.
  induction depth as [|depth IH]; intros n from key to watch Hn; simpl.
  { by apply keeps_fail. }
  keeps_walk.
  - by apply holds_update_edge.
  - by apply holds_push.
  - apply holds_update_fresh; [lia|done].
  - apply holds_update_fresh; [lia|done].
  - apply holds_update_fresh; [lia|done].
  - apply holds_update_fresh; [lia|done].
  - eapply (keeps_bind _ _ _ _ _ (λ _ _, True)).
    + apply keeps_foldM; [done| |done].
      intros tracked [key' reference] kk Hin Hkk _.
      keeps_walk.
      all: try (apply holds_update_fresh; [lia|done]).
      eapply keeps_bind; [apply IH; lia|].
      intros. by apply keeps_ret.
    + intros tracked kk Hkk _. keeps_walk. by apply holds_update_edge.
Qed.

End LinkValue.

Section LinkClone.
Context {V : Type}.
Variables (from to : nat) (key : Key_T.t) (watch : list nat).
Variable s : StateMachine V.
Variables (from_node target_node to_node : Node_T V).
Hypothesis from_in : 1 ≤ from.
Hypothesis from_at : m_nodes s !! (from - 1) = Some from_node.
Hypothesis target_set : transition from_node key ≠ 0.
Hypothesis target_other : transition from_node key ≠ to.
Hypothesis target_at :
  m_nodes s !! (transition from_node key - 1) = Some target_node.
Hypothesis to_in : 1 ≤ to.
Hypothesis to_at : m_nodes s !! (to - 1) = Some to_node.

Local Abbreviation target := (transition from_node key).
Local Abbreviation nidx := (S (length (m_nodes s))).
Local Abbreviation clone :=
  (each_transition (λ (k : Key_T.t) v, if decide (v = target) then nidx else v)
     target_node).

(** The machine once the node in place has been cloned. *)
Local Abbreviation cloned :=
  (mkMachine (m_nodes s ++ [clone]) (on_conflict s) (cursors s)).

Lemma clone_value : value clone = value target_node.
Proof. done. Qed.

(** A call that finds another node in place: the clone is made, and
    the call goes on from the propagation of the accept record. *)
Lemma make_nonambiguous_link_clones depth :
  make_nonambiguous_link_rec (S depth) from key to watch s =
    ((to_node ← get_node to;
      node ← get_node nidx;
      (if value to_node is Some _ then
         if value node is Some _ then
           policy ← get_on_conflict;
           match policy with
           | Error => fail (conflict_panic [value_conflict from to key])
           | Skip => mret ()
           | Overwrite =>
               update_node nidx (λ node,
                 mkNode (transitions node) (value to_node))
           end
         else
           update_node nidx (λ node,
             mkNode (transitions node) (value to_node))
       else mret ());;
      to_node ← get_node to;
      tracked_nodes ←
        foldM (λ tracked_nodes '(key, reference),
          node ← get_node nidx;
          let node_transition := transition node key in
          if decide (node_transition = nidx ∧ reference = 0) then
            update_node nidx (set_transition key target);;
            mret tracked_nodes
          else if decide (reference = to ∧ node_transition = 0) then
            update_node nidx (set_transition key target);;
            mret tracked_nodes
          else if decide (reference = to ∧ node_transition = nidx) then
            mret tracked_nodes
          else if decide (reference = 0) then mret tracked_nodes
          else
            res ← make_nonambiguous_link_rec depth nidx key reference watch;
            mret (tracked_nodes ++ res))
          (get_transitions to_node)
          (if decide (to ∈ watch) then [nidx]
           else if decide (target ∈ watch) then [nidx] else []);
      update_node from (set_transition key nidx);;
      mret tracked_nodes) : Build V (list nat)) cloned.
Proof.
  assert (Htarget_in : 1 ≤ target) by lia.
  assert (Htarget_lt : target - 1 < length (m_nodes s))
    by (by eapply lookup_lt_Some).
  simpl make_nonambiguous_link_rec.
  rewrite decide_False by lia. rewrite decide_False by lia.
  rewrite bind_run, (get_node_at s from from_node from_in from_at).
  cbn beta iota zeta.
  rewrite decide_False by done. rewrite decide_False by done.
  rewrite bind_run, new_node_run. cbn beta iota.
  rewrite bind_run.
  rewrite (get_node_at _ target target_node Htarget_in)
    by (simpl; by rewrite lookup_app_l).
  cbn beta iota. rewrite bind_run.
  erewrite (update_node_at _ nidx empty_node).
  2: lia.
  2:{ simpl. rewrite Nat.sub_0_r, lookup_app_r, Nat.sub_diag by lia. done. }
  cbn beta iota. rewrite bind_run.
  erewrite (update_node_at _ nidx target_node).
  2: lia.
  2:{ simpl. rewrite Nat.sub_0_r.
      apply list_lookup_insert_eq. rewrite length_app. simpl. lia. }
  cbn beta iota. simpl m_nodes. simpl on_conflict. simpl cursors.
  assert (Hstore : ∀ c t : Node_T V,
    <[nidx - 1 := c]> (<[length (m_nodes s) - 0 := t]>
                         (m_nodes s ++ [empty_node])) = m_nodes s ++ [c]).
  { intros c t. replace (nidx - 1) with (length (m_nodes s)) by lia.
    rewrite Nat.sub_0_r, list_insert_insert_eq.
    rewrite insert_app_r_alt, Nat.sub_diag by lia. done. }
  by rewrite Hstore.
Qed.

Lemma cloned_old i : i < length (m_nodes s) →
  m_nodes cloned !! i = m_nodes s !! i.
Proof. intros Hi. simpl. by rewrite lookup_app_l. Qed.

Lemma cloned_new : m_nodes cloned !! length (m_nodes s) = Some clone.
Proof. simpl. by rewrite lookup_app_r, Nat.sub_diag by lia. Qed.

(** Under [Error], two accept records that meet stop the call at once,
    with the one diagnostic. *)
Lemma make_nonambiguous_link_collides depth :
  on_conflict s = Error →
  is_Some (value target_node) → is_Some (value to_node) →
  make_nonambiguous_link_rec (S depth) from key to watch s =
    Fail (conflict_panic [value_conflict from to key]).
Proof.
  intros Hp [vt Hvt] [vto Hvto]. rewrite make_nonambiguous_link_clones.
  assert (Hto_lt : to - 1 < length (m_nodes s)) by (by eapply lookup_lt_Some).
  rewrite bind_run, (get_node_at cloned to to_node to_in)
    by (by rewrite cloned_old).
  cbn beta iota. rewrite bind_run.
  rewrite (get_node_at cloned nidx clone)
    by (lia || (simpl "-"; rewrite Nat.sub_0_r; apply cloned_new)).
  cbn beta iota. rewrite Hvto, clone_value, Hvt.
  rewrite !bind_run. unfold get_on_conflict. simpl on_conflict. by rewrite Hp.
Qed.



(** A call that finds another node in place and returns: the node it
    has created in its place carries the accept records of the two
    merged under the policy, [from] leads to it under [key], and it
    comes first in the list returned when one of the two is watched. *)
Lemma make_nonambiguous_link_stand_in depth r s' :
  make_nonambiguous_link_rec (S depth) from key to watch s = Ok r s' →
  (∃ node', m_nodes s' !! length (m_nodes s) = Some node' ∧
     value node' =
       merged_value (on_conflict s) (value target_node) (value to_node)) ∧
  child_at (m_nodes s') key from = nidx ∧
  S (length (m_nodes s)) ≤ length (m_nodes s') ∧
  ∃ r', r = (if decide (to ∈ watch ∨ target ∈ watch) then [nidx] else [])
            ++ r'.
Proof.
  intros Hrun. rewrite make_nonambiguous_link_clones in Hrun.
  assert (Hto_lt : to - 1 < length (m_nodes s)) by (by eapply lookup_lt_Some).
  assert (Hfrom_lt : from - 1 < length (m_nodes s))
    by (by eapply lookup_lt_Some).
  rewrite bind_run, (get_node_at cloned to to_node to_in) in Hrun
    by (by rewrite cloned_old).
  cbn beta iota in Hrun. rewrite bind_run in Hrun.
  rewrite (get_node_at cloned nidx clone) in Hrun
    by (lia || (simpl "-"; rewrite Nat.sub_0_r; apply cloned_new)).
  cbn beta iota in Hrun. rewrite clone_value in Hrun.
  apply bind_ok in Hrun as ([] & s4 & Hvalue & Hrun).
  (* the accept record of the clone *)
  assert (Hs4 : (∃ node, m_nodes s4 !! length (m_nodes s) = Some node ∧
                   value node =
                     merged_value (on_conflict s) (value target_node)
                       (value to_node)) ∧
                length (m_nodes s4) = S (length (m_nodes s)) ∧
                (∀ i, i < length (m_nodes s) →
                   m_nodes s4 !! i = m_nodes s !! i)).
  { assert (Hkeep : (∃ node, m_nodes cloned !! length (m_nodes s) = Some node ∧
                       value node = value target_node) ∧
                    length (m_nodes cloned) = S (length (m_nodes s)) ∧
                    (∀ i, i < length (m_nodes s) →
                       m_nodes cloned !! i = m_nodes s !! i)).
    { split; [exists clone; split; [apply cloned_new|done]|].
      split; [simpl; rewrite length_app; simpl; lia|apply cloned_old]. }
    assert (Hwrite : ∀ u s4,
      update_node nidx
        (λ node, mkNode (transitions node) (value to_node)) cloned =
        Ok u s4 →
      (∃ node, m_nodes s4 !! length (m_nodes s) = Some node ∧
         value node = value to_node) ∧
      length (m_nodes s4) = S (length (m_nodes s)) ∧
      (∀ i, i < length (m_nodes s) → m_nodes s4 !! i = m_nodes s !! i)).
    { intros u s5 Hu. apply update_node_ok in Hu as (node & _ & Hnode & ->).
      simpl "-" in *. rewrite Nat.sub_0_r in *. simpl.
      split; [|split].
      - exists (mkNode (transitions node) (value to_node)). split; [|done].
        apply list_lookup_insert_eq. rewrite length_app. simpl. lia.
      - rewrite length_insert, length_app. simpl. lia.
      - intros i Hi. rewrite list_lookup_insert_ne by lia.
        by rewrite lookup_app_l. }
    unfold merged_value.
    destruct (value to_node) as [vto|] eqn:Hvto.
    - destruct (value target_node) as [vt|] eqn:Hvt.
      + apply bind_ok in Hvalue as (policy & s3 & [= <- <-] & Hvalue).
        simpl on_conflict in Hvalue.
        destruct (on_conflict s); [|by apply Hwrite in Hvalue|done].
        apply ret_ok in Hvalue as [_ <-]. by rewrite decide_False.
      + by apply Hwrite in Hvalue.
    - apply ret_ok in Hvalue as [_ <-]. done. }
  destruct Hs4 as (Hval4 & Hlen4 & Hold4).
  apply bind_ok in Hrun as (to_node' & s4' & Hget & Hrun).
  apply get_node_ok in Hget as (-> & _ & _).
  apply bind_ok in Hrun as (tracked & s5 & Hloop & Hrun).
  apply bind_ok in Hrun as ([] & s6 & Hlink & Hret).
  apply ret_ok in Hret as [-> ->].
  (* the loop leaves the accept record of the clone alone *)
  set (init := if decide (to ∈ watch) then [nidx]
               else if decide (target ∈ watch) then [nidx] else []) in *.
  match type of Hloop with foldM ?body ?l init s4 = _ =>
    pose proof (foldM_keeps
      (λ (tracked : list nat) (st : StateMachine V),
         (∃ node, m_nodes st !! length (m_nodes s) = Some node ∧
            value node =
              merged_value (on_conflict s) (value target_node)
                (value to_node)) ∧
         S (length (m_nodes s)) ≤ length (m_nodes st) ∧
         ∃ r', tracked = init ++ r')
      (λ _, True) body l) as Hkeeps end.
  lazymatch type of Hkeeps with ?A → _ =>
    assert (Hbody : A); [|specialize (Hkeeps Hbody init s4)] end.
  { intros tracked0 [key0 reference] st _ (Hval & Hlen & r0 & ->).
    assert (Hstep : ∀ v u st',
      update_node nidx (set_transition key0 v) st = Ok u st' →
      (∃ node, m_nodes st' !! length (m_nodes s) = Some node ∧
         value node =
           merged_value (on_conflict s) (value target_node)
             (value to_node)) ∧
      S (length (m_nodes s)) ≤ length (m_nodes st')).
    { intros v u st' Hu.
      apply update_node_ok in Hu as (node & _ & Hnode & ->).
      split; [|simpl; by rewrite length_insert].
      exact (holds_update_edge (length (m_nodes s)) _ st nidx node key0 v
               Hnode Hval). }
    rewrite bind_run.
    destruct (get_node nidx st) as [node st0|] eqn:Hget; [|done].
    apply get_node_ok in Hget as (-> & _ & Hnode). cbn beta iota zeta.
    assert (Hwrite : ∀ v,
      match (update_node nidx (set_transition key0 v) ≫= λ _ : (),
             mret (init ++ r0)) st with
      | Ok b' st' =>
          (∃ node, m_nodes st' !! length (m_nodes s) = Some node ∧
             value node =
               merged_value (on_conflict s) (value target_node)
                 (value to_node)) ∧
          S (length (m_nodes s)) ≤ length (m_nodes st') ∧
          ∃ r', b' = init ++ r'
      | Fail _ => True
      end).
    { intros v. rewrite bind_run.
      destruct (update_node nidx _ st) as [u st'|] eqn:Hu; [|done].
      destruct (Hstep _ _ _ Hu). rewrite ret_run.
      split; [done|]. split; [done|]. by exists r0. }
    assert (Hskip :
      match (mret (init ++ r0) : Build V (list nat)) st with
      | Ok b' st' =>
          (∃ node, m_nodes st' !! length (m_nodes s) = Some node ∧
             value node =
               merged_value (on_conflict s) (value target_node)
                 (value to_node)) ∧
          S (length (m_nodes s)) ≤ length (m_nodes st') ∧
          ∃ r', b' = init ++ r'
      | Fail _ => True
      end).
    { rewrite ret_run. split; [done|]. split; [done|]. by exists r0. }
    destruct (decide (transition node key0 = nidx ∧ reference = 0));
      [apply Hwrite|].
    destruct (decide (reference = to ∧ transition node key0 = 0));
      [apply Hwrite|].
    destruct (decide (reference = to ∧ transition node key0 = nidx));
      [apply Hskip|].
    destruct (decide (reference = 0)); [apply Hskip|].
    rewrite bind_run.
    pose proof (make_nonambiguous_link_keeps_value (length (m_nodes s)) _
                  depth (length (m_nodes st)) nidx key0 reference watch
                  ltac:(lia) st Hval ltac:(lia)) as Hrec.
    destruct (make_nonambiguous_link_rec depth nidx key0 reference watch st)
      as [res st'|]; [|done].
    destruct Hrec as (Hval' & Hlen' & _). rewrite ret_run.
    split; [done|]. split; [lia|]. exists (r0 ++ res).
    by rewrite app_assoc. }
  rewrite Hloop in Hkeeps.
  destruct Hkeeps as (Hval5 & Hlen5 & r' & ->).
  { split; [done|]. split; [lia|]. exists []. by rewrite app_nil_r. }
  apply update_node_ok in Hlink as (node6 & _ & Hnode6 & ->). simpl.
  split; [|split; [|split]].
  - destruct Hval5 as (node & Hnode & Hv). exists node. split; [|done].
    rewrite list_lookup_insert_ne by lia. done.
  - unfold child_at. rewrite list_lookup_insert_eq by (by eapply lookup_lt_Some).
    by apply transition_set_transition_eq.
  - by rewrite length_insert.
  - exists r'. f_equal. unfold init.
    destruct (decide (to ∈ watch)).
    + by rewrite decide_True by (by left).
    + destruct (decide (target ∈ watch)).
      * by rewrite decide_True by (by right).
      * rewrite decide_False; [done|]. tauto.
Qed.

End LinkClone.

Section LinkLogFacts.
Context {V : Type}.
Variable watch : list nat.

Lemma stand_ins_app (log log' : list (Clone V)) :
  stand_ins watch (log ++ log') = stand_ins watch log ++ stand_ins watch log'.
Proof. unfold stand_ins. by rewrite filter_app, map_app. Qed.

Lemma bind_mapped {A B C} (F : B → C) (m : Build V A)
    (f : A → Build V C) (g : A → Build V B) s :
  (∀ a s1, f a s1 = outcome_map F (g a s1)) →
  (m ≫= f) s = outcome_map F ((m ≫= g) s).
Proof.
  intros H. rewrite !bind_run.
  destruct (m s) as [a s1|]; [apply H|done].
Qed.

Lemma bind_mapped_heads {A A' B C} (F : B → C) (G : A' → A)
    (m : Build V A) (m' : Build V A')
    (f : A → Build V C) (g : A' → Build V B) s :
  m s = outcome_map G (m' s) →
  (∀ a s1, f (G a) s1 = outcome_map F (g a s1)) →
  (m ≫= f) s = outcome_map F ((m' ≫= g) s).
Proof.
  intros Hm H. rewrite !bind_run, Hm.
  destruct (m' s) as [a s1|]; [apply H|done].
Qed.

Lemma foldM_mapped {A B C} (F : B → C) (body : C → A → Build V C)
    (body' : B → A → Build V B) l :
  (∀ b a s, a ∈ l → body (F b) a s = outcome_map F (body' b a s)) →
  ∀ b s, foldM body l (F b) s = outcome_map F (foldM body' l b s).
Proof.
  induction l as [|a l IH]; intros Hbody b s; [done|].
  rewrite !foldM_cons, Hbody by (by left).
  destruct (body' b a s) as [b' s'|]; [|done]. simpl.
  apply IH. intros b0 a0 s0 Hin. apply Hbody. by right.
Qed.

(** The call returns the stand-ins of the watched nodes among the nodes
    it records, and is the same call otherwise. *)
Lemma make_nonambiguous_link_by_log depth : ∀ from key to (s : StateMachine V),
  make_nonambiguous_link_rec depth from key to watch s =
    outcome_map (stand_ins watch) (make_nonambiguous_link_log depth from key to s).
Proof.
  induction depth as [|depth IH]; intros from key to s; [done|].
  simpl make_nonambiguous_link_rec. simpl make_nonambiguous_link_log.
  destruct (decide (to = 0)); [done|].
  destruct (decide (from = 0)); [done|].
  apply bind_mapped. intros from_node s1. cbn zeta.
  destruct (decide (transition from_node key = 0)).
  { apply bind_mapped. by intros [] s2. }
  destruct (decide (transition from_node key = to)); [done|].
  apply bind_mapped. intros nidx s2.
  apply bind_mapped. intros target_node s3.
  apply bind_mapped. intros [] s4.
  apply bind_mapped. intros [] s5.
  apply bind_mapped. intros to_node s6.
  apply bind_mapped. intros node s7. cbn zeta.
  apply bind_mapped. intros [] s8.
  apply bind_mapped. intros to_node' s9.
  apply (bind_mapped_heads _ (stand_ins watch)).
  - assert (Hinit :
      (if decide (to ∈ watch) then [nidx]
       else if decide (transition from_node key ∈ watch) then [nidx]
       else []) =
      stand_ins watch
        [mkClone nidx (transition from_node key) from key to
           (value node) (value to_node)]).
    { unfold stand_ins. rewrite filter_cons, filter_nil. simpl.
      destruct (decide (to ∈ watch)).
      - by rewrite decide_True by (by left).
      - destruct (decide (transition from_node key ∈ watch)).
        + by rewrite decide_True by (by right).
        + rewrite decide_False; [done|]. tauto. }
    rewrite Hinit. apply foldM_mapped.
    intros created [key' reference] s10 _.
    apply bind_mapped. intros node' s11. cbn zeta.
    destruct (decide (_ ∧ reference = 0)).
    { apply bind_mapped. by intros [] s12. }
    destruct (decide (reference = to ∧ _)).
    { apply bind_mapped. by intros [] s12. }
    destruct (decide (reference = to ∧ _)); [done|].
    destruct (decide (reference = 0)); [done|].
    apply (bind_mapped_heads _ (stand_ins watch)); [apply IH|].
    intros res s12. rewrite !ret_run. simpl. by rewrite stand_ins_app.
  - intros created s10. apply bind_mapped. by intros [] s11.
Qed.

End LinkLogFacts.

Section LinkLogSound.
Context {V : Type}.
Implicit Types N : list (Node_T V).

Lemma kept_refl L N : kept L N N.
Proof. intros i n _ Hn. by exists n. Qed.

Lemma kept_trans L N N' N'' : kept L N N' → kept L N' N'' → kept L N N''.
Proof.
  intros H1 H2 i n Hi Hn. destruct (H1 i n Hi Hn) as (n' & Hn' & Hv').
  destruct (H2 i n' Hi Hn') as (n'' & Hn'' & Hv''). exists n''.
  split; [done|congruence].
Qed.

Lemma kept_mono L L' N N' : L' ≤ L → kept L N N' → kept L' N N'.
Proof. intros HL H i n Hi. apply H. lia. Qed.

Lemma kept_app L N0 N extra : kept L N0 N → kept L N0 (N ++ extra).
Proof.
  intros H i n Hi Hn. destruct (H i n Hi Hn) as (n' & Hn' & Hv').
  exists n'. split; [|done]. by apply lookup_app_l_Some.
Qed.

Lemma kept_insert_above L N0 N i x :
  L ≤ i → kept L N0 N → kept L N0 (<[i := x]> N).
Proof.
  intros HL H j n Hj Hn. destruct (H j n Hj Hn) as (n' & Hn' & Hv').
  exists n'. split; [|done]. rewrite list_lookup_insert_ne by lia. done.
Qed.

Lemma kept_insert_same L N0 N i n x :
  N !! i = Some n → value x = value n →
  kept L N0 N → kept L N0 (<[i := x]> N).
Proof.
  intros Hi Hx H j n0 Hj Hn0. destruct (H j n0 Hj Hn0) as (n' & Hn' & Hv').
  destruct (decide (i = j)) as [->|Hne].
  - exists x. split; [|congruence].
    apply list_lookup_insert_eq. by eapply lookup_lt_Some.
  - exists n'. split; [|done]. by rewrite list_lookup_insert_ne.
Qed.

Lemma stand_in_of_kept p N N' (c : Clone V) :
  kept (length N) N N' → stand_in_of p N c → stand_in_of p N' c.
Proof.
  intros Hk (Hc & Hof & Hfor).
  assert (Hmove : ∀ i v, (∃ n, N !! i = Some n ∧ value n = v) →
                         ∃ n, N' !! i = Some n ∧ value n = v).
  { intros i v (n & Hn & Hv).
    destruct (Hk i n (lookup_lt_Some _ _ _ Hn) Hn) as (n' & Hn' & Hv').
    exists n'. split; [done|congruence]. }
  split; [by apply Hmove|].
  split; intros Hne; apply Hmove; auto.
Qed.

(** What a call that returns has done, in terms of the nodes it
    records: these are the nodes created, in the order of their
    creation; each carries the accept records of the node it copies and
    of the node linked to, merged under the policy; the accept records
    of the nodes there before are as they were. *)
Lemma make_nonambiguous_link_log_sound depth :
  ∀ from key to (s s' : StateMachine V) log,
  make_nonambiguous_link_log depth from key to s = Ok log s' →
  length (m_nodes s) ≤ length (m_nodes s') ∧
  on_conflict s' = on_conflict s ∧
  kept (length (m_nodes s)) (m_nodes s) (m_nodes s') ∧
  map clone_index log =
    seq (S (length (m_nodes s))) (length (m_nodes s') - length (m_nodes s)) ∧
  Forall (stand_in_of (on_conflict s) (m_nodes s')) log ∧
  ∀ from_node, m_nodes s !! (from - 1) = Some from_node →
    if decide (transition from_node key = 0 ∨ transition from_node key = to)
    then log = []
    else ∃ c rest, log = c :: rest ∧
      clone_index c = S (length (m_nodes s)) ∧
      clone_of c = transition from_node key ∧
      clone_from c = from ∧ clone_key c = key ∧ clone_for c = to ∧
      child_at (m_nodes s') key from = S (length (m_nodes s)).
Proof.
  induction depth as [|depth IH]; intros from key to s s' log Hrun; [done|].
  simpl in Hrun.
  destruct (decide (to = 0)) as [|Hto0]; [done|].
  destruct (decide (from = 0)) as [|Hfrom0]; [done|].
  apply bind_ok in Hrun as (from_node & s0 & Hget & Hrun).
  apply get_node_ok in Hget as (-> & _ & Hfrom). cbn zeta in Hrun.
  destruct (decide (transition from_node key = 0)) as [Ht0|Ht0].
  { apply bind_ok in Hrun as ([] & s1 & Hu & Hret).
    apply ret_ok in Hret as [<- <-].
    apply update_node_ok in Hu as (nf & _ & Hnf & ->). simpl.
    rewrite length_insert, Nat.sub_diag.
    split; [done|]. split; [done|].
    split; [eapply kept_insert_same; [done|done|apply kept_refl]|].
    split; [done|]. split; [done|].
    intros from_node' Hfrom'. assert (from_node' = from_node) as -> by congruence.
    rewrite decide_True by (by left). done. }
  destruct (decide (transition from_node key = to)) as [Htt|Htt].
  { apply ret_ok in Hrun as [<- <-]. rewrite Nat.sub_diag.
    split; [done|]. split; [done|]. split; [apply kept_refl|].
    split; [done|]. split; [done|].
    intros from_node' Hfrom'. assert (from_node' = from_node) as -> by congruence.
    rewrite decide_True by (by right). done. }
  set (len := length (m_nodes s)) in *.
  set (p := on_conflict s) in *.
  set (t := transition from_node key) in *.
  apply bind_ok in Hrun as (nidx & s1 & Hnew & Hrun).
  apply new_node_ok in Hnew as [-> ->]. fold len in Hrun.
  apply bind_ok in Hrun as (target_node & s2 & Hget & Hrun).
  apply get_node_ok in Hget as (-> & Ht1 & Htarget). simpl in Htarget.
  apply bind_ok in Hrun as ([] & s2 & Hu & Hrun).
  apply update_node_ok in Hu as (x1 & _ & _ & ->). simpl in Hrun.
  apply bind_ok in Hrun as ([] & s3 & Hu & Hrun).
  apply update_node_ok in Hu as (x2 & _ & Hx2 & ->). simpl in Hx2, Hrun.
  rewrite Nat.sub_0_r in Hx2, Hrun.
  rewrite list_lookup_insert_eq in Hx2
    by (rewrite length_app; simpl; lia).
  injection Hx2 as <-.
  rewrite list_insert_insert_eq in Hrun.
  rewrite insert_app_r_alt, Nat.sub_diag in Hrun by lia. simpl in Hrun.
  set (copy := each_transition _ target_node) in Hrun.
  set (s4 := mkMachine (m_nodes s ++ [copy]) (on_conflict s) (cursors s))
    in Hrun.
  apply bind_ok in Hrun as (to_node & s4' & Hget & Hrun).
  apply get_node_ok in Hget as (-> & Hto1 & Hto).
  apply bind_ok in Hrun as (node & s4' & Hget & Hrun).
  apply get_node_ok in Hget as (-> & _ & Hnode). simpl in Hnode.
  rewrite Nat.sub_0_r, lookup_app_r, Nat.sub_diag in Hnode by lia.
  injection Hnode as <-. cbn zeta in Hrun.
  set (c0 := mkClone (S len) t from key to (value copy) (value to_node))
    in Hrun.
  apply bind_ok in Hrun as ([] & s5 & Hvalue & Hrun).
  (* the accept record of the copy *)
  assert (Hs5 : length (m_nodes s5) = S len ∧ on_conflict s5 = p ∧
                kept len (m_nodes s) (m_nodes s5) ∧
                stand_in_of p (m_nodes s5) c0).
  { assert (Htarget4 : t ≠ S len → m_nodes s4 !! (t - 1) = Some target_node).
    { intros Hne. apply lookup_lt_Some in Htarget as Hlt.
      rewrite length_app in Hlt. simpl in Hlt. simpl.
      rewrite lookup_app_l in Htarget by lia. by rewrite lookup_app_l by lia. }
    assert (Hbase : ∀ v,
      v = merged_value p (value copy) (value to_node) →
      ∀ n4 : Node_T V,
      stand_in_of p (<[len := mkNode (transitions n4) v]> (m_nodes s ++ [copy]))
        c0).
    { intros v Hv n4. split; [|split]; simpl "-".
      - exists (mkNode (transitions n4) v). split; [|done].
        simpl. rewrite Nat.sub_0_r. apply list_lookup_insert_eq.
        rewrite length_app. simpl. lia.
      - intros Hne. exists target_node. split; [|done]. simpl in Hne.
        rewrite list_lookup_insert_ne by (simpl; lia). by apply Htarget4.
      - intros Hne. exists to_node. split; [|done]. simpl in Hne.
        rewrite list_lookup_insert_ne by (simpl; lia). done. }
    assert (Hsame :
      value copy = merged_value p (value copy) (value to_node) →
      stand_in_of p (m_nodes s4) c0).
    { intros Hv. split; [|split]; simpl.
      - exists copy. split; [|done].
        rewrite Nat.sub_0_r, lookup_app_r, Nat.sub_diag by lia. done.
      - intros Hne. exists target_node. split; [by apply Htarget4|done].
      - intros Hne. by exists to_node. }
    assert (Hwrite : ∀ u st,
      value to_node = merged_value p (value copy) (value to_node) →
      update_node (S len)
        (λ node, mkNode (transitions node) (value to_node)) s4 = Ok u st →
      length (m_nodes st) = S len ∧ on_conflict st = p ∧
      kept len (m_nodes s) (m_nodes st) ∧ stand_in_of p (m_nodes st) c0).
    { intros u st Hv Hu. apply update_node_ok in Hu as (n4 & _ & Hn4 & ->).
      simpl in Hn4. rewrite Nat.sub_0_r in Hn4. simpl.
      split; [rewrite length_insert, length_app; simpl; lia|].
      split; [done|].
      split; [apply kept_insert_above; [lia|]; apply kept_app, kept_refl|].
      rewrite Nat.sub_0_r. by apply Hbase. }
    assert (Hstay :
      value copy = merged_value p (value copy) (value to_node) →
      length (m_nodes s4) = S len ∧ on_conflict s4 = p ∧
      kept len (m_nodes s) (m_nodes s4) ∧ stand_in_of p (m_nodes s4) c0).
    { intros Hv. split; [simpl; rewrite length_app; simpl; lia|].
      split; [done|]. split; [apply kept_app, kept_refl|by apply Hsame]. }
    unfold merged_value in *.
    destruct (value to_node) as [vto|] eqn:Hvto.
    - destruct (value copy) as [vt|] eqn:Hvt.
      + apply bind_ok in Hvalue as (policy & s6 & [= <- <-] & Hvalue).
        simpl on_conflict in Hvalue. fold p in Hvalue.
        destruct p eqn:Hp; [|eapply Hwrite; [done|exact Hvalue]|done].
        apply ret_ok in Hvalue as [_ <-]. by apply Hstay.
      + eapply Hwrite; [done|exact Hvalue].
    - apply ret_ok in Hvalue as [_ <-]. by apply Hstay. }
  destruct Hs5 as (Hlen5 & Hp5 & Hkept5 & Hc0).
  apply bind_ok in Hrun as (to_node' & s6 & Hget & Hrun).
  apply get_node_ok in Hget as (-> & _ & _).
  apply bind_ok in Hrun as (created & s7 & Hloop & Hrun).
  apply bind_ok in Hrun as ([] & s8 & Hu & Hret).
  apply ret_ok in Hret as [-> ->].
  apply update_node_ok in Hu as (n7 & _ & Hn7 & ->). simpl.
  rewrite length_insert.
  match type of Hloop with foldM ?body ?l ?init s5 = _ =>
    pose proof (foldM_keeps
      (λ (created : list (Clone V)) (st : StateMachine V),
         S len ≤ length (m_nodes st) ∧ on_conflict st = p ∧
         kept (S len) (m_nodes s5) (m_nodes st) ∧
         map clone_index created = seq (S len) (length (m_nodes st) - len) ∧
         Forall (stand_in_of p (m_nodes st)) created ∧
         ∃ rest, created = c0 :: rest)
      (λ _, True) body l) as Hkeeps;
    lazymatch type of Hkeeps with ?A → _ =>
      assert (Hbody : A); [|specialize (Hkeeps Hbody init s5)] end end.
  { intros created0 [key0 reference] st _ (Hlen & Hp & Hkept & Hlog & Hall & Hhead).
    assert (Hwrite : ∀ v,
      match (update_node (S len) (set_transition key0 v) ≫= λ _ : (),
             mret created0) st with
      | Ok b' st' =>
          S len ≤ length (m_nodes st') ∧ on_conflict st' = p ∧
          kept (S len) (m_nodes s5) (m_nodes st') ∧
          map clone_index b' = seq (S len) (length (m_nodes st') - len) ∧
          Forall (stand_in_of p (m_nodes st')) b' ∧
          ∃ rest, b' = c0 :: rest
      | Fail _ => True
      end).
    { intros v. rewrite bind_run.
      destruct (update_node (S len) _ st) as [u st'|] eqn:Hu; [|done].
      apply update_node_ok in Hu as (n & _ & Hn & ->). rewrite ret_run. simpl.
      rewrite length_insert.
      split; [done|]. split; [done|].
      split; [by eapply kept_insert_same|]. split; [done|].
      split; [|done].
      eapply Forall_impl; [exact Hall|]. intros c. apply stand_in_of_kept.
      eapply kept_insert_same; [done|done|apply kept_refl]. }
    rewrite bind_run.
    destruct (get_node (S len) st) as [node0 st0|] eqn:Hget; [|done].
    apply get_node_ok in Hget as (-> & _ & _). cbn beta iota zeta.
    destruct (decide (_ ∧ reference = 0)); [apply Hwrite|].
    destruct (decide (reference = to ∧ _)); [apply Hwrite|].
    destruct (decide (reference = to ∧ _)); [by rewrite ret_run|].
    destruct (decide (reference = 0)); [by rewrite ret_run|].
    rewrite bind_run.
    destruct (make_nonambiguous_link_log depth (S len) key0 reference st)
      as [res st'|] eqn:Hrec; [|done].
    apply IH in Hrec as (Hlen' & Hp' & Hkept' & Hres & Hall' & _).
    rewrite ret_run. rewrite Hp in Hall'.
    split; [lia|]. split; [congruence|].
    split; [eapply kept_trans; [exact Hkept|];
            eapply kept_mono; [|exact Hkept']; lia|].
    split.
    { rewrite map_app, Hlog, Hres.
      replace (length (m_nodes st') - len)
        with ((length (m_nodes st) - len) +
              (length (m_nodes st') - length (m_nodes st))) by lia.
      rewrite seq_app. do 2 f_equal. lia. }
    split.
    { apply Forall_app. split; [|done].
      eapply Forall_impl; [exact Hall|]. intros c.
      by apply stand_in_of_kept. }
    destruct Hhead as [rest ->]. by exists (rest ++ res). }
  rewrite Hloop in Hkeeps.
  destruct Hkeeps as (Hlen7 & Hp7 & Hkept7 & Hlog7 & Hall7 & rest & ->).
  { rewrite Hlen5. split; [done|]. split; [done|].
    split; [apply kept_refl|]. split.
    - simpl. by replace (S len - len) with 1 by lia.
    - split; [by constructor|by exists []]. }
  assert (Hfrom7 : from - 1 < length (m_nodes s7))
    by (by eapply lookup_lt_Some).
  split; [lia|]. split; [done|].
  split.
  { eapply kept_insert_same; [done|done|].
    eapply kept_trans; [exact Hkept5|].
    eapply kept_mono; [|exact Hkept7]. lia. }
  split; [done|].
  split.
  { eapply Forall_impl; [exact Hall7|]. intros c. apply stand_in_of_kept.
    eapply kept_insert_same; [done|done|apply kept_refl]. }
  intros from_node' Hfrom'. assert (from_node' = from_node) as -> by congruence.
  fold t. rewrite decide_False by tauto.
  exists c0, rest. repeat (split; [done|]).
  unfold child_at. rewrite list_lookup_insert_eq by done.
  by apply transition_set_transition_eq.
Qed.

End LinkLogSound.

(** C5, as the code has it.  A call
    [make_nonambiguous_link(from, key, to, watch_nodes)] that returns
    leaves cursors and policy alone, only appends to the store, and
    writes to no node that was there before but [from], of which it
    changes the child under [key] and nothing else.  So [to] and the
    nodes reachable from [to] are as they were whenever [from] is not
    one of them.  The list returned is that of the nodes created that
    stand in for a watched node, in the order of their creation: of the
    nodes the call creates, each a copy of the node found in place made
    for a link to another, the indices of those for which one of the
    two is watched.  The nodes created are all the nodes appended to
    the store; each carries the accept records of the two nodes it
    stands in for, merged under the policy.  None is created when
    [from] has no child under [key] or has [to] there; otherwise the
    first is a copy of that child made for the link to [to], and is
    the child of [from] under [key] once the call is over. *)
Theorem make_nonambiguous_link_frame {V} (fuel from : nat) (key : Key_T.t)
    (to : nat) (watch : list nat) (s s' : StateMachine V) (r : list nat) :
  make_nonambiguous_link fuel from key to watch s = Ok r s' →
  (length (m_nodes s) ≤ length (m_nodes s') ∧
   cursors s' = cursors s ∧ on_conflict s' = on_conflict s ∧
   (∀ i, i < length (m_nodes s) → i ≠ from - 1 →
      m_nodes s' !! i = m_nodes s !! i) ∧
   (∀ node, m_nodes s !! (from - 1) = Some node →
      ∃ node', m_nodes s' !! (from - 1) = Some node' ∧
        value node' = value node ∧
        ∀ k, k ≠ key → transition node' k = transition node k) ∧
   ((∀ i, rtc (edge (m_nodes s)) to i → i ≠ from) →
    ∀ i, rtc (edge (m_nodes s)) to i → 1 ≤ i ≤ length (m_nodes s) →
      m_nodes s' !! (i - 1) = m_nodes s !! (i - 1))) ∧
  ∃ log,
    make_nonambiguous_link_log fuel from key to s = Ok log s' ∧
    r = map clone_index
          (filter (λ c, clone_for c ∈ watch ∨ clone_of c ∈ watch) log) ∧
    map clone_index log =
      seq (S (length (m_nodes s)))
        (length (m_nodes s') - length (m_nodes s)) ∧
    Forall (stand_in_of (on_conflict s) (m_nodes s')) log ∧
    ∀ from_node, m_nodes s !! (from - 1) = Some from_node →
      if decide (transition from_node key = 0 ∨ transition from_node key = to)
      then log = []
      else ∃ c rest, log = c :: rest ∧
        clone_index c = S (length (m_nodes s)) ∧
        clone_of c = transition from_node key ∧
        clone_from c = from ∧ clone_key c = key ∧ clone_for c = to ∧
        child_at (m_nodes s') key from = S (length (m_nodes s)).
Proof.
  intros Hrun. split.
  - assert (Hfrom : 1 ≤ from).
    { destruct from; [|lia]. unfold make_nonambiguous_link in Hrun.
      destruct fuel; simpl in Hrun; [done|].
      by destruct (decide (to = 0)). }
    assert (Hinit : frame (m_nodes s) (from - 1) key (cursors s)
                      (on_conflict s) s).
    { repeat split; try done. intros n0 Hn0. exists n0. done. }
    pose proof (make_nonambiguous_link_keeps_frame (m_nodes s) (from - 1) key
                  (cursors s) (on_conflict s) fuel (length (m_nodes s))
                  from key to watch ltac:(lia)
                  ltac:(right; split; [lia|done]) s Hinit ltac:(lia)) as Hk.
    unfold make_nonambiguous_link in Hrun. rewrite Hrun in Hk.
    destruct Hk as ((Hc & Hp & Hothers & Hnode) & Hlen & _).
    repeat split; try done.
    intros Hnot i Hi Hrange. apply Hothers; [lia|].
    specialize (Hnot i Hi). lia.
  - unfold make_nonambiguous_link in Hrun.
    rewrite (make_nonambiguous_link_by_log watch) in Hrun.
    destruct (make_nonambiguous_link_log fuel from key to s)
      as [log s1|e] eqn:Hlog; [|done].
    injection Hrun as <- <-. exists log. split; [done|]. split; [done|].
    by apply make_nonambiguous_link_log_sound in Hlog
      as (_ & _ & _ & Hseq & Hall & Hhead).
Qed.

Lemma make_nonambiguous_link_frame_witness :
  ∃ s' log,
    make_nonambiguous_link 64 1 (Key_T.value 97) 6 [6; 8]
      (two_collisions_machine Skip) = Ok [9; 10] s' ∧
    make_nonambiguous_link_log 64 1 (Key_T.value 97) 6
      (two_collisions_machine Skip) = Ok log s' ∧
    (length (m_nodes (two_collisions_machine Skip)) ≤ length (m_nodes s') ∧
     cursors s' = cursors (two_collisions_machine Skip) ∧
     on_conflict s' = on_conflict (two_collisions_machine Skip) ∧
     (∀ i, i < length (m_nodes (two_collisions_machine Skip)) → i ≠ 1 - 1 →
        m_nodes s' !! i = m_nodes (two_collisions_machine Skip) !! i)) ∧
    [9; 10] =
      map clone_index
        (filter (λ c, clone_for c ∈ [6; 8] ∨ clone_of c ∈ [6; 8]) log) ∧
    Forall (stand_in_of Skip (m_nodes s')) log.
Proof.
  destruct (make_nonambiguous_link 64 1 (Key_T.value 97) 6 [6; 8]
              (two_collisions_machine Skip)) as [r s'|e] eqn:E.
  - assert (Hr : r = [9; 10]) by (vm_compute in E; by injection E as <- _).
    pose proof (make_nonambiguous_link_frame 64 1 (Key_T.value 97) 6 [6; 8]
                  (two_collisions_machine Skip) s' r E)
      as ((H1 & H2 & H3 & H4 & _) & log & Hlog & Hlist & _ & Hall & _).
    exists s', log. rewrite <- Hr.
    exact (conj eq_refl (conj Hlog (conj (conj H1 (conj H2 (conj H3 H4)))
             (conj Hlist Hall)))).
  - vm_compute in E. discriminate E.
Defined.

(** C5 as stated fails when [from] is [to] or lies under it, which is
    how [match_many_optionally] closes a cycle: on the machine
    accepting "b", linking the accepting node 3 to itself under 'b'
    writes the edge into node 3, the [to] of the call; and
    [match_many_optionally] of that same pattern on a new machine
    makes this very call on the node it has just imported. *)
Lemma make_nonambiguous_link_writes_to :
  m_nodes b_machine !! 2 = Some (mkNode [] (Some (mkValue () 0))) ∧
  nodes_after (make_nonambiguous_link 64 3 (Key_T.value 98) 3 [] b_machine)
    !! 2 = Some (mkNode [(Key_T.value 98, 3)] (Some (mkValue () 0))) ∧
  nodes_after (match_many_optionally 64 b_machine (@new_machine ())) =
    [mkNode [(Key_T.value 98, 3)] None;
     mkNode [] None;
     mkNode [(Key_T.value 98, 3)] None].
Proof.
  split; [vm_compute; reflexivity|].
  split; vm_compute; reflexivity.
Qed.

(** *** Collisions and the conflict policy *)

Section MatchDefaultRounds.
Context {V : Type}.
Variable p : ConflictAction.
Variable d : nat.
Hypothesis d_nonzero : d ≠ 0.
Variable N : list (Node_T V).

Lemma default_left_nonzero (nodes : list (Node_T V)) c :
  default_left p nodes d c ≠ 0.
Proof. unfold default_left. destruct (decide _) as [|Hn]; [done|]. tauto. Qed.

Lemma default_left_found (nodes : list (Node_T V)) seen c :
  default_at nodes c = default_found p N d seen c →
  default_left p nodes d c = default_left p N d c.
Proof.
  unfold default_found. destruct (decide (c ∈ seen)); intros Heq.
  - unfold default_left at 1. rewrite Heq.
    pose proof (default_left_nonzero N c) as Hnz.
    destruct (decide _) as [[->|?]|_]; [|done..].
    unfold default_left. by rewrite decide_True by (by left).
  - unfold default_left. by rewrite Heq.
Qed.

Lemma match_default_rounds cs : ∀ seen (s : StateMachine V) nc errs,
  on_conflict s = p → length (m_nodes s) = length N →
  Forall (λ c, 1 ≤ c ≤ length N) cs →
  (∀ c, 1 ≤ c ≤ length N →
     default_at (m_nodes s) c = default_found p N d seen c) →
  ∃ s', foldM (match_default_round d) cs (nc, errs) s =
          Ok (nc ++ omap (round_skipped p) (default_rounds p N d seen cs),
              errs ++ omap (round_collision p d)
                        (default_rounds p N d seen cs)) s' ∧
    on_conflict s' = p ∧ cursors s' = cursors s ∧
    length (m_nodes s') = length N ∧
    ∀ c, 1 ≤ c ≤ length N →
      default_at (m_nodes s') c = default_found p N d (cs ++ seen) c.
Proof.
  induction cs as [|c cs IH]; intros seen s nc errs Hp Hlen Hcs Hinv.
  { exists s. simpl. rewrite !app_nil_r. done. }
  apply Forall_cons in Hcs as [Hc Hcs].
  destruct (match_default_round_outcome p d d_nonzero s nc errs c Hp
              ltac:(lia))
    as (s1 & E1 & Hp1 & Hcur1 & Hlen1 & Hframe1 & Hdef1).
  rewrite foldM_cons, E1. simpl default_rounds.
  rewrite !omap_cons_option_list.
  assert (Hinv1 : ∀ c', 1 ≤ c' ≤ length N →
            default_at (m_nodes s1) c' = default_found p N d (c :: seen) c').
  { intros c' Hc'. destruct (decide (c' = c)) as [->|Hne].
    - rewrite Hdef1. unfold default_found.
      rewrite decide_True by (by left).
      by apply (default_left_found _ seen), Hinv.
    - unfold default_at. rewrite Hframe1 by lia.
      change (default_at (m_nodes s) c' = default_found p N d (c :: seen) c').
      rewrite Hinv by done. unfold default_found.
      destruct (decide (c' ∈ seen)) as [Hin|Hnot].
      + by rewrite decide_True by (by right).
      + rewrite decide_False; [done|].
        intros [?|?]%elem_of_cons; done. }
  match goal with |- context [foldM _ cs (?a, ?b) s1] =>
    destruct (IH (c :: seen) s1 a b Hp1 ltac:(congruence) Hcs Hinv1)
      as (s' & -> & Hp' & Hcur' & Hlen' & Hinv') end.
  exists s'. split; [|split; [done|split; [congruence|split; [done|]]]].
  - rewrite <- !app_assoc. unfold default_skipped, default_collision.
    unfold round_skipped at 1, round_collision at 1. simpl.
    by rewrite (Hinv c Hc).
  - intros c' Hc'. rewrite (Hinv' c' Hc'). unfold default_found.
    simpl. destruct (decide (c' ∈ cs ++ c :: seen)) as [Hin|Hnot].
    + rewrite decide_True; [done|].
      apply elem_of_app in Hin as [Hin|[->|Hin]%elem_of_cons].
      * apply list_elem_of_further, elem_of_app. by left.
      * apply list_elem_of_here.
      * apply list_elem_of_further, elem_of_app. by right.
    + rewrite decide_False; [done|]. intros Hin. apply Hnot.
      apply elem_of_cons in Hin as [->|[Hin|Hin]%elem_of_app].
      * apply elem_of_app. right. apply list_elem_of_here.
      * apply elem_of_app. by left.
      * apply elem_of_app. right. by apply list_elem_of_further.
Qed.

End MatchDefaultRounds.

Lemma match_default_conflicts {V} (s : StateMachine V) :
  cursors_in_store s →
  let d := S (length (m_nodes s)) in
  let rounds := default_rounds (on_conflict s) (m_nodes s) d [] (cursors s) in
  let errors := omap (round_collision (on_conflict s) d) rounds in
  (errors = [] ∧
   ∃ s', match_default s = Ok () s' ∧
     cursors s' = d :: omap (round_skipped (on_conflict s)) rounds ∧
     on_conflict s' = on_conflict s ∧
     Forall (λ c, default_at (m_nodes s') c =
                  default_left (on_conflict s) (m_nodes s) d c) (cursors s)) ∨
  (errors ≠ [] ∧ on_conflict s = Error ∧
   match_default s = Fail (conflict_panic errors)).
Proof.
  intros Hcs d rounds errors.
  set (s1 := mkMachine (m_nodes s ++ [empty_node]) (on_conflict s) (cursors s)).
  (* the rounds are those over the store the new node has been pushed to,
     read at the cursors, which lie below it *)
  set (N := m_nodes s ++ [empty_node : Node_T V]).
  assert (Hat : ∀ c, 1 ≤ c ≤ length (m_nodes s) →
            default_at N c = default_at (m_nodes s) c).
  { intros c Hc. unfold default_at, N. by rewrite lookup_app_l by lia. }
  assert (Hleft : ∀ c, 1 ≤ c ≤ length (m_nodes s) →
            default_left (on_conflict s) N d c =
            default_left (on_conflict s) (m_nodes s) d c).
  { intros c Hc. unfold default_left. by rewrite Hat. }
  assert (Hrounds : ∀ cs seen,
            Forall (λ c, 1 ≤ c ≤ length (m_nodes s)) cs →
            default_rounds (on_conflict s) N d seen cs =
            default_rounds (on_conflict s) (m_nodes s) d seen cs).
  { induction cs as [|c cs IH]; intros seen Hall; [done|].
    apply Forall_cons in Hall as [Hc Hall]. simpl. rewrite IH by done.
    unfold default_found. by rewrite Hat, Hleft. }
  assert (Hcs1 : Forall (λ c, 1 ≤ c ≤ length N) (cursors s)).
  { eapply Forall_impl; [exact Hcs|]. simpl. intros c Hc.
    unfold N. rewrite length_app. simpl. lia. }
  destruct (match_default_rounds (on_conflict s) d ltac:(done) N
              (cursors s) [] s1 [d] [] eq_refl eq_refl Hcs1)
    as (s' & E & Hp' & Hcur' & Hlen' & Hinv').
  { intros c Hc. unfold default_found.
    by rewrite decide_False by (by intros ?%elem_of_nil). }
  rewrite (Hrounds _ _ Hcs) in E. fold rounds in E.
  assert (Hrun : match_default s =
    match errors with
    | [] => set_cursors
              (d :: omap (round_skipped (on_conflict s)) rounds) s'
    | _ => Fail (conflict_panic errors)
    end).
  { unfold match_default, mbind at 1, Build_bind. simpl.
    unfold mbind at 1, Build_bind. simpl.
    unfold mbind at 1, Build_bind. fold s1. fold d. rewrite E. simpl.
    fold errors. by destruct errors. }
  rewrite Hrun. clear Hrun. destruct errors as [|e es] eqn:Herrors.
  - left. split; [done|]. eexists. split; [reflexivity|]. simpl.
    split; [done|]. split; [done|].
    unfold cursors_in_store in Hcs. rewrite Forall_forall in Hcs |- *.
    intros c Hc. pose proof (Hcs c Hc) as Hrange.
    rewrite Hinv'.
    2:{ unfold N. rewrite length_app. simpl. lia. }
    unfold default_found. rewrite app_nil_r. rewrite decide_True by done.
    by apply Hleft.
  - right. split; [done|]. split; [|reflexivity].
    assert (Hin : e ∈ omap (round_collision (on_conflict s) d) rounds).
    { fold errors. rewrite Herrors. by left. }
    apply list_elem_of_omap in Hin as (c & _ & Hc).
    unfold round_collision in Hc. by destruct (decide _) as [[? _]|].
Qed.

Section UnderError.
Context {V : Type}.

(** A step that does not read the policy. *)
Local Abbreviation blind := (λ A (m : Build V A),
  ∀ p s, m (with_policy p s) =
    match m s with
    | Ok a s' => Ok a (with_policy p s')
    | Fail e => Fail e
    end).

Lemma with_policy_same (s : StateMachine V) :
  with_policy (on_conflict s) s = s.
Proof. by destruct s. Qed.

Lemma blind_keeps_policy {A} (m : Build V A) s a s' :
  blind A m → m s = Ok a s' → on_conflict s' = on_conflict s.
Proof.
  intros Hb Hm. pose proof (Hb (on_conflict s) s) as H.
  rewrite with_policy_same, Hm in H. by injection H as ->.
Qed.

Lemma get_node_blind i : blind _ (get_node (V:=V) i).
Proof.
  intros p s. unfold get_node. simpl.
  destruct (decide (i ≤ length (m_nodes s))); [|done].
  destruct i; [done|]. by destruct (m_nodes s !! i).
Qed.

Lemma update_node_blind i f : blind _ (update_node (V:=V) i f).
Proof.
  intros p s. unfold update_node. rewrite get_node_blind.
  by destruct (get_node i s).
Qed.

Lemma new_node_blind : blind _ (new_node (V:=V)).
Proof. done. Qed.

Lemma collisions_app (log log' : list (Clone V)) :
  collisions (log ++ log') = collisions log ++ collisions log'.
Proof. apply filter_app. Qed.

Lemma stops_bind {A} (m : Build V A) (f : A → Build V (list (Clone V))) s :
  blind _ m →
  (∀ a s1, on_conflict s1 = Skip →
     stops_at_first_collision (f a s1) (f a (with_policy Error s1))) →
  on_conflict s = Skip →
  stops_at_first_collision ((m ≫= f) s) ((m ≫= f) (with_policy Error s)).
Proof.
  intros Hb Hf Hs. rewrite !bind_run, Hb.
  destruct (m s) as [a s1|e] eqn:Hm; [|by eexists].
  apply Hf. by rewrite (blind_keeps_policy m s a s1 Hb Hm).
Qed.

Lemma stops_ret (log : list (Clone V)) s :
  collisions log = [] →
  stops_at_first_collision ((mret log : Build V _) s)
    ((mret log : Build V _) (with_policy Error s)).
Proof. intros H. rewrite !ret_run. unfold stops_at_first_collision. by rewrite H. Qed.

(** A loop whose rounds only add to what has been recorded. *)
Lemma foldM_extends {A B} (body : list B → A → Build V (list B)) l :
  (∀ b a s, a ∈ l →
     match body b a s with
     | Ok b' _ => ∃ res, b' = b ++ res
     | Fail _ => True
     end) →
  ∀ b s, match foldM body l b s with
         | Ok b' _ => ∃ res, b' = b ++ res
         | Fail _ => True
         end.
Proof.
  intros Hbody b s.
  apply (foldM_keeps (λ b' _, ∃ res, b' = b ++ res) (λ _, True) body l).
  - intros b0 a s0 Hin [res0 ->]. specialize (Hbody (b ++ res0) a s0 Hin).
    destruct (body (b ++ res0) a s0) as [b' s'|]; [|done].
    destruct Hbody as [res ->]. exists (res0 ++ res). by rewrite app_assoc.
  - exists []. by rewrite app_nil_r.
Qed.

Lemma foldM_stops {A} (body : list (Clone V) → A → Build V (list (Clone V))) l :
  (∀ b a s, a ∈ l →
     match body b a s with
     | Ok b' _ => ∃ res, b' = b ++ res
     | Fail _ => True
     end) →
  (∀ b a s, a ∈ l → on_conflict s = Skip →
     match body b a s with
     | Ok _ s' => on_conflict s' = Skip
     | Fail _ => True
     end) →
  (∀ b a s, a ∈ l → on_conflict s = Skip → collisions b = [] →
     stops_at_first_collision (body b a s) (body b a (with_policy Error s))) →
  ∀ b s, on_conflict s = Skip → collisions b = [] →
    stops_at_first_collision (foldM body l b s)
      (foldM body l b (with_policy Error s)).
Proof.
  induction l as [|a l IH]; intros Hext Hpol Hbody b s Hs Hb.
  { by apply stops_ret. }
  assert (Hext' : ∀ b a0 s, a0 ∈ l →
    match body b a0 s with
    | Ok b' _ => ∃ res, b' = b ++ res
    | Fail _ => True
    end).
  { intros b0 a0 s0 Hin. apply Hext. by right. }
  rewrite !foldM_cons.
  pose proof (Hbody b a s (list_elem_of_here _ _) Hs Hb) as Hstop.
  pose proof (Hpol b a s (list_elem_of_here _ _) Hs) as Hs'.
  unfold stops_at_first_collision in Hstop.
  destruct (body b a s) as [b' s'|e] eqn:Hrun.
  - destruct (collisions b') as [|c cs] eqn:Hcol.
    + rewrite Hstop. apply IH; try done.
      * intros b0 a0 s0 Hin. apply Hpol. by right.
      * intros b0 a0 s0 Hin. apply Hbody. by right.
    + rewrite Hstop.
      pose proof (foldM_extends body l Hext' b' s') as Hfin.
      unfold stops_at_first_collision.
      destruct (foldM body l b' s') as [b'' s''|e'] eqn:Hloop.
      * destruct Hfin as [res ->]. by rewrite collisions_app, Hcol.
      * by eexists.
  - destruct Hstop as [e' ->]. by eexists.
Qed.

(** Under [Error] a call stops at the first collision that the same
    call meets under [Skip], with the diagnostic of that collision;
    without a collision the two calls do the same. *)
Lemma make_nonambiguous_link_log_stops depth :
  ∀ from key to (s : StateMachine V), on_conflict s = Skip →
  stops_at_first_collision
    (make_nonambiguous_link_log depth from key to s)
    (make_nonambiguous_link_log depth from key to (with_policy Error s)).
Proof.
  induction depth as [|depth IH]; intros from key to s Hs.
  { by eexists. }
  simpl make_nonambiguous_link_log.
  destruct (decide (to = 0)) as [|Hto0]; [by eexists|].
  destruct (decide (from = 0)) as [|Hfrom0]; [by eexists|].
  apply stops_bind; [apply get_node_blind| |done].
  intros from_node s1 Hs1. cbn zeta.
  destruct (decide (transition from_node key = 0)).
  { apply stops_bind; [apply update_node_blind| |done].
    intros [] s2 Hs2. by apply stops_ret. }
  destruct (decide (transition from_node key = to)); [by apply stops_ret|].
  apply stops_bind; [apply new_node_blind| |done]. intros nidx s2 Hs2.
  apply stops_bind; [apply get_node_blind| |done]. intros target_node s3 Hs3.
  apply stops_bind; [apply update_node_blind| |done]. intros [] s4 Hs4.
  apply stops_bind; [apply update_node_blind| |done]. intros [] s5 Hs5.
  apply stops_bind; [apply get_node_blind| |done]. intros to_node s6 Hs6.
  apply stops_bind; [apply get_node_blind| |done]. intros node s7 Hs7.
  cbn zeta.
  set (c0 := mkClone nidx (transition from_node key) from key to
               (value node) (value to_node)).
  (* the loop and what follows it, from a record without collision *)
  match goal with
  | |- stops_at_first_collision ((_ ≫= ?rest) s7) _ =>
      assert (Hrest : ∀ s8, on_conflict s8 = Skip → collisions [c0] = [] →
        stops_at_first_collision (rest () s8) (rest () (with_policy Error s8)));
      [|assert (Hhead : ∀ s8 log s',
          rest () s8 = Ok log s' → ∃ more, log = c0 :: more)]
  end.
  { intros s8 Hs8 Hc0.
    apply stops_bind; [apply get_node_blind| |done]. intros to_node' s9 Hs9.
    rewrite !bind_run.
    match goal with
    | |- context [foldM ?body ?l [c0] s9] =>
        pose proof (foldM_stops body l) as Hloop;
        pose proof (foldM_keeps (λ _ st, on_conflict st = Skip) (λ _, True)
                      body l) as Hpolicy
    end.
    lazymatch type of Hloop with ?A → ?B → ?C → _ =>
      assert (Hext : A); [|assert (Hpol : B);
        [|assert (Hbody : C);
          [|specialize (Hloop Hext Hpol Hbody [c0] s9 Hs9 Hc0)]]] end.
    - intros b [key0 reference] s0 _. rewrite bind_run.
      destruct (get_node nidx s0) as [node0 s0'|]; [|done]. cbn beta iota zeta.
      assert (Hwrite : ∀ v,
        match (update_node nidx (set_transition key0 v) ≫= λ _ : (),
               mret b) s0' with
        | Ok b' _ => ∃ res, b' = b ++ res
        | Fail _ => True
        end).
      { intros v. rewrite bind_run.
        destruct (update_node nidx _ s0'); [|done].
        rewrite ret_run. exists []. by rewrite app_nil_r. }
      assert (Hskip : ∃ res : list (Clone V), b = b ++ res)
        by (exists []; by rewrite app_nil_r).
      destruct (decide (_ ∧ reference = 0)); [apply Hwrite|].
      destruct (decide (reference = to ∧ _)); [apply Hwrite|].
      destruct (decide (reference = to ∧ _)); [by rewrite ret_run|].
      destruct (decide (reference = 0)); [by rewrite ret_run|].
      rewrite bind_run.
      destruct (make_nonambiguous_link_log depth nidx key0 reference s0');
        [|done].
      rewrite ret_run. by eexists.
    - intros b [key0 reference] s0 _ Hs0. rewrite bind_run.
      destruct (get_node nidx s0) as [node0 s0'|] eqn:Hget; [|done].
      apply get_node_ok in Hget as (-> & _ & _). cbn beta iota zeta.
      assert (Hwrite : ∀ v,
        match (update_node nidx (set_transition key0 v) ≫= λ _ : (),
               mret b) s0 with
        | Ok _ s' => on_conflict s' = Skip
        | Fail _ => True
        end).
      { intros v. rewrite bind_run.
        destruct (update_node nidx _ s0) as [u s0'|] eqn:Hu; [|done].
        rewrite ret_run.
        by rewrite (blind_keeps_policy _ _ _ _ (update_node_blind _ _) Hu). }
      destruct (decide (_ ∧ reference = 0)); [apply Hwrite|].
      destruct (decide (reference = to ∧ _)); [apply Hwrite|].
      destruct (decide (reference = to ∧ _)); [by rewrite ret_run|].
      destruct (decide (reference = 0)); [by rewrite ret_run|].
      rewrite bind_run.
      destruct (make_nonambiguous_link_log depth nidx key0 reference s0)
        as [res s0'|] eqn:Hrec; [|done].
      apply make_nonambiguous_link_log_sound in Hrec as (_ & Hp & _).
      rewrite ret_run. congruence.
    - intros b [key0 reference] s0 _ Hs0 Hb.
      apply stops_bind; [apply get_node_blind| |done].
      intros node0 s0' Hs0'. cbn zeta.
      assert (Hwrite : ∀ v,
        stops_at_first_collision
          ((update_node nidx (set_transition key0 v) ≫= λ _ : (),
            mret b) s0')
          ((update_node nidx (set_transition key0 v) ≫= λ _ : (),
            mret b) (with_policy Error s0'))).
      { intros v. apply stops_bind; [apply update_node_blind| |done].
        intros [] s1' _. by apply stops_ret. }
      destruct (decide (_ ∧ reference = 0)); [apply Hwrite|].
      destruct (decide (reference = to ∧ _)); [apply Hwrite|].
      destruct (decide (reference = to ∧ _)); [by apply stops_ret|].
      destruct (decide (reference = 0)); [by apply stops_ret|].
      rewrite !bind_run.
      pose proof (IH nidx key0 reference s0' Hs0') as Hrec.
      unfold stops_at_first_collision in Hrec |- *.
      destruct (make_nonambiguous_link_log depth nidx key0 reference s0')
        as [res s1'|]; [|destruct Hrec as [e ->]; by eexists].
      rewrite ret_run, collisions_app, Hb. simpl.
      destruct (collisions res); rewrite Hrec; [by rewrite ret_run|done].
    - specialize (Hpolicy Hpol [c0] s9 Hs9).
      unfold stops_at_first_collision in Hloop |- *.
      destruct (foldM _ _ [c0] s9) as [created s10|];
        [|destruct Hloop as [e ->]; by eexists].
      rewrite bind_run.
      destruct (collisions created) as [|c cs] eqn:Hcol; rewrite Hloop.
      + rewrite bind_run, update_node_blind.
        destruct (update_node from _ s10) as [[] s11|]; [|by eexists].
        by rewrite !ret_run, Hcol.
      + destruct (update_node from _ s10) as [[] s11|]; [|by eexists].
        by rewrite !ret_run, Hcol. }
  { intros s8 log s' Hrun.
    apply bind_ok in Hrun as (to_node' & s9 & _ & Hrun).
    apply bind_ok in Hrun as (created & s10 & Hloop & Hrun).
    apply bind_ok in Hrun as ([] & s11 & _ & Hret).
    apply ret_ok in Hret as [<- _].
    match type of Hloop with foldM ?body ?l [c0] s9 = _ =>
      pose proof (foldM_extends body l) as Hext end.
    lazymatch type of Hext with ?A → _ =>
      assert (Hb : A); [|specialize (Hext Hb [c0] s9)] end.
    - intros b [key0 reference] s0 _. rewrite bind_run.
      destruct (get_node nidx s0) as [node0 s0'|]; [|done]. cbn beta iota zeta.
      assert (Hwrite : ∀ v,
        match (update_node nidx (set_transition key0 v) ≫= λ _ : (),
               mret b) s0' with
        | Ok b' _ => ∃ res, b' = b ++ res
        | Fail _ => True
        end).
      { intros v. rewrite bind_run.
        destruct (update_node nidx _ s0'); [|done].
        rewrite ret_run. exists []. by rewrite app_nil_r. }
      assert (Hskip : ∃ res : list (Clone V), b = b ++ res)
        by (exists []; by rewrite app_nil_r).
      destruct (decide (_ ∧ reference = 0)); [apply Hwrite|].
      destruct (decide (reference = to ∧ _)); [apply Hwrite|].
      destruct (decide (reference = to ∧ _)); [by rewrite ret_run|].
      destruct (decide (reference = 0)); [by rewrite ret_run|].
      rewrite bind_run.
      destruct (make_nonambiguous_link_log depth nidx key0 reference s0');
        [|done].
      rewrite ret_run. by eexists.
    - rewrite Hloop in Hext. destruct Hext as [res ->]. by exists res. }
  (* the accept records of the two nodes *)
  destruct (value to_node) as [vto|] eqn:Hvto.
  - destruct (value node) as [vt|] eqn:Hvt.
    + rewrite !bind_run. unfold get_on_conflict. simpl on_conflict.
      rewrite Hs7. cbn beta iota. rewrite ret_run.
      unfold stops_at_first_collision.
      match goal with |- match ?run with _ => _ end =>
        destruct run as [log s'|] eqn:Hrun; [|by eexists] end.
      apply Hhead in Hrun as [more ->].
      unfold collisions. rewrite filter_cons. simpl.
      done.
    + rewrite !bind_run, update_node_blind.
      destruct (update_node nidx _ s7) as [[] s8|] eqn:Hu; [|by eexists].
      apply Hrest.
      * by rewrite (blind_keeps_policy _ _ _ _ (update_node_blind _ _) Hu).
      * unfold collisions. rewrite filter_cons, filter_nil. simpl.
        done.
  - rewrite !bind_run, !ret_run. apply Hrest; [done|].
    unfold collisions. rewrite filter_cons, filter_nil. simpl.
    rewrite decide_False; [done|]. intros [_ [? [=]]].
Qed.

End UnderError.

(** [match_any_of] on one cursor that has both a default child and a
    child under the key: the two are linked by
    [make_nonambiguous_link], and their accept records meet. *)
Section DefaultedCursor.
Context {V : Type}.
Variables (fuel : nat) (x : Z) (s : StateMachine V) (c : nat).
Variables (node target_node default_node : Node_T V).
Hypothesis one_cursor : cursors s = [c].
Hypothesis cursor_in : 1 ≤ c.
Hypothesis cursor_at : m_nodes s !! (c - 1) = Some node.
Hypothesis default_set : def node ≠ 0.
Hypothesis target_set : transition node (Key_T.value x) ≠ 0.
Hypothesis target_other : transition node (Key_T.value x) ≠ def node.
Hypothesis target_at :
  m_nodes s !! (transition node (Key_T.value x) - 1) = Some target_node.
Hypothesis default_at_ : m_nodes s !! (def node - 1) = Some default_node.

Local Abbreviation key := (Key_T.value x).
Local Abbreviation pushed :=
  (mkMachine (m_nodes s ++ [empty_node]) (on_conflict s) [c]).

Lemma match_any_of_links :
  match_any_of false (S fuel) [x] s =
    match make_nonambiguous_link (S fuel) c key (def node) [def node] pushed with
    | Ok [] _ => Fail (assertion_failed no_replacements_created)
    | Ok (i :: _) s' => Ok () (mkMachine (m_nodes s') (on_conflict s') [i])
    | Fail e => Fail e
    end.
Proof.
  assert (Hlt : c - 1 < length (m_nodes s)) by (by eapply lookup_lt_Some).
  assert (Hnode : m_nodes pushed !! (c - 1) = Some node)
    by (by simpl; rewrite lookup_app_l).
  unfold match_any_of.
  rewrite bind_run, new_node_run. cbn beta iota.
  rewrite bind_run, get_cursors_run. cbn beta iota. simpl cursors.
  rewrite one_cursor.
  rewrite bind_run, foldM_one. unfold match_any_of_round.
  rewrite bind_run.
  unfold cursor_discreet_transition.
  rewrite bind_run, get_cursors_run. cbn beta iota. simpl cursors.
  rewrite bind_run, foldM_one. cbn beta iota.
  rewrite bind_run, (get_node_at pushed c node cursor_in Hnode). cbn beta iota.
  rewrite decide_True by done.
  rewrite ret_run. cbn beta iota. rewrite !app_nil_l.
  rewrite bind_run, ret_run. cbn beta iota.
  rewrite bind_run, foldM_none. cbn beta iota.
  rewrite bind_run, foldM_one. cbn beta iota.
  rewrite bind_run, (get_node_at pushed c node cursor_in Hnode). cbn beta iota.
  rewrite decide_True by done.
  rewrite bind_run.
  destruct (make_nonambiguous_link (S fuel) c key (def node) [def node] pushed)
    as [[|i r] s'|e]; [done| |done].
  rewrite ret_run. cbn beta iota.
  rewrite bind_run. unfold for_each. rewrite foldM_none. cbn beta iota.
  rewrite set_cursors_run. cbn beta iota.
  rewrite bind_run, get_cursors_run. cbn beta iota.
  rewrite bind_run, set_cursors_run. cbn beta iota.
  rewrite ret_run. cbn beta iota. rewrite set_cursors_run. done.
Qed.

(** Under [Error] the call panics, naming the collision. *)
Lemma match_any_of_collides :
  on_conflict s = Error →
  is_Some (value target_node) → is_Some (value default_node) →
  match_any_of false (S fuel) [x] s =
    Fail (conflict_panic [value_conflict c (def node) key]).
Proof.
  intros Hp Ht Hd. rewrite match_any_of_links.
  unfold make_nonambiguous_link.
  assert (Hlt : c - 1 < length (m_nodes s)) by (by eapply lookup_lt_Some).
  assert (Hlt' : transition node key - 1 < length (m_nodes s))
    by (by eapply lookup_lt_Some).
  assert (Hlt'' : def node - 1 < length (m_nodes s))
    by (by eapply lookup_lt_Some).
  rewrite (make_nonambiguous_link_collides c (def node) key [def node] pushed
             node target_node default_node); try done; try lia.
  all: simpl; by rewrite lookup_app_l.
Qed.

(** A call that returns has moved the cursor to a new node, which
    carries the accept records of the two children merged under the
    policy. *)
Lemma match_any_of_merges s' :
  match_any_of false (S fuel) [x] s = Ok () s' →
  cursors s' = [length (m_nodes s) + 2] ∧
  ∃ node', m_nodes s' !! (length (m_nodes s) + 1) = Some node' ∧
    value node' =
      merged_value (on_conflict s) (value target_node) (value default_node).
Proof.
  intros Hrun. rewrite match_any_of_links in Hrun.
  assert (Hlt : c - 1 < length (m_nodes s)) by (by eapply lookup_lt_Some).
  assert (Hlt' : transition node key - 1 < length (m_nodes s))
    by (by eapply lookup_lt_Some).
  assert (Hlt'' : def node - 1 < length (m_nodes s))
    by (by eapply lookup_lt_Some).
  unfold make_nonambiguous_link in Hrun.
  destruct (make_nonambiguous_link_rec (S fuel) c key (def node) [def node]
              pushed) as [r s1|e] eqn:Hlink; [|done].
  apply (make_nonambiguous_link_stand_in c (def node) key [def node] pushed
           node target_node default_node) in Hlink
    as ((node' & Hnode' & Hvalue) & _ & _ & r' & ->);
    try done; try lia; try (simpl; by rewrite lookup_app_l).
  rewrite decide_True in Hrun by (left; by apply list_elem_of_here).
  simpl in Hrun. injection Hrun as <-. simpl.
  simpl in Hnode'. rewrite length_app in Hnode' |- *. simpl in Hnode' |- *.
  split; [f_equal; lia|]. by exists node'.
Qed.

End DefaultedCursor.

(** C6, as the code has it.  [exit_point] gathers every [back_by]
    collision of the call and panics once with all of them under
    [Error], exactly when there is one; under [Skip] it returns with
    every earlier accept record in place, under [Overwrite] it returns
    with every cursor accepting under the new [back_by].
    [match_default] does the same with the default edges, round by
    round over the cursors, a cursor listed twice finding in its second
    round what its first has left: it panics exactly when the policy is
    [Error] and some round finds a default child, with one diagnostic
    per such round; otherwise it returns, [Skip] having kept each
    earlier default child (and moved a cursor there), [Overwrite]
    having replaced it.  [make_nonambiguous_link] does not gather.  Its
    conflict panics arise only under [Error] and carry one diagnostic;
    and under [Error] the call panics exactly when the same call under
    [Skip] creates a node for two nodes that both carry an accept
    record, with the diagnostic of the first such node, and does what
    that call does otherwise.  Whenever the call returns, every node it has
    created carries the accept records of the two nodes it stands in
    for, merged under the policy: the earlier one under [Skip], the
    later one under [Overwrite], when both are there.  [match_any_of]
    goes through [make_nonambiguous_link]: its conflict panics arise
    only under [Error], with one diagnostic; on one cursor with a
    default child and another child under the key, both accepting, it
    panics under [Error] naming this collision, and when it returns the
    cursor is on a new node with the two accept records merged under
    the policy. *)
Theorem conflict_policy_outcomes (b fuel : nat) (s : StateMachine ()) :
  cursors_in_store s →
  match on_conflict s with
  | Error =>
      let errors := omap (back_by_collision (m_nodes s) b) (cursors s) in
      (errors = [] ∧
       ∃ s', exit_point b s = Ok () s' ∧ marked b s s' ∧ accepts_kept s s') ∨
      (errors ≠ [] ∧ exit_point b s = Fail (conflict_panic errors))
  | Skip => ∃ s', exit_point b s = Ok () s' ∧ marked b s s' ∧ accepts_kept s s'
  | Overwrite =>
      ∃ s', exit_point b s = Ok () s' ∧ marked b s s' ∧
        Forall (accepts_with b s') (cursors s)
  end ∧
  (let d := S (length (m_nodes s)) in
   let rounds := default_rounds (on_conflict s) (m_nodes s) d [] (cursors s) in
   let errors := omap (round_collision (on_conflict s) d) rounds in
   (errors = [] ∧
    ∃ s', match_default s = Ok () s' ∧
      cursors s' = d :: omap (round_skipped (on_conflict s)) rounds ∧
      on_conflict s' = on_conflict s ∧
      Forall (λ c, default_at (m_nodes s') c =
                   default_left (on_conflict s) (m_nodes s) d c)
        (cursors s)) ∨
   (errors ≠ [] ∧ on_conflict s = Error ∧
    match_default s = Fail (conflict_panic errors))) ∧
  (∀ from key to watch,
     (∀ ds, make_nonambiguous_link fuel from key to watch s =
              Fail (conflict_panic ds) →
        on_conflict s = Error ∧ ∃ d, ds = [d]) ∧
     (on_conflict s = Error →
      match make_nonambiguous_link_log fuel from key to (with_policy Skip s)
      with
      | Ok log s' =>
          match collisions log with
          | [] =>
              make_nonambiguous_link fuel from key to watch s =
                Ok (stand_ins watch log) (with_policy Error s')
          | c :: _ =>
              make_nonambiguous_link fuel from key to watch s =
                Fail (conflict_panic
                        [value_conflict (clone_from c) (clone_for c)
                           (clone_key c)])
          end
      | Fail _ =>
          ∃ e, make_nonambiguous_link fuel from key to watch s = Fail e
      end) ∧
     (∀ r s', make_nonambiguous_link fuel from key to watch s = Ok r s' →
        ∃ log, make_nonambiguous_link_log fuel from key to s = Ok log s' ∧
          r = stand_ins watch log ∧
          Forall (stand_in_of (on_conflict s) (m_nodes s')) log)) ∧
  (∀ utf8 options ds,
     match_any_of utf8 fuel options s = Fail (conflict_panic ds) →
     on_conflict s = Error ∧ ∃ d, ds = [d]) ∧
  (∀ x c node target_node default_node,
     cursors s = [c] → 1 ≤ c → m_nodes s !! (c - 1) = Some node →
     def node ≠ 0 → transition node (Key_T.value x) ≠ 0 →
     transition node (Key_T.value x) ≠ def node →
     m_nodes s !! (transition node (Key_T.value x) - 1) = Some target_node →
     m_nodes s !! (def node - 1) = Some default_node →
     (on_conflict s = Error →
      is_Some (value target_node) → is_Some (value default_node) →
      match_any_of false (S fuel) [x] s =
        Fail (conflict_panic [value_conflict c (def node) (Key_T.value x)])) ∧
     (∀ s', match_any_of false (S fuel) [x] s = Ok () s' →
        cursors s' = [length (m_nodes s) + 2] ∧
        ∃ node', m_nodes s' !! (length (m_nodes s) + 1) = Some node' ∧
          value node' =
            merged_value (on_conflict s) (value target_node)
              (value default_node))).
Proof.
  intros Hcs. split; [by apply exit_point_conflicts|].
  split; [by apply match_default_conflicts|].
  split; [|split].
  - intros from key to watch. split; [|split].
    + intros ds H.
      pose proof (make_nonambiguous_link_conflict (on_conflict s) fuel 0
                    from key to watch s eq_refl ltac:(lia)) as Hk.
      unfold make_nonambiguous_link in H. rewrite H in Hk. by apply Hk.
    + intros Hp. unfold make_nonambiguous_link.
      rewrite (make_nonambiguous_link_by_log watch).
      assert (Hs : s = with_policy Error (with_policy Skip s)).
      { destruct s. simpl in Hp. by rewrite Hp. }
      pose proof (make_nonambiguous_link_log_stops fuel from key to
                    (with_policy Skip s) eq_refl) as Hstop.
      rewrite <- Hs in Hstop. unfold stops_at_first_collision in Hstop.
      destruct (make_nonambiguous_link_log fuel from key to
                  (with_policy Skip s)) as [log s'|e].
      * destruct (collisions log); by rewrite Hstop.
      * destruct Hstop as [e' ->]. by exists e'.
    + intros r s' Hrun. unfold make_nonambiguous_link in Hrun.
      rewrite (make_nonambiguous_link_by_log watch) in Hrun.
      destruct (make_nonambiguous_link_log fuel from key to s)
        as [log s1|e] eqn:Hlog; [|done].
      injection Hrun as <- <-. exists log. split; [done|]. split; [done|].
      by apply make_nonambiguous_link_log_sound in Hlog
        as (_ & _ & _ & _ & Hall & _).
  - intros utf8 options ds H.
    pose proof (match_any_of_conflict (on_conflict s) utf8 fuel 0 options
                  s eq_refl ltac:(lia)) as Hk.
    rewrite H in Hk. by apply Hk.
  - intros x c node target_node default_node H1 H2 H3 H4 H5 H6 H7 H8. split.
    + by apply (match_any_of_collides fuel x s c node target_node
                  default_node).
    + by apply (match_any_of_merges fuel x s c node target_node
                  default_node).
Qed.

Lemma conflict_policy_outcomes_witness :
  cursors_in_store (default_machine Error) ∧
  exit_point 2 (default_machine Error) =
    Fail (conflict_panic [back_by_conflict 1 1 2]) ∧
  match_default (default_machine Error) =
    Fail (conflict_panic [default_conflict 1 2 3]) ∧
  ((omap (back_by_collision (m_nodes (default_machine Error)) 2)
      (cursors (default_machine Error)) = [] ∧
    ∃ s', exit_point 2 (default_machine Error) = Ok () s' ∧
      marked 2 (default_machine Error) s' ∧
      accepts_kept (default_machine Error) s') ∨
   (omap (back_by_collision (m_nodes (default_machine Error)) 2)
      (cursors (default_machine Error)) ≠ [] ∧
    exit_point 2 (default_machine Error) =
      Fail (conflict_panic
              (omap (back_by_collision (m_nodes (default_machine Error)) 2)
                 (cursors (default_machine Error)))))) ∧
  ((omap (round_collision Error 3)
      (default_rounds Error (m_nodes (default_machine Error)) 3 []
         (cursors (default_machine Error))) = [] ∧
    ∃ s', match_default (default_machine Error) = Ok () s' ∧
      cursors s' =
        3 :: omap (round_skipped Error)
               (default_rounds Error (m_nodes (default_machine Error)) 3 []
                  (cursors (default_machine Error))) ∧
      on_conflict s' = Error ∧
      Forall (λ c, default_at (m_nodes s') c =
                   default_left Error (m_nodes (default_machine Error)) 3 c)
        (cursors (default_machine Error))) ∨
   (omap (round_collision Error 3)
      (default_rounds Error (m_nodes (default_machine Error)) 3 []
         (cursors (default_machine Error))) ≠ [] ∧
    on_conflict (default_machine Error) = Error ∧
    match_default (default_machine Error) =
      Fail (conflict_panic
              (omap (round_collision Error 3)
                 (default_rounds Error (m_nodes (default_machine Error)) 3 []
                    (cursors (default_machine Error))))))).
Proof.
  assert (Hcs : cursors_in_store (default_machine Error)).
  { vm_compute. repeat constructor. }
  split; [exact Hcs|].
  split; [vm_compute; reflexivity|]. split; [vm_compute; reflexivity|].
  pose proof (conflict_policy_outcomes 2 64 (default_machine Error) Hcs)
    as [Hexit [Hdefault _]].
  exact (conj Hexit Hdefault).
Defined.

(** C6 as stated fails for the collisions met in
    [make_nonambiguous_link].  On the machine below,
    [match_any_of({'a'})] fuses the 'a' branch with the default branch
    and meets two colliding accept records, as its run under
    [Overwrite] shows (nodes 10 and 11 end with the [back_by] of the
    default branch, 1 and 3, where [Skip] leaves 2 and 4).  Under
    [Error] the call panics at the first of them, and the panic names
    that one alone. *)
Lemma error_policy_names_first_collision_only :
  match_any_of false 64 [97]%Z (two_collisions_machine Error) =
    Fail (conflict_panic [value_conflict 1 6 (Key_T.value 97)]) ∧
  nodes_after (match_any_of false 64 [97]%Z
                 (two_collisions_machine Overwrite)) !! 9 =
    Some (mkNode [(Key_T.value 120, 11)] (Some (mkValue () 1))) ∧
  nodes_after (match_any_of false 64 [97]%Z
                 (two_collisions_machine Overwrite)) !! 10 =
    Some (mkNode [] (Some (mkValue () 3))) ∧
  nodes_after (match_any_of false 64 [97]%Z
                 (two_collisions_machine Skip)) !! 9 =
    Some (mkNode [(Key_T.value 120, 11)] (Some (mkValue () 2))) ∧
  nodes_after (match_any_of false 64 [97]%Z
                 (two_collisions_machine Skip)) !! 10 =
    Some (mkNode [] (Some (mkValue () 4))).
Proof. by_evaluation. Qed.

(** *** The target node of [match_any_of] *)

Lemma assoc_get_zero_or_elem k l :
  assoc_get k l = 0 ∨ (k, assoc_get k l) ∈ l.
Proof.
  induction l as [|[k' v] l IH]; simpl; [by left|].
  destruct (decide (k' = k)) as [->|].
  - right. apply list_elem_of_here.
  - destruct IH; [by left|right]. by apply list_elem_of_further.
Qed.

Lemma Forall_assoc_put (Q : Key_T.t * nat → Prop) k v l :
  Forall Q l → Q (k, v) → Forall Q (assoc_put k v l).
Proof.
  intros Hl Hkv. induction Hl as [|[k' v'] l H Hl IH]; simpl.
  - by constructor.
  - destruct (decide (k' = k)); constructor; done.
Qed.

Lemma Forall_filter_keep {A} (Q : A → Prop) (P : A → Prop)
    `{∀ x, Decision (P x)} (l : list A) :
  Forall Q l → Forall Q (filter P l).
Proof.
  rewrite !Forall_forall. intros Hl x Hx.
  apply list_elem_of_filter in Hx as [_ Hx]. by apply Hl.
Qed.

Lemma Forall_map_each {A B} (Q : B → Prop) (f : A → B) (l : list A) :
  Forall (λ x, Q (f x)) l → Forall Q (map f l).
Proof. induction 1; simpl; by constructor. Qed.

Section Untouched.
Context {V : Type}.
Variable t : nat.

Lemma avoids_transition (node : Node_T V) k :
  1 ≤ t → avoids t node → transition node k ≠ t.
Proof.
  intros Ht Hav. unfold transition.
  destruct (assoc_get_zero_or_elem k (transitions node)) as [->|Hin]; [lia|].
  unfold avoids in Hav. rewrite Forall_forall in Hav. apply (Hav _ Hin).
Qed.

Lemma avoids_set_transition (node : Node_T V) k v :
  avoids t node → v ≠ t → avoids t (set_transition k v node).
Proof.
  intros Hav Hv. unfold avoids, set_transition. simpl.
  destruct (decide (v = 0)).
  - unfold assoc_del. by apply Forall_filter_keep.
  - by apply Forall_assoc_put.
Qed.

Lemma avoids_each_transition (node : Node_T V) (f : Key_T.t → nat → nat) :
  avoids t node → (∀ k v, v ≠ t → f k v ≠ t) →
  avoids t (each_transition f node).
Proof.
  intros Hav Hf. unfold avoids, each_transition. simpl.
  apply Forall_filter_keep, Forall_map_each.
  eapply Forall_impl; [exact Hav|]. intros [k v]. simpl. apply Hf.
Qed.

Lemma avoids_with_value (node : Node_T V) (v : option (Value_T V)) :
  avoids t node → avoids t (mkNode (transitions node) v).
Proof. done. Qed.

Lemma untouched_read (s : StateMachine V) i node :
  untouched t s → m_nodes s !! i = Some node → avoids t node.
Proof. intros (_ & _ & H & _). apply H. Qed.

Lemma untouched_push (s : StateMachine V) :
  untouched t s →
  untouched t
    (mkMachine (m_nodes s ++ [empty_node]) (on_conflict s) (cursors s)).
Proof.
  intros (Ht & Hnode & Hav & Hcs). repeat split; simpl; try done.
  - lia.
  - rewrite length_app. lia.
  - rewrite lookup_app_l by lia. done.
  - intros i node Hi. apply lookup_app_Some in Hi as [Hi|[_ Hi]].
    + by eapply Hav.
    + apply list_lookup_singleton_Some in Hi as [_ <-]. constructor.
Qed.

Lemma untouched_update (s : StateMachine V) index node :
  untouched t s → index ≠ t → 1 ≤ index → avoids t node →
  untouched t
    (mkMachine (<[index - 1 := node]> (m_nodes s)) (on_conflict s)
       (cursors s)).
Proof.
  intros (Ht & Hnode & Hav & Hcs) Hne H1 Hnew. repeat split; simpl; try done.
  - lia.
  - rewrite length_insert. lia.
  - rewrite list_lookup_insert_ne by lia. done.
  - intros i node' Hi.
    destruct (decide (i = index - 1)) as [->|Hi'].
    + apply list_lookup_insert_Some in Hi as [(_ & <- & _)|[? _]]; done.
    + rewrite list_lookup_insert_ne in Hi by done. by eapply Hav.
Qed.

Lemma untouched_set_cursors (s : StateMachine V) cs :
  untouched t s → Forall (λ c, c ≠ t) cs →
  untouched t (mkMachine (m_nodes s) (on_conflict s) cs).
Proof. intros (Ht & Hnode & Hav & Hcs) Hnew. done. Qed.

End Untouched.

(** What the walk has learnt is put to use: nodes read from a machine
    that left [t] alone avoid [t], and so do their children. *)
Ltac untouched_facts :=
  repeat match goal with
  | H : ∃ _, _ |- _ => destruct H as (? & ? & ?)
  | H : _ ∧ _ |- _ => destruct H
  end;
  repeat match goal with
  | Hs : untouched ?t ?s, Hn : m_nodes ?s !! _ = Some ?node |- _ =>
      lazymatch goal with
      | _ : avoids t node |- _ => fail
      | _ => pose proof (untouched_read t s _ node Hs Hn)
      end
  end.

Ltac index_side t :=
  first [ lia | assumption
        | apply avoids_transition; [lia || assumption | assumption] ].

Ltac avoids_side t :=
  first
  [ assumption
  | apply avoids_set_transition; [assumption|index_side t]
  | apply avoids_each_transition;
      [assumption|intros; destruct (decide _); index_side t]
  | apply avoids_with_value; assumption ].

Ltac untouched_side :=
  untouched_facts;
  lazymatch goal with
  | |- untouched ?t _ =>
      first
      [ apply untouched_push; assumption
      | apply untouched_set_cursors; [assumption|]
      | apply untouched_update;
          [assumption|index_side t|index_side t|avoids_side t] ]
  end.

Section UntouchedWalk.
Context {V : Type}.
Variable t : nat.
Hypothesis t_positive : 1 ≤ t.

Local Abbreviation anything := (λ _ : Failure, True).

Lemma make_nonambiguous_link_untouched depth :
  ∀ n from key to watch,
  t ≤ n → from ≠ t → to ≠ t →
  keeps (V:=V) (untouched t) anything n
    (make_nonambiguous_link_rec depth from key to watch)
    (λ r _, Forall (λ x, x ≠ t) r).
Proof.
  induction depth as [|depth IH]; intros n from key to watch Hn Hfrom Hto;
    simpl.
  { by apply keeps_fail. }
  keeps_walk.
  all: try untouched_side.
  eapply (keeps_bind _ _ _ _ _ (λ r _, Forall (λ x, x ≠ t) r)).
  - apply keeps_foldM; [done| |].
    + intros tracked [key' reference] kk Hin Hkk Htr. keeps_walk.
      all: try untouched_side.
      eapply keeps_bind.
      * apply IH; [lia| |]; untouched_facts; [lia|].
        match goal with
        | Hav : avoids t ?node, Hin : _ ∈ get_transitions ?node |- _ =>
            unfold avoids in Hav; rewrite Forall_forall in Hav;
            apply (Hav _ Hin)
        end.
      * intros res kk' Hkk' Hres. cbv beta in *. apply keeps_ret.
        intros _ _. by apply Forall_app.
    + untouched_facts. repeat destruct (decide _); repeat constructor; lia.
  - intros tracked kk Hkk Htr. keeps_walk. untouched_side.
Qed.

Lemma cursor_discreet_transition_untouched fuel n key :
  t ≤ n →
  keeps (V:=V) (untouched t) anything n
    (cursor_discreet_transition fuel key) (λ _ _, True).
Proof.
  intros Hn. unfold cursor_discreet_transition.
  eapply keeps_bind; [by apply keeps_get_cursors|]. intros cs k1 Hk1 Hcs.
  assert (Hcs' : Forall (λ c, c ≠ t) cs).
  { destruct Hcs as (s & Hs & ->). apply Hs. }
  clear Hcs.
  set (three := λ (parts : list nat * list nat * list nat) (_ : nat),
         Forall (λ c, c ≠ t) parts.1.1 ∧ Forall (λ c, c ≠ t) parts.1.2 ∧
         Forall (λ c, c ≠ t) parts.2).
  eapply (keeps_bind _ _ _ _ _ three).
  { apply keeps_foldM; [done| |done].
    intros [[wc woc] wd] c k2 Hc Hk2 (H1 & H2 & H3). simpl in *.
    rewrite Forall_forall in Hcs'. specialize (Hcs' c Hc).
    keeps_walk; intros; repeat split; simpl; try done;
      apply Forall_app; split; try done; by constructor. }
  intros [[with_child without_child] with_default] k2 Hk2 (Hwc & Hwoc & Hwd).
  simpl in Hwc, Hwoc, Hwd.
  eapply (keeps_bind _ _ _ _ _ (λ r _, Forall (λ c, c ≠ t) r)).
  { destruct without_child as [|c0 rest]; [by apply keeps_ret|].
    keeps_walk.
    - untouched_side.
    - rewrite Forall_forall in Hwoc.
      match goal with H : _ ∈ _ |- _ => specialize (Hwoc _ H) end.
      untouched_side.
    - intros; untouched_facts; repeat constructor; lia. }
  intros new_cursors k3 Hk3 Hnc.
  eapply (keeps_bind _ _ _ _ _ (λ r _, Forall (λ c, c ≠ t) r)).
  { apply keeps_foldM; [done| |done].
    intros nc c k4 Hc Hk4 Hnc'. rewrite Forall_forall in Hwc.
    specialize (Hwc c Hc). keeps_walk.
    all: try untouched_side.
    all: intros; untouched_facts; apply Forall_app; split; [done|];
      repeat constructor; lia. }
  intros new_cursors' k4 Hk4 Hnc'.
  set (two := λ (r : list nat * list (nat * nat)) (_ : nat),
         Forall (λ c, c ≠ t) r.1 ∧ Forall (λ ci, ci.1 ≠ t ∧ ci.2 ≠ t) r.2).
  eapply (keeps_bind _ _ _ _ _ two).
  { apply keeps_foldM; [done| |done].
    intros [nc tasks] c k5 Hc Hk5 [Hnc'' Htasks]. simpl in *.
    rewrite Forall_forall in Hwd. specialize (Hwd c Hc). keeps_walk.
    - eapply keeps_bind.
      + apply make_nonambiguous_link_untouched; [lia|done|].
        untouched_facts. index_side t.
      + intros [|r rs] k6 Hk6 Hr; cbv beta in *; keeps_walk.
        intros. split; simpl; [|done]. apply Forall_app. split; [done|].
        apply Forall_cons in Hr as [Hr _]. by repeat constructor.
    - untouched_side.
    - untouched_side.
    - intros. untouched_facts. split; simpl.
      + apply Forall_app. split; [done|]. repeat constructor. lia.
      + apply Forall_app. split; [done|]. repeat constructor; simpl; [lia|].
        unfold def. index_side t. }
  intros [new_cursors'' clone_tasks] k5 Hk5 [Hnc'' Htasks].
  simpl in Hnc'', Htasks.
  eapply (keeps_bind _ _ _ _ _ (λ _ _, True)).
  { apply keeps_for_each. intros [ci_node ci_from] k6 Hin Hk6.
    rewrite Forall_forall in Htasks. destruct (Htasks _ Hin) as [H1 H2].
    simpl in *. keeps_walk. untouched_side. }
  intros _ k6 Hk6 _. keeps_walk. untouched_side. done.
Qed.

End UntouchedWalk.

Section Target.
Context {V : Type}.

Lemma match_any_of_round_untouched t utf8 fuel n initial_cursors
    new_cursors choice :
  1 ≤ t → t ≤ n → Forall (λ c, c ≠ t) initial_cursors →
  Forall (λ c, c ≠ t) new_cursors →
  keeps (V:=V) (untouched t) (λ _, True) n
    (match_any_of_round utf8 fuel initial_cursors new_cursors choice)
    (λ r _, Forall (λ c, c ≠ t) r).
Proof.
  intros Ht Hn Hinit Hnc. unfold match_any_of_round.
  eapply (keeps_bind _ _ _ _ _ (λ _ _, True)).
  - destruct utf8.
    + destruct (utf8_keys choice) as [a|keys]; [by apply keeps_fail|].
      apply keeps_for_each. intros key k' _ Hk'.
      apply cursor_discreet_transition_untouched; [done|lia].
    + apply cursor_discreet_transition_untouched; [done|lia].
  - intros _ k' Hk' _. keeps_walk.
    + untouched_side. done.
    + intros. untouched_facts. apply Forall_app. split; [done|].
      subst. match goal with H : untouched t _ |- _ => apply H end.
Qed.

Lemma no_edge_into_untouched t (s : StateMachine V) a :
  untouched t s → ¬ edge (m_nodes s) a t.
Proof.
  intros Hs (node & k & Ha & Hnode & Hk & _).
  destruct Hs as ([Ht _] & _ & Hav & _).
  by apply (avoids_transition t node k Ht (Hav _ _ Hnode)).
Qed.

Lemma match_any_of_target utf8 fuel options (s s' : StateMachine V) :
  store_wf (m_nodes s) → cursors_in_store s →
  match_any_of utf8 fuel options s = Ok () s' →
  untouched (S (length (m_nodes s))) s' ∧
  (options = [] →
   m_nodes s' = m_nodes s ++ [empty_node] ∧ cursors s' = []).
Proof.
  intros [Hne Hwf] Hcs Hrun. set (t := S (length (m_nodes s))).
  split.
  - assert (Hpushed : untouched t (mkMachine (m_nodes s ++ [empty_node])
                                     (on_conflict s) (cursors s))).
    { unfold t. split; [simpl; rewrite length_app; simpl; lia|].
      split; [simpl; rewrite Nat.sub_0_r; by apply list_lookup_middle|].
      split; simpl.
      - intros i node Hi. apply lookup_app_Some in Hi as [Hi|[_ Hi]].
        + rewrite Forall_forall in Hwf.
          specialize (Hwf node (list_elem_of_lookup_2 _ _ _ Hi)).
          eapply Forall_impl; [exact Hwf|]. simpl. intros; lia.
        + apply list_lookup_singleton_Some in Hi as [_ <-]. constructor.
      - eapply Forall_impl; [exact Hcs|]. simpl. intros; lia. }
    assert (Hrest : keeps (V:=V) (untouched t) (λ _, True) t
              (get_cursors ≫= λ initial_cursors,
               foldM (match_any_of_round utf8 fuel initial_cursors)
                 options [] ≫= λ new_cursors,
               set_cursors new_cursors) (λ _ _, True)).
    { eapply keeps_bind; [by apply keeps_get_cursors|].
      intros initial k Hk Hinit.
      assert (Hinit' : Forall (λ c, c ≠ t) initial).
      { destruct Hinit as (s0 & Hs0 & ->). apply Hs0. }
      eapply (keeps_bind _ _ _ _ _ (λ r _, Forall (λ c, c ≠ t) r)).
      - apply keeps_foldM; [done| |done]. intros nc choice k' _ Hk' Hnc.
        apply match_any_of_round_untouched; [unfold t|..]; (lia || done).
      - intros nc k' Hk' Hnc. keeps_walk. by apply untouched_set_cursors. }
    unfold match_any_of in Hrun.
    apply bind_ok in Hrun as (tidx & s1 & Hnew & Hrun).
    apply new_node_ok in Hnew as [_ ->]. cbv beta in Hrun.
    specialize (Hrest _ Hpushed). rewrite Hrun in Hrest.
    apply Hrest. simpl. rewrite length_app. simpl. unfold t. lia.
  - intros ->. unfold match_any_of in Hrun. simpl in Hrun.
    by injection Hrun as <-.
Qed.

End Target.

(** C8. A call of [match_any_of] that returns has appended its target
    node right behind the nodes held before, so the store has grown,
    also when every transition asked for was there already; the target
    is still the empty node, structurally null; no node has an edge to
    it, which leaves it unreachable from the root; no cursor stands on
    it; and without options it is the only node appended. *)
Theorem match_any_of_leaves_target_unused {V} (utf8 : bool) (fuel : nat)
    (options : list Z) (s s' : StateMachine V) :
  store_wf (m_nodes s) → cursors_in_store s →
  match_any_of utf8 fuel options s = Ok () s' →
  length (m_nodes s) < length (m_nodes s') ∧
  m_nodes s' !! length (m_nodes s) = Some empty_node ∧
  is_null (@empty_node V) = true ∧
  (∀ a, ¬ edge (m_nodes s') a (S (length (m_nodes s)))) ∧
  (¬ rtc (edge (m_nodes s')) 1 (S (length (m_nodes s)))) ∧
  (S (length (m_nodes s)) ∉ cursors s') ∧
  (options = [] →
   m_nodes s' = m_nodes s ++ [empty_node] ∧ cursors s' = []).
Proof.
  intros Hwf Hcs Hrun.
  destruct (match_any_of_target utf8 fuel options s s' Hwf Hcs Hrun)
    as [Hun Hnone].
  pose proof Hun as ([_ Hlen] & Hnode & _ & Hcur).
  simpl in Hnode. rewrite Nat.sub_0_r in Hnode.
  split; [lia|]. split; [done|]. split; [done|].
  split; [intros a; by apply no_edge_into_untouched|].
  split; [|split; [|done]].
  - intros Hreach. apply rtc_inv_r in Hreach as [Heq|(a & _ & He)].
    + destruct Hwf as [Hne _]. destruct (m_nodes s); [done|]. simpl in Heq.
      lia.
    + by apply (no_edge_into_untouched _ _ a Hun).
  - intros Hin. rewrite Forall_forall in Hcur. by apply (Hcur _ Hin).
Qed.

Lemma match_any_of_leaves_target_unused_witness :
  store_wf (m_nodes a_root_machine) ∧ cursors_in_store a_root_machine ∧
  length (m_nodes a_root_machine) = 3 ∧
  ∃ s', match_any_of false 64 [97]%Z a_root_machine = Ok () s' ∧
    length (m_nodes s') = 5 ∧
    length (m_nodes a_root_machine) < length (m_nodes s') ∧
    m_nodes s' !! length (m_nodes a_root_machine) = Some empty_node ∧
    (∀ a, ¬ edge (m_nodes s') a (S (length (m_nodes a_root_machine)))) ∧
    (S (length (m_nodes a_root_machine)) ∉ cursors s').
Proof.
  assert (Hwf : store_wf (m_nodes a_root_machine)) by store_wf_by_evaluation.
  assert (Hcs : cursors_in_store a_root_machine).
  { vm_compute. repeat constructor. }
  split; [exact Hwf|]. split; [exact Hcs|]. split; [by_evaluation|].
  destruct (match_any_of false 64 [97]%Z a_root_machine) as [[] s'|e] eqn:E.
  - exists s'. split; [reflexivity|].
    split; [vm_compute in E; by injection E as <-|].
    pose proof (match_any_of_leaves_target_unused false 64 [97]%Z
                  a_root_machine s' Hwf Hcs E)
      as (H1 & H2 & _ & H4 & _ & H6 & _).
    exact (conj H1 (conj H2 (conj H4 H6))).
  - vm_compute in E. discriminate E.
Defined.

(** ** [matches] against the walk of the input *)

Section MatchesFacts.
Context {V : Type}.
Variable nodes : list (Node_T V).
Hypothesis nodes_wf : store_wf nodes.

Lemma walk_within_store bytes : ∀ cur n,
  1 ≤ cur ≤ length nodes → walk nodes cur bytes = Some n →
  1 ≤ n ≤ length nodes.
Proof.
  induction bytes as [|c rest IH]; intros cur n Hcur; simpl.
  - by intros [= <-].
  - destruct (nodes !! (cur - 1)) as [node|] eqn:Hnode; [|done].
    destruct (decide (rt_get_transition node c = 0)); [done|].
    apply IH.
    pose proof (rt_get_transition_within_store nodes _ node c nodes_wf Hnode).
    lia.
Qed.

Lemma matches_loop_walks mode rest : ∀ cur count,
  1 ≤ cur ≤ length nodes →
  matches_loop false mode nodes rest cur count =
    match walk nodes cur rest with
    | Some n => inr (n, count)
    | None => inl (match_value None)
    end.
Proof.
  induction rest as [|c rest IH]; intros cur count Hcur; simpl; [done|].
  destruct (lookup_lt_is_Some_2 nodes (cur - 1)) as [node Hnode]; [lia|].
  rewrite Hnode.
  destruct (decide (utf_validator.None ≠ utf_validator.None)); [done|].
  destruct (decide (rt_get_transition node c = 0)) as [Hz|Hnz].
  - by rewrite decide_False by (by intros ?).
  - rewrite decide_True by done. apply IH.
    pose proof (rt_get_transition_within_store nodes _ node c nodes_wf Hnode).
    lia.
Qed.

Lemma root_in_store : 1 ≤ 1 ≤ length nodes.
Proof. destruct nodes_wf as [Hne _]. destruct nodes; [done|simpl; lia]. Qed.

End MatchesFacts.

Lemma matches_walk_verdict {V} (mode : MatchErrorMode) (include_eof : bool)
    (nodes : list (Node_T V)) (input : list Z) :
  store_wf nodes →
  matches false mode include_eof nodes input =
    match_value (n ← walk nodes 1 input; verdict include_eof nodes n).
Proof.
  intros Hwf. unfold matches, verdict.
  rewrite (matches_loop_walks nodes Hwf mode input 1 0 (root_in_store nodes Hwf)).
  destruct (walk nodes 1 input) as [n|] eqn:Hwalk; simpl; [|done].
  pose proof (walk_within_store nodes Hwf input 1 n (root_in_store nodes Hwf)
                Hwalk) as Hn.
  destruct (decide (utf_validator.None ≠ utf_validator.None)); [done|].
  destruct (lookup_lt_is_Some_2 nodes (n - 1)) as [node Hnode]; [lia|].
  destruct include_eof; simpl.
  - unfold eof_child. rewrite Hnode. simpl.
    destruct (decide (get_eof node = 0)) as [Hz|Hnz].
    + by rewrite decide_False by (by intros ?).
    + rewrite decide_True by done. simpl. unfold accept_at.
      assert (get_eof node ≤ length nodes)
        by (eapply transition_within_store; eauto).
      destruct (lookup_lt_is_Some_2 nodes (get_eof node - 1)) as [node' Hnode'];
        [lia|].
      by rewrite Hnode'.
  - unfold accept_at. by rewrite Hnode.
Qed.

(** X1. Without UTF-8 validation, [matches] on a well-formed store is the
    walk of the whole input from the root: it succeeds, with the accept
    record of the node reached, exactly when no dead end is met and
    that node accepts; with [INCLUDE_EOF] the walk takes one more step,
    under the end-of-input key. *)
Theorem matches_follows_walk {V} (mode : MatchErrorMode) (include_eof : bool)
    (nodes : list (Node_T V)) (input : list Z) :
  store_wf nodes →
  matches false mode include_eof nodes input =
    match_value
      (n ← walk nodes 1 input;
       n' ← (if include_eof then eof_child nodes n else Some n);
       accept_at nodes n').
Proof. apply matches_walk_verdict. Qed.

Lemma matches_follows_walk_witness :
  store_wf (m_nodes if_ifdef_machine) ∧
  matches false Return false (m_nodes if_ifdef_machine) [105; 102]%Z =
    match_value
      (n ← walk (m_nodes if_ifdef_machine) 1 [105; 102]%Z;
       n' ← (if false then eof_child (m_nodes if_ifdef_machine) n
             else Some n);
       accept_at (m_nodes if_ifdef_machine) n') ∧
  matches false Return false (m_nodes if_ifdef_machine) [105; 102]%Z =
    match_value (Some (mkValue () 0)).
Proof.
  assert (Hwf : store_wf (m_nodes if_ifdef_machine)) by store_wf_by_evaluation.
  split; [exact Hwf|]. split; [|vm_compute; reflexivity].
  exact (matches_follows_walk Return false _ [105; 102]%Z Hwf).
Defined.

(** ** The validator on well-formed input *)

Lemma next_ascii count c :
  is_ascii c →
  utf_validator.next count c =
    (if count =? 0 then utf_validator.None
     else utf_validator.InterruptedSequence, count).
Proof.
  intros Hc. unfold utf_validator.next.
  assert (Hall : forallb (λ c, Z.land c 128 =? 0)%Z
                   (map Z.of_nat (seq 0 128)) = true)
    by (vm_compute; reflexivity).
  rewrite (forallb_Z_range _ 0 128 Hall c) by (unfold is_ascii in Hc; lia).
  done.
Qed.

Lemma next_continuation count c :
  is_continuation c →
  utf_validator.next (S count) c = (utf_validator.None, count).
Proof.
  intros Hc. unfold utf_validator.next.
  assert (Hall : forallb (λ c, negb (Z.land c 128 =? 0)
                               && negb (Z.land c 192 =? 192))%Z
                   (map Z.of_nat (seq 128 64)) = true)
    by (vm_compute; reflexivity).
  pose proof (forallb_Z_range _ 128 64 Hall c
                ltac:(unfold is_continuation in Hc; lia)) as H.
  apply andb_true_iff in H as [H1 H2].
  apply negb_true_iff in H1, H2. rewrite H1, H2. simpl.
  f_equal. lia.
Qed.

Lemma next_header c :
  is_header c →
  utf_validator.next 0 c =
    (utf_validator.None, utf_validator.countl_one c - 1) ∧
  2 ≤ utf_validator.countl_one c.
Proof.
  intros Hc. unfold utf_validator.next.
  assert (Hall : forallb (λ c, negb (Z.land c 128 =? 0)%Z
                               && (Z.land c 192 =? 192)%Z
                               && (2 <=? utf_validator.countl_one c))
                   (map Z.of_nat (seq 192 64)) = true)
    by (vm_compute; reflexivity).
  pose proof (forallb_Z_range _ 192 64 Hall c
                ltac:(unfold is_header in Hc; lia)) as H.
  apply andb_true_iff in H as [H Hk].
  apply andb_true_iff in H as [H1 H2].
  apply negb_true_iff in H1. rewrite H1, H2. simpl.
  split; [done|]. by apply Nat.leb_le.
Qed.

Lemma utf8_error_from_continuations conts : ∀ i rest,
  Forall is_continuation conts →
  utf8_error_from (length conts) i (conts ++ rest) =
  utf8_error_from 0 (i + length conts) rest.
Proof.
  induction conts as [|c conts IH]; intros i rest Hall; simpl.
  - by rewrite Nat.add_0_r.
  - apply Forall_cons in Hall as [Hc Hall].
    rewrite (next_continuation _ _ Hc).
    destruct (decide (utf_validator.None ≠ utf_validator.None)); [done|].
    rewrite IH by done. f_equal. lia.
Qed.

Lemma utf8_error_from_unit unit i rest :
  utf8_unit unit →
  utf8_error_from 0 i (unit ++ rest) =
  utf8_error_from 0 (i + length unit) rest.
Proof.
  intros [(c & -> & Hc)|(h & conts & -> & Hh & Hlen & Hconts)]; simpl.
  - rewrite (next_ascii _ _ Hc). simpl.
    destruct (decide (utf_validator.None ≠ utf_validator.None)); [done|].
    f_equal. lia.
  - destruct (next_header _ Hh) as [-> Hk].
    destruct (decide (utf_validator.None ≠ utf_validator.None)); [done|].
    replace (utf_validator.countl_one h - 1) with (length conts) by lia.
    rewrite utf8_error_from_continuations by done. f_equal. lia.
Qed.

(** X2. The validator passes every input made of whole units: ASCII
    bytes, and header bytes followed by exactly the continuation bytes
    their leading ones announce.  A header whose continuation bytes
    are cut short by the end of the input is a [TruncatedSequence],
    reported at the end. *)
Theorem validator_passes_whole_units (units : list (list Z)) :
  Forall utf8_unit units →
  utf8_malformation (concat units) = None ∧
  ∀ h conts, is_header h → Forall is_continuation conts →
    S (length conts) < utf_validator.countl_one h →
    utf8_malformation (concat units ++ h :: conts) =
      Some (length (concat units) + S (length conts),
            utf_validator.TruncatedSequence).
Proof.
  intros Hunits. unfold utf8_malformation.
  assert (Hgen : ∀ i rest,
    utf8_error_from 0 i (concat units ++ rest) =
    utf8_error_from 0 (i + length (concat units)) rest).
  { induction Hunits as [|unit units Hunit Hunits IH]; intros i rest; simpl.
    - by rewrite Nat.add_0_r.
    - rewrite <- app_assoc, utf8_error_from_unit by done.
      rewrite IH, length_app. f_equal. lia. }
  split.
  - rewrite <- (app_nil_r (concat units)), Hgen. done.
  - intros h conts Hh Hconts Hlen. rewrite Hgen. simpl.
    destruct (next_header _ Hh) as [-> Hk].
    destruct (decide (utf_validator.None ≠ utf_validator.None)); [done|].
    set (k := utf_validator.countl_one h - 1 - length conts).
    assert (Hrun : ∀ conts' count i,
      Forall is_continuation conts' →
      utf8_error_from (length conts' + S count) i conts' =
        Some (i + length conts', utf_validator.TruncatedSequence)).
    { induction conts' as [|c conts' IH]; intros count i Hall; simpl.
      - by rewrite Nat.add_0_r.
      - apply Forall_cons in Hall as [Hc Hall].
        rewrite (next_continuation _ _ Hc).
        destruct (decide (utf_validator.None ≠ utf_validator.None)); [done|].
        rewrite IH by done. do 2 f_equal. lia. }
    replace (utf_validator.countl_one h - 1)
      with (length conts + S (utf_validator.countl_one h - 2 - length conts))
      by lia.
    rewrite Hrun by done. do 2 f_equal. lia.
Qed.

Lemma validator_passes_whole_units_witness :
  Forall utf8_unit [[97]; [195; 169]]%Z ∧
  utf8_malformation (concat [[97]; [195; 169]]%Z) = None ∧
  ∀ h conts, is_header h → Forall is_continuation conts →
    S (length conts) < utf_validator.countl_one h →
    utf8_malformation (concat [[97]; [195; 169]]%Z ++ h :: conts) =
      Some (length (concat [[97]; [195; 169]]%Z) + S (length conts),
            utf_validator.TruncatedSequence).
Proof.
  assert (Hunits : Forall utf8_unit [[97]; [195; 169]]%Z).
  { apply Forall_cons. split.
    - left. exists 97%Z. split; [reflexivity|]. unfold is_ascii. lia.
    - apply Forall_cons. split; [|apply Forall_nil_2].
      right. exists 195%Z, [169%Z]. split; [reflexivity|].
      split; [unfold is_header; lia|]. split; [vm_compute; reflexivity|].
      apply Forall_cons. split; [unfold is_continuation; lia|].
      apply Forall_nil_2. }
  split; [exact Hunits|].
  exact (validator_passes_whole_units _ Hunits).
Defined.

Lemma next_bits_continuation c :
  is_continuation c →
  (Z.land c 128 =? 0)%Z = false ∧ (Z.land c 192 =? 192)%Z = false.
Proof.
  intros Hc.
  assert (Hall : forallb (λ c, negb (Z.land c 128 =? 0)
                               && negb (Z.land c 192 =? 192))%Z
                   (map Z.of_nat (seq 128 64)) = true)
    by (vm_compute; reflexivity).
  pose proof (forallb_Z_range _ 128 64 Hall c
                ltac:(unfold is_continuation in Hc; lia)) as H.
  apply andb_true_iff in H as [H1 H2].
  by apply negb_true_iff in H1, H2.
Qed.

Lemma next_bits_header c :
  is_header c →
  (Z.land c 128 =? 0)%Z = false ∧ (Z.land c 192 =? 192)%Z = true.
Proof.
  intros Hc.
  assert (Hall : forallb (λ c, negb (Z.land c 128 =? 0)
                               && (Z.land c 192 =? 192))%Z
                   (map Z.of_nat (seq 192 64)) = true)
    by (vm_compute; reflexivity).
  pose proof (forallb_Z_range _ 192 64 Hall c
                ltac:(unfold is_header in Hc; lia)) as H.
  apply andb_true_iff in H as [H1 H2].
  by apply negb_true_iff in H1.
Qed.

(** What an input that the validator passes from [count] pending
    continuation bytes on is made of. *)
Lemma utf8_error_from_none input : ∀ count i,
  Forall (λ c, 0 ≤ c < 256)%Z input →
  utf8_error_from count i input = None →
  ∃ conts units, input = conts ++ concat units ∧ length conts = count ∧
    Forall is_continuation conts ∧ Forall utf8_unit units.
Proof.
  induction input as [|c input IH]; intros count i Hbytes Hnone.
  { simpl in Hnone. unfold utf_validator.final in Hnone.
    destruct count; [|done]. by exists [], []. }
  apply Forall_cons in Hbytes as [Hc Hbytes]. simpl in Hnone.
  assert (Hclass : is_ascii c ∨ is_continuation c ∨ is_header c)
    by (unfold is_ascii, is_continuation, is_header; lia).
  destruct Hclass as [Ha|[Hcont|Hh]].
  - rewrite (next_ascii _ _ Ha) in Hnone.
    destruct count; simpl in Hnone; [|done].
    destruct (decide (utf_validator.None ≠ utf_validator.None)); [done|].
    destruct (IH _ _ Hbytes Hnone) as (conts & units & -> & Hlen & _ & Hunits).
    destruct conts; [|done]. exists [], ([c] :: units).
    split; [done|]. split; [done|]. split; [done|].
    apply Forall_cons. split; [|done]. left. by exists c.
  - destruct (next_bits_continuation _ Hcont) as [H1 H2].
    unfold utf_validator.next in Hnone. rewrite H1, H2 in Hnone.
    destruct count as [|count]; simpl in Hnone; [done|].
    destruct (decide (utf_validator.None ≠ utf_validator.None)); [done|].
    rewrite Nat.sub_0_r in Hnone.
    destruct (IH _ _ Hbytes Hnone)
      as (conts & units & -> & Hlen & Hconts & Hunits).
    exists (c :: conts), units.
    split; [done|]. split; [by simpl; rewrite Hlen|].
    split; [by apply Forall_cons|done].
  - destruct (next_bits_header _ Hh) as [H1 H2].
    destruct (next_header _ Hh) as [_ Hk].
    unfold utf_validator.next in Hnone. rewrite H1, H2 in Hnone.
    destruct count as [|count]; simpl in Hnone; [|done].
    destruct (decide (utf_validator.None ≠ utf_validator.None)); [done|].
    destruct (IH _ _ Hbytes Hnone)
      as (conts & units & -> & Hlen & Hconts & Hunits).
    exists [], ((c :: conts) :: units).
    split; [done|]. split; [done|]. split; [done|].
    apply Forall_cons. split; [|done]. right. exists c, conts.
    split; [done|]. split; [done|]. split; [lia|done].
Qed.

(** X3. The validator passes nothing else: an input of bytes in which
    it finds no error, the end included, is made of whole units. *)
Theorem validator_passes_only_whole_units (input : list Z) :
  Forall (λ c, 0 ≤ c < 256)%Z input →
  utf8_malformation input = None →
  ∃ units, input = concat units ∧ Forall utf8_unit units.
Proof.
  intros Hbytes Hnone.
  destruct (utf8_error_from_none input 0 0 Hbytes Hnone)
    as (conts & units & -> & Hlen & _ & Hunits).
  destruct conts; [|done]. by exists units.
Qed.

Lemma validator_passes_only_whole_units_witness :
  Forall (λ c, 0 ≤ c < 256)%Z [97; 195; 169]%Z ∧
  utf8_malformation [97; 195; 169]%Z = None ∧
  ∃ units, [97; 195; 169]%Z = concat units ∧ Forall utf8_unit units.
Proof.
  assert (Hbytes : Forall (λ c, 0 ≤ c < 256)%Z [97; 195; 169]%Z)
    by (repeat (apply Forall_cons; split); try apply Forall_nil; lia).
  assert (Hnone : utf8_malformation [97; 195; 169]%Z = None)
    by (vm_compute; reflexivity).
  split; [exact Hbytes|]. split; [exact Hnone|].
  exact (validator_passes_only_whole_units _ Hbytes Hnone).
Defined.

(** ** UTF-8 mode against byte mode *)

Section Transparency.
Context {V : Type}.
Variable nodes : list (Node_T V).
Variable mode : MatchErrorMode.

Lemma matches_loop_unvalidated rest : ∀ cur count count0 i,
  (utf8_error_from count i rest = None ∨
   ∃ j e, utf8_error_from count i rest = Some (j, e) ∧
     walk nodes cur (take (j - i) rest) = None) →
  match matches_loop true mode nodes rest cur count,
        matches_loop false mode nodes rest cur count0 with
  | inl r, inl r' => r = r'
  | inr (n, count'), inr (n', _) =>
      n = n' ∧ utf_validator.final count' = utf_validator.None
  | _, _ => False
  end.
Proof.
  induction rest as [|c rest IH]; intros cur count count0 i; simpl.
  - destruct (decide (utf_validator.final count ≠ utf_validator.None))
      as [Hf|Hf].
    + intros [|(j & e & _ & Hw)]; [done|]. by rewrite take_nil in Hw.
    + intros _. split; [done|].
      by apply dec_stable in Hf.
  - destruct (nodes !! (cur - 1)) as [node|] eqn:Hnode; [|done].
    destruct (utf_validator.next count c) as [e0 count'].
    destruct (decide (utf_validator.None ≠ utf_validator.None)); [done|].
    destruct (decide (e0 ≠ utf_validator.None)) as [He0|He0].
    { intros [|(j & e & [= <- <-] & Hw)]; [done|].
      rewrite Nat.sub_diag in Hw. done. }
    intros Hcase.
    destruct (decide (rt_get_transition node c ≠ 0)) as [Hnz|Hz]; [|done].
    apply (IH _ count' count0 (S i)).
    destruct Hcase as [?|(j & e & Herr & Hw)]; [by left|right].
    exists j, e. split; [done|].
    destruct (utf8_error_from_position _ _ _ _ _ Herr) as [Hij _].
    replace (j - i) with (S (j - S i)) in Hw by lia.
    simpl in Hw. rewrite Hnode in Hw.
    by rewrite decide_False in Hw by done.
Qed.

Lemma find_loop_ascii rest : ∀ i st,
  Forall is_ascii rest → uv_count st = 0 →
  find_loop true mode nodes rest i st = find_loop false mode nodes rest i st ∧
  match find_loop false mode nodes rest i st with
  | inl _ => True
  | inr st' => uv_count st' = 0
  end.
Proof.
  induction rest as [|c rest IH]; intros i st Hall Hcount; simpl; [done|].
  apply Forall_cons in Hall as [Hc Hall].
  destruct (nodes !! (current_node st - 1)) as [node|]; [|done].
  rewrite (next_ascii _ _ Hc), Hcount. simpl.
  destruct (decide (utf_validator.None ≠ utf_validator.None)); [done|].
  destruct (decide (rt_get_transition node c ≠ 0)).
  - destruct (nodes !! (rt_get_transition node c - 1)) as [reached|]; [|done].
    destruct (value reached); by apply IH.
  - destruct (decide (most_specific_matched_node st = 0)); [|done].
    by apply IH.
Qed.

End Transparency.

(** X4. In UTF-8 mode [matches] answers as it does without validation
    whenever the input has no malformation, and also when the walk
    meets its dead end before the first malformation. *)
Theorem matches_unvalidated {V} (mode : MatchErrorMode) (include_eof : bool)
    (nodes : list (Node_T V)) (input : list Z) :
  (utf8_malformation input = None ∨
   ∃ j e, utf8_malformation input = Some (j, e) ∧
     walk nodes 1 (take j input) = None) →
  matches true mode include_eof nodes input =
  matches false mode include_eof nodes input.
Proof.
  intros Hcase. unfold matches.
  pose proof (matches_loop_unvalidated nodes mode input 1 0 0 0) as H.
  assert (Hcase' :
    utf8_error_from 0 0 input = None ∨
    ∃ j e, utf8_error_from 0 0 input = Some (j, e) ∧
      walk nodes 1 (take (j - 0) input) = None).
  { destruct Hcase as [?|(j & e & ? & ?)]; [by left|right].
    exists j, e. by rewrite Nat.sub_0_r. }
  specialize (H Hcase').
  destruct (matches_loop true mode nodes input 1 0) as [r|[n count]],
    (matches_loop false mode nodes input 1 0) as [r'|[n' count']];
    try done.
  destruct H as [<- ->].
  by destruct (decide (utf_validator.None ≠ utf_validator.None)).
Qed.

Lemma matches_unvalidated_witness :
  (utf8_malformation [97; 169]%Z = None ∨
   ∃ j e, utf8_malformation [97; 169]%Z = Some (j, e) ∧
     walk (m_nodes if_ifdef_machine) 1 (take j [97; 169]%Z) = None) ∧
  matches true Return false (m_nodes if_ifdef_machine) [97; 169]%Z =
  matches false Return false (m_nodes if_ifdef_machine) [97; 169]%Z.
Proof.
  assert (Hcase :
    utf8_malformation [97; 169]%Z = None ∨
    ∃ j e, utf8_malformation [97; 169]%Z = Some (j, e) ∧
      walk (m_nodes if_ifdef_machine) 1 (take j [97; 169]%Z) = None).
  { right. exists 1, utf_validator.StrayByte.
    split; vm_compute; reflexivity. }
  split; [exact Hcase|].
  exact (matches_unvalidated Return false _ _ Hcase).
Defined.

(** X5. On input made of bytes below 128, [find] in UTF-8 mode answers
    as it does without validation. *)
Theorem find_ascii_unvalidated {V} (mode : MatchErrorMode)
    (nodes : list (Node_T V)) (input : list Z) :
  Forall is_ascii input →
  find true mode nodes input = find false mode nodes input.
Proof.
  intros Hall. unfold find.
  destruct (find_loop_ascii nodes mode input 0 (mkFind 1 0 0 0 0) Hall eq_refl)
    as [-> Hcount].
  destruct (find_loop false mode nodes input 0 (mkFind 1 0 0 0 0))
    as [r|st]; [done|].
  rewrite Hcount. simpl.
  by destruct (decide (utf_validator.None ≠ utf_validator.None)).
Qed.

Lemma find_ascii_unvalidated_witness :
  Forall is_ascii [120; 105; 102]%Z ∧
  find true Return (m_nodes if_ifdef_machine) [120; 105; 102]%Z =
  find false Return (m_nodes if_ifdef_machine) [120; 105; 102]%Z.
Proof.
  assert (Hall : Forall is_ascii [120; 105; 102]%Z)
    by (repeat (apply Forall_cons; split); try apply Forall_nil;
        unfold is_ascii; lia).
  split; [exact Hall|].
  exact (find_ascii_unvalidated Return _ _ Hall).
Defined.

(** ** What [find] reports is a path of the machine *)

Lemma walk_app {V} (nodes : list (Node_T V)) l1 : ∀ cur l2,
  walk nodes cur (l1 ++ l2) = n ← walk nodes cur l1; walk nodes n l2.
Proof.
  induction l1 as [|c l1 IH]; intros cur l2; simpl; [done|].
  destruct (nodes !! (cur - 1)) as [node|]; [|done].
  destruct (decide (rt_get_transition node c = 0)); [done|]. apply IH.
Qed.

Lemma segment_empty input b : segment input b b = [].
Proof. unfold segment. by rewrite Nat.sub_diag. Qed.

Lemma segment_snoc input b i c :
  b ≤ i → input !! i = Some c →
  segment input b (S i) = segment input b i ++ [c].
Proof.
  intros Hb Hc. unfold segment.
  replace (S i - b) with (S (i - b)) by lia.
  rewrite (take_S_r _ _ c); [done|].
  rewrite lookup_drop. by replace (b + (i - b)) with i by lia.
Qed.

Section FindSound.
Context {V : Type}.
Variable nodes : list (Node_T V).
Variable input : list Z.
Variable utf8 : bool.
Variable mode : MatchErrorMode.
Hypothesis nodes_wf : store_wf nodes.

Lemma find_state_sound_initial :
  find_state_sound nodes input 0 (mkFind 1 0 0 0 0).
Proof. split; [done|]. split; [by rewrite segment_empty|done]. Qed.

Lemma find_state_sound_current i st :
  find_state_sound nodes input i st → 1 ≤ current_node st ≤ length nodes.
Proof.
  intros (_ & Hwalk & _).
  eapply walk_within_store; [done|by apply root_in_store|done].
Qed.

(** The loop of [find] keeps its locals sound, never reads outside the
    store, and returns early only with an error of the validator. *)
Lemma find_loop_sound rest : ∀ i st,
  drop i input = rest → i ≤ length input →
  find_state_sound nodes input i st →
  match find_loop utf8 mode nodes rest i st with
  | inl r => utf8 = true ∧ ∃ e, e ≠ utf_validator.None ∧ r = find_err mode e
  | inr st' => ∃ i', i' ≤ length input ∧ find_state_sound nodes input i' st'
  end.
Proof.
  induction rest as [|c rest IH]; intros i st Hdrop Hle Hst; simpl.
  { by exists i. }
  destruct (drop_lookup_head _ _ _ _ Hdrop) as [Hc Hrest].
  pose proof (find_state_sound_current i st Hst) as Hcur.
  destruct (lookup_lt_is_Some_2 nodes (current_node st - 1)) as [node Hnode];
    [lia|].
  rewrite Hnode.
  set (uv := if utf8 then utf_validator.next (uv_count st) c
             else (utf_validator.None, uv_count st)).
  destruct uv as [error count] eqn:Huv.
  destruct (decide (error ≠ utf_validator.None)) as [He|He].
  { destruct utf8; [|by injection Huv as <- _]. split; [done|]. by exists error. }
  destruct Hst as (Hb & Hwalk & Hrec).
  pose proof (rt_get_transition_within_store nodes _ node c nodes_wf Hnode)
    as Hloc.
  assert (Hi : i < length input) by (by eapply lookup_lt_Some).
  destruct (decide (rt_get_transition node c ≠ 0)) as [Hnz|Hz].
  - destruct (lookup_lt_is_Some_2 nodes (rt_get_transition node c - 1))
      as [reached Hreached]; [lia|].
    rewrite Hreached.
    assert (Hstep : walk nodes 1 (segment input (match_begin st) (S i)) =
                    Some (rt_get_transition node c)).
    { rewrite (segment_snoc _ _ _ c) by done.
      rewrite walk_app, Hwalk. simpl. rewrite Hnode.
      by rewrite decide_False by done. }
    destruct (value reached) as [val|] eqn:Hval.
    + apply IH; [done|lia|]. split; [simpl; lia|]. split; [done|].
      intros _. simpl. replace (i + 1) with (S i) by lia.
      split; [lia|]. split; [done|].
      unfold accept_at. rewrite Hreached. simpl. by rewrite Hval.
    + apply IH; [done|lia|]. split; [simpl; lia|]. split; [done|].
      simpl. intros Hne. destruct (Hrec Hne) as (? & ? & ?).
      split; [lia|done].
  - destruct (decide (most_specific_matched_node st = 0)) as [Hnone|Hsome].
    + apply IH; [done|lia|]. replace (i + 1) with (S i) by lia.
      split; [done|]. split; [simpl; by rewrite segment_empty|done].
    + exists i. split; [lia|]. split; [done|]. split; [done|].
      simpl. done.
Qed.

Lemma matches_loop_in_store rest : ∀ cur count,
  1 ≤ cur ≤ length nodes →
  match matches_loop utf8 mode nodes rest cur count with
  | inl r =>
      r = match_value None ∨
      (utf8 = true ∧ ∃ e, e ≠ utf_validator.None ∧ r = match_err mode e)
  | inr (n, _) => 1 ≤ n ≤ length nodes
  end.
Proof.
  induction rest as [|c rest IH]; intros cur count Hcur; simpl; [done|].
  destruct (lookup_lt_is_Some_2 nodes (cur - 1)) as [node Hnode]; [lia|].
  rewrite Hnode.
  set (uv := if utf8 then utf_validator.next count c
             else (utf_validator.None, count)).
  destruct uv as [error count'] eqn:Huv.
  destruct (decide (error ≠ utf_validator.None)) as [He|He].
  { right. destruct utf8; [|by injection Huv as <- _].
    split; [done|]. by exists error. }
  destruct (decide (rt_get_transition node c ≠ 0)); [|by left].
  apply IH.
  pose proof (rt_get_transition_within_store nodes _ node c nodes_wf Hnode).
  lia.
Qed.

End FindSound.

Lemma find_match_path {V} (utf8 : bool) (mode : MatchErrorMode)
    (nodes : list (Node_T V)) (input : list Z) (b e : Z) (v : V) :
  store_wf nodes →
  find utf8 mode nodes input = find_match b e v →
  ∃ b' m n val,
    b = Z.of_nat b' ∧ b' < m ≤ length input ∧
    walk nodes 1 (segment input b' m) = Some n ∧
    accept_at nodes n = Some val ∧ payload val = v ∧
    e = size_t_sub m (back_by val).
Proof.
  intros Hwf. unfold find.
  pose proof (find_loop_sound nodes input utf8 mode Hwf input 0
                (mkFind 1 0 0 0 0) eq_refl ltac:(lia)
                (find_state_sound_initial nodes input)) as H.
  destruct (find_loop utf8 mode nodes input 0 (mkFind 1 0 0 0 0)) as [r|st].
  { destruct H as (_ & e0 & _ & ->). intros Hr. by destruct mode. }
  destruct H as (i' & Hi' & _ & _ & Hrec).
  destruct (decide _); [by destruct mode|].
  destruct (decide (most_specific_matched_node st ≠ 0)) as [Hne|]; [|done].
  destruct (Hrec Hne) as (Hspan & Hwalk & [val Hval]).
  unfold accept_at in Hval.
  destruct (nodes !! (most_specific_matched_node st - 1)) as [node|] eqn:Hnode;
    [|done].
  simpl in Hval. rewrite Hval. intros [= <- <- <-].
  exists (match_begin st), (match_end st), (most_specific_matched_node st), val.
  split; [done|]. split; [lia|]. split; [done|].
  split; [|done]. unfold accept_at. by rewrite Hnode.
Qed.

Lemma queries_in_store {V} (utf8 : bool) (mode : MatchErrorMode)
    (include_eof : bool) (nodes : list (Node_T V)) (input : list Z) :
  store_wf nodes →
  match find utf8 mode nodes input with
  | find_out_of_range => False
  | find_error e | find_panic e => utf8 = true ∧ e ≠ utf_validator.None
  | _ => True
  end ∧
  match matches utf8 mode include_eof nodes input with
  | match_out_of_range => False
  | match_error e | match_panic e => utf8 = true ∧ e ≠ utf_validator.None
  | _ => True
  end.
Proof.
  intros Hwf. split.
  - unfold find.
    pose proof (find_loop_sound nodes input utf8 mode Hwf input 0
                  (mkFind 1 0 0 0 0) eq_refl ltac:(lia)
                  (find_state_sound_initial nodes input)) as H.
    destruct (find_loop utf8 mode nodes input 0 (mkFind 1 0 0 0 0)) as [r|st].
    { destruct H as (-> & e0 & He0 & ->). by destruct mode. }
    destruct H as (i' & Hi' & _ & _ & Hrec).
    destruct (decide _) as [He|He].
    { destruct utf8; [|done]. by destruct mode. }
    destruct (decide (most_specific_matched_node st ≠ 0)) as [Hne|]; [|done].
    destruct (Hrec Hne) as (_ & _ & [val Hval]).
    unfold accept_at in Hval.
    destruct (nodes !! (most_specific_matched_node st - 1)) as [node|];
      [|done].
    simpl in Hval. by rewrite Hval.
  - unfold matches.
    pose proof (matches_loop_in_store nodes utf8 mode Hwf input 1 0
                  (root_in_store nodes Hwf)) as H.
    destruct (matches_loop utf8 mode nodes input 1 0) as [r|[n count]].
    { destruct H as [->|(-> & e & He & ->)]; [done|]. by destruct mode. }
    destruct (decide _) as [He|He].
    { destruct utf8; [|done]. by destruct mode. }
    destruct (lookup_lt_is_Some_2 nodes (n - 1)) as [node Hnode]; [lia|].
    destruct include_eof.
    + rewrite Hnode.
      destruct (decide (get_eof node ≠ 0)) as [Hnz|]; [|done].
      assert (get_eof node ≤ length nodes)
        by (eapply transition_within_store; eauto).
      destruct (lookup_lt_is_Some_2 nodes (get_eof node - 1)) as [node' Hnode'];
        [lia|].
      by rewrite Hnode'.
    + by rewrite Hnode.
Qed.

(** X6. A match reported by [find] on a well-formed store is a path of
    the machine: the bytes from its beginning up to some later
    position [m] lead from the root to an accepting node without a
    dead end, the value is that node's, and the end reported is [m]
    less the node's [back_by].  The span scanned is never empty, so
    [find] reports no match for the empty input, whatever the root. *)
Theorem find_match_is_accepted_path {V} (utf8 : bool) (mode : MatchErrorMode)
    (nodes : list (Node_T V)) (input : list Z) (b e : Z) (v : V) :
  store_wf nodes →
  find utf8 mode nodes input = find_match b e v →
  ∃ b' m n val,
    b = Z.of_nat b' ∧ b' < m ≤ length input ∧
    walk nodes 1 (segment input b' m) = Some n ∧
    accept_at nodes n = Some val ∧ payload val = v ∧
    e = size_t_sub m (back_by val).
Proof. apply find_match_path. Qed.

Lemma find_match_is_accepted_path_witness :
  store_wf (m_nodes foo_back1_machine) ∧
  find false Return (m_nodes foo_back1_machine) [120; 102; 111; 111]%Z =
    find_match 1 3 () ∧
  ∃ b' m n val,
    1%Z = Z.of_nat b' ∧ b' < m ≤ length [120; 102; 111; 111]%Z ∧
    walk (m_nodes foo_back1_machine) 1
      (segment [120; 102; 111; 111]%Z b' m) = Some n ∧
    accept_at (m_nodes foo_back1_machine) n = Some val ∧
    payload val = () ∧ 3%Z = size_t_sub m (back_by val).
Proof.
  assert (Hwf : store_wf (m_nodes foo_back1_machine))
    by store_wf_by_evaluation.
  assert (Hfind :
    find false Return (m_nodes foo_back1_machine) [120; 102; 111; 111]%Z =
      find_match 1 3 ()) by (vm_compute; reflexivity).
  split; [exact Hwf|]. split; [exact Hfind|].
  exact (find_match_is_accepted_path false Return _ _ _ _ _ Hwf Hfind).
Defined.

(** X7. On a well-formed store the runtime queries never read a node
    outside the store, and they report an error only in UTF-8 mode. *)
Theorem queries_stay_within_store {V} (utf8 : bool) (mode : MatchErrorMode)
    (include_eof : bool) (nodes : list (Node_T V)) (input : list Z) :
  store_wf nodes →
  match find utf8 mode nodes input with
  | find_out_of_range => False
  | find_error e | find_panic e => utf8 = true ∧ e ≠ utf_validator.None
  | _ => True
  end ∧
  match matches utf8 mode include_eof nodes input with
  | match_out_of_range => False
  | match_error e | match_panic e => utf8 = true ∧ e ≠ utf_validator.None
  | _ => True
  end.
Proof. apply queries_in_store. Qed.

Lemma queries_stay_within_store_witness :
  store_wf (m_nodes utf8_a_machine) ∧
  match find true Return (m_nodes utf8_a_machine) [97; 169]%Z with
  | find_out_of_range => False
  | find_error e | find_panic e => true = true ∧ e ≠ utf_validator.None
  | _ => True
  end ∧
  match matches true Return false (m_nodes utf8_a_machine) [97; 169]%Z with
  | match_out_of_range => False
  | match_error e | match_panic e => true = true ∧ e ≠ utf_validator.None
  | _ => True
  end.
Proof.
  assert (Hwf : store_wf (m_nodes utf8_a_machine)) by store_wf_by_evaluation.
  split; [exact Hwf|].
  exact (queries_stay_within_store true Return false _ [97; 169]%Z Hwf).
Defined.

(** ** The results of [find_many] *)

Section FindManyProper.
Context {V : Type}.
Variables (utf8 : bool) (mode : MatchErrorMode) (nodes : list (Node_T V)).
Hypothesis store_ok : store_wf nodes.
Hypothesis whole : no_give_back nodes.

(** Without [back_by] a match reported is a span of the data that is
    not empty. *)
Lemma find_match_proper data b e v :
  (Z.of_nat (length data) < 2 ^ 64)%Z →
  find utf8 mode nodes data = find_match b e v →
  (0 ≤ b < e ∧ e ≤ Z.of_nat (length data))%Z.
Proof.
  intros Hlen Hfind.
  destruct (find_match_path utf8 mode nodes data b e v store_ok Hfind)
    as (b' & m & n & val & -> & Hm & _ & Hacc & _ & ->).
  unfold accept_at in Hacc.
  destruct (nodes !! (n - 1)) as [node|] eqn:Hnode; [|done]. simpl in Hacc.
  unfold no_give_back in whole. rewrite Forall_lookup in whole.
  rewrite (whole _ _ Hnode val Hacc). unfold size_t_sub.
  rewrite Z.sub_0_r, Z.mod_small by lia. lia.
Qed.

Lemma find_many_from_chained fuel : ∀ offset data,
  (Z.of_nat (length data) < 2 ^ 64)%Z → length data < fuel →
  ∃ spans,
    map result_span (find_many_from utf8 mode fuel nodes offset data).1 =
      map Some spans ∧
    spans_chained (Z.of_nat offset) (Z.of_nat (offset + length data)) spans ∧
    ((find_many_from utf8 mode fuel nodes offset data).2 = gen_done ∨
     ∃ e, (find_many_from utf8 mode fuel nodes offset data).2 = gen_panic e).
Proof.
  induction fuel as [|fuel IH]; intros offset data Hlen Hfuel; [lia|].
  simpl.
  pose proof (queries_in_store utf8 mode false nodes data store_ok)
    as [Hrange _].
  destruct (find utf8 mode nodes data) as [e|e| | |b e v] eqn:Hfind;
    try (exists []; split; [done|]; split; [done|]; by eauto).
  destruct (decide (range_size (find_match b e v) = 0%Z)) as [|Hne];
    [exists []; by eauto|].
  destruct (find_match_proper data b e v Hlen Hfind) as [Hb He].
  rewrite decide_True by done.
  destruct (decide (length (drop (Z.to_nat e) data) = 0)) as [|Hrest];
    [exists []; by eauto|].
  rewrite length_drop in Hrest.
  destruct (IH (offset + Z.to_nat e) (drop (Z.to_nat e) data))
    as (spans & Hmap & Hchain & Hend).
  { rewrite length_drop. lia. }
  { rewrite length_drop. lia. }
  destruct (find_many_from utf8 mode fuel nodes (offset + Z.to_nat e)
              (drop (Z.to_nat e) data)) as [rs fin].
  exists ((Z.of_nat offset + b, Z.of_nat offset + e)%Z :: spans). simpl.
  split; [by rewrite <- Hmap|]. split; [|done].
  split; [lia|]. split; [lia|].
  rewrite length_drop in Hchain.
  replace (Z.of_nat (offset + Z.to_nat e)) with (Z.of_nat offset + e)%Z
    in Hchain by lia.
  replace (offset + Z.to_nat e + (length data - Z.to_nat e))
    with (offset + length data) in Hchain by lia.
  done.
Qed.

End FindManyProper.

(** X8. On a well-formed store none of whose accept records gives
    bytes back ([back_by] 0), the results [find_many] yields are
    matches whose spans follow one another through the input: each is
    non-empty, begins no earlier than the one before ended, and ends
    before the end of the input; so a match that reaches the last byte
    is not yielded, there are fewer results than bytes, and the
    iteration ends. *)
Theorem find_many_spans_in_order {V} (utf8 : bool) (mode : MatchErrorMode)
    (nodes : list (Node_T V)) (input : list Z) :
  store_wf nodes → no_give_back nodes →
  (Z.of_nat (length input) < 2 ^ 64)%Z →
  ∃ spans,
    map result_span (find_many utf8 mode nodes input).1 = map Some spans ∧
    spans_chained 0 (Z.of_nat (length input)) spans ∧
    (input ≠ [] → length spans < length input) ∧
    ((find_many utf8 mode nodes input).2 = gen_done ∨
     ∃ e, (find_many utf8 mode nodes input).2 = gen_panic e).
Proof.
  intros Hwf Hwhole Hlen.
  destruct (find_many_from_chained utf8 mode nodes Hwf Hwhole
              (S (length input)) 0 input Hlen ltac:(lia))
    as (spans & Hmap & Hchain & Hend).
  exists spans. split; [done|]. simpl in Hchain. split; [done|].
  split; [|done].
  assert (Hcount : ∀ spans from len,
    (0 ≤ from)%Z → spans_chained from len spans →
    spans = [] ∨ (Z.of_nat (length spans) < len - from)%Z).
  { clear. induction spans as [|[b e] spans IH]; intros from len Hfrom;
      [by left|].
    simpl. intros (Hb & He & Hrest). right.
    destruct (IH e len ltac:(lia) Hrest) as [->|]; simpl; lia. }
  intros Hne. destruct (Hcount spans 0%Z _ ltac:(lia) Hchain) as [->|]; simpl.
  - destruct input; [done|simpl; lia].
  - lia.
Qed.

Lemma find_many_spans_in_order_witness :
  store_wf (m_nodes if_ifdef_machine) ∧
  no_give_back (m_nodes if_ifdef_machine) ∧
  (Z.of_nat (length [105; 102; 120; 105; 102; 100; 101; 102; 120]%Z)
   < 2 ^ 64)%Z ∧
  find_many false Return (m_nodes if_ifdef_machine)
    [105; 102; 120; 105; 102; 100; 101; 102; 120]%Z =
    ([find_match 0 2 (); find_match 3 8 ()], gen_done) ∧
  ∃ spans,
    map result_span
      (find_many false Return (m_nodes if_ifdef_machine)
         [105; 102; 120; 105; 102; 100; 101; 102; 120]%Z).1 =
      map Some spans ∧
    spans_chained 0
      (Z.of_nat (length [105; 102; 120; 105; 102; 100; 101; 102; 120]%Z))
      spans ∧
    ([105; 102; 120; 105; 102; 100; 101; 102; 120]%Z ≠ [] →
     length spans <
       length [105; 102; 120; 105; 102; 100; 101; 102; 120]%Z) ∧
    ((find_many false Return (m_nodes if_ifdef_machine)
        [105; 102; 120; 105; 102; 100; 101; 102; 120]%Z).2 = gen_done ∨
     ∃ e, (find_many false Return (m_nodes if_ifdef_machine)
             [105; 102; 120; 105; 102; 100; 101; 102; 120]%Z).2 =
          gen_panic e).
Proof.
  assert (Hwf : store_wf (m_nodes if_ifdef_machine)) by store_wf_by_evaluation.
  assert (Hwhole : no_give_back (m_nodes if_ifdef_machine)).
  { unfold no_give_back. vm_compute.
    repeat (apply Forall_cons; split); try apply Forall_nil_2;
      intros v Hv; by inversion Hv. }
  assert (Hlen :
    (Z.of_nat (length [105; 102; 120; 105; 102; 100; 101; 102; 120]%Z)
     < 2 ^ 64)%Z) by (by vm_compute).
  split; [exact Hwf|]. split; [exact Hwhole|]. split; [exact Hlen|].
  split; [vm_compute; reflexivity|].
  exact (find_many_spans_in_order false Return _ _ Hwf Hwhole Hlen).
Defined.

(** ** [exit_point] twice *)

Section ExitPointTwice.
Variable b : nat.

Lemma exit_point_round_settles errs c s errs' s' :
  exit_point_round b errs c s = Ok errs' s' →
  on_conflict s' = on_conflict s ∧ cursors s' = cursors s ∧
  (∀ c', settled b (on_conflict s) (m_nodes s) c' →
         settled b (on_conflict s) (m_nodes s') c') ∧
  ((errs' = errs ∧ settled b (on_conflict s) (m_nodes s') c) ∨
   length errs' = S (length errs)).
Proof.
  unfold exit_point_round. intros H.
  apply bind_ok in H as (node & s1 & Hget & H).
  apply get_node_ok in Hget as (-> & Hc & Hnode).
  assert (Hlt : c - 1 < length (m_nodes s)) by (by eapply lookup_lt_Some).
  destruct (value node) as [v|] eqn:Hv.
  - destruct (decide (back_by v ≠ b)) as [Hne|Heq].
    + apply bind_ok in H as (policy & s1 & Hpol & H).
      injection Hpol as <- <-.
      destruct (on_conflict s) eqn:Hp.
      * apply ret_ok in H as [<- <-].
        split; [done|]. split; [done|]. split; [by auto|].
        left. split; [done|]. split; [done|]. exists node, v. by auto.
      * apply bind_ok in H as ([] & s1 & Hup & H).
        apply ret_ok in H as [<- <-].
        apply update_node_ok in Hup as (n & _ & Hn & ->). simpl.
        assert (n = node) as -> by congruence.
        split; [done|]. split; [done|]. split.
        -- intros c' (Hc' & n' & v' & Hn' & Hv' & Hb).
           destruct (decide (c' - 1 = c - 1)) as [Heq|Hne'].
           ++ split; [done|]. rewrite Heq, list_lookup_insert_eq by done.
              eexists _, _. split; [done|]. split; [done|]. by left.
           ++ split; [done|]. exists n', v'.
              by rewrite list_lookup_insert_ne.
        -- left. split; [done|]. split; [done|].
           rewrite list_lookup_insert_eq by done.
           eexists _, _. split; [done|]. split; [done|]. by left.
      * apply ret_ok in H as [<- <-].
        split; [done|]. split; [done|]. split; [by auto|].
        right. rewrite length_app. simpl. lia.
    + apply ret_ok in H as [<- <-].
        split; [done|]. split; [done|]. split; [by auto|].
      left. split; [done|]. split; [done|]. exists node, v.
      split; [done|]. split; [done|]. left.
      by apply dec_stable in Heq.
  - apply bind_ok in H as ([] & s1 & Hup & H).
    apply ret_ok in H as [<- <-].
    apply update_node_ok in Hup as (n & _ & Hn & ->). simpl.
    assert (n = node) as -> by congruence.
    split; [done|]. split; [done|]. split.
    + intros c' (Hc' & n' & v' & Hn' & Hv' & Hb).
      destruct (decide (c' - 1 = c - 1)) as [Heq|Hne'].
      * rewrite Heq in Hn'. congruence.
      * split; [done|]. exists n', v'. by rewrite list_lookup_insert_ne.
    + left. split; [done|]. split; [done|].
      rewrite list_lookup_insert_eq by done.
      eexists _, _. split; [done|]. split; [done|]. by left.
Qed.

Lemma exit_point_loop_settles cs : ∀ errs s errs' s',
  foldM (exit_point_round b) cs errs s = Ok errs' s' →
  on_conflict s' = on_conflict s ∧ cursors s' = cursors s ∧
  (∀ c', settled b (on_conflict s) (m_nodes s) c' →
         settled b (on_conflict s) (m_nodes s') c') ∧
  length errs ≤ length errs' ∧
  (length errs' = length errs →
   Forall (settled b (on_conflict s) (m_nodes s')) cs).
Proof.
  induction cs as [|c cs IH]; intros errs s errs' s' H; simpl in H.
  { apply ret_ok in H as [<- <-].
    split; [done|]. split; [done|]. split; [by auto|]. split; [done|].
    intros _. apply Forall_nil_2. }
  apply bind_ok in H as (errs1 & s1 & Hround & Hloop).
  apply exit_point_round_settles in Hround as (Hp1 & Hc1 & Hkeep1 & Hcase).
  apply IH in Hloop as (Hp & Hc & Hkeep & Hlen & Hall).
  rewrite Hp1 in *.
  split; [done|]. split; [congruence|]. split; [by auto|].
  destruct Hcase as [[-> Hset]|Hgrow].
  - split; [done|]. intros Heq. apply Forall_cons. split; [by auto|by auto].
  - split; [lia|]. intros Heq. lia.
Qed.

Lemma exit_point_loop_settled cs : ∀ errs s,
  Forall (settled b (on_conflict s) (m_nodes s)) cs →
  foldM (exit_point_round b) cs errs s = Ok errs s.
Proof.
  induction cs as [|c cs IH]; intros errs s Hall; simpl; [done|].
  apply Forall_cons in Hall as [(Hc & n & v & Hn & Hv & Hb) Hall].
  apply bind_ok. exists errs, s. split; [|by apply IH].
  unfold exit_point_round. apply bind_ok. exists n, s.
  split; [by apply get_node_ok|]. rewrite Hv.
  destruct (decide (back_by v ≠ b)) as [Hne|]; [|done].
  destruct Hb as [?|Hskip]; [done|].
  apply bind_ok. exists Skip, s. split; [|done].
  unfold get_on_conflict. by rewrite Hskip.
Qed.

End ExitPointTwice.

(** X9. [exit_point] is idempotent: once [exit_point(b)] has returned,
    every cursor stands on an accepting node, and a second
    [exit_point(b)] returns with the machine as it is, under every
    conflict policy. *)
Theorem exit_point_idempotent (b : nat) (s s' : StateMachine ()) :
  exit_point b s = Ok () s' →
  exit_point b s' = Ok () s' ∧
  Forall (λ c, is_Some (accept_at (m_nodes s') c)) (cursors s').
Proof.
  unfold exit_point. intros H.
  apply bind_ok in H as (cs & s1 & [= <- <-] & H).
  apply bind_ok in H as (errs & s1 & Hloop & H).
  destruct errs as [|d errs]; [|done].
  apply ret_ok in H as [_ ->].
  apply exit_point_loop_settles in Hloop as (Hp & Hc & _ & _ & Hall).
  specialize (Hall eq_refl). rewrite <- Hp, <- Hc in Hall.
  split.
  - apply bind_ok. exists (cursors s'), s'. split; [done|].
    apply bind_ok. exists [], s'. split; [|done].
    by apply exit_point_loop_settled.
  - eapply Forall_impl; [exact Hall|]. simpl.
    intros c (_ & n & v & Hn & Hv & _). unfold accept_at.
    rewrite Hn. simpl. by rewrite Hv.
Qed.

Lemma exit_point_idempotent_witness :
  exit_point 1 (default_machine Skip) = Ok () (default_machine Skip) ∧
  exit_point 1 (default_machine Skip) = Ok () (default_machine Skip) ∧
  Forall (λ c, is_Some (accept_at (m_nodes (default_machine Skip)) c))
    (cursors (default_machine Skip)).
Proof.
  assert (Hrun : exit_point 1 (default_machine Skip) =
                   Ok () (default_machine Skip)) by (vm_compute; reflexivity).
  split; [exact Hrun|].
  exact (exit_point_idempotent 1 _ _ Hrun).
Defined.

(** ** A machine built from a sequence *)



Section Chain.
Context {V : Type}.

Lemma cursor_discreet_transition_fresh fuel key (s : StateMachine V) c n :
  cursors s = [c] → 1 ≤ c → m_nodes s !! (c - 1) = Some n →
  def n = 0 → transition n key = 0 →
  cursor_discreet_transition fuel key s =
    Ok () (mkMachine
             (<[c - 1 := set_transition key (S (length (m_nodes s))) n]>
                (m_nodes s) ++ [empty_node])
             (on_conflict s) [S (length (m_nodes s))]).
Proof.
  intros Hcs Hc Hnode Hdef Hkey.
  assert (Hlt : c - 1 < length (m_nodes s)) by (by eapply lookup_lt_Some).
  unfold cursor_discreet_transition.
  rewrite bind_run, get_cursors_run. cbn beta iota. rewrite Hcs.
  rewrite bind_run, foldM_one. cbn beta iota.
  rewrite bind_run, (get_node_at s c n Hc Hnode). cbn beta iota.
  rewrite decide_False by (by intros ?). rewrite decide_True by done.
  rewrite ret_run. cbn beta iota. rewrite !app_nil_l.
  rewrite bind_run. rewrite bind_run, new_node_run. cbn beta iota.
  rewrite bind_run. unfold for_each. rewrite foldM_one.
  rewrite (update_node_at _ c n); [|done|by simpl; rewrite lookup_app_l].
  cbn beta iota. rewrite ret_run. cbn beta iota.
  rewrite bind_run, foldM_none. cbn beta iota.
  rewrite bind_run, foldM_none. cbn beta iota.
  rewrite bind_run. unfold for_each. rewrite foldM_none. cbn beta iota.
  rewrite set_cursors_run. simpl.
  by rewrite insert_app_l.
Qed.

Lemma match_any_of_fresh fuel (x : Z) (s : StateMachine V) c n :
  cursors s = [c] → 1 ≤ c → m_nodes s !! (c - 1) = Some n →
  def n = 0 → transition n (Key_T.value x) = 0 →
  match_any_of false fuel [x] s =
    Ok () (mkMachine
             (<[c - 1 := set_transition (Key_T.value x)
                           (length (m_nodes s) + 2) n]>
                (m_nodes s) ++ [empty_node; empty_node])
             (on_conflict s) [length (m_nodes s) + 2]).
Proof.
  intros Hcs Hc Hnode Hdef Hkey.
  assert (Hlt : c - 1 < length (m_nodes s)) by (by eapply lookup_lt_Some).
  unfold match_any_of.
  rewrite bind_run, new_node_run. cbn beta iota.
  rewrite bind_run, get_cursors_run. cbn beta iota.
  rewrite bind_run, foldM_one. unfold match_any_of_round.
  rewrite bind_run.
  rewrite (cursor_discreet_transition_fresh fuel _ _ c n);
    [|done|done|by simpl; rewrite lookup_app_l|done|done].
  cbn beta iota. rewrite bind_run, get_cursors_run. cbn beta iota.
  rewrite bind_run, set_cursors_run. cbn beta iota.
  rewrite ret_run. cbn beta iota. rewrite set_cursors_run. simpl.
  rewrite length_app. simpl.
  replace (S (length (m_nodes s) + 1)) with (length (m_nodes s) + 2) by lia.
  rewrite insert_app_l by done. by rewrite <- app_assoc.
Qed.

End Chain.

Lemma exit_point_fresh b (s : StateMachine ()) c n :
  cursors s = [c] → 1 ≤ c → m_nodes s !! (c - 1) = Some n →
  value n = None →
  exit_point b s =
    Ok () (mkMachine
             (<[c - 1 := mkNode (transitions n) (Some (mkValue () b))]>
                (m_nodes s))
             (on_conflict s) [c]).
Proof.
  intros Hcs Hc Hnode Hval. unfold exit_point.
  rewrite bind_run, get_cursors_run. cbn beta iota. rewrite Hcs.
  rewrite bind_run, foldM_one. unfold exit_point_round.
  rewrite bind_run, (get_node_at s c n Hc Hnode). cbn beta iota.
  rewrite Hval. rewrite bind_run, (update_node_at s c n _ Hc Hnode).
  cbn beta iota. rewrite ret_run. cbn beta iota. rewrite ret_run.
  by rewrite Hcs.
Qed.

Lemma store_wf_grow {V} (nodes : list (Node_T V)) c n extra :
  store_wf nodes → c < length nodes →
  Forall (λ e, e.2 ≤ length nodes + length extra) (transitions n) →
  Forall (λ n', transitions n' = []) extra →
  store_wf (<[c := n]> nodes ++ extra).
Proof.
  intros [Hne Hwf] Hc Hn Hextra. split.
  { destruct nodes; [done|]. by destruct c. }
  rewrite length_app, length_insert. apply Forall_app. split.
  - apply Forall_insert; [|done].
    eapply Forall_impl; [exact Hwf|]. simpl. intros n' Hn'.
    eapply Forall_impl; [exact Hn'|]. simpl. lia.
  - eapply Forall_impl; [exact Hextra|]. simpl. by intros n' ->.
Qed.

Lemma rt_get_transition_single {V} (x y : Z) (t : nat) (v : option (Value_T V)) :
  t ≠ 0 →
  rt_get_transition (mkNode [(Key_T.value x, t)] v) y =
    if decide (y = x) then t else 0.
Proof.
  intros Ht. unfold rt_get_transition, def, transition. simpl.
  destruct (decide (y = x)) as [->|Hne].
  - rewrite !(decide_True (P := Key_T.value x = Key_T.value x)) by done.
    by rewrite decide_False by done.
  - rewrite !(decide_False (P := Key_T.value x = Key_T.value y))
      by congruence.
    by rewrite decide_True by done.
Qed.

Lemma walk_cons {V} (nodes : list (Node_T V)) cur c rest :
  walk nodes cur (c :: rest) =
    match nodes !! (cur - 1) with
    | None => None
    | Some node =>
        if decide (rt_get_transition node c = 0) then None
        else walk nodes (rt_get_transition node c) rest
    end.
Proof. done. Qed.

Lemma walk_nil {V} (nodes : list (Node_T V)) cur :
  walk nodes cur [] = Some cur.
Proof. done. Qed.

Lemma match_sequence_nil {V} fuel (s : StateMachine V) :
  match_sequence false fuel [] s = Ok () s.
Proof. done. Qed.

Lemma match_sequence_step {V} fuel x w (s : StateMachine V) :
  match_sequence false fuel (x :: w) s =
    match match_any_of false fuel [x] s with
    | Ok _ s1 => match_sequence false fuel w s1
    | Fail e => Fail e
    end.
Proof.
  unfold match_sequence, for_each. simpl. rewrite !bind_run.
  by destruct (match_any_of false fuel [x] s) as [[] s1|].
Qed.

(** The chain [match_sequence(w)] hangs on a cursor that stands alone
    on an empty node: two nodes per symbol, no other node written, the
    cursor left alone on an empty node at the far end.  Whatever is
    built on from there, provided the nodes of the chain are left as
    they are: a walk from the near end passes through the far end
    after [w] or ends without a verdict, and the loop of [find] runs
    from the near end over [w] onto the far end. *)
Lemma match_sequence_chain {V} fuel w : ∀ (s : StateMachine V) c,
  cursors s = [c] → 1 ≤ c → m_nodes s !! (c - 1) = Some empty_node →
  store_wf (m_nodes s) →
  ∃ s1 tip,
    match_sequence false fuel w s = Ok () s1 ∧
    cursors s1 = [tip] ∧ on_conflict s1 = on_conflict s ∧
    tip = (if w is [] then c else length (m_nodes s) + 2 * length w) ∧
    length (m_nodes s1) = length (m_nodes s) + 2 * length w ∧
    m_nodes s1 !! (tip - 1) = Some empty_node ∧
    (∀ i, i < length (m_nodes s) → i ≠ c - 1 →
          m_nodes s1 !! i = m_nodes s !! i) ∧
    (if w is x :: _ then
       m_nodes s1 !! (c - 1) =
         Some (mkNode [(Key_T.value x, length (m_nodes s) + 2)] None)
     else True) ∧
    store_wf (m_nodes s1) ∧
    ∀ nodes : list (Node_T V),
      (∀ i, i < length (m_nodes s1) → i ≠ tip - 1 →
            nodes !! i = m_nodes s1 !! i) →
      is_Some (nodes !! (tip - 1)) →
      (∀ include_eof input,
         (n ← walk nodes c input; verdict include_eof nodes n) =
         (rest ← after_prefix w input;
          n ← walk nodes tip rest; verdict include_eof nodes n)) ∧
      (∀ mode rest i st,
         current_node st = c →
         find_loop false mode nodes (w ++ rest) i st =
         find_loop false mode nodes rest (i + length w)
           (if w is [] then st else entered nodes tip (i + length w) st)).
Proof.
  induction w as [|x w IH]; intros s c Hcs Hc Hnode Hwf.
  - exists s, c. rewrite match_sequence_nil. simpl.
    rewrite !Nat.add_0_r.
    split; [done|]. split; [done|]. split; [done|]. split; [done|].
    split; [done|]. split; [done|]. split; [done|]. split; [done|].
    split; [done|].
    intros nodes _ _. split; [done|].
    intros mode rest i st _. by rewrite Nat.add_0_r.
  - assert (Hlt : c - 1 < length (m_nodes s)) by (by eapply lookup_lt_Some).
    set (L := length (m_nodes s)) in *.
    set (sa := mkMachine
                 (<[c - 1 := set_transition (Key_T.value x) (L + 2)
                               empty_node]> (m_nodes s)
                    ++ [empty_node; empty_node])
                 (on_conflict s) [L + 2]).
    assert (Hstep : match_any_of false fuel [x] s = Ok () sa)
      by (by apply match_any_of_fresh).
    assert (Hset : set_transition (Key_T.value x) (L + 2) empty_node =
                   (mkNode [(Key_T.value x, L + 2)] None : Node_T V)).
    { unfold set_transition. by rewrite decide_False by lia. }
    assert (Hlena : length (m_nodes sa) = L + 2).
    { simpl. rewrite length_app, length_insert. simpl. done. }
    assert (Hwfa : store_wf (m_nodes sa)).
    { apply store_wf_grow; [done|done| |].
      - rewrite Hset. simpl. apply Forall_cons. split; [|apply Forall_nil_2].
        simpl. fold L. lia.
      - by repeat constructor. }
    destruct (IH sa (L + 2))
      as (s1 & tip & Hrun & Hcs1 & Hp & Htip & Hlen & Hempty & Hframe & Hnext
          & Hwf1 & Hbuilt);
      [done|lia| |done|].
    { simpl. rewrite lookup_app_r by (rewrite length_insert; fold L; lia).
      rewrite length_insert. fold L.
      by replace (L + 2 - 1 - L) with 1 by lia. }
    rewrite Hlena in Hlen, Hframe, Htip.
    assert (Htip' : tip = L + 2 * length (x :: w)).
    { rewrite Htip. destruct w; simpl; lia. }
    exists s1, tip. split; [by rewrite match_sequence_step, Hstep|].
    split; [done|]. split; [done|]. split; [done|].
    split; [simpl; simpl in Hlen; lia|]. split; [done|].
    assert (Hc1 : m_nodes s1 !! (c - 1) =
                  Some (mkNode [(Key_T.value x, L + 2)] None)).
    { rewrite Hframe by lia. simpl.
      rewrite lookup_app_l by (by rewrite length_insert).
      rewrite list_lookup_insert_eq by done. by rewrite Hset. }
    split.
    { intros i Hi Hne. rewrite Hframe by lia. simpl.
      rewrite lookup_app_l by (rewrite length_insert; fold L; lia).
      by rewrite list_lookup_insert_ne. }
    split; [done|]. split; [done|].
    intros nodes Hnodes Hfar.
    destruct (Hbuilt nodes Hnodes Hfar) as [Hwalk Hfind].
    assert (Hc' : nodes !! (c - 1) =
                  Some (mkNode [(Key_T.value x, L + 2)] None)).
    { rewrite Hnodes; [done|lia|]. simpl in Htip'. lia. }
    split.
    + intros include_eof [|y rest]; [rewrite walk_nil|rewrite walk_cons].
      * simpl. unfold verdict, eof_child, accept_at.
        destruct include_eof; simpl; by rewrite Hc'.
      * rewrite Hc', rt_get_transition_single by lia. simpl.
        destruct (decide (y = x)) as [->|Hne]; [|done].
        rewrite decide_False by lia. apply Hwalk.
    + intros mode rest i [cur msmn mb me count]. simpl. intros ->.
      rewrite Hc'.
      destruct (decide (utf_validator.None ≠ utf_validator.None)); [done|].
      rewrite rt_get_transition_single by lia.
      rewrite !(decide_True (P := x = x)) by done.
      rewrite (decide_True (P := L + 2 ≠ 0)) by lia.
      destruct w as [|x' w].
      * (* the far end is entered now *)
        simpl in Htip. subst tip. simpl.
        replace (i + 1) with (S i) by lia.
        unfold entered, accept_at. simpl.
        destruct Hfar as [reached Hreached]. rewrite Hreached.
        simpl. by destruct (value reached).
      * (* an inner node of the chain *)
        rewrite Hlena in Hnext.
        assert (Hinner : nodes !! (L + 2 - 1) =
                         Some (mkNode [(Key_T.value x', L + 2 + 2)] None)).
        { rewrite Hnodes; [done|simpl in Hlen; lia|]. simpl in Htip'. lia. }
        rewrite Hinner. cbn iota beta. simpl value. cbn iota.
        rewrite (Hfind mode rest (S i) (mkFind (L + 2) msmn mb me count))
          by done.
        replace (S i + length (x' :: w)) with (i + length (x :: x' :: w))
          by (simpl; lia).
        done.
Qed.

Lemma after_prefix_spec w : ∀ input rest,
  after_prefix w input = Some rest ↔ input = w ++ rest.
Proof.
  induction w as [|x w IH]; intros input rest; simpl.
  - split; [by intros [= ->]|by intros ->].
  - destruct input as [|y input]; [done|].
    destruct (decide (y = x)) as [->|Hne].
    + rewrite IH. split; [by intros ->|by intros [= ->]].
    + split; [done|]. by intros [= ? _].
Qed.

Lemma after_prefix_exact w input :
  after_prefix w input = Some [] ↔ input = w.
Proof. rewrite after_prefix_spec. by rewrite app_nil_r. Qed.

Lemma rt_get_transition_no_edge {V} (n : Node_T V) (y : Z) :
  (∀ k t, (k, t) ∈ transitions n → k = Key_T.eof) →
  rt_get_transition n y = 0.
Proof.
  intros Hn. unfold rt_get_transition, def, transition.
  assert (Hget : ∀ k, k ≠ Key_T.eof → assoc_get k (transitions n) = 0).
  { intros k Hk. induction (transitions n) as [|[k' t'] l IH]; simpl; [done|].
    destruct (decide (k' = k)) as [->|].
    - destruct Hk. apply (Hn k t'). by left.
    - apply IH. intros k'' t'' Hin. apply (Hn k'' t''). by right. }
  rewrite !Hget by done. by rewrite decide_True.
Qed.

Lemma walk_dead_end {V} (nodes : list (Node_T V)) cur n y rest :
  nodes !! (cur - 1) = Some n →
  (∀ k t, (k, t) ∈ transitions n → k = Key_T.eof) →
  walk nodes cur (y :: rest) = None.
Proof.
  intros Hn Hedges. rewrite walk_cons, Hn.
  by rewrite rt_get_transition_no_edge, decide_True.
Qed.

Lemma find_loop_dead_end {V} mode (nodes : list (Node_T V)) rest i st n :
  nodes !! (current_node st - 1) = Some n →
  (∀ k t, (k, t) ∈ transitions n → k = Key_T.eof) →
  most_specific_matched_node st ≠ 0 →
  find_loop false mode nodes rest i st = inr st.
Proof.
  intros Hn Hedges Hrec. destruct rest as [|y rest]; simpl; [done|].
  rewrite Hn.
  destruct (decide (utf_validator.None ≠ utf_validator.None)); [done|].
  rewrite rt_get_transition_no_edge by done.
  rewrite decide_False by (by intros ?). rewrite decide_False by done.
  by destruct st.
Qed.

Lemma cursor_transition_fresh {V} key (s : StateMachine V) c n :
  cursors s = [c] → 1 ≤ c → m_nodes s !! (c - 1) = Some n →
  transition n key = 0 →
  cursor_transition key s =
    Ok () (mkMachine
             (<[c - 1 := set_transition key (S (length (m_nodes s))) n]>
                (m_nodes s) ++ [empty_node])
             (on_conflict s) [S (length (m_nodes s))]).
Proof.
  intros Hcs Hc Hnode Hkey.
  assert (Hlt : c - 1 < length (m_nodes s)) by (by eapply lookup_lt_Some).
  unfold cursor_transition.
  rewrite bind_run, get_cursors_run. cbn beta iota. rewrite Hcs.
  rewrite bind_run, foldM_one. cbn beta iota.
  rewrite bind_run, (get_node_at s c n Hc Hnode). cbn beta iota.
  rewrite decide_True by done. rewrite ret_run. cbn beta iota.
  rewrite !app_nil_l.
  rewrite bind_run. rewrite bind_run, new_node_run. cbn beta iota.
  rewrite bind_run. unfold for_each. rewrite foldM_one.
  rewrite (update_node_at _ c n); [|done|by simpl; rewrite lookup_app_l].
  cbn beta iota. rewrite ret_run. cbn beta iota.
  rewrite bind_run, foldM_none. cbn beta iota.
  rewrite set_cursors_run. simpl.
  by rewrite insert_app_l.
Qed.

(** X10. [match_sequence(w)] followed by [exit_point(b)] on a new machine
    returns a machine of two nodes per symbol besides the root;
    [matches] succeeds on that machine for the input [w] and for no
    other input; and for every input that begins with a non-empty [w],
    [find] reports the match from position 0 to the length of [w] less
    [b]. *)
Theorem match_sequence_accepts_exactly (fuel b : nat) (w : list Z) :
  ∃ s',
    (match_sequence false fuel w ≫= λ _, exit_point b) new_machine =
      Ok () s' ∧
    length (m_nodes s') = 1 + 2 * length w ∧
    store_wf (m_nodes s') ∧
    (∀ mode input,
       matches false mode false (m_nodes s') input =
         match_value
           (if decide (input = w) then Some (mkValue () b) else None)) ∧
    (w ≠ [] →
     ∀ mode rest,
       find false mode (m_nodes s') (w ++ rest) =
         find_match 0 (size_t_sub (length w) b) ()).
Proof.
  destruct (match_sequence_chain fuel w (@new_machine ()) 1)
    as (s1 & tip & Hrun & Hcs1 & _ & Htip & Hlen & Hempty & _ & _ & Hwf1
        & Hbuilt); try done.
  { split; [done|]. by repeat constructor. }
  assert (Htip1 : 1 ≤ tip) by (destruct w; simpl in Htip; lia).
  assert (Hlt : tip - 1 < length (m_nodes s1)) by (by eapply lookup_lt_Some).
  set (far := mkNode [] (Some (mkValue () b)) : Node_T ()).
  set (s' := mkMachine (<[tip - 1 := far]> (m_nodes s1)) (on_conflict s1)
               [tip]).
  assert (Hfar : m_nodes s' !! (tip - 1) = Some far)
    by (simpl; by rewrite list_lookup_insert_eq).
  assert (Hedges : ∀ k t, (k, t) ∈ transitions far → k = Key_T.eof)
    by (intros k t Hin; simpl in Hin; by apply elem_of_nil in Hin).
  destruct (Hbuilt (m_nodes s')) as [Hwalk Hfind].
  { intros i Hi Hne. simpl. by rewrite list_lookup_insert_ne. }
  { by rewrite Hfar. }
  assert (Hwf : store_wf (m_nodes s')).
  { simpl. rewrite <- (app_nil_r (<[_ := _]> _)).
    apply store_wf_grow; [done|done|apply Forall_nil_2|apply Forall_nil_2]. }
  exists s'. split.
  { rewrite bind_run, Hrun. cbn beta iota.
    by rewrite (exit_point_fresh b s1 tip empty_node). }
  split; [simpl; rewrite length_insert; simpl in Hlen; lia|].
  split; [done|]. split.
  - intros mode input. rewrite matches_walk_verdict by done.
    rewrite Hwalk. f_equal.
    destruct (after_prefix w input) as [[|y rest]|] eqn:Hpre;
      cbn [mbind option_bind].
    + apply after_prefix_exact in Hpre as ->. rewrite decide_True by done.
      unfold verdict, accept_at. simpl. by rewrite list_lookup_insert_eq.
    + rewrite (walk_dead_end _ _ far) by done.
      apply after_prefix_spec in Hpre as ->.
      rewrite decide_False; [done|].
      intros H. apply (f_equal length) in H. rewrite length_app in H.
      simpl in H. lia.
    + rewrite decide_False; [done|]. intros ->.
      assert (after_prefix w w = Some []) by (by apply after_prefix_exact).
      congruence.
  - intros Hne mode rest. unfold find.
    rewrite (Hfind mode rest 0 (mkFind 1 0 0 0 0)) by done.
    destruct w as [|x w]; [done|].
    unfold entered, accept_at. rewrite Hfar. simpl value. cbn iota.
    rewrite (find_loop_dead_end mode _ _ _ _ far); [|done|done|simpl; lia].
    simpl.
    destruct (decide (utf_validator.None ≠ utf_validator.None)); [done|].
    rewrite decide_True by lia. simpl in Hfar. by rewrite Hfar.
Qed.

(** X11. Closed by [match_eof] before [exit_point], the same sequence is
    accepted by [matches] only with [INCLUDE_EOF]: with it [matches]
    succeeds exactly on [w], without it on no input, and [find], which
    never takes the end-of-input edge, reports nothing for any
    input. *)
Theorem match_eof_needs_include_eof (fuel b : nat) (w : list Z) :
  ∃ s',
    (match_sequence false fuel w ≫= λ _, match_eof ≫= λ _, exit_point b)
      new_machine = Ok () s' ∧
    length (m_nodes s') = 2 + 2 * length w ∧
    store_wf (m_nodes s') ∧
    ∀ mode input,
      matches false mode true (m_nodes s') input =
        match_value
          (if decide (input = w) then Some (mkValue () b) else None) ∧
      matches false mode false (m_nodes s') input = match_value None ∧
      find false mode (m_nodes s') input = find_empty.
Proof.
  destruct (match_sequence_chain fuel w (@new_machine ()) 1)
    as (s1 & tip & Hrun & Hcs1 & _ & Htip & Hlen & Hempty & _ & _ & Hwf1
        & Hbuilt); try done.
  { split; [done|]. by repeat constructor. }
  assert (Htip1 : 1 ≤ tip) by (destruct w; simpl in Htip; lia).
  assert (Hlt : tip - 1 < length (m_nodes s1)) by (by eapply lookup_lt_Some).
  set (L := length (m_nodes s1)) in *.
  set (far := mkNode [(Key_T.eof, S L)] None : Node_T ()).
  set (last := mkNode [] (Some (mkValue () b)) : Node_T ()).
  set (s2 := mkMachine (<[tip - 1 := far]> (m_nodes s1) ++ [empty_node])
               (on_conflict s1) [S L]).
  set (s' := mkMachine (<[S L - 1 := last]> (m_nodes s2)) (on_conflict s1)
               [S L]).
  assert (Heof : match_eof s1 = Ok () s2).
  { unfold match_eof.
    by rewrite (cursor_transition_fresh _ s1 tip empty_node). }
  assert (Hlen2 : length (m_nodes s2) = S L).
  { simpl. rewrite length_app, length_insert. simpl. fold L. lia. }
  assert (Hlast2 : m_nodes s2 !! (S L - 1) = Some empty_node).
  { simpl. rewrite lookup_app_r by (rewrite length_insert; fold L; lia).
    rewrite length_insert. fold L. by replace (L - 0 - L) with 0 by lia. }
  assert (Hexit : exit_point b s2 = Ok () s').
  { by rewrite (exit_point_fresh b s2 (S L) empty_node) by (done || lia). }
  assert (Hfar : m_nodes s' !! (tip - 1) = Some far).
  { simpl. rewrite list_lookup_insert_ne by lia.
    rewrite lookup_app_l by (rewrite length_insert; fold L; lia).
    by rewrite list_lookup_insert_eq. }
  assert (Hlast : m_nodes s' !! (S L - 1) = Some last).
  { simpl. rewrite list_lookup_insert_eq; [done|].
    rewrite length_app, length_insert. simpl. fold L. lia. }
  assert (Hedges : ∀ k t, (k, t) ∈ transitions far → k = Key_T.eof).
  { intros k t Hin. simpl in Hin. apply list_elem_of_singleton in Hin.
    by injection Hin as -> _. }
  destruct (Hbuilt (m_nodes s')) as [Hwalk _].
  { intros i Hi Hne. simpl. rewrite list_lookup_insert_ne by (fold L in Hi; lia).
    rewrite lookup_app_l by (rewrite length_insert; done).
    by rewrite list_lookup_insert_ne. }
  { by rewrite Hfar. }
  assert (Hwf : store_wf (m_nodes s')).
  { simpl. rewrite <- (app_nil_r (<[_ := last]> _)).
    apply store_wf_grow;
      [|simpl in Hlen2; lia|apply Forall_nil_2|apply Forall_nil_2].
    apply store_wf_grow; [done|done| |by repeat constructor].
    simpl. apply Forall_cons. split; [|apply Forall_nil_2]. simpl. fold L. lia. }
  assert (Hverdict : ∀ include_eof input,
    (n ← walk (m_nodes s') 1 input; verdict include_eof (m_nodes s') n) =
    if include_eof && bool_decide (input = w)
    then Some (mkValue () b) else None).
  { intros include_eof input. rewrite Hwalk.
    destruct (after_prefix w input) as [[|y rest]|] eqn:Hpre;
      cbn [mbind option_bind].
    + apply after_prefix_exact in Hpre as ->.
      rewrite bool_decide_eq_true_2 by done.
      rewrite walk_nil. cbn [mbind option_bind].
      unfold verdict, eof_child, accept_at.
      destruct include_eof; cbn [mbind option_bind andb]; rewrite Hfar;
        cbn [mbind option_bind]; [|done].
      assert (Hchild : get_eof far = S L) by reflexivity.
      rewrite Hchild, decide_False by lia. cbn [mbind option_bind].
      by rewrite Hlast.
    + rewrite (walk_dead_end _ _ far) by done.
      apply after_prefix_spec in Hpre as ->.
      rewrite bool_decide_eq_false_2; [by rewrite andb_false_r|].
      intros H. apply (f_equal length) in H. rewrite length_app in H.
      simpl in H. lia.
    + rewrite bool_decide_eq_false_2; [by rewrite andb_false_r|]. intros ->.
      assert (after_prefix w w = Some []) by (by apply after_prefix_exact).
      congruence. }
  exists s'. split.
  { rewrite bind_run, Hrun. cbn beta iota.
    rewrite bind_run, Heof. cbn beta iota. done. }
  split; [simpl; rewrite length_insert, length_app, length_insert; simpl;
          fold L; simpl in Hlen; lia|].
  split; [done|].
  intros mode input. split; [|split].
  - rewrite matches_walk_verdict by done.
    rewrite Hverdict. simpl. by destruct (decide (input = w));
      [rewrite bool_decide_eq_true_2|rewrite bool_decide_eq_false_2].
  - rewrite matches_walk_verdict by done.
    by rewrite Hverdict.
  - destruct (find false mode (m_nodes s') input) as [e|e| | |b0 e0 v0]
      eqn:Hfind; [| | |done|].
    + pose proof (queries_in_store false mode false (m_nodes s')
                    input Hwf) as [H _]. rewrite Hfind in H. by destruct H.
    + pose proof (queries_in_store false mode false (m_nodes s')
                    input Hwf) as [H _]. rewrite Hfind in H. by destruct H.
    + pose proof (queries_in_store false mode false (m_nodes s')
                    input Hwf) as [H _]. by rewrite Hfind in H.
    + destruct (find_match_path false mode (m_nodes s') input b0 e0 v0 Hwf
                  Hfind) as (b' & m & n & val & _ & _ & Hpath & Hacc & _).
      pose proof (Hverdict false (segment input b' m)) as H.
      rewrite Hpath in H. cbn [mbind option_bind] in H.
      unfold verdict in H. cbn [mbind option_bind] in H.
      rewrite Hacc in H. done.
Qed.

(** ** ASCII options in UTF-8 mode *)

Lemma utf8_keys_ascii c : is_ascii c → utf8_keys c = inr [c].
Proof.
  intros Hc. unfold is_ascii in Hc. unfold utf8_keys.
  rewrite decide_False.
  2: { intros H. apply H. apply land_shifted_byte_zero; lia. }
  rewrite decide_False.
  2: { intros H. apply H. apply land_shifted_byte_zero; lia. }
  rewrite decide_False.
  2: { intros H. apply H. apply land_shifted_byte_zero; lia. }
  rewrite decide_True; [done|].
  assert (Hall : forallb (λ c, Z.land c 128 =? 0)%Z
                   (map Z.of_nat (seq 0 128)) = true)
    by (vm_compute; reflexivity).
  apply Z.eqb_eq. apply (forallb_Z_range _ 0 128 Hall). lia.
Qed.

Lemma foldM_ext {V A B} (f g : B → A → Build V B) l : ∀ b (s : StateMachine V),
  (∀ b a s, a ∈ l → f b a s = g b a s) →
  foldM f l b s = foldM g l b s.
Proof.
  induction l as [|a l IH]; intros b s Hfg; simpl; [done|].
  rewrite !bind_run, Hfg by (by left).
  destruct (g b a s) as [b' s'|]; [|done].
  apply IH. intros b0 a0 s0 Hin. apply Hfg. by right.
Qed.

(** X12. In UTF-8 mode an option below 128 is built exactly as in byte
    mode: [match_any_of] on options that are all ASCII does the same
    in both modes, whatever the machine. *)
Theorem match_any_of_ascii_as_bytes {V} (fuel : nat) (options : list Z)
    (s : StateMachine V) :
  Forall is_ascii options →
  match_any_of true fuel options s = match_any_of false fuel options s.
Proof.
  intros Hall. unfold match_any_of.
  rewrite !bind_run. destruct (new_node s) as [tidx s1|]; [|done].
  rewrite !bind_run. destruct (get_cursors s1) as [initial s2|]; [|done].
  rewrite !bind_run.
  rewrite (foldM_ext (match_any_of_round true fuel initial)
             (match_any_of_round false fuel initial)); [done|].
  intros new_cursors choice s0 Hin.
  rewrite Forall_forall in Hall. specialize (Hall choice Hin).
  unfold match_any_of_round. rewrite (utf8_keys_ascii _ Hall).
  rewrite !bind_run. unfold for_each. rewrite foldM_one.
  by destruct (cursor_discreet_transition fuel (Key_T.value choice) s0)
    as [[] ?|].
Qed.

Lemma match_any_of_ascii_as_bytes_witness :
  Forall is_ascii [97; 98]%Z ∧
  match_any_of true 64 [97; 98]%Z (@new_machine ()) =
  match_any_of false 64 [97; 98]%Z (@new_machine ()).
Proof.
  assert (Hall : Forall is_ascii [97; 98]%Z)
    by (repeat (apply Forall_cons; split); try apply Forall_nil;
        unfold is_ascii; lia).
  split; [exact Hall|].
  exact (match_any_of_ascii_as_bytes 64 _ _ Hall).
Defined.

(** ** A machine built from alternatives *)

Section Alternatives.
Context {V : Type}.

Lemma add_edges_value keys : ∀ t (n : Node_T V),
  value (add_edges keys t n) = value n.
Proof. induction keys as [|x keys IH]; intros t n; simpl; [done|]. by rewrite IH. Qed.

Lemma add_edges_other keys k : ∀ t (n : Node_T V),
  (∀ x, x ∈ keys → k ≠ Key_T.value x) →
  transition (add_edges keys t n) k = transition n k.
Proof.
  induction keys as [|x keys IH]; intros t n Hk; simpl; [done|].
  rewrite IH by (intros x' Hx'; apply Hk; by right).
  apply transition_set_transition_ne. apply Hk. by left.
Qed.

Lemma add_edges_key keys y : ∀ t (n : Node_T V),
  NoDup keys → y ∈ keys → t ≠ 0 →
  ∃ j, keys !! j = Some y ∧
    transition (add_edges keys t n) (Key_T.value y) = t + j.
Proof.
  induction keys as [|x keys IH]; intros t n Hnd Hy Ht; [by apply elem_of_nil in Hy|].
  apply NoDup_cons in Hnd as [Hx Hnd]. simpl.
  apply elem_of_cons in Hy as [->|Hy].
  - exists 0. split; [done|].
    rewrite add_edges_other by (intros x' Hx' [= ->]; done).
    rewrite transition_set_transition_eq by done. lia.
  - destruct (IH (S t) (set_transition (Key_T.value x) t n) Hnd Hy ltac:(lia))
      as (j & Hj & Htr).
    exists (S j). split; [done|]. rewrite Htr. lia.
Qed.

Lemma add_edges_within keys B : ∀ t (n : Node_T V),
  t ≠ 0 → t + length keys ≤ S B →
  Forall (λ e, e.2 ≤ B) (transitions n) →
  Forall (λ e, e.2 ≤ B) (transitions (add_edges keys t n)).
Proof.
  induction keys as [|x keys IH]; intros t n Ht Hb Hn; simpl; [done|].
  simpl in Hb. apply IH; [lia|lia|].
  unfold set_transition. simpl. rewrite decide_False by done.
  apply Forall_assoc_put; [done|simpl; lia].
Qed.

(** The loop of [match_any_of] over distinct options, the cursor
    standing alone on a node that has no default edge and no edge
    under any of them: one node per option, in order. *)
Lemma match_any_of_rounds fuel c opts : ∀ (s : StateMachine V) n acc,
  cursors s = [c] → 1 ≤ c → m_nodes s !! (c - 1) = Some n →
  def n = 0 → (∀ x, x ∈ opts → transition n (Key_T.value x) = 0) →
  NoDup opts →
  foldM (match_any_of_round false fuel [c]) opts acc s =
    Ok (acc ++ seq (S (length (m_nodes s))) (length opts))
       (mkMachine
          (<[c - 1 := add_edges opts (S (length (m_nodes s))) n]> (m_nodes s)
             ++ replicate (length opts) empty_node)
          (on_conflict s) [c]).
Proof.
  induction opts as [|x opts IH]; intros s n acc Hcs Hc Hnode Hdef Hnew Hnd.
  - simpl. rewrite !app_nil_r, list_insert_id by done.
    destruct s as [nodes p cs]. simpl in *. by rewrite Hcs.
  - apply NoDup_cons in Hnd as [Hx Hnd].
    assert (Hlt : c - 1 < length (m_nodes s)) by (by eapply lookup_lt_Some).
    simpl foldM. rewrite bind_run. unfold match_any_of_round at 1.
    rewrite bind_run.
    rewrite (cursor_discreet_transition_fresh fuel _ s c n);
      [|done|done|done|done|apply Hnew; by left].
    cbn beta iota. rewrite bind_run, get_cursors_run. cbn beta iota.
    rewrite bind_run, set_cursors_run. cbn beta iota.
    rewrite ret_run. cbn beta iota.
    set (L := length (m_nodes s)).
    set (n1 := set_transition (Key_T.value x) (S L) n).
    rewrite (IH _ n1).
    + simpl. rewrite length_app, length_insert. simpl. fold L.
      f_equal.
      * rewrite <- app_assoc. simpl. do 3 f_equal. lia.
      * f_equal. rewrite insert_app_l by (by rewrite length_insert).
        rewrite list_insert_insert_eq.
        rewrite <- app_assoc. simpl.
        by replace (L + 1) with (S L) by lia.
    + done.
    + done.
    + simpl. rewrite lookup_app_l by (by rewrite length_insert).
      by rewrite list_lookup_insert_eq.
    + unfold n1, def. by rewrite transition_set_transition_ne.
    + intros x' Hx'. unfold n1.
      rewrite transition_set_transition_ne by (intros [= ->]; done).
      apply Hnew. by right.
    + done.
Qed.

End Alternatives.

(** [exit_point] on distinct cursors that stand on nodes without an
    accept record: each of these nodes is made accepting, nothing else
    changes. *)
Lemma exit_point_loop_fresh b cs : ∀ errs (s : StateMachine ()),
  NoDup cs →
  Forall (λ c, 1 ≤ c ∧ ∃ n, m_nodes s !! (c - 1) = Some n ∧ value n = None)
    cs →
  ∃ s',
    foldM (exit_point_round b) cs errs s = Ok errs s' ∧
    length (m_nodes s') = length (m_nodes s) ∧
    cursors s' = cursors s ∧ on_conflict s' = on_conflict s ∧
    ∀ i n, m_nodes s !! i = Some n →
      m_nodes s' !! i =
        Some (if decide (S i ∈ cs) then accepting b n else n).
Proof.
  induction cs as [|c cs IH]; intros errs s Hnd Hfresh.
  - exists s. rewrite foldM_none.
    split; [done|]. split; [done|]. split; [done|]. split; [done|].
    intros i n Hn. rewrite decide_False; [done|]. apply not_elem_of_nil.
  - apply NoDup_cons in Hnd as [Hc_notin Hnd].
    apply Forall_cons in Hfresh as [(Hc & n & Hn & Hval) Hfresh].
    set (s1 := mkMachine (<[c - 1 := accepting b n]> (m_nodes s))
                 (on_conflict s) (cursors s)).
    assert (Hround : exit_point_round b errs c s = Ok errs s1).
    { unfold exit_point_round.
      rewrite bind_run, (get_node_at s c n Hc Hn). cbn beta iota.
      rewrite Hval, bind_run, (update_node_at s c n _ Hc Hn). done. }
    destruct (IH errs s1 Hnd) as (s' & Hrun & Hlen & Hcur & Hp & Hnodes).
    { rewrite Forall_forall in Hfresh |- *. intros c' Hc'.
      destruct (Hfresh c' Hc') as (Hc1 & n' & Hn' & Hval').
      split; [done|]. exists n'. split; [|done]. simpl.
      rewrite list_lookup_insert_ne; [done|].
      intros Heq. assert (c' = c) as -> by lia. done. }
    exists s'. split.
    { simpl foldM. by rewrite bind_run, Hround. }
    split; [by rewrite Hlen; simpl; rewrite length_insert|].
    split; [done|]. split; [done|].
    intros i n0 Hn0.
    destruct (decide (i = c - 1)) as [->|Hne].
    + assert (n0 = n) as -> by congruence.
      rewrite (Hnodes (c - 1) (accepting b n))
        by (simpl; rewrite list_lookup_insert_eq; [done|by eapply lookup_lt_Some]).
      replace (S (c - 1)) with c by lia.
      rewrite decide_False by done. rewrite decide_True by (by left). done.
    + rewrite (Hnodes i n0) by (simpl; by rewrite list_lookup_insert_ne).
      f_equal. destruct (decide (S i ∈ cs)) as [Hin|Hnin].
      * rewrite decide_True by (by right). done.
      * rewrite decide_False; [done|].
        intros [Heq|?]%elem_of_cons; [lia|done].
Qed.

Lemma store_wf_same_edges {V} (nodes nodes' : list (Node_T V)) :
  length nodes' = length nodes →
  (∀ i n, nodes !! i = Some n →
     ∃ n', nodes' !! i = Some n' ∧ transitions n' = transitions n) →
  store_wf nodes → store_wf nodes'.
Proof.
  intros Hlen Hsame [Hne Hwf]. split.
  { destruct nodes, nodes'; done. }
  apply Forall_lookup. intros i n' Hn'.
  destruct (lookup_lt_is_Some_2 nodes i) as [n Hn].
  { rewrite <- Hlen. by eapply lookup_lt_Some. }
  destruct (Hsame i n Hn) as (n'' & Hn'' & Hedges).
  assert (n'' = n') as -> by congruence.
  rewrite Hedges, Hlen. by apply (Forall_lookup_1 _ _ _ _ Hwf Hn).
Qed.

Lemma exit_point_fresh_cursors b (s : StateMachine ()) :
  NoDup (cursors s) →
  Forall (λ c, 1 ≤ c ∧ ∃ n, m_nodes s !! (c - 1) = Some n ∧ value n = None)
    (cursors s) →
  ∃ s',
    exit_point b s = Ok () s' ∧
    length (m_nodes s') = length (m_nodes s) ∧
    cursors s' = cursors s ∧ on_conflict s' = on_conflict s ∧
    ∀ i n, m_nodes s !! i = Some n →
      m_nodes s' !! i =
        Some (if decide (S i ∈ cursors s) then accepting b n else n).
Proof.
  intros Hnd Hfresh.
  destruct (exit_point_loop_fresh b (cursors s) [] s Hnd Hfresh)
    as (s' & Hrun & Hrest).
  exists s'. split; [|done]. unfold exit_point.
  rewrite bind_run, get_cursors_run. cbn beta iota.
  by rewrite bind_run, Hrun.
Qed.

(** X13. [match_any_of(options)] with distinct options, followed by
    [exit_point(b)], on a new machine: the machine returned holds one
    node per option besides the root and the target, and [matches]
    succeeds on it exactly for the inputs of one symbol that is among
    the options. *)
Theorem match_any_of_accepts_options (fuel b : nat) (options : list Z) :
  NoDup options →
  ∃ s',
    (match_any_of false fuel options ≫= λ _, exit_point b) new_machine =
      Ok () s' ∧
    length (m_nodes s') = 2 + length options ∧
    store_wf (m_nodes s') ∧
    ∀ mode input,
      matches false mode false (m_nodes s') input =
        match_value
          (match input with
           | [x] => if decide (x ∈ options) then Some (mkValue () b) else None
           | _ => None
           end).
Proof.
  intros Hnd.
  set (k := length options).
  set (root_ := add_edges options 3 (empty_node : Node_T ())).
  set (s2 := mkMachine (root_ :: empty_node :: replicate k empty_node)
               Error (seq 3 k)).
  assert (Hbuild : match_any_of false fuel options new_machine = Ok () s2).
  { unfold match_any_of.
    rewrite bind_run, new_node_run. cbn beta iota.
    rewrite bind_run, get_cursors_run. cbn beta iota.
    rewrite bind_run.
    rewrite (match_any_of_rounds fuel 1 options _ empty_node); done. }
  assert (Hwf2 : store_wf (m_nodes s2)).
  { split; [done|]. simpl. rewrite length_replicate. fold k.
    apply Forall_cons. split.
    { apply add_edges_within; [lia|fold k; lia|apply Forall_nil_2]. }
    apply Forall_cons. split; [apply Forall_nil_2|].
    apply Forall_replicate. apply Forall_nil_2. }
  destruct (exit_point_fresh_cursors b s2)
    as (s' & Hexit & Hlen & _ & _ & Hnodes).
  { apply NoDup_seq. }
  { apply Forall_forall. intros c Hc. apply elem_of_seq in Hc.
    split; [lia|]. exists empty_node. split; [|done]. simpl.
    destruct c as [|[|[|c]]]; try lia. simpl.
    apply lookup_replicate. split; [done|lia]. }
  simpl in Hlen. rewrite length_replicate in Hlen.
  assert (Hroot : m_nodes s' !! 0 = Some root_).
  { rewrite (Hnodes 0 root_) by done.
    rewrite decide_False; [done|]. intros Hin%elem_of_seq. lia. }
  assert (Hacc : ∀ j, j < k →
            m_nodes s' !! (2 + j) = Some (accepting b empty_node)).
  { intros j Hj. rewrite (Hnodes (2 + j) empty_node).
    - rewrite decide_True; [done|]. apply elem_of_seq. lia.
    - simpl. apply lookup_replicate. split; [done|lia]. }
  assert (Hwf : store_wf (m_nodes s')).
  { apply (store_wf_same_edges (m_nodes s2)); [|intros i n Hn|done].
    - simpl. by rewrite length_replicate.
    - rewrite (Hnodes i n Hn). eexists. split; [done|].
      by destruct (decide _). }
  exists s'. split; [by rewrite bind_run, Hbuild|].
  split; [fold k; lia|]. split; [done|].
  intros mode input. rewrite matches_walk_verdict by done. f_equal.
  unfold verdict. destruct input as [|y rest].
  { rewrite walk_nil. cbn [mbind option_bind]. unfold accept_at. simpl.
    rewrite Hroot. simpl. unfold root_. by rewrite add_edges_value. }
  rewrite walk_cons. simpl. rewrite Hroot.
  assert (Hdef : def root_ = 0).
  { unfold def, root_. by rewrite add_edges_other by done. }
  destruct (decide (y ∈ options)) as [Hy|Hy].
  - destruct (add_edges_key options y 3 (empty_node : Node_T ()) Hnd Hy
                ltac:(lia)) as (j & Hj & Htr).
    apply lookup_lt_Some in Hj. fold k in Hj.
    assert (Hgo : rt_get_transition root_ y = 3 + j).
    { unfold rt_get_transition. fold root_ in Htr. rewrite Htr.
      by rewrite decide_False by lia. }
    rewrite Hgo, decide_False by lia.
    destruct rest as [|z rest].
    + rewrite walk_nil. cbn [mbind option_bind]. unfold accept_at.
      replace (3 + j - 1) with (2 + j) by lia. by rewrite Hacc.
    + rewrite (walk_dead_end _ _ (accepting b empty_node)); [by destruct rest| |].
      * replace (3 + j - 1) with (2 + j) by lia. by apply Hacc.
      * intros k0 t Hin. simpl in Hin. by apply elem_of_nil in Hin.
  - assert (Hgo : rt_get_transition root_ y = 0).
    { unfold rt_get_transition. rewrite Hdef.
      unfold root_. rewrite add_edges_other by (intros x Hx [= ->]; done).
      done. }
    rewrite Hgo, decide_True by done. by destruct rest.
Qed.

Lemma match_any_of_accepts_options_witness :
  NoDup [97; 98]%Z ∧
  ∃ s',
    (match_any_of false 64 [97; 98]%Z ≫= λ _, exit_point 0) new_machine =
      Ok () s' ∧
    length (m_nodes s') = 2 + length [97; 98]%Z ∧
    store_wf (m_nodes s') ∧
    ∀ mode input,
      matches false mode false (m_nodes s') input =
        match_value
          (match input with
           | [x] =>
               if decide (x ∈ [97; 98]%Z) then Some (mkValue () 0) else None
           | _ => None
           end).
Proof.
  assert (Hnd : NoDup [97; 98]%Z)
    by (apply (bool_decide_unpack _); vm_compute; exact I).
  split; [exact Hnd|].
  exact (match_any_of_accepts_options 64 0 _ Hnd).
Defined.

(** ** Splicing a pattern *)

Lemma assoc_put_fresh k v l :
  k ∉ l.*1 → assoc_put k v l = l ++ [(k, v)].
Proof.
  induction l as [|[k' v'] l IH]; simpl; intros Hk; [done|].
  rewrite decide_False by (intros ->; apply Hk; by left).
  rewrite IH; [done|]. intros Hin. apply Hk. by right.
Qed.

Section Splice.
Context {V : Type}.

Lemma rebased_from offset edges : ∀ acc,
  NoDup (acc.*1 ++ edges.*1) → Forall (λ e, e.2 ≠ 0) edges →
  foldl (λ n e, set_transition e.1 (e.2 + offset) n)
    (mkNode acc None : Node_T V) edges =
  mkNode (acc ++ map (λ e, (e.1, e.2 + offset)) edges) None.
Proof.
  induction edges as [|[k v] edges IH]; intros acc Hnd Hnz; simpl.
  - by rewrite app_nil_r.
  - apply Forall_cons in Hnz as [Hv Hnz]. simpl in Hv.
    unfold set_transition at 2. simpl.
    rewrite decide_False by lia.
    rewrite assoc_put_fresh.
    2: { simpl in Hnd. apply NoDup_app in Hnd as (_ & Hdisj & _).
         intros Hin. apply (Hdisj k Hin). by left. }
    rewrite IH; [by rewrite <- app_assoc|  |done].
    rewrite fmap_app. simpl. rewrite <- app_assoc. done.
Qed.

Lemma rebased_normal offset (n : Node_T ()) :
  node_normal n →
  rebased offset (get_transitions n) = (shifted offset n : Node_T V).
Proof.
  intros [Hnd Hnz]. unfold rebased, shifted, get_transitions, empty_node.
  by rewrite rebased_from.
Qed.

(** The loop of [consume_regex_except_root]. *)
Lemma consume_loop base rest : ∀ start r (s : StateMachine V),
  let body := (λ (r : ConsumeResult) '(idx, node),
    let terminals' :=
      if value (node : Node_T ()) is Some _ then terminals r ++ [idx + base]
      else terminals r in
    let n := rebased base (get_transitions node) in
    new_idx ← push n;
    mret (mkConsume (mappings r ++ [(idx, new_idx)]) terminals')) in
  foldM body (zip (seq start (length rest)) rest) r s =
    Ok (mkConsume
          (mappings r ++
           zip (seq start (length rest))
             (seq (S (length (m_nodes s))) (length rest)))
          (terminals r ++
           map (λ idx, idx + base) (accepting_indices start rest)))
       (mkMachine
          (m_nodes s ++ map (λ node, rebased base (get_transitions node)) rest)
          (on_conflict s) (cursors s)).
Proof.
  induction rest as [|node rest IH]; intros start r s body; simpl.
  - rewrite !app_nil_r. by destruct r, s.
  - unfold body at 1. rewrite bind_run. cbn beta iota.
    rewrite bind_run. unfold push at 1. cbn beta iota.
    rewrite ret_run. cbn beta iota. fold body.
    rewrite IH. simpl. rewrite length_app. simpl.
    rewrite <- !app_assoc. simpl.
    replace (length (m_nodes s) + 1) with (S (length (m_nodes s))) by lia.
    f_equal. f_equal.
    unfold accepting_indices. simpl.
    destruct (value node); simpl; by rewrite <- ?app_assoc.
Qed.

Lemma consume_regex_except_root_run (regex : StateMachine ())
    (s : StateMachine V) :
  consume_regex_except_root regex s =
    Ok (mkConsume
          (zip (seq 2 (length (m_nodes regex) - 1))
             (seq (S (length (m_nodes s))) (length (m_nodes regex) - 1)))
          (map (λ idx, idx + (length (m_nodes s) - 1))
             (accepting_indices 2 (drop 1 (m_nodes regex)))))
       (mkMachine
          (m_nodes s ++
           map (λ node, rebased (length (m_nodes s) - 1) (get_transitions node))
             (drop 1 (m_nodes regex)))
          (on_conflict s) (cursors s)).
Proof.
  unfold consume_regex_except_root. rewrite bind_run. unfold size at 1.
  cbn beta iota.
  pose proof (consume_loop (length (m_nodes s) - 1) (drop 1 (m_nodes regex))
                2 (mkConsume [] []) s) as H.
  rewrite length_drop in H. simpl in H. exact H.
Qed.

End Splice.

Section SpliceFresh.
Context {V : Type}.

Lemma make_nonambiguous_link_absent fuel from key to watch
    (s : StateMachine V) n :
  1 ≤ from → to ≠ 0 → m_nodes s !! (from - 1) = Some n →
  transition n key = 0 →
  make_nonambiguous_link (S fuel) from key to watch s =
    Ok [] (mkMachine (<[from - 1 := set_transition key to n]> (m_nodes s))
             (on_conflict s) (cursors s)).
Proof.
  intros Hfrom Hto Hn Hkey. unfold make_nonambiguous_link. simpl.
  rewrite decide_False by done. rewrite decide_False by lia.
  rewrite bind_run, (get_node_at s from n Hfrom Hn). cbn beta iota.
  rewrite decide_True by done.
  rewrite bind_run, (update_node_at s from n _ Hfrom Hn). done.
Qed.

(** The loop of [merge_regex_into_machine] over the edges of the
    pattern's root, for a cursor that has none of them yet: every
    link is the plain write. *)
Lemma merge_edges_absent fuel c edges : ∀ terms (s : StateMachine V) n,
  1 ≤ c → m_nodes s !! (c - 1) = Some n →
  (∀ e, e ∈ edges → transition n e.1 = 0) →
  NoDup edges.*1 → Forall (λ e, e.2 ≠ 0) edges →
  foldM (λ terminals '(key, dest),
           new_terminals ←
             make_nonambiguous_link (S fuel) c key dest terminals;
           mret (terminals ++ new_terminals))
    edges terms s =
  Ok terms
     (mkMachine
        (<[c - 1 := foldl (λ n e, set_transition e.1 e.2 n) n edges]>
           (m_nodes s))
        (on_conflict s) (cursors s)).
Proof.
  induction edges as [|[key dest] edges IH]; intros terms s n Hc Hn Habs Hnd Hnz.
  - simpl. rewrite list_insert_id by done. by destruct s.
  - rewrite fmap_cons in Hnd. apply NoDup_cons in Hnd as [Hkey Hnd].
    apply Forall_cons in Hnz as [Hdest Hnz]. simpl in Hdest, Hkey.
    assert (Hlt : c - 1 < length (m_nodes s)) by (by eapply lookup_lt_Some).
    rewrite foldM_cons. cbn beta iota. rewrite bind_run.
    rewrite (make_nonambiguous_link_absent fuel c key dest terms s n);
      [|done|done|done|apply (Habs (key, dest)); by left].
    cbn beta iota. rewrite ret_run. cbn beta iota. rewrite app_nil_r.
    rewrite (IH _ _ (set_transition key dest n)); [| done | | |done|done].
    + simpl. by rewrite list_insert_insert_eq.
    + simpl. by rewrite list_lookup_insert_eq.
    + intros e He. rewrite transition_set_transition_ne.
      * apply Habs. by right.
      * intros Heq. apply Hkey. rewrite <- Heq.
        apply list_elem_of_fmap. by exists e.
Qed.

End SpliceFresh.

Lemma shifted_zero (n : Node_T ()) :
  (shifted 0 n : Node_T ()) = mkNode (transitions n) None.
Proof.
  unfold shifted. f_equal. induction (transitions n) as [|[k v] l IH]; simpl;
    [done|]. rewrite IH. by rewrite Nat.add_0_r.
Qed.

Lemma walk_same_edges {V W} (nodes : list (Node_T V)) (nodes' : list (Node_T W))
    input : ∀ cur,
  (∀ i, transitions <$> nodes' !! i = transitions <$> nodes !! i) →
  walk nodes' cur input = walk nodes cur input.
Proof.
  induction input as [|c rest IH]; intros cur Hsame; simpl; [done|].
  pose proof (Hsame (cur - 1)) as H.
  destruct (nodes' !! (cur - 1)) as [n'|], (nodes !! (cur - 1)) as [n|];
    simpl in H; try done.
  injection H as H.
  assert (Hrt : rt_get_transition n' c = rt_get_transition n c).
  { unfold rt_get_transition, def, transition. by rewrite H. }
  rewrite Hrt. destruct (decide _); [done|]. by apply IH.
Qed.

Lemma foldl_set_edges {V} edges : ∀ acc,
  NoDup (acc.*1 ++ edges.*1) → Forall (λ e, e.2 ≠ 0) edges →
  foldl (λ n e, set_transition e.1 e.2 n) (mkNode acc None : Node_T V) edges =
  mkNode (acc ++ edges) None.
Proof.
  induction edges as [|[k v] edges IH]; intros acc Hnd Hnz; simpl.
  - by rewrite app_nil_r.
  - apply Forall_cons in Hnz as [Hv Hnz]. simpl in Hv.
    unfold set_transition at 2. simpl.
    rewrite decide_False by lia.
    rewrite assoc_put_fresh.
    2: { simpl in Hnd. apply NoDup_app in Hnd as (_ & Hdisj & _).
         intros Hin. apply (Hdisj k Hin). by left. }
    rewrite IH; [by rewrite <- app_assoc|  |done].
    rewrite fmap_app. simpl. rewrite <- app_assoc. done.
Qed.

Lemma accepting_indices_cons {V} start (n : Node_T V) rest :
  accepting_indices start (n :: rest) =
    (if value n is Some _ then [start] else [])
    ++ accepting_indices (S start) rest.
Proof. unfold accepting_indices. simpl. by destruct (value n). Qed.

Lemma accepting_indices_elem {V} (rest : list (Node_T V)) : ∀ start idx,
  idx ∈ accepting_indices start rest ↔
  ∃ j n, idx = start + j ∧ rest !! j = Some n ∧ is_Some (value n).
Proof.
  induction rest as [|n rest IH]; intros start idx.
  - split; [by intros ?%elem_of_nil|by intros (j & n & _ & ? & _)].
  - rewrite accepting_indices_cons, elem_of_app, IH. split.
    + intros [Hhere|(j & n' & -> & Hj & Hv)].
      * destruct (value n) eqn:Hv; [|by apply elem_of_nil in Hhere].
        apply list_elem_of_singleton in Hhere as ->.
        exists 0, n. rewrite Nat.add_0_r, Hv. by eauto.
      * exists (S j), n'. split; [lia|done].
    + intros ([|j] & n' & -> & Hj & Hv).
      * left. injection Hj as <-. destruct Hv as [v ->].
        rewrite Nat.add_0_r. by left.
      * right. exists j, n'. split; [lia|done].
Qed.

Lemma accepting_indices_NoDup {V} (rest : list (Node_T V)) : ∀ start,
  NoDup (accepting_indices start rest).
Proof.
  induction rest as [|n rest IH]; intros start; [apply NoDup_nil_2|].
  rewrite accepting_indices_cons. apply NoDup_app. split; [|split; [|done]].
  - destruct (value n); [apply NoDup_singleton|apply NoDup_nil_2].
  - intros idx Hidx Hin. apply accepting_indices_elem in Hin
      as (j & _ & -> & _).
    destruct (value n); [|by apply elem_of_nil in Hidx].
    apply list_elem_of_singleton in Hidx. lia.
Qed.

(** [match(pattern)] on a new machine, then [exit_point(b)]: the
    machine built, node by node. *)
Lemma match_new_machine fuel b (pattern : StateMachine ()) :
  pattern_normal (m_nodes pattern) →
  ∃ s',
    (match_ (S fuel) pattern ≫= λ _, exit_point b) new_machine = Ok () s' ∧
    length (m_nodes s') = length (m_nodes pattern) ∧
    cursors s' = accepting_indices 2 (drop 1 (m_nodes pattern)) ∧
    ∀ i n, m_nodes pattern !! i = Some n →
      m_nodes s' !! i =
        Some (mkNode (transitions n)
                (if decide (i ≠ 0 ∧ is_Some (value n))
                 then Some (mkValue () b) else None)).
Proof.
  intros [Hne Hnormal].
  destruct (m_nodes pattern) as [|root rest] eqn:HP; [done|]. clear Hne.
  apply Forall_cons in Hnormal as [[Hnd Hnz] Hrest].
  set (strip := λ n : Node_T (), mkNode (transitions n) None : Node_T ()).
  set (terms := accepting_indices 2 rest).
  set (s2 := mkMachine (map strip (root :: rest)) Error terms).
  assert (Hmerge : match_ (S fuel) pattern new_machine = Ok () s2).
  { unfold match_, merge_regex_into_machine.
    rewrite bind_run. unfold size at 1. cbn beta iota.
    rewrite bind_run, consume_regex_except_root_run. cbn beta iota.
    rewrite HP. change ((root :: rest) !! 0) with (Some root).
    cbn beta iota.
    change (length (m_nodes (@new_machine ())) - 1) with 0.
    change (drop 1 (root :: rest)) with rest.
    rewrite bind_run, get_cursors_run. cbn beta iota.
    rewrite bind_run. change (cursors _) with [1]. rewrite foldM_one.
    rewrite (rebased_normal _ root) by done. rewrite shifted_zero.
    unfold get_transitions at 1. simpl transitions.
    rewrite (merge_edges_absent fuel 1 (transitions root) _ _ empty_node);
      [|done|done|done|done|done].
    cbn beta iota. rewrite set_cursors_run. unfold s2. simpl.
    f_equal. f_equal.
    - f_equal.
      + unfold empty_node. by rewrite foldl_set_edges.
      + apply map_ext_in. intros n Hn.
        rewrite rebased_normal, shifted_zero; [done|].
        rewrite Forall_forall in Hrest. apply Hrest.
        by apply list_elem_of_In.
    - unfold terms. induction (accepting_indices 2 rest) as [|t l IHl];
        simpl; [done|]. by rewrite Nat.add_0_r, IHl. }
  destruct (exit_point_fresh_cursors b s2)
    as (s' & Hexit & Hlen & Hcur & _ & Hnodes).
  { apply accepting_indices_NoDup. }
  { apply Forall_forall. intros c Hc. simpl in Hc.
    apply accepting_indices_elem in Hc as (j & n & -> & Hj & _).
    split; [lia|]. exists (strip n). split; [|done]. simpl.
    rewrite list_lookup_fmap. by rewrite Hj. }
  exists s'. split; [by rewrite bind_run, Hmerge|].
  split; [by rewrite Hlen; simpl; rewrite length_map|].
  split; [by rewrite Hcur|].
  intros i n Hn.
  rewrite (Hnodes i (strip n)).
  2: { change (m_nodes s2) with (strip <$> (root :: rest)).
       by rewrite list_lookup_fmap, Hn. }
  simpl cursors. f_equal.
  destruct (decide (i ≠ 0 ∧ is_Some (value n))) as [[Hi Hv]|Hno].
  - rewrite decide_True; [done|]. apply accepting_indices_elem.
    destruct i as [|i]; [done|]. exists i, n. split; [lia|done].
  - rewrite decide_False; [done|].
    intros (j & n' & Heq & Hj & Hv)%accepting_indices_elem.
    apply Hno. assert (i = S j) as -> by lia. simpl in Hn.
    split; [done|]. congruence.
Qed.

(** X14. [match(pattern)] on a new machine copies the pattern node for
    node, edges as they are, without the accept records; closed by
    [exit_point(b)], the copy accepts at every node but the root where
    the pattern accepts, each with [back_by] equal to [b].  So
    [matches] succeeds on the copy exactly for the inputs that the
    pattern takes from its root to an accepting node other than the
    root. *)
Theorem match_copies_pattern (fuel b : nat) (pattern : StateMachine ()) :
  pattern_normal (m_nodes pattern) → store_wf (m_nodes pattern) →
  ∃ s',
    (match_ (S fuel) pattern ≫= λ _, exit_point b) new_machine = Ok () s' ∧
    length (m_nodes s') = length (m_nodes pattern) ∧
    (∀ i n, m_nodes pattern !! i = Some n →
       m_nodes s' !! i =
         Some (mkNode (transitions n)
                 (if decide (i ≠ 0 ∧ is_Some (value n))
                  then Some (mkValue () b) else None))) ∧
    ∀ mode input,
      matches false mode false (m_nodes s') input =
        match_value
          (n ← walk (m_nodes pattern) 1 input;
           if decide (n = 1) then None
           else _ ← accept_at (m_nodes pattern) n; Some (mkValue () b)).
Proof.
  intros Hnormal Hwf.
  destruct (match_new_machine fuel b pattern Hnormal)
    as (s' & Hrun & Hlen & _ & Hnodes).
  exists s'. split; [done|]. split; [done|]. split; [done|].
  assert (Hsame : ∀ i, transitions <$> m_nodes s' !! i =
                       transitions <$> m_nodes pattern !! i).
  { intros i. destruct (m_nodes pattern !! i) as [n|] eqn:Hn.
    - by rewrite (Hnodes i n Hn).
    - apply lookup_ge_None in Hn. rewrite <- Hlen in Hn.
      apply lookup_ge_None in Hn. by rewrite Hn. }
  assert (Hwf' : store_wf (m_nodes s')).
  { apply (store_wf_same_edges (m_nodes pattern)); [done| |done].
    intros i n Hn. rewrite (Hnodes i n Hn). by eexists. }
  intros mode input. rewrite matches_walk_verdict by done. f_equal.
  rewrite (walk_same_edges (m_nodes pattern)) by done.
  destruct (walk (m_nodes pattern) 1 input) as [n|] eqn:Hwalk; [|done].
  cbn [mbind option_bind]. unfold verdict. cbn [mbind option_bind].
  pose proof (walk_within_store _ Hwf input 1 n (root_in_store _ Hwf) Hwalk)
    as Hn.
  destruct (lookup_lt_is_Some_2 (m_nodes pattern) (n - 1)) as [node Hnode];
    [lia|].
  unfold accept_at. rewrite (Hnodes _ node Hnode), Hnode. simpl.
  destruct (decide (n = 1)) as [->|Hn1].
  - by rewrite decide_False by (intros [? _]; done).
  - destruct (value node) as [v|].
    + rewrite decide_True; [done|]. split; [lia|done].
    + rewrite decide_False; [done|]. by intros [_ [? ?]].
Qed.

Lemma match_copies_pattern_witness :
  pattern_normal (m_nodes b_bc_machine) ∧
  store_wf (m_nodes b_bc_machine) ∧
  ∃ s',
    (match_ 64 b_bc_machine ≫= λ _, exit_point 1) new_machine = Ok () s' ∧
    length (m_nodes s') = length (m_nodes b_bc_machine) ∧
    (∀ i n, m_nodes b_bc_machine !! i = Some n →
       m_nodes s' !! i =
         Some (mkNode (transitions n)
                 (if decide (i ≠ 0 ∧ is_Some (value n))
                  then Some (mkValue () 1) else None))) ∧
    ∀ mode input,
      matches false mode false (m_nodes s') input =
        match_value
          (n ← walk (m_nodes b_bc_machine) 1 input;
           if decide (n = 1) then None
           else _ ← accept_at (m_nodes b_bc_machine) n; Some (mkValue () 1)).
Proof.
  assert (Hnormal : pattern_normal (m_nodes b_bc_machine)).
  { split; [by vm_compute|]. vm_compute.
    repeat (apply Forall_cons; split); try apply Forall_nil_2;
      try (apply (bool_decide_unpack _); vm_compute; exact I);
      simpl; lia. }
  assert (Hwf : store_wf (m_nodes b_bc_machine)) by store_wf_by_evaluation.
  split; [exact Hnormal|]. split; [exact Hwf|].
  exact (match_copies_pattern 63 1 _ Hnormal Hwf).
Defined.

(** ** [consume_regex_except_root] from any state *)

Lemma mappings_at_zip m : ∀ a b terms old,
  mappings_at (mkConsume (zip (seq a m) (seq b m)) terms) old =
    if decide (a ≤ old < a + m) then b + (old - a) else 0.
Proof.
  unfold mappings_at. simpl.
  induction m as [|m IH]; intros a b terms old; simpl.
  { rewrite decide_False by lia. done. }
  destruct (decide (a = old)) as [->|Hne]; simpl.
  - rewrite decide_True by lia. f_equal. lia.
  - specialize (IH (S a) (S b) terms old).
    destruct (list_find _ (zip (seq (S a) m) (seq (S b) m)))
      as [[i [o n]]|]; simpl in *; rewrite IH;
      repeat case_decide; lia.
Qed.

(** X15. [consume_regex_except_root] never fails.  It leaves the nodes,
    the cursors and the policy of the machine alone and appends one
    node per node of the pattern but its root: the edges of that node,
    every child moved up by the size of the machine less one, without
    its accept record.  Pattern index [j] is mapped to the index of
    the copy, the root's index 1 to the null reference, and the
    terminals are the copies of the accepting nodes. *)
Theorem consume_regex_except_root_appends {V} (regex : StateMachine ())
    (s : StateMachine V) :
  m_nodes s ≠ [] → pattern_normal (m_nodes regex) →
  ∃ r s', consume_regex_except_root regex s = Ok r s' ∧
    on_conflict s' = on_conflict s ∧ cursors s' = cursors s ∧
    length (m_nodes s') = length (m_nodes s) + (length (m_nodes regex) - 1) ∧
    take (length (m_nodes s)) (m_nodes s') = m_nodes s ∧
    (∀ j node, 2 ≤ j → m_nodes regex !! (j - 1) = Some node →
       mappings_at r j = length (m_nodes s) + j - 1 ∧
       m_nodes s' !! (mappings_at r j - 1) =
         Some (shifted (length (m_nodes s) - 1) node) ∧
       (mappings_at r j ∈ terminals r ↔ is_Some (value node))) ∧
    mappings_at r 0 = 0 ∧ mappings_at r 1 = 0.
Proof.
  intros Hs [Hne Hnormal].
  rewrite consume_regex_except_root_run. eexists _, _. split; [done|]. simpl.
  split; [done|]. split; [done|].
  split; [by rewrite length_app, length_map, length_drop|].
  split; [by rewrite take_app_length|].
  split; [|by rewrite !mappings_at_zip].
  intros j node Hj Hnode. rewrite mappings_at_zip.
  assert (Hlt : j - 1 < length (m_nodes regex)) by (by eapply lookup_lt_Some).
  rewrite decide_True by lia.
  assert (Hsz : 1 ≤ length (m_nodes s)) by (destruct (m_nodes s); [done|simpl; lia]).
  split; [lia|]. split.
  - rewrite lookup_app_r by lia.
    replace (S (length (m_nodes s)) + (j - 2) - 1 - length (m_nodes s))
      with (j - 2) by lia.
    change (map ?f ?l) with (f <$> l). rewrite list_lookup_fmap.
    rewrite lookup_drop. replace (1 + (j - 2)) with (j - 1) by lia.
    rewrite Hnode. simpl. f_equal. apply rebased_normal.
    rewrite Forall_lookup in Hnormal. by eapply Hnormal.
  - rewrite list_elem_of_fmap. split.
    + intros (idx & Heq & Hidx).
      assert (idx = j) as -> by lia.
      apply accepting_indices_elem in Hidx as (i & node' & Hi & Hnode' & Hval).
      rewrite lookup_drop in Hnode'.
      replace (1 + i) with (j - 1) in Hnode' by lia.
      assert (node' = node) as -> by congruence. done.
    + intros Hval. exists j. split; [lia|].
      apply accepting_indices_elem. exists (j - 2), node.
      rewrite lookup_drop. replace (1 + (j - 2)) with (j - 1) by lia.
      split; [lia|done].
Qed.

Lemma consume_regex_except_root_appends_witness :
  m_nodes b_machine ≠ [] ∧ pattern_normal (m_nodes b_bc_machine) ∧
  ∃ r s', consume_regex_except_root b_bc_machine b_machine = Ok r s' ∧
    on_conflict s' = on_conflict b_machine ∧
    cursors s' = cursors b_machine ∧
    length (m_nodes s') =
      length (m_nodes b_machine) + (length (m_nodes b_bc_machine) - 1) ∧
    take (length (m_nodes b_machine)) (m_nodes s') = m_nodes b_machine ∧
    (∀ j node, 2 ≤ j → m_nodes b_bc_machine !! (j - 1) = Some node →
       mappings_at r j = length (m_nodes b_machine) + j - 1 ∧
       m_nodes s' !! (mappings_at r j - 1) =
         Some (shifted (length (m_nodes b_machine) - 1) node) ∧
       (mappings_at r j ∈ terminals r ↔ is_Some (value node))) ∧
    mappings_at r 0 = 0 ∧ mappings_at r 1 = 0.
Proof.
  assert (Hs : m_nodes b_machine ≠ []) by (by vm_compute).
  assert (Hnormal : pattern_normal (m_nodes b_bc_machine)).
  { split; [by vm_compute|]. vm_compute.
    repeat (apply Forall_cons; split); try apply Forall_nil_2;
      try (apply (bool_decide_unpack _); vm_compute; exact I);
      simpl; lia. }
  split; [exact Hs|]. split; [exact Hnormal|].
  exact (consume_regex_except_root_appends b_bc_machine b_machine Hs Hnormal).
Defined.

(** ** [cursor_transition] from any state *)

Section CursorTransition.
Context {V : Type}.
Variable key : Key_T.t.

(** The first loop sorts the cursors by whether their node has the
    child. *)
Lemma cursor_transition_sorts (s : StateMachine V) cs : ∀ without with_,
  Forall (λ c, 1 ≤ c ≤ length (m_nodes s)) cs →
  foldM (λ '(without, with_) cur,
    node ← get_node cur;
    if decide (transition node key = 0) then mret (without ++ [cur], with_)
    else mret (without, with_ ++ [cur]))
    cs (without, with_) s =
  Ok (without ++ filter (λ c, child_at (m_nodes s) key c = 0) cs,
      with_ ++ filter (λ c, child_at (m_nodes s) key c ≠ 0) cs) s.
Proof.
  induction cs as [|c cs IH]; intros without with_ Hcs.
  { simpl. by rewrite !app_nil_r. }
  apply Forall_cons in Hcs as [Hc Hcs].
  destruct (lookup_lt_is_Some_2 (m_nodes s) (c - 1)) as [node Hnode]; [lia|].
  rewrite foldM_cons. cbn beta iota.
  rewrite bind_run, (get_node_at s c node) by (done || lia). cbn beta iota.
  assert (Hchild : child_at (m_nodes s) key c = transition node key)
    by (unfold child_at; by rewrite Hnode).
  destruct (decide (transition node key = 0)) as [Hz|Hnz].
  - rewrite ret_run, IH by done.
    rewrite filter_cons_True by congruence.
    rewrite filter_cons_False by (intros H; apply H; congruence).
    by rewrite <- app_assoc.
  - rewrite ret_run, IH by done.
    rewrite filter_cons_False by congruence.
    rewrite filter_cons_True by congruence.
    by rewrite <- app_assoc.
Qed.

Lemma set_transition_twice (n : Node_T V) g :
  g ≠ 0 →
  set_transition key g (set_transition key g n) = set_transition key g n.
Proof.
  intros Hg. unfold set_transition. simpl. rewrite !decide_False by done.
  f_equal. induction (transitions n) as [|[k v] l IH]; simpl.
  - by rewrite decide_True.
  - destruct (decide (k = key)) as [->|Hne]; simpl.
    + by rewrite decide_True.
    + rewrite decide_False by done. by rewrite IH.
Qed.

(** The second loop gives each cursor without the child an edge to the
    new node. *)
Lemma cursor_transition_links g l : ∀ t : StateMachine V,
  g ≠ 0 → Forall (λ c, 1 ≤ c ≤ length (m_nodes t)) l →
  ∃ t', for_each l (λ cur, update_node cur (set_transition key g)) t =
          Ok () t' ∧
    on_conflict t' = on_conflict t ∧ cursors t' = cursors t ∧
    length (m_nodes t') = length (m_nodes t) ∧
    ∀ i, m_nodes t' !! i =
           if decide (S i ∈ l) then set_transition key g <$> m_nodes t !! i
           else m_nodes t !! i.
Proof.
  unfold for_each. induction l as [|c l IH]; intros t Hg Hl.
  { exists t. split; [done|]. split; [done|]. split; [done|].
    split; [done|]. intros i.
    rewrite decide_False; [done|]. intros Hin. by inversion Hin. }
  apply Forall_cons in Hl as [Hc Hl].
  destruct (lookup_lt_is_Some_2 (m_nodes t) (c - 1)) as [node Hnode]; [lia|].
  rewrite foldM_cons.
  rewrite (update_node_at t c node) by (done || lia).
  set (t1 := mkMachine (<[c - 1 := set_transition key g node]> (m_nodes t))
               (on_conflict t) (cursors t)).
  destruct (IH t1 Hg) as (t' & Hrun & Hpolicy & Hcursors & Hlen & Hnodes).
  { simpl. by rewrite length_insert. }
  exists t'. split; [done|]. split; [done|]. split; [done|].
  split; [by rewrite Hlen; simpl; rewrite length_insert|].
  intros i. rewrite Hnodes. simpl.
  destruct (decide (i = c - 1)) as [->|Hne].
  - rewrite list_lookup_insert_eq by (by eapply lookup_lt_Some).
    rewrite Hnode. rewrite (decide_True (P := S (c - 1) ∈ c :: l)).
    2:{ replace (S (c - 1)) with c by lia. apply list_elem_of_here. }
    destruct (decide (S (c - 1) ∈ l)); simpl; [|done].
    by rewrite set_transition_twice.
  - rewrite list_lookup_insert_ne by done.
    destruct (decide (S i ∈ l)) as [Hin|Hnot].
    + rewrite decide_True; [done|]. by apply list_elem_of_further.
    + rewrite decide_False; [done|]. intros Hin.
      apply elem_of_cons in Hin as [Heq|Hin]; [lia|done].
Qed.

(** The third loop reads the child of every cursor that has it. *)
Lemma cursor_transition_reads (s : StateMachine V) l : ∀ acc,
  Forall (λ c, 1 ≤ c ≤ length (m_nodes s)) l →
  foldM (λ new_cursors cur,
    node ← get_node cur;
    mret (new_cursors ++ [transition node key]))
    l acc s =
  Ok (acc ++ map (child_at (m_nodes s) key) l) s.
Proof.
  induction l as [|c l IH]; intros acc Hl.
  { simpl. by rewrite app_nil_r. }
  apply Forall_cons in Hl as [Hc Hl].
  destruct (lookup_lt_is_Some_2 (m_nodes s) (c - 1)) as [node Hnode]; [lia|].
  rewrite foldM_cons, bind_run, (get_node_at s c node) by (done || lia).
  cbn beta iota. rewrite ret_run, IH by done.
  rewrite <- app_assoc. simpl. unfold child_at at 2. by rewrite Hnode.
Qed.


(** [cursor_transition] in closed form. *)
Lemma cursor_transition_run (s : StateMachine V) :
  cursors_in_store s →
  let without := filter (λ c, child_at (m_nodes s) key c = 0) (cursors s) in
  let with_ := filter (λ c, child_at (m_nodes s) key c ≠ 0) (cursors s) in
  let goes_to := if without is [] then [] else [S (length (m_nodes s))] in
  ∃ s', cursor_transition key s = Ok () s' ∧
    on_conflict s' = on_conflict s ∧
    cursors s' = goes_to ++ map (child_at (m_nodes s') key) with_ ∧
    length (m_nodes s') = length (m_nodes s) + length goes_to ∧
    ∀ i, m_nodes s' !! i =
           if decide (S i ∈ without)
           then set_transition key (S (length (m_nodes s))) <$> m_nodes s !! i
           else (m_nodes s ++ map (λ _, empty_node) goes_to) !! i.
Proof.
  intros Hcs without with_ goes_to. unfold cursor_transition.
  rewrite bind_run, get_cursors_run. cbn beta iota.
  rewrite bind_run, (cursor_transition_sorts s (cursors s) [] []) by done.
  cbn beta iota. rewrite !app_nil_l. fold without with_.
  assert (Hwith : Forall (λ c, 1 ≤ c ≤ length (m_nodes s)) with_).
  { apply Forall_forall. intros c Hc. apply list_elem_of_filter in Hc as [_ Hc].
    unfold cursors_in_store in Hcs. rewrite Forall_forall in Hcs. by apply Hcs. }
  assert (Hwithout : Forall (λ c, 1 ≤ c ≤ length (m_nodes s)) without).
  { apply Forall_forall. intros c Hc. apply list_elem_of_filter in Hc as [_ Hc].
    unfold cursors_in_store in Hcs. rewrite Forall_forall in Hcs. by apply Hcs. }
  unfold goes_to. clearbody without with_. clear goes_to.
  destruct without as [|w without].
  - rewrite bind_run, ret_run. cbn beta iota.
    rewrite bind_run, cursor_transition_reads by done. cbn beta iota.
    rewrite set_cursors_run. eexists. split; [done|]. simpl.
    split; [done|]. split; [done|]. split; [lia|]. intros i.
    by rewrite app_nil_r.
  - rewrite bind_run, bind_run, new_node_run. cbn beta iota. rewrite bind_run.
    set (s1 := mkMachine (m_nodes s ++ [empty_node]) (on_conflict s)
                 (cursors s)).
    destruct (cursor_transition_links (S (length (m_nodes s))) (w :: without)
                s1)
      as (t' & Hrun & Hpolicy & Hcursors & Hlen & Hnodes); [done| |].
    { eapply Forall_impl; [exact Hwithout|]. simpl. intros c Hc.
      rewrite length_app. simpl. lia. }
    rewrite Hrun. cbn beta iota. rewrite ret_run. cbn beta iota.
    rewrite bind_run, cursor_transition_reads.
    2:{ eapply Forall_impl; [exact Hwith|]. simpl. intros c Hc.
        rewrite Hlen. simpl. rewrite length_app. simpl. lia. }
    cbn beta iota. rewrite set_cursors_run. eexists. split; [done|]. simpl.
    split; [done|]. split; [done|].
    split; [by rewrite Hlen; simpl; rewrite length_app|].
    intros i. rewrite Hnodes. simpl.
    destruct (decide (S i ∈ w :: without)) as [Hin|]; [|done].
    rewrite lookup_app_l; [done|].
    rewrite Forall_forall in Hwithout. specialize (Hwithout _ Hin). lia.
Qed.

End CursorTransition.

(** X16. [cursor_transition(key)], and with it [match_eof], never fails
    on a machine whose cursors lie in the store.  Afterwards every
    former cursor has a child under [key] that is a cursor now, and
    every cursor is such a child; a node that had the child keeps it
    (the cursors share it), the others get an edge to one new empty
    node, and nothing else of the store changes. *)
Theorem cursor_transition_moves_cursors {V} (key : Key_T.t)
    (s : StateMachine V) :
  cursors_in_store s →
  ∃ s', cursor_transition key s = Ok () s' ∧
    on_conflict s' = on_conflict s ∧
    length (m_nodes s) ≤ length (m_nodes s') ≤ S (length (m_nodes s)) ∧
    (∀ c, c ∈ cursors s →
       child_at (m_nodes s') key c ≠ 0 ∧
       child_at (m_nodes s') key c ∈ cursors s') ∧
    (∀ c', c' ∈ cursors s' →
       ∃ c, c ∈ cursors s ∧ child_at (m_nodes s') key c = c') ∧
    (∀ i n, m_nodes s !! i = Some n →
       ∃ n', m_nodes s' !! i = Some n' ∧ value n' = value n ∧
         ∀ k, k ≠ key ∨ transition n k ≠ 0 →
           transition n' k = transition n k) ∧
    (∀ n, m_nodes s' !! length (m_nodes s) = Some n → n = empty_node).
Proof.
  intros Hcs.
  destruct (cursor_transition_run key s Hcs)
    as (s' & Hrun & Hpolicy & Hcursors & Hlen & Hnodes).
  set (without := filter (λ c, child_at (m_nodes s) key c = 0) (cursors s))
    in *.
  set (with_ := filter (λ c, child_at (m_nodes s) key c ≠ 0) (cursors s))
    in *.
  set (g := S (length (m_nodes s))) in *.
  assert (Hin_store : ∀ c, c ∈ cursors s → 1 ≤ c ≤ length (m_nodes s)).
  { unfold cursors_in_store in Hcs. by rewrite Forall_forall in Hcs. }
  (* the child of a former cursor in the new store *)
  assert (Hchild : ∀ c, c ∈ cursors s →
            child_at (m_nodes s') key c =
              if decide (child_at (m_nodes s) key c = 0) then g
              else child_at (m_nodes s) key c).
  { intros c Hc. pose proof (Hin_store c Hc) as Hrange.
    destruct (lookup_lt_is_Some_2 (m_nodes s) (c - 1)) as [n Hn]; [lia|].
    unfold child_at at 1. rewrite Hnodes.
    replace (S (c - 1)) with c by lia.
    destruct (decide (child_at (m_nodes s) key c = 0)) as [Hz|Hnz].
    - rewrite decide_True by (by apply list_elem_of_filter).
      rewrite Hn. simpl. by apply transition_set_transition_eq.
    - rewrite decide_False.
      2:{ intros Hin. by apply list_elem_of_filter in Hin as [? _]. }
      rewrite lookup_app_l by lia. unfold child_at. by rewrite Hn. }
  exists s'. split; [done|]. split; [done|]. split.
  { rewrite Hlen. destruct without; simpl; lia. }
  split; [|split; [|split]].
  - intros c Hc. rewrite (Hchild c Hc), Hcursors.
    destruct (decide (child_at (m_nodes s) key c = 0)) as [Hz|Hnz].
    + split; [done|]. apply elem_of_app. left.
      assert (Hw : c ∈ without) by (by apply list_elem_of_filter).
      destruct without; [by inversion Hw|]. apply list_elem_of_here.
    + split; [done|]. apply elem_of_app. right.
      apply list_elem_of_fmap. exists c.
      assert (Hw : c ∈ with_) by (by apply list_elem_of_filter).
      split; [|done]. rewrite (Hchild c Hc). by rewrite decide_False.
  - intros c' Hc'. rewrite Hcursors in Hc'.
    apply elem_of_app in Hc' as [Hnew|Hold].
    + destruct without as [|w without'] eqn:Hw; [by inversion Hnew|].
      apply list_elem_of_singleton in Hnew as ->.
      assert (Hin : w ∈ without) by (rewrite Hw; apply list_elem_of_here).
      apply list_elem_of_filter in Hin as [Hz Hin]. exists w.
      split; [done|]. rewrite (Hchild w Hin). by rewrite decide_True.
    + apply list_elem_of_fmap in Hold as (c & -> & Hc).
      apply list_elem_of_filter in Hc as [_ Hc]. by exists c.
  - intros i n Hn. rewrite Hnodes, Hn.
    destruct (decide (S i ∈ without)) as [Hin|Hnot].
    + apply list_elem_of_filter in Hin as [Hz _].
      unfold child_at in Hz. simpl in Hz. rewrite Nat.sub_0_r, Hn in Hz.
      eexists. split; [done|]. split; [done|]. intros k [Hk|Hk].
      * by apply transition_set_transition_ne.
      * destruct (decide (k = key)) as [->|Hne]; [done|].
        by apply transition_set_transition_ne.
    + exists n. split; [|done].
      rewrite lookup_app_l by (by eapply lookup_lt_Some). done.
  - intros n. rewrite Hnodes. rewrite decide_False.
    2:{ intros Hin. apply list_elem_of_filter in Hin as [_ Hin].
        specialize (Hin_store _ Hin). lia. }
    rewrite lookup_app_r by lia. rewrite Nat.sub_diag.
    destruct without; simpl; [done|]. by intros [= <-].
Qed.

Lemma cursor_transition_moves_cursors_witness :
  cursors_in_store b_bc_machine ∧
  ∃ s', cursor_transition (Key_T.value 98) b_bc_machine = Ok () s' ∧
    on_conflict s' = on_conflict b_bc_machine ∧
    length (m_nodes b_bc_machine) ≤ length (m_nodes s')
      ≤ S (length (m_nodes b_bc_machine)) ∧
    (∀ c, c ∈ cursors b_bc_machine →
       child_at (m_nodes s') (Key_T.value 98) c ≠ 0 ∧
       child_at (m_nodes s') (Key_T.value 98) c ∈ cursors s') ∧
    (∀ c', c' ∈ cursors s' →
       ∃ c, c ∈ cursors b_bc_machine ∧
         child_at (m_nodes s') (Key_T.value 98) c = c') ∧
    (∀ i n, m_nodes b_bc_machine !! i = Some n →
       ∃ n', m_nodes s' !! i = Some n' ∧ value n' = value n ∧
         ∀ k, k ≠ Key_T.value 98 ∨ transition n k ≠ 0 →
           transition n' k = transition n k) ∧
    (∀ n, m_nodes s' !! length (m_nodes b_bc_machine) = Some n →
       n = empty_node).
Proof.
  assert (Hcs : cursors_in_store b_bc_machine).
  { unfold cursors_in_store. vm_compute.
    repeat (apply Forall_cons; split); try apply Forall_nil_2; lia. }
  split; [exact Hcs|].
  exact (cursor_transition_moves_cursors (Key_T.value 98) _ Hcs).
Defined.

(** ** Builder calls keep the machine well formed *)

Section Safe.
Context {V : Type}.

Local Abbreviation wfm := (machine_wf (V:=V)).
Local Abbreviation within L := (Forall (λ e : Key_T.t * nat, e.2 ≤ L)).
Local Abbreviation safe_failure := (λ _ : Failure, True).

Lemma within_mono L L' (edges : list (Key_T.t * nat)) :
  L ≤ L' → within L edges → within L' edges.
Proof.
  intros HL H. eapply Forall_impl; [exact H|]. simpl. intros; lia.
Qed.

Lemma machine_wf_node (s : StateMachine V) i node :
  machine_wf s → m_nodes s !! i = Some node →
  within (length (m_nodes s)) (transitions node).
Proof.
  intros [[_ Hwf] _] Hnode. by apply (Forall_lookup_1 _ _ _ _ Hwf Hnode).
Qed.

Lemma machine_wf_push (s : StateMachine V) :
  machine_wf s →
  machine_wf
    (mkMachine (m_nodes s ++ [empty_node]) (on_conflict s) (cursors s)).
Proof.
  intros [[Hne Hwf] Hcs]. split; [split|]; simpl.
  - by destruct (m_nodes s).
  - rewrite length_app. apply Forall_app. split.
    + eapply Forall_impl; [exact Hwf|]. simpl. intros n.
      apply within_mono. lia.
    + by repeat constructor.
  - eapply Forall_impl; [exact Hcs|]. simpl. intros c.
    rewrite length_app. lia.
Qed.

Lemma machine_wf_update (s : StateMachine V) i node :
  machine_wf s → i < length (m_nodes s) →
  within (length (m_nodes s)) (transitions node) →
  machine_wf (mkMachine (<[i := node]> (m_nodes s)) (on_conflict s)
                (cursors s)).
Proof.
  intros [[Hne Hwf] Hcs] Hi Hnode. split; [split|]; simpl.
  - destruct (m_nodes s); [done|]. by destruct i.
  - rewrite length_insert. by apply Forall_insert.
  - unfold cursors_in_store. simpl. by rewrite length_insert.
Qed.

Lemma machine_wf_set_cursors (s : StateMachine V) cs :
  machine_wf s → Forall (λ c, 1 ≤ c ≤ length (m_nodes s)) cs →
  machine_wf (mkMachine (m_nodes s) (on_conflict s) cs).
Proof. intros [Hwf _] Hcs. done. Qed.

Lemma within_set_transition L (n : Node_T V) k v :
  within L (transitions n) → v ≤ L →
  within L (transitions (set_transition k v n)).
Proof.
  intros Hn Hv. unfold set_transition. simpl.
  destruct (decide (v = 0)).
  - unfold assoc_del. by apply Forall_filter_keep.
  - by apply Forall_assoc_put.
Qed.

Lemma within_each_transition L (n : Node_T V) f :
  within L (transitions n) →
  (∀ k v, v ≤ L → f k v ≤ L) →
  within L (transitions (each_transition f n)).
Proof.
  intros Hn Hf. unfold each_transition. simpl.
  apply Forall_filter_keep. apply Forall_map_each.
  eapply Forall_impl; [exact Hn|]. intros [k v] Hv. simpl in *. by apply Hf.
Qed.

Lemma within_transition L (n : Node_T V) k :
  within L (transitions n) → transition n k ≤ L.
Proof.
  intros Hn. unfold transition.
  destruct (assoc_get_zero_or_elem k (transitions n)) as [->|Hin]; [lia|].
  rewrite Forall_forall in Hn. apply (Hn _ Hin).
Qed.

(** The rules of the invariant. *)
Lemma safe_get_node n index :
  keeps wfm safe_failure n (get_node index)
    (λ node L, 1 ≤ index ≤ L ∧ within L (transitions node)).
Proof.
  intros s Hs Hn. destruct (get_node index s) as [node s'|e] eqn:E; [|done].
  apply get_node_ok in E as (-> & H1 & Hnode).
  split; [done|]. split; [done|]. split.
  - apply lookup_lt_Some in Hnode. lia.
  - by eapply machine_wf_node.
Qed.

Lemma safe_update_node n index f :
  (∀ node L, n ≤ L → 1 ≤ index ≤ L → within L (transitions node) →
             within L (transitions (f node))) →
  keeps wfm safe_failure n (update_node index f) (λ _ _, True).
Proof.
  intros Hf s Hs Hn.
  destruct (update_node index f s) as [u s'|e] eqn:E; [|done].
  apply update_node_ok in E as (node & H1 & Hnode & ->).
  simpl. rewrite length_insert. split; [|done].
  pose proof (lookup_lt_Some _ _ _ Hnode).
  apply machine_wf_update; [done|done|].
  apply Hf; [done|lia|]. by eapply machine_wf_node.
Qed.

Lemma safe_new_node n :
  keeps wfm safe_failure n new_node (λ i L, n < i ∧ i = L).
Proof.
  intros s Hs Hn. simpl. rewrite length_app. simpl.
  split; [by apply machine_wf_push|]. split; [lia|]. lia.
Qed.

Lemma safe_get_cursors n :
  keeps wfm safe_failure n get_cursors
    (λ cs L, Forall (λ c, 1 ≤ c ≤ L) cs).
Proof. intros s Hs Hn. simpl. split; [done|]. split; [done|]. apply Hs. Qed.

Lemma safe_set_cursors n cs :
  Forall (λ c, 1 ≤ c ≤ n) cs →
  keeps wfm safe_failure n (set_cursors cs) (λ _ _, True).
Proof.
  intros Hcs s Hs Hn. simpl. split; [|done].
  apply machine_wf_set_cursors; [done|].
  eapply Forall_impl; [exact Hcs|]. simpl. intros; lia.
Qed.

Lemma safe_get_on_conflict n :
  keeps wfm safe_failure n get_on_conflict (λ _ _, True).
Proof. intros s Hs Hn. done. Qed.

End Safe.

Ltac safe_head :=
  lazymatch goal with
  | |- keeps _ _ _ (mret _) _ => apply keeps_ret
  | |- keeps _ _ _ (fail _) _ => apply keeps_fail
  | |- keeps _ _ _ (get_node _) _ => apply safe_get_node
  | |- keeps _ _ _ (update_node _ _) _ => apply safe_update_node
  | |- keeps _ _ _ new_node _ => apply safe_new_node
  | |- keeps _ _ _ get_cursors _ => apply safe_get_cursors
  | |- keeps _ _ _ (set_cursors _) _ => apply safe_set_cursors
  | |- keeps _ _ _ get_on_conflict _ => apply safe_get_on_conflict
  | |- keeps _ _ _ (for_each _ _) _ => apply keeps_for_each
  end.

Ltac safe_step :=
  lazymatch goal with
  | |- keeps _ _ _ ((if _ then _ else _) ≫= _) _ =>
      eapply (keeps_bind _ _ _ _ _ (λ _ _, True))
  | |- keeps _ _ _ ((match _ with _ => _ end) ≫= _) _ =>
      eapply (keeps_bind _ _ _ _ _ (λ _ _, True))
  | |- keeps _ _ _ (fail _ ≫= _) _ =>
      eapply (keeps_bind _ _ _ _ _ (λ _ _, True))
  | |- keeps _ _ _ (foldM _ _ _ ≫= _) _ => fail "a loop"
  | |- keeps _ _ _ (_ ≫= _) _ => eapply keeps_bind; [safe_head|]
  | |- keeps _ _ _ (if decide _ then _ else _) _ => destruct (decide _)
  | |- keeps _ _ _ (match ?x with _ => _ end) _ => destruct x eqn:?
  | |- _ => safe_head
  end.

(** Bounds known at an earlier size of the store hold at a later one. *)
Ltac safe_facts :=
  repeat match goal with
  | H : _ ∧ _ |- _ => destruct H
  end;
  repeat match goal with
  | H : Forall (λ e : Key_T.t * nat, e.2 ≤ ?L) (transitions ?n) |- _ =>
      lazymatch goal with
      | _ : ∀ k, transition n k ≤ L |- _ => fail
      | _ => assert (∀ k, transition n k ≤ L)
               by (intros; by apply within_transition)
      end
  end.

Ltac safe_bound :=
  safe_facts;
  first
  [ lia
  | match goal with H : ∀ k, transition ?n k ≤ _ |- context [transition ?n ?key] =>
      pose proof (H key); unfold def in *; lia end
  | match goal with H : ∀ k, transition ?n k ≤ _ |- context [def ?n] =>
      pose proof (H Key_T.deflt); unfold def in *; lia end ].

Ltac safe_edges :=
  safe_facts;
  lazymatch goal with
  | |- Forall _ (transitions (set_transition _ _ _)) =>
      apply within_set_transition; [safe_edges|safe_bound]
  | |- Forall _ (transitions (each_transition _ _)) =>
      apply within_each_transition;
        [safe_edges|intros; repeat destruct (decide _); safe_bound]
  | |- Forall _ (transitions (mkNode (transitions _) _)) => simpl; safe_edges
  | |- Forall _ (transitions empty_node) => apply Forall_nil_2
  | |- Forall _ (transitions ?n) =>
      first [ assumption
            | match goal with
              | H : Forall _ (transitions n) |- _ =>
                  eapply Forall_impl; [exact H|]; simpl; intros; lia
              end ]
  end.

Ltac safe_indices :=
  lazymatch goal with
  | |- Forall (λ x, 1 ≤ x ≤ _) [] => apply Forall_nil_2
  | |- Forall (λ x, 1 ≤ x ≤ _) (_ ++ _) =>
      apply Forall_app; split; safe_indices
  | |- Forall (λ x, 1 ≤ x ≤ _) [_] =>
      apply Forall_cons; split; [safe_bound|apply Forall_nil_2]
  | |- Forall (λ x, 1 ≤ x ≤ _) ?l =>
      match goal with
      | H : Forall (λ x, 1 ≤ x ≤ _) l |- _ =>
          eapply Forall_impl; [exact H|]; simpl; intros; lia
      end
  end.

Ltac safe_walk :=
  repeat (safe_step; try done; intros; cbv beta in * |-;
          try first [ safe_bound | safe_edges | safe_indices ]).

Section SafeLink.
Context {V : Type}.
Local Abbreviation safe_failure := (λ _ : Failure, True).

Lemma make_nonambiguous_link_safe depth : ∀ n from key to watch,
  to ≤ n →
  keeps (machine_wf (V:=V)) safe_failure n
    (make_nonambiguous_link_rec depth from key to watch)
    (λ r L, Forall (λ x, 1 ≤ x ≤ L) r).
Proof.
  induction depth as [|depth IH]; intros n from key to watch Hto; simpl.
  { by apply keeps_fail. }
  safe_walk.
  eapply (keeps_bind _ _ _ _ _ (λ r L, Forall (λ x, 1 ≤ x ≤ L) r)).
  - apply keeps_foldM.
    + intros tracked k' L Htr HL. safe_indices.
    + intros tracked [key' reference] kk Hin Hkk Htr. safe_walk.
      eapply keeps_bind.
      * apply IH. safe_facts.
        match goal with
        | Hw : Forall _ (transitions ?node), Hin : _ ∈ get_transitions ?node
          |- _ =>
            pose proof (proj1 (Forall_forall _ _) Hw _ Hin); simpl in *; lia
        end.
      * intros res kk' Hkk' Hres. cbv beta in *. apply keeps_ret.
        intros L HL. safe_indices.
    + safe_facts. repeat destruct (decide _); repeat constructor; lia.
  - intros tracked kk Hkk Htr. safe_walk.
Qed.

End SafeLink.


Section SafeCalls.
Context {V : Type}.
Local Abbreviation safe_failure := (λ _ : Failure, True).
Local Abbreviation safe m :=
  (∀ n, keeps (machine_wf (V:=V)) safe_failure n m (λ _ _, True)).
Local Abbreviation in_store L := (Forall (λ c : nat, 1 ≤ c ≤ L)).

Lemma cursor_discreet_transition_safe fuel key :
  safe (cursor_discreet_transition fuel key).
Proof.
  intros n. unfold cursor_discreet_transition.
  eapply keeps_bind; [apply safe_get_cursors|]. intros cs k1 Hk1 Hcs.
  cbv beta in Hcs.
  eapply (keeps_bind _ _ _ _ _ (λ _ _, True)).
  { apply keeps_foldM; [done| |done].
    intros [[wc woc] wd] c k2 Hc Hk2 _. safe_walk. }
  intros [[with_child without_child] with_default] k2 Hk2 _.
  eapply (keeps_bind _ _ _ _ _ (λ r L, in_store L r)).
  { destruct without_child as [|c0 rest]; [by apply keeps_ret|]. safe_walk. }
  intros new_cursors k3 Hk3 Hnc.
  eapply (keeps_bind _ _ _ _ _ (λ r L, in_store L r)).
  { apply keeps_foldM; [intros; safe_indices| |safe_indices].
    intros nc c k4 Hc Hk4 Hnc'. safe_walk. }
  intros new_cursors' k4 Hk4 Hnc'.
  eapply (keeps_bind _ _ _ _ _ (λ r L, in_store L r.1)).
  { apply keeps_foldM; [intros [? ?] ? ? ? ?; simpl in *; safe_indices|
                        |simpl; safe_indices].
    intros [nc tasks] c k5 Hc Hk5 Hnc''. simpl in *. safe_walk.
    - eapply keeps_bind.
      + apply make_nonambiguous_link_safe. safe_bound.
      + intros [|r rs] k6 Hk6 Hr; cbv beta in *; safe_walk.
        intros. simpl. apply Forall_cons in Hr as [Hr _]. safe_indices.
    - simpl. safe_indices. }
  intros [new_cursors'' clone_tasks] k5 Hk5 Hnc''. simpl in Hnc''.
  eapply (keeps_bind _ _ _ _ _ (λ _ _, True)).
  { apply keeps_for_each. intros [ci_node ci_from] k6 Hin Hk6. safe_walk. }
  intros _ k6 Hk6 _. safe_walk.
Qed.

Lemma cursor_transition_safe key : safe (cursor_transition key).
Proof.
  intros n s Hs Hn. unfold cursor_transition.
  rewrite bind_run, get_cursors_run. cbn beta iota.
  set (has_child := λ (s' : StateMachine V) (c : nat),
         ∃ node, 1 ≤ c ∧ m_nodes s' !! (c - 1) = Some node ∧
           transition node key ≠ 0).
  (* the cursors are sorted by whether they have the child *)
  rewrite bind_run.
  match goal with |- context [foldM ?body (cursors s) ([], []) s] =>
    pose proof (foldM_keeps
      (λ (parts : list nat * list nat) s',
         s' = s ∧ Forall (has_child s) parts.2)
      (λ _, True) body (cursors s)) as Hsort
  end.
  match type of Hsort with ?A → _ =>
    assert (Hbody : A); [|specialize (Hsort Hbody ([], []) s
                                        (conj eq_refl (Forall_nil_2 _)))]
  end.
  { intros [wo wi] c s0 _ [-> Hwi]. simpl in Hwi. rewrite bind_run.
    destruct (get_node c s) as [node s1|] eqn:Hget; [|done].
    apply get_node_ok in Hget as (-> & Hc & Hnode).
    destruct (decide (transition node key = 0)); rewrite ret_run;
      (split; [done|]); simpl; [done|].
    apply Forall_app. split; [done|].
    apply Forall_cons. split; [|apply Forall_nil_2]. by exists node. }
  destruct (foldM _ (cursors s) ([], []) s) as [[without with_] s1|]; [|done].
  destruct Hsort as [-> Hwith]. simpl in Hwith. cbn beta iota.
  (* the cursors without it are given a new node to share *)
  rewrite bind_run.
  assert (Hshare :
    match (if without is [] then mret []
           else goes_to_idx ← new_node;
                for_each without (λ cur,
                  update_node cur (set_transition key goes_to_idx));;
                mret [goes_to_idx]) s with
    | Ok new_cursors s2 =>
        machine_wf s2 ∧ length (m_nodes s) ≤ length (m_nodes s2) ∧
        in_store (length (m_nodes s2)) new_cursors ∧
        Forall (has_child s2) with_
    | Fail _ => True
    end).
  { destruct without as [|c0 rest].
    { rewrite ret_run. split; [done|]. split; [done|].
      split; [apply Forall_nil_2|done]. }
    rewrite bind_run, new_node_run. cbn beta iota. rewrite bind_run.
    set (goes := S (length (m_nodes s))).
    set (s1 := mkMachine (m_nodes s ++ [empty_node]) (on_conflict s)
                 (cursors s)).
    pose proof (foldM_keeps
      (λ (_ : ()) s', machine_wf s' ∧ length (m_nodes s') = goes ∧
                      Forall (has_child s') with_)
      (λ _, True)
      (λ _ cur, update_node cur (set_transition key goes))
      (c0 :: rest)) as Hloop.
    match type of Hloop with ?A → _ =>
      assert (Hbody2 : A); [|specialize (Hloop Hbody2 () s1)]
    end.
    { intros [] cur s0 _ (Hwf0 & Hlen0 & Hch0).
      destruct (update_node cur (set_transition key goes) s0)
        as [u s2|] eqn:Hup; [|done].
      apply update_node_ok in Hup as (node & Hcur & Hnode & ->).
      pose proof (lookup_lt_Some _ _ _ Hnode) as Hlt.
      split; [|split; [by simpl; rewrite length_insert|]].
      - apply machine_wf_update; [done|done|].
        apply within_set_transition; [by eapply machine_wf_node|lia].
      - eapply Forall_impl; [exact Hch0|]. simpl.
        intros c (node' & Hc & Hnode' & Hne).
        destruct (decide (c - 1 = cur - 1)) as [Heq|Hneq].
        + eexists. split; [done|]. rewrite Heq. simpl.
          rewrite list_lookup_insert_eq by done. split; [done|].
          unfold transition, set_transition. simpl.
          rewrite assoc_get_put_eq. unfold goes. lia.
        + exists node'. simpl. by rewrite list_lookup_insert_ne. }
    unfold for_each.
    destruct (foldM _ (c0 :: rest) () s1) as [[] s2|]; [|done].
    destruct Hloop as (Hwf2 & Hlen2 & Hch2).
    { split; [by apply machine_wf_push|].
      split; [simpl; rewrite length_app; simpl; unfold goes; lia|].
      eapply Forall_impl; [exact Hwith|]. simpl.
      intros c (node & Hc & Hnode & Hne). exists node.
      split; [done|]. split; [|done]. by apply lookup_app_l_Some. }
    cbn beta iota. rewrite ret_run.
    split; [done|]. split; [unfold goes in Hlen2; lia|]. split; [|done].
    apply Forall_cons. split; [unfold goes in *; lia|apply Forall_nil_2]. }
  match type of Hshare with
  | match ?run with _ => _ end => destruct run as [new_cursors s2|]; [|done]
  end.
  destruct Hshare as (Hwf2 & Hlen2 & Hnc & Hch2). cbn beta iota.
  (* the others move to the child they have *)
  rewrite bind_run.
  match goal with |- context [foldM ?body with_ new_cursors s2] =>
    pose proof (foldM_keeps
      (λ (nc : list nat) s', s' = s2 ∧ in_store (length (m_nodes s2)) nc)
      (λ _, True) body with_) as Hmove
  end.
  match type of Hmove with ?A → _ =>
    assert (Hbody3 : A); [|specialize (Hmove Hbody3 new_cursors s2
                                         (conj eq_refl Hnc))]
  end.
  { intros nc c s0 Hc [-> Hnc0]. rewrite bind_run.
    destruct (get_node c s2) as [node s3|] eqn:Hget; [|done].
    apply get_node_ok in Hget as (-> & Hc1 & Hnode).
    rewrite ret_run. split; [done|].
    apply Forall_app. split; [done|].
    apply Forall_cons. split; [|apply Forall_nil_2].
    rewrite Forall_forall in Hch2.
    destruct (Hch2 c Hc) as (node' & _ & Hnode' & Hne).
    assert (node' = node) as -> by congruence.
    pose proof (within_transition _ node key (machine_wf_node _ _ _ Hwf2 Hnode)).
    lia. }
  destruct (foldM _ with_ new_cursors s2) as [final s3|]; [|done].
  destruct Hmove as [-> Hfinal]. cbn beta iota.
  rewrite set_cursors_run. simpl.
  split; [by apply machine_wf_set_cursors|]. split; [lia|done].
Qed.

Lemma match_default_safe : safe match_default.
Proof.
  intros n. unfold match_default. safe_walk.
  eapply (keeps_bind _ _ _ _ _ (λ r L, in_store L r.1)).
  - apply keeps_foldM; [intros [? ?] ? ? ? ?; simpl in *; safe_indices|
                        |simpl; safe_indices].
    intros [nc errs] c k' Hc Hk' Hnc. unfold match_default_round.
    simpl in Hnc. safe_walk; intros; simpl; try safe_indices.
  - intros [nc errs] k' Hk' Hnc. simpl in Hnc.
    destruct errs; safe_walk.
Qed.

Lemma match_any_of_safe utf8 fuel options :
  safe (match_any_of utf8 fuel options).
Proof.
  intros n. unfold match_any_of. safe_walk.
  eapply (keeps_bind _ _ _ _ _ (λ r L, in_store L r)).
  - apply keeps_foldM; [intros; safe_indices| |safe_indices].
    intros nc choice k' _ Hk' Hnc. unfold match_any_of_round.
    eapply (keeps_bind _ _ _ _ _ (λ _ _, True)).
    + destruct utf8; [|apply cursor_discreet_transition_safe].
      destruct (utf8_keys choice) as [failed|keys]; [by apply keeps_fail|].
      apply keeps_for_each. intros key k'' _ _.
      apply cursor_discreet_transition_safe.
    + intros _ k'' Hk'' _. safe_walk.
  - intros nc k' Hk' Hnc. safe_walk.
Qed.

Lemma match_sequence_safe utf8 fuel seq :
  safe (match_sequence utf8 fuel seq).
Proof.
  intros n. unfold match_sequence. apply keeps_for_each.
  intros part k _ _. apply match_any_of_safe.
Qed.

End SafeCalls.

Section SafeSplice.
Context {V : Type}.
Local Abbreviation safe_failure := (λ _ : Failure, True).
Local Abbreviation within L := (Forall (λ e : Key_T.t * nat, e.2 ≤ L)).
Local Abbreviation in_store L := (Forall (λ c : nat, 1 ≤ c ≤ L)).

Lemma within_rebased base edges L :
  Forall (λ e : Key_T.t * nat, e.2 + base ≤ L) edges →
  within L (transitions (rebased base edges : Node_T V)).
Proof.
  intros Hedges. unfold rebased.
  assert (Hgen : ∀ n : Node_T V,
    within L (transitions n) →
    within L (transitions
      (foldl (λ n e, set_transition e.1 (e.2 + base) n) n edges))).
  { induction edges as [|[k v] edges IH]; intros n Hn; simpl; [done|].
    apply Forall_cons in Hedges as [Hv Hedges]. simpl in Hv.
    apply IH; [done|]. by apply within_set_transition. }
  apply Hgen. apply Forall_nil_2.
Qed.

Lemma mappings_at_within sources targets old L :
  Forall (λ t, t ≤ L) targets →
  mappings_at (mkConsume (zip sources targets) []) old ≤ L.
Proof.
  intros Ht. unfold mappings_at. simpl.
  destruct (list_find _ _) as [[i [o t]]|] eqn:Hfind; [|lia].
  apply list_find_Some in Hfind as (Hi & _ & _).
  apply lookup_zip_with_Some in Hi as (o' & t' & [= <- <-] & _ & Ht').
  rewrite Forall_forall in Ht. apply Ht. by eapply list_elem_of_lookup_2.
Qed.

Lemma consume_regex_except_root_safe (regex : StateMachine ()) n :
  store_wf (m_nodes regex) →
  keeps (machine_wf (V:=V)) safe_failure n (consume_regex_except_root regex)
    (λ r L, n + (length (m_nodes regex) - 1) ≤ L ∧
            in_store L (terminals r) ∧ ∀ old, mappings_at r old ≤ L).
Proof.
  intros [Hne Hregex] s Hs Hn. rewrite consume_regex_except_root_run.
  destruct (m_nodes regex) as [|root rest] eqn:HP; [done|]. clear Hne.
  apply Forall_cons in Hregex as [_ Hrest].
  replace (length (root :: rest) - 1) with (length rest) by (simpl; lia).
  change (drop 1 (root :: rest)) with rest.
  pose proof Hs as [[Hne Hwf] Hcs].
  assert (Hsz : 1 ≤ length (m_nodes s)) by (destruct (m_nodes s); [done|simpl; lia]).
  set (sz := length (m_nodes s)) in *.
  simpl. rewrite length_app, length_map. fold sz.
  split; [|split; [lia|split; [lia|split]]].
  - split; [split|]; simpl.
    + by destruct (m_nodes s).
    + rewrite length_app, length_map. fold sz. apply Forall_app. split.
      * eapply Forall_impl; [exact Hwf|]. simpl. intros node.
        apply within_mono. lia.
      * apply Forall_map_each. eapply Forall_impl; [exact Hrest|]. simpl.
        intros node Hnode. apply within_rebased.
        eapply Forall_impl; [exact Hnode|]. simpl. intros; lia.
    + eapply Forall_impl; [exact Hcs|]. simpl. intros c.
      rewrite length_app. lia.
  - apply Forall_map_each. apply Forall_forall. intros idx Hidx.
    apply accepting_indices_elem in Hidx as (j & node & -> & Hj & _).
    apply lookup_lt_Some in Hj. lia.
  - intros old.
    pose proof (mappings_at_within (seq 2 (length rest))
                  (seq (S sz) (length rest)) old (sz + length rest)) as H.
    unfold mappings_at in *. simpl in *. apply H.
    apply Forall_forall. intros t Ht. apply elem_of_seq in Ht. lia.
Qed.

Lemma safe_size n :
  keeps (machine_wf (V:=V)) safe_failure n size (λ sz L, sz = L ∧ 1 ≤ L).
Proof.
  intros s Hs Hn. split; [done|]. split; [done|]. split; [done|].
  destruct Hs as [[Hne _] _]. simpl. destruct (m_nodes s); [done|simpl; lia].
Qed.

Lemma merge_regex_into_machine_safe fuel (regex : StateMachine ()) n :
  store_wf (m_nodes regex) →
  keeps (machine_wf (V:=V)) safe_failure n
    (merge_regex_into_machine fuel regex) (λ _ _, True).
Proof.
  intros Hregex. unfold merge_regex_into_machine.
  eapply keeps_bind; [apply safe_size|]. intros sz k Hk [-> Hk0].
  eapply keeps_bind; [by apply consume_regex_except_root_safe|].
  intros result k1 Hk1 (Hgrow & Hterms & _).
  destruct (m_nodes regex !! 0) as [regex_root|] eqn:Hroot;
    [|by apply keeps_fail].
  assert (Hedges : within k1
            (transitions (rebased (k - 1) (get_transitions regex_root)
                          : Node_T V))).
  { apply within_rebased. destruct Hregex as [_ Hwf].
    pose proof (Forall_lookup_1 _ _ _ _ Hwf Hroot) as Hr.
    eapply Forall_impl; [exact Hr|]. simpl. intros; lia. }
  eapply keeps_bind; [apply safe_get_cursors|]. intros cs k2 Hk2 Hcs.
  cbv beta in Hcs.
  eapply (keeps_bind _ _ _ _ _ (λ r L, in_store L r)).
  - apply keeps_foldM; [intros; safe_indices| |safe_indices].
    intros terms cursor k3 Hc Hk3 Hterms3.
    apply keeps_foldM; [intros; safe_indices| |done].
    intros terms' [key dest] k4 Hin Hk4 Hterms4.
    eapply keeps_bind.
    + apply make_nonambiguous_link_safe.
      unfold get_transitions in Hin.
      pose proof (proj1 (Forall_forall _ _) Hedges _ Hin). simpl in *. lia.
    + intros new k5 Hk5 Hnew. cbv beta in *. apply keeps_ret.
      intros. safe_indices.
  - intros terms k3 Hk3 Hterms3. by apply safe_set_cursors.
Qed.

Lemma match_many_optionally_safe fuel (regex : StateMachine ()) n :
  store_wf (m_nodes regex) →
  keeps (machine_wf (V:=V)) safe_failure n
    (match_many_optionally fuel regex) (λ _ _, True).
Proof.
  intros Hregex. unfold match_many_optionally.
  eapply keeps_bind; [apply safe_get_cursors|]. intros before k Hk Hbefore.
  cbv beta in Hbefore.
  eapply keeps_bind; [by apply consume_regex_except_root_safe|].
  intros res k1 Hk1 (_ & Hterms & Hmap).
  destruct (m_nodes regex !! 0) as [pattern_root|] eqn:Hroot;
    [|by apply keeps_fail].
  eapply (keeps_bind _ _ _ _ _ (λ _ _, True)).
  { apply keeps_for_each. intros [key old] k2 _ Hk2.
    apply keeps_for_each. intros terminal k3 _ Hk3.
    eapply keeps_bind.
    - apply make_nonambiguous_link_safe. pose proof (Hmap old). lia.
    - intros. by apply keeps_ret. }
  intros _ k2 Hk2 _.
  eapply (keeps_bind _ _ _ _ _ (λ _ _, True)).
  { apply keeps_for_each. intros [key old] k3 _ Hk3.
    apply keeps_for_each. intros terminal k4 _ Hk4.
    eapply keeps_bind.
    - apply make_nonambiguous_link_safe. pose proof (Hmap old). lia.
    - intros. by apply keeps_ret. }
  intros _ k3 Hk3 _. apply safe_set_cursors. safe_indices.
Qed.

End SafeSplice.

Lemma exit_point_safe b n :
  keeps (machine_wf (V:=())) (λ _, True) n (exit_point b) (λ _ _, True).
Proof.
  unfold exit_point.
  eapply keeps_bind; [apply safe_get_cursors|]. intros cs k Hk _.
  eapply (keeps_bind _ _ _ _ _ (λ _ _, True)).
  - apply keeps_foldM; [done| |done]. intros errs c k1 _ Hk1 _.
    unfold exit_point_round. safe_walk.
  - intros errs k1 Hk1 _. destruct errs; [by apply keeps_ret|by apply keeps_fail].
Qed.

Lemma run_call_safe utf8 fuel c n :
  call_wf c →
  keeps (machine_wf (V:=())) (λ _, True) n (run_call utf8 fuel c)
    (λ _ _, True).
Proof.
  intros Hc. destruct c; simpl in *.
  - intros s Hs Hn. simpl. split; [|done].
    apply machine_wf_set_cursors; [done|].
    apply Forall_cons. split; [|apply Forall_nil_2].
    destruct Hs as [[Hne _] _]. destruct (m_nodes s); [done|simpl; lia].
  - intros s Hs Hn. simpl. split; [|done]. by destruct Hs.
  - apply match_default_safe.
  - apply cursor_transition_safe.
  - apply match_sequence_safe.
  - apply match_any_of_safe.
  - by apply merge_regex_into_machine_safe.
  - unfold match_many. eapply keeps_bind.
    + by apply merge_regex_into_machine_safe.
    + intros. by apply match_many_optionally_safe.
  - by apply match_many_optionally_safe.
  - apply exit_point_safe.
Qed.

Lemma new_machine_wf {V} : machine_wf (@new_machine V).
Proof.
  split; [split; [done|]|]; simpl.
  - apply Forall_cons. split; [apply Forall_nil_2|apply Forall_nil_2].
  - apply Forall_cons. split; [simpl; lia|apply Forall_nil_2].
Qed.

(** X17. The builder keeps the machine well formed.  Whatever calls of
    the public builder surface are made, in whatever order, on a new
    machine or on any well-formed one, with well-formed patterns:
    if the run returns, the store still holds its root, every edge
    still leads to a node of the store or nowhere, every cursor is the
    index of a node, and no node has been removed. *)
Theorem builder_keeps_machine_well_formed (utf8 : bool) (fuel : nat)
    (calls : list Call) (s : StateMachine ()) :
  Forall call_wf calls → machine_wf s →
  machine_wf (@new_machine ()) ∧
  match run_calls utf8 fuel calls s with
  | Ok _ s' => machine_wf s' ∧ length (m_nodes s) ≤ length (m_nodes s')
  | Fail _ => True
  end.
Proof.
  intros Hcalls Hs. split; [apply new_machine_wf|].
  assert (H : keeps (machine_wf (V:=())) (λ _, True) 0
                (run_calls utf8 fuel calls) (λ _ _, True)).
  { unfold run_calls. apply keeps_for_each. intros c k Hc _.
    apply run_call_safe. rewrite Forall_forall in Hcalls. by apply Hcalls. }
  specialize (H s Hs ltac:(lia)).
  destruct (run_calls utf8 fuel calls s); [|done]. by destruct H as (? & ? & _).
Qed.

Lemma builder_keeps_machine_well_formed_witness :
  Forall call_wf
    [call_match_sequence [105; 102]%Z; call_match b_bc_machine;
     call_exit_point 0] ∧
  machine_wf (@new_machine ()) ∧
  machine_wf (@new_machine ()) ∧
  match
    run_calls false 64
      [call_match_sequence [105; 102]%Z; call_match b_bc_machine;
       call_exit_point 0] new_machine
  with
  | Ok _ s' =>
      machine_wf s' ∧
      length (m_nodes (@new_machine ())) ≤ length (m_nodes s')
  | Fail _ => True
  end.
Proof.
  assert (Hwf : store_wf (m_nodes b_bc_machine)) by store_wf_by_evaluation.
  assert (Hcalls : Forall call_wf
    [call_match_sequence [105; 102]%Z; call_match b_bc_machine;
     call_exit_point 0]).
  { apply Forall_cons. split; [exact I|].
    apply Forall_cons. split; [exact Hwf|].
    apply Forall_cons. split; [exact I|apply Forall_nil_2]. }
  assert (Hnew : machine_wf (@new_machine ())) by apply new_machine_wf.
  split; [exact Hcalls|]. split; [exact Hnew|].
  exact (builder_keeps_machine_well_formed false 64 _ _ Hcalls Hnew).
Defined.

(** ** [nullify_orphans] and the runtime queries *)

Section Orphans.
Context {V : Type} `{EqDecision V}.
Variable s : StateMachine V.
Hypothesis edges_ok : no_null_edges (m_nodes s).

Local Abbreviation nodes := (m_nodes s).

Lemma flags_grow_trans f1 f2 f3 :
  flags_grow f1 f2 → flags_grow f2 f3 → flags_grow f1 f3.
Proof.
  intros [Hl1 H1] [Hl2 H2]. split; [congruence|]. intros i Hi. by auto.
Qed.

Lemma flags_grow_write flags i :
  i < length flags → flags_grow flags (<[i := true]> flags).
Proof.
  intros Hi. split; [by rewrite length_insert|]. intros j Hj.
  destruct (decide (j = i)) as [->|Hne].
  - by rewrite list_lookup_insert_eq.
  - by rewrite list_lookup_insert_ne.
Qed.

(** The callback of [nullify_orphans] over the edges of one node: the
    machine is left alone, the edges come back as they were, flags are
    only ever set, and when nothing was set every child was flagged
    already. *)
Lemma orphans_edges_round edges : ∀ flags expanded acc,
  Forall (λ e : Key_T.t * nat, e.2 ≠ 0) edges →
  Forall (λ e : Key_T.t * nat, reachable nodes e.2) edges →
  flags_sound nodes flags →
  match
    foldM (λ '(b, edges) '(k, v),
      '(b', v') ←
        (λ '(reachables, has_expanded) (k : Key_T.t) t,
           seen ← vec_read1 reachables t;
           if (seen : bool) then mret (reachables, has_expanded, t)
           else
             reachables' ← vec_write1 reachables t true;
             mret (reachables', true, t)) b k v;
      mret (b', edges ++ [(k, v')]))
      edges ((flags, expanded), acc) s
  with
  | Ok ((flags', expanded'), acc') s' =>
      s' = s ∧ acc' = acc ++ edges ∧ flags_grow flags flags' ∧
      flags_sound nodes flags' ∧
      (expanded = true → expanded' = true) ∧
      (expanded' = false →
       flags' = flags ∧
       Forall (λ e, flags !! (e.2 - 1) = Some true) edges)
  | Fail _ => True
  end.
Proof.
  induction edges as [|[k t] edges IH];
    intros flags expanded acc Hnz Hreach Hsound.
  { simpl. rewrite app_nil_r. repeat split; done. }
  apply Forall_cons in Hnz as [Ht Hnz]. simpl in Ht.
  apply Forall_cons in Hreach as [Hchild Hreach]. simpl in Hchild.
  rewrite foldM_cons. cbn beta iota. rewrite bind_run.
  destruct t as [|t']; [done|]. rewrite bind_run. simpl vec_read1.
  unfold vec_read. destruct (flags !! t') as [seen|] eqn:Hseen; [|done].
  rewrite ret_run. cbn beta iota. destruct seen.
  - rewrite ret_run. cbn beta iota. rewrite ret_run.
    specialize (IH flags expanded (acc ++ [(k, S t')]) Hnz Hreach Hsound).
    destruct (foldM _ edges _ s) as [[[flags' expanded'] acc'] s'|]; [|done].
    destruct IH as (-> & -> & Hgrow & Hsound' & Hexp & Hclosed).
    split; [done|]. split; [by rewrite <- app_assoc|]. split; [done|].
    split; [done|]. split; [done|].
    intros He. destruct (Hclosed He) as [-> Hall].
    split; [done|]. apply Forall_cons. split; [|done].
    simpl. by rewrite Nat.sub_0_r.
  - rewrite bind_run. simpl vec_write1. unfold vec_write.
    assert (Hlt : t' < length flags) by (by eapply lookup_lt_Some).
    rewrite decide_True by done. rewrite ret_run. cbn beta iota.
    rewrite ret_run. cbn beta iota. rewrite ret_run.
    assert (Hsound1 : flags_sound nodes (<[t' := true]> flags)).
    { intros j Hj. destruct (decide (j = t')) as [->|Hne]; [done|].
      rewrite list_lookup_insert_ne in Hj by done. by apply Hsound. }
    specialize (IH (<[t' := true]> flags) true (acc ++ [(k, S t')])
                  Hnz Hreach Hsound1).
    destruct (foldM _ edges _ s) as [[[flags' expanded'] acc'] s'|]; [|done].
    destruct IH as (-> & -> & Hgrow & Hsound' & Hexp & Hclosed).
    split; [done|]. split; [by rewrite <- app_assoc|].
    split; [eapply flags_grow_trans; [by apply flags_grow_write|done]|].
    split; [done|].
    split; [by auto|]. intros He. rewrite Hexp in He; done.
Qed.

Lemma machine_eta : mkMachine (m_nodes s) (on_conflict s) (cursors s) = s.
Proof. by destruct s. Qed.

Lemma node_without_null_edges i node :
  nodes !! i = Some node →
  mkNode (filter (λ e : Key_T.t * nat, e.2 ≠ 0) (transitions node))
    (value node) = node.
Proof.
  intros Hnode. unfold no_null_edges in edges_ok.
  rewrite Forall_lookup in edges_ok. specialize (edges_ok _ _ Hnode).
  destruct node as [edges val]. simpl in *. f_equal. clear Hnode.
  induction edges_ok as [|e edges He Hrest IH]; [done|].
  rewrite filter_cons_True by done. by f_equal.
Qed.

(** The same for one node of the store: [each_transition_at] writes the
    node back as it was. *)
Lemma orphans_node_round i node flags expanded :
  nodes !! i = Some node → reachable nodes (S i) → flags_sound nodes flags →
  match
    each_transition_at i
      (λ '(reachables, has_expanded) (k : Key_T.t) t,
         seen ← vec_read1 reachables t;
         if (seen : bool) then mret (reachables, has_expanded, t)
         else
           reachables' ← vec_write1 reachables t true;
           mret (reachables', true, t))
      (flags, expanded) s
  with
  | Ok (flags', expanded') s' =>
      s' = s ∧ flags_grow flags flags' ∧ flags_sound nodes flags' ∧
      (expanded = true → expanded' = true) ∧
      (expanded' = false →
       flags' = flags ∧
       Forall (λ e, flags !! (e.2 - 1) = Some true) (transitions node))
  | Fail _ => True
  end.
Proof.
  intros Hnode Hhere Hsound. unfold each_transition_at, each_transition_with.
  rewrite bind_run. unfold store_read at 1. rewrite Hnode. cbn beta iota.
  rewrite !bind_run.
  assert (Hnz : Forall (λ e : Key_T.t * nat, e.2 ≠ 0) (transitions node)).
  { unfold no_null_edges in edges_ok. rewrite Forall_lookup in edges_ok.
    by eapply edges_ok. }
  assert (Hreach : Forall (λ e : Key_T.t * nat, reachable nodes e.2)
                     (transitions node)).
  { rewrite Forall_forall. intros e He. rewrite Forall_forall in Hnz.
    eapply reachable_child; [exact Hhere| |done|by apply Hnz].
    simpl. by rewrite Nat.sub_0_r. }
  pose proof (orphans_edges_round (transitions node) flags expanded []
                Hnz Hreach Hsound) as Hround.
  destruct (foldM _ (transitions node) _ s)
    as [[[flags' expanded'] acc'] s'|]; [|done].
  destruct Hround as (-> & -> & Hgrow & Hsound' & Hexp & Hclosed).
  cbn beta iota. rewrite ret_run. cbn beta iota. rewrite bind_run.
  unfold store_update. rewrite Hnode. cbn beta iota. rewrite app_nil_l.
  rewrite (node_without_null_edges i node Hnode).
  rewrite list_insert_id by done. rewrite machine_eta. rewrite ret_run.
  done.
Qed.


(** One round of the reachability loop over the indices [l]. *)
Lemma orphans_round l : ∀ flags expanded,
  flags_sound nodes flags →
  match
    foldM (λ '(reachables, has_expanded) i,
      reachable ← vec_read reachables i;
      if (reachable : bool) then
        each_transition_at i (λ '(reachables, has_expanded) (k : Key_T.t) t,
          seen ← vec_read1 reachables t;
          if (seen : bool) then mret (reachables, has_expanded, t)
          else
            reachables' ← vec_write1 reachables t true;
            mret (reachables', true, t))
          (reachables, has_expanded)
      else mret (reachables, has_expanded))
      l (flags, expanded) s
  with
  | Ok (flags', expanded') s' =>
      s' = s ∧ flags_grow flags flags' ∧ flags_sound nodes flags' ∧
      (expanded = true → expanded' = true) ∧
      (expanded' = false →
       flags' = flags ∧
       ∀ i node e, i ∈ l → flags !! i = Some true →
         nodes !! i = Some node → e ∈ transitions node →
         flags !! (e.2 - 1) = Some true)
  | Fail _ => True
  end.
Proof.
  induction l as [|i l IH]; intros flags expanded Hsound.
  { simpl. repeat split; try done. intros ? ? ? Hin. by inversion Hin. }
  rewrite foldM_cons. cbn beta iota. rewrite bind_run. unfold vec_read at 1.
  destruct (flags !! i) as [reachable|] eqn:Hflag; [|done].
  rewrite ret_run. cbn beta iota. destruct reachable.
  - destruct (nodes !! i) as [node|] eqn:Hnode.
    + pose proof (orphans_node_round i node flags expanded Hnode
                    (Hsound i Hflag) Hsound) as Hone.
      destruct (each_transition_at i _ (flags, expanded) s)
        as [[flags1 expanded1] s1|]; [|done].
      destruct Hone as (-> & Hgrow1 & Hsound1 & Hexp1 & Hclosed1).
      specialize (IH flags1 expanded1 Hsound1).
      destruct (foldM _ l (flags1, expanded1) s)
        as [[flags' expanded'] s'|]; [|done].
      destruct IH as (-> & Hgrow & Hsound' & Hexp & Hclosed).
      split; [done|]. split; [by eapply flags_grow_trans|].
      split; [done|].
      split; [by auto|]. intros He'.
      destruct (Hclosed He') as [-> Hrest].
      destruct expanded1; [by specialize (Hexp eq_refl); congruence|].
      destruct (Hclosed1 eq_refl) as [-> Hhere].
      split; [done|]. intros j node' e Hin Hj Hnode' He.
      apply elem_of_cons in Hin as [->|Hin]; [|by eauto].
      assert (node' = node) as -> by congruence.
      rewrite Forall_forall in Hhere. by apply Hhere.
    + unfold each_transition_at. rewrite bind_run. unfold store_read.
      by rewrite Hnode.
  - rewrite ret_run. specialize (IH flags expanded Hsound).
    destruct (foldM _ l (flags, expanded) s)
      as [[flags' expanded'] s'|]; [|done].
    destruct IH as (-> & Hgrow & Hsound' & Hexp & Hclosed).
    split; [done|]. split; [done|]. split; [done|]. split; [done|].
    intros He'.
    destruct (Hclosed He') as [-> Hrest]. split; [done|].
    intros j node' e Hin Hj Hnode' He.
    apply elem_of_cons in Hin as [->|Hin]; [congruence|by eauto].
Qed.

(** The reachability loop: when it returns, the machine is as it was
    and the flags are closed under the edges of the store. *)
Lemma nullify_orphans_loop_marks rounds : ∀ flags,
  length flags = length nodes → flags !! 0 = Some true →
  flags_sound nodes flags →
  match nullify_orphans_loop rounds flags s with
  | Ok flags' s' =>
      s' = s ∧ marks_reachable nodes flags' ∧ flags_sound nodes flags'
  | Fail _ => True
  end.
Proof.
  induction rounds as [|rounds IH]; intros flags Hlen Hroot Hsound; [done|].
  simpl nullify_orphans_loop. rewrite bind_run. unfold size at 1.
  cbn beta iota. rewrite bind_run.
  pose proof (orphans_round (seq 0 (length nodes)) flags false Hsound)
    as Hround.
  destruct (foldM _ (seq 0 (length nodes)) (flags, false) s)
    as [[flags1 expanded1] s1|]; [|done].
  destruct Hround as (-> & [Hlen1 Hgrow] & Hsound1 & _ & Hclosed).
  cbn beta iota. destruct expanded1.
  - apply IH; [congruence|by apply Hgrow|done].
  - rewrite ret_run. destruct (Hclosed eq_refl) as [-> Hall].
    split; [done|]. split; [|done]. split; [done|]. split; [done|].
    intros i node e Hi Hnode He. eapply Hall; [|done..].
    apply elem_of_seq. apply lookup_lt_Some in Hnode. lia.
Qed.

End Orphans.

(** The queries read marked nodes only. *)
Section SameOnReachable.
Context {V : Type}.
Variables (nodes nodes' : list (Node_T V)) (flags : list bool).
Variables (utf8 : bool) (mode : MatchErrorMode).
Hypothesis marks : marks_reachable nodes flags.
Hypothesis same : ∀ i, flags !! i = Some true → nodes' !! i = nodes !! i.

Lemma marked_transition cur node k :
  flags !! (cur - 1) = Some true → nodes !! (cur - 1) = Some node →
  transition node k ≠ 0 → flags !! (transition node k - 1) = Some true.
Proof.
  intros Hcur Hnode Hnz. destruct marks as (_ & _ & Hclosed).
  apply (Hclosed _ _ (k, transition node k) Hcur Hnode).
  by apply assoc_get_elem.
Qed.

Lemma marked_child cur node c :
  flags !! (cur - 1) = Some true → nodes !! (cur - 1) = Some node →
  rt_get_transition node c ≠ 0 →
  flags !! (rt_get_transition node c - 1) = Some true.
Proof.
  intros Hcur Hnode. unfold rt_get_transition, def.
  destruct (decide (transition node (Key_T.value c) = 0)); intros Hnz;
    by eapply marked_transition.
Qed.

Lemma matches_loop_marked rest : ∀ cur count,
  flags !! (cur - 1) = Some true →
  matches_loop utf8 mode nodes' rest cur count =
    matches_loop utf8 mode nodes rest cur count ∧
  match matches_loop utf8 mode nodes rest cur count with
  | inr (n, _) => flags !! (n - 1) = Some true
  | inl _ => True
  end.
Proof.
  induction rest as [|c rest IH]; intros cur count Hcur; [done|].
  simpl. rewrite (same _ Hcur).
  destruct (nodes !! (cur - 1)) as [node|] eqn:Hnode; [|done].
  destruct (if utf8 then utf_validator.next count c
            else (utf_validator.None, count)) as [error count'].
  destruct (decide (error ≠ utf_validator.None)); [done|].
  destruct (decide (rt_get_transition node c ≠ 0)) as [Hnz|]; [|done].
  apply IH. by eapply marked_child.
Qed.

Lemma find_loop_marked rest : ∀ i st,
  flags !! (current_node st - 1) = Some true →
  (most_specific_matched_node st ≠ 0 →
   flags !! (most_specific_matched_node st - 1) = Some true) →
  find_loop utf8 mode nodes' rest i st = find_loop utf8 mode nodes rest i st ∧
  match find_loop utf8 mode nodes rest i st with
  | inr st' =>
      most_specific_matched_node st' ≠ 0 →
      flags !! (most_specific_matched_node st' - 1) = Some true
  | inl _ => True
  end.
Proof.
  induction rest as [|c rest IH]; intros i st Hcur Hrec; [done|].
  simpl. rewrite (same _ Hcur).
  destruct (nodes !! (current_node st - 1)) as [node|] eqn:Hnode; [|done].
  destruct (if utf8 then utf_validator.next (uv_count st) c
            else (utf_validator.None, uv_count st)) as [error count'].
  destruct (decide (error ≠ utf_validator.None)); [done|].
  destruct (decide (rt_get_transition node c ≠ 0)) as [Hnz|].
  - pose proof (marked_child _ _ c Hcur Hnode Hnz) as Hchild.
    rewrite (same _ Hchild).
    destruct (nodes !! (rt_get_transition node c - 1)) as [reached|]; [|done].
    destruct (value reached); by apply IH.
  - destruct (decide (most_specific_matched_node st = 0)); [|done].
    apply IH; [|done]. by destruct marks as (_ & ? & _).
Qed.

Lemma queries_marked include_eof input :
  matches utf8 mode include_eof nodes' input =
    matches utf8 mode include_eof nodes input ∧
  find utf8 mode nodes' input = find utf8 mode nodes input.
Proof.
  assert (Hroot : flags !! (1 - 1) = Some true)
    by (by destruct marks as (_ & ? & _)).
  split.
  - unfold matches.
    destruct (matches_loop_marked input 1 0 Hroot) as [-> Hend].
    destruct (matches_loop utf8 mode nodes input 1 0) as [r|[n count]];
      [done|].
    destruct (decide (_ ≠ utf_validator.None)); [done|].
    destruct include_eof.
    + rewrite (same _ Hend).
      destruct (nodes !! (n - 1)) as [node|] eqn:Hnode; [|done].
      destruct (decide (get_eof node ≠ 0)) as [Hnz|]; [|done].
      unfold get_eof in *.
      by rewrite (same _ (marked_transition _ _ _ Hend Hnode Hnz)).
    + by rewrite (same _ Hend).
  - unfold find.
    destruct (find_loop_marked input 0 (mkFind 1 0 0 0 0) Hroot)
      as [-> Hend]; [done|].
    destruct (find_loop utf8 mode nodes input 0 (mkFind 1 0 0 0 0))
      as [r|st]; [done|].
    destruct (decide (_ ≠ utf_validator.None)); [done|].
    destruct (decide (most_specific_matched_node st ≠ 0)) as [Hnz|]; [|done].
    by rewrite (same _ (Hend Hnz)).
Qed.

End SameOnReachable.

Lemma find_many_from_same {V} utf8 mode (nodes nodes' : list (Node_T V)) :
  (∀ data, find utf8 mode nodes' data = find utf8 mode nodes data) →
  ∀ fuel offset data,
    find_many_from utf8 mode fuel nodes' offset data =
      find_many_from utf8 mode fuel nodes offset data.
Proof.
  intros Hfind. induction fuel as [|fuel IH]; intros offset data; [done|].
  simpl. rewrite Hfind. destruct (find utf8 mode nodes data); try done.
  destruct (decide (_ = 0%Z)); [done|].
  destruct (decide (_ ≤ _)%Z); [|done].
  destruct (decide (_ = 0)); [done|]. by rewrite IH.
Qed.

Section OrphansTail.
Context {V : Type}.
Variable flags : list bool.

(** The cursor loop of [nullify_orphans] leaves the machine alone. *)
Lemma orphans_cursor_fold cs : ∀ acc (t : StateMachine V),
  match
    foldM (λ done c,
      reachable ← vec_read flags c;
      mret (done ++ [if (reachable : bool) then c else 0]))
      cs acc t
  with
  | Ok _ t' => t' = t
  | Fail _ => True
  end.
Proof.
  induction cs as [|c cs IH]; intros acc t; [done|].
  rewrite foldM_cons, bind_run. unfold vec_read at 1.
  destruct (flags !! c); [|done]. rewrite ret_run. cbn beta iota.
  rewrite ret_run. apply IH.
Qed.

(** The node loop of [nullify_orphans]: flagged nodes are left as they
    are, the others among [l] are cleared. *)
Lemma orphans_clear l : ∀ t : StateMachine V,
  match
    for_each l (λ i,
      reachable ← vec_read flags i;
      if (reachable : bool) then mret () else store_update i nullify) t
  with
  | Ok _ t' =>
      on_conflict t' = on_conflict t ∧
      length (m_nodes t') = length (m_nodes t) ∧
      ∀ i,
        (flags !! i = Some true → m_nodes t' !! i = m_nodes t !! i) ∧
        (m_nodes t !! i = Some empty_node →
         m_nodes t' !! i = Some empty_node) ∧
        (i ∈ l → flags !! i = Some false →
         m_nodes t' !! i = Some empty_node)
  | Fail _ => True
  end.
Proof.
  unfold for_each. induction l as [|j l IH]; intros t.
  { simpl. repeat split; try done. intros Hin. by inversion Hin. }
  rewrite foldM_cons, bind_run. unfold vec_read at 1.
  destruct (flags !! j) as [reachable|] eqn:Hflag; [|done].
  rewrite ret_run. cbn beta iota. destruct reachable.
  - rewrite ret_run. specialize (IH t).
    destruct (foldM _ l () t) as [[] t'|]; [|done].
    destruct IH as (Hpolicy & Hlen & Hnodes).
    split; [done|]. split; [done|]. intros i.
    destruct (Hnodes i) as (Hkept & Hempty & Hcleared).
    split; [done|]. split; [done|]. intros Hin Hi.
    apply elem_of_cons in Hin as [->|Hin]; [congruence|by auto].
  - unfold store_update at 1.
    destruct (m_nodes t !! j) as [node|] eqn:Hnode; [|done].
    specialize (IH (mkMachine (<[j := nullify node]> (m_nodes t))
                      (on_conflict t) (cursors t))).
    destruct (foldM _ l () _) as [[] t'|]; [|done].
    destruct IH as (Hpolicy & Hlen & Hnodes). simpl in *.
    rewrite length_insert in Hlen.
    split; [done|]. split; [done|]. intros i.
    destruct (Hnodes i) as (Hkept & Hempty & Hcleared).
    assert (Hj : <[j := nullify node]> (m_nodes t) !! j = Some empty_node).
    { apply list_lookup_insert_eq. by eapply lookup_lt_Some. }
    split; [|split].
    + intros Hi. rewrite (Hkept Hi).
      apply list_lookup_insert_ne. congruence.
    + intros Hi. apply Hempty. destruct (decide (i = j)) as [->|Hne];
        [done|by rewrite list_lookup_insert_ne].
    + intros Hin Hi. apply elem_of_cons in Hin as [->|Hin]; [|by auto].
      by apply Hempty.
Qed.

End OrphansTail.

Lemma marks_reachable_complete {V} (nodes : list (Node_T V)) flags index :
  marks_reachable nodes flags → reachable nodes index →
  flags !! (index - 1) = Some true.
Proof.
  intros (_ & Hroot & Hclosed). induction 1 as [|index node e _ IH Hnode He _];
    [done|by eapply Hclosed].
Qed.

(** What [nullify_orphans] does to the store when it returns. *)
Lemma nullify_orphans_store {V} (s s' : StateMachine V) :
  no_null_edges (m_nodes s) → nullify_orphans s = Ok () s' →
  on_conflict s' = on_conflict s ∧
  length (m_nodes s') = length (m_nodes s) ∧
  ∃ flags, marks_reachable (m_nodes s) flags ∧
    flags_sound (m_nodes s) flags ∧
    ∀ i,
      (flags !! i = Some true → m_nodes s' !! i = m_nodes s !! i) ∧
      (flags !! i = Some false → m_nodes s' !! i = Some empty_node).
Proof.
  intros Hedges Hrun. unfold nullify_orphans in Hrun.
  rewrite bind_run in Hrun. unfold size at 1 in Hrun. cbn beta iota in Hrun.
  rewrite bind_run in Hrun. unfold vec_write at 1 in Hrun.
  destruct (decide (0 < length (replicate (length (m_nodes s)) false)))
    as [Hpos|]; [|done].
  rewrite ret_run in Hrun. cbn beta iota in Hrun. rewrite bind_run in Hrun.
  rewrite length_replicate in Hpos.
  pose proof (nullify_orphans_loop_marks s Hedges (S (length (m_nodes s)))
                (<[0 := true]> (replicate (length (m_nodes s)) false)))
    as Hloop.
  destruct (nullify_orphans_loop _ _ s) as [flags s1|]; [|done].
  destruct Hloop as (-> & Hmarks & Hsound).
  { by rewrite length_insert, length_replicate. }
  { apply list_lookup_insert_eq. by rewrite length_replicate. }
  { intros i Hi. destruct i as [|i]; [constructor|].
    rewrite list_lookup_insert_ne in Hi by done.
    apply lookup_replicate in Hi as [? _]. done. }
  rewrite bind_run, get_cursors_run in Hrun. cbn beta iota in Hrun.
  rewrite bind_run in Hrun.
  pose proof (orphans_cursor_fold flags (cursors s) [] s) as Hcs.
  destruct (foldM _ (cursors s) [] s) as [cs s1|]; [|done]. subst s1.
  rewrite bind_run, set_cursors_run in Hrun. cbn beta iota in Hrun.
  rewrite bind_run in Hrun.
  pose proof (orphans_clear flags (seq 0 (length (m_nodes s)))
                (mkMachine (m_nodes s) (on_conflict s) cs)) as Hclear.
  destruct (for_each _ _ _) as [[] t'|]; [|done].
  destruct Hclear as (Hpolicy & Hlen & Hnodes). simpl in *.
  rewrite bind_run, get_cursors_run in Hrun. cbn beta iota in Hrun.
  rewrite set_cursors_run in Hrun. injection Hrun as <-. simpl.
  split; [done|]. split; [done|]. exists flags.
  split; [done|]. split; [done|]. intros i.
  destruct (Hnodes i) as (Hkept & _ & Hcleared). split; [done|].
  intros Hi. apply Hcleared; [|done]. apply elem_of_seq.
  apply lookup_lt_Some in Hi. destruct Hmarks as [Hl _]. lia.
Qed.

(** X18. [nullify_orphans], when it returns on a store without null
    edges, clears exactly the nodes that no edge path from the root
    leads to and leaves every other node as it was; the store keeps its
    size, and [matches], [find] and [find_many] answer on the result as
    they did before, on every input and in every mode. *)
Theorem nullify_orphans_clears_unreachable_only {V} (s s' : StateMachine V) :
  no_null_edges (m_nodes s) → nullify_orphans s = Ok () s' →
  length (m_nodes s') = length (m_nodes s) ∧
  (∀ i node, m_nodes s !! i = Some node →
     (reachable (m_nodes s) (S i) → m_nodes s' !! i = Some node) ∧
     (¬ reachable (m_nodes s) (S i) → m_nodes s' !! i = Some empty_node)) ∧
  ∀ utf8 mode include_eof input,
    matches utf8 mode include_eof (m_nodes s') input =
      matches utf8 mode include_eof (m_nodes s) input ∧
    find utf8 mode (m_nodes s') input = find utf8 mode (m_nodes s) input ∧
    find_many utf8 mode (m_nodes s') input =
      find_many utf8 mode (m_nodes s) input.
Proof.
  intros Hedges Hrun.
  destruct (nullify_orphans_store s s' Hedges Hrun)
    as (_ & Hlen & flags & Hmarks & Hsound & Hnodes).
  split; [done|]. split.
  - intros i node Hnode. split.
    + intros Hreach. destruct (Hnodes i) as [Hkept _]. rewrite Hkept; [done|].
      pose proof (marks_reachable_complete _ _ _ Hmarks Hreach) as Hflag.
      simpl in Hflag. by rewrite Nat.sub_0_r in Hflag.
    + intros Hnot. destruct (Hnodes i) as [_ Hcleared]. apply Hcleared.
      destruct (flags !! i) as [[]|] eqn:Hflag; [|done|].
      * destruct Hnot. by apply Hsound.
      * apply lookup_ge_None in Hflag. apply lookup_lt_Some in Hnode.
        destruct Hmarks as [Hl _]. lia.
  - intros utf8 mode include_eof input.
    assert (Hsame : ∀ i, flags !! i = Some true →
                         m_nodes s' !! i = m_nodes s !! i)
      by (intros i; apply Hnodes).
    split; [|split].
    + apply (queries_marked _ _ flags utf8 mode Hmarks Hsame).
    + apply (queries_marked _ _ flags utf8 mode Hmarks Hsame false).
    + unfold find_many.
      apply find_many_from_same. intros data.
      apply (queries_marked _ _ flags utf8 mode Hmarks Hsame false).
Qed.

Lemma nullify_orphans_clears_unreachable_only_witness :
  no_null_edges (m_nodes spliced_machine) ∧
  nullify_orphans spliced_machine =
    Ok () (built (match_ 64 aa_b_pattern;; nullify_orphans)) ∧
  length (m_nodes (built (match_ 64 aa_b_pattern;; nullify_orphans))) =
    length (m_nodes spliced_machine) ∧
  (∀ i node, m_nodes spliced_machine !! i = Some node →
     (reachable (m_nodes spliced_machine) (S i) →
      m_nodes (built (match_ 64 aa_b_pattern;; nullify_orphans)) !! i =
        Some node) ∧
     (¬ reachable (m_nodes spliced_machine) (S i) →
      m_nodes (built (match_ 64 aa_b_pattern;; nullify_orphans)) !! i =
        Some empty_node)) ∧
  ∀ utf8 mode include_eof input,
    matches utf8 mode include_eof
      (m_nodes (built (match_ 64 aa_b_pattern;; nullify_orphans))) input =
      matches utf8 mode include_eof (m_nodes spliced_machine) input ∧
    find utf8 mode
      (m_nodes (built (match_ 64 aa_b_pattern;; nullify_orphans))) input =
      find utf8 mode (m_nodes spliced_machine) input ∧
    find_many utf8 mode
      (m_nodes (built (match_ 64 aa_b_pattern;; nullify_orphans))) input =
      find_many utf8 mode (m_nodes spliced_machine) input.
Proof.
  assert (Hedges : no_null_edges (m_nodes spliced_machine)).
  { vm_compute. repeat (apply Forall_cons; split); try apply Forall_nil_2;
      simpl; lia. }
  assert (Hrun : nullify_orphans spliced_machine =
                   Ok () (built (match_ 64 aa_b_pattern;; nullify_orphans)))
    by (vm_compute; reflexivity).
  split; [exact Hedges|]. split; [exact Hrun|].
  exact (nullify_orphans_clears_unreachable_only _ _ Hedges Hrun).
Defined.

(** ** [matches] and [find] on the same input *)

Section MatchesThenFind.
Context {V : Type}.
Variables (nodes : list (Node_T V)) (utf8 : bool) (mode : MatchErrorMode).

(** Where the loop of [matches] runs through, the loop of [find] runs
    through on the same nodes and ends on the same one, having recorded
    it if it accepts. *)
Lemma find_loop_follows_matches rest : ∀ i st n count,
  matches_loop utf8 mode nodes rest (current_node st) (uv_count st) =
    inr (n, count) →
  is_Some (nodes !! (n - 1)) →
  ∃ st', find_loop utf8 mode nodes rest i st = inr st' ∧
    current_node st' = n ∧ uv_count st' = count ∧
    match_begin st' = match_begin st ∧
    (rest ≠ [] → is_Some (accept_at nodes n) →
     most_specific_matched_node st' = n ∧ match_end st' = i + length rest).
Proof.
  induction rest as [|c rest IH]; intros i st n count Hrun Hn.
  { simpl in Hrun. injection Hrun as <- <-. by exists st. }
  simpl in Hrun. simpl find_loop.
  destruct (nodes !! (current_node st - 1)) as [node|]; [|done].
  destruct (if utf8 then utf_validator.next (uv_count st) c
            else (utf_validator.None, uv_count st)) as [error count1].
  destruct (decide (error ≠ utf_validator.None)); [done|].
  destruct (decide (rt_get_transition node c ≠ 0)) as [Hnz|]; [|done].
  set (loc := rt_get_transition node c) in *.
  assert (Hloc : is_Some (nodes !! (loc - 1))).
  { destruct rest as [|c' rest'].
    - simpl in Hrun. by injection Hrun as <- _.
    - simpl in Hrun. by destruct (nodes !! (loc - 1)). }
  destruct Hloc as [reached Hreached]. rewrite Hreached.
  destruct (value reached) as [val|] eqn:Hval.
  - destruct (IH (S i) (mkFind loc loc (match_begin st) (i + 1) count1)
                n count Hrun Hn) as (st' & Hfind & Hcur & Hcount & Hb & Hrec).
    exists st'. split; [done|]. split; [done|]. split; [done|].
    split; [done|]. intros _ Hacc.
    destruct rest as [|c' rest'].
    + simpl in Hfind. injection Hfind as <-. simpl in *.
      split; [congruence|lia].
    + destruct (Hrec ltac:(done) Hacc) as [-> ->]. split; [done|simpl; lia].
  - destruct (IH (S i) (mkFind loc (most_specific_matched_node st)
                          (match_begin st) (match_end st) count1)
                n count Hrun Hn) as (st' & Hfind & Hcur & Hcount & Hb & Hrec).
    exists st'. split; [done|]. split; [done|]. split; [done|].
    split; [done|]. intros _ Hacc.
    destruct rest as [|c' rest'].
    + simpl in Hfind. injection Hfind as <-. simpl in *.
      subst n. unfold accept_at in Hacc. rewrite Hreached in Hacc.
      simpl in Hacc. rewrite Hval in Hacc. by destruct Hacc.
    + destruct (Hrec ltac:(done) Hacc) as [-> ->]. split; [done|simpl; lia].
Qed.

End MatchesThenFind.

(** X19. What [matches] accepts, [find] finds: when [matches], without
    [INCLUDE_EOF], succeeds on a non-empty input, [find] on the same
    input reports a match that begins at 0 with the same value, and
    ends at the length of the input less the [back_by] of the accept
    record; in both UTF-8 modes, on every store. *)
Theorem matches_success_is_found {V} (utf8 : bool) (mode : MatchErrorMode)
    (nodes : list (Node_T V)) (input : list Z) (val : Value_T V) :
  input ≠ [] →
  matches utf8 mode false nodes input = match_value (Some val) →
  find utf8 mode nodes input =
    find_match 0 (size_t_sub (length input) (back_by val)) (payload val).
Proof.
  intros Hne Hmatches. unfold matches in Hmatches. unfold find.
  destruct (matches_loop utf8 mode nodes input 1 0) as [r|[n count]] eqn:Hloop.
  { subst r. 
    assert (Hearly : ∀ rest cur count,
      matches_loop utf8 mode nodes rest cur count ≠
        inl (match_value (Some val))).
    { induction rest as [|c rest IH]; intros cur count'; simpl; [done|].
      destruct (nodes !! (cur - 1)) as [node|]; [|done].
      destruct (if utf8 then utf_validator.next count' c
                else (utf_validator.None, count')) as [error count1].
      destruct (decide (error ≠ utf_validator.None)); [by destruct mode|].
      destruct (decide (rt_get_transition node c ≠ 0)); [by apply IH|done]. }
    by destruct (Hearly input 1 0). }
  destruct (decide (_ ≠ utf_validator.None)) as [|Hfinal];
    [by destruct mode|].
  destruct (nodes !! (n - 1)) as [node|] eqn:Hnode; [|done].
  injection Hmatches as Hval.
  destruct (find_loop_follows_matches nodes utf8 mode input 0
              (mkFind 1 0 0 0 0) n count Hloop ltac:(by rewrite Hnode))
    as (st & -> & Hcur & Hcount & Hb & Hrec).
  rewrite Hcount. destruct (decide (_ ≠ utf_validator.None)); [done|].
  destruct Hrec as [Hm He]; [done| |].
  { unfold accept_at. rewrite Hnode. simpl. by rewrite Hval. }
  rewrite Hm, He, Hb. simpl.
  assert (Hn : n ≠ 0).
  { intros ->. destruct input as [|c rest]; [done|]. simpl in Hloop.
    destruct (nodes !! 0) as [root|]; [|done].
    destruct (if utf8 then utf_validator.next 0 c
              else (utf_validator.None, 0)) as [error count1].
    destruct (decide (error ≠ utf_validator.None)); [done|].
    destruct (decide (rt_get_transition root c ≠ 0)) as [Hnz|]; [|done].
    assert (Hnonzero : ∀ rest cur count',
      cur ≠ 0 → matches_loop utf8 mode nodes rest cur count' ≠ inr (0, count)).
    { induction rest0 as [|c0 rest0 IH]; intros cur count' Hcur'; simpl.
      - intros [= -> _]. done.
      - destruct (nodes !! (cur - 1)) as [node0|]; [|done].
        destruct (if utf8 then utf_validator.next count' c0
                  else (utf_validator.None, count')) as [error0 count2].
        destruct (decide (error0 ≠ utf_validator.None)); [done|].
        destruct (decide (rt_get_transition node0 c0 ≠ 0)); [by apply IH|done]. }
    by destruct (Hnonzero rest _ count1 Hnz). }
  rewrite decide_True by done. rewrite Hnode, Hval. done.
Qed.

Lemma matches_success_is_found_witness :
  [105; 102]%Z ≠ [] ∧
  matches false Return false (m_nodes if_ifdef_machine) [105; 102]%Z =
    match_value (Some (mkValue () 0)) ∧
  find false Return (m_nodes if_ifdef_machine) [105; 102]%Z =
    find_match 0
      (size_t_sub (length [105; 102]%Z) (back_by (mkValue () 0)))
      (payload (mkValue () 0)).
Proof.
  assert (Hne : [105; 102]%Z ≠ []) by done.
  assert (Hmatches :
    matches false Return false (m_nodes if_ifdef_machine) [105; 102]%Z =
      match_value (Some (mkValue () 0))) by (vm_compute; reflexivity).
  split; [exact Hne|]. split; [exact Hmatches|].
  exact (matches_success_is_found false Return _ _ _ Hne Hmatches).
Defined.

(** X20. What [find] finds, [matches] accepts: on a well-formed store
    and without UTF-8 validation, the bytes of a match that [find]
    reports, from its beginning up to its end put forward again by the
    [back_by] of the accept record, are an input on which [matches]
    succeeds with the value reported. *)
Theorem found_span_is_matched {V} (mode mode' : MatchErrorMode)
    (nodes : list (Node_T V)) (input : list Z) (b e : Z) (v : V) :
  store_wf nodes →
  find false mode nodes input = find_match b e v →
  ∃ b' m val,
    b = Z.of_nat b' ∧ b' < m ≤ length input ∧
    e = size_t_sub m (back_by val) ∧ payload val = v ∧
    matches false mode' false nodes (segment input b' m) =
      match_value (Some val).
Proof.
  intros Hwf Hfind.
  destruct (find_match_path false mode nodes input b e v Hwf Hfind)
    as (b' & m & n & val & Hb & Hm & Hwalk & Hacc & Hv & He).
  exists b', m, val. split; [done|]. split; [done|]. split; [done|].
  split; [done|].
  rewrite (matches_walk_verdict mode' false nodes _ Hwf), Hwalk. simpl.
  unfold verdict. simpl. by rewrite Hacc.
Qed.

Lemma found_span_is_matched_witness :
  store_wf (m_nodes foo_back1_machine) ∧
  find false Return (m_nodes foo_back1_machine) [120; 102; 111; 111]%Z =
    find_match 1 3 () ∧
  ∃ b' m val,
    1%Z = Z.of_nat b' ∧ b' < m ≤ length [120; 102; 111; 111]%Z ∧
    3%Z = size_t_sub m (back_by val) ∧ payload val = () ∧
    matches false Panic false (m_nodes foo_back1_machine)
      (segment [120; 102; 111; 111]%Z b' m) = match_value (Some val).
Proof.
  assert (Hwf : store_wf (m_nodes foo_back1_machine))
    by store_wf_by_evaluation.
  assert (Hfind :
    find false Return (m_nodes foo_back1_machine) [120; 102; 111; 111]%Z =
      find_match 1 3 ()) by (vm_compute; reflexivity).
  split; [exact Hwf|]. split; [exact Hfind|].
  exact (found_span_is_matched Return Panic _ _ _ _ _ Hwf Hfind).
Defined.

(** ** The rounds of [find_many] *)

Lemma find_many_from_unfinished {V} (utf8 : bool) (mode : MatchErrorMode)
    (nodes : list (Node_T V)) fuel : ∀ offset data,
  (find_many_from utf8 mode fuel nodes offset data).2 = gen_unfinished →
  length (find_many_from utf8 mode fuel nodes offset data).1 = fuel.
Proof.
  induction fuel as [|fuel IH]; intros offset data; [done|]. simpl.
  destruct (find utf8 mode nodes data) as [e|e| | |b e v]; try done.
  destruct (decide (_ = 0%Z)); [done|].
  destruct (decide (_ ≤ _)%Z); [|done].
  destruct (decide (_ = 0)); [done|].
  specialize (IH (offset + Z.to_nat e) (drop (Z.to_nat e) data)).
  destruct (find_many_from utf8 mode fuel nodes _ _) as [rs fin].
  simpl in *. intros ->. by rewrite IH.
Qed.

(** X21. The iteration of [find_many] either ends within one round
    more than the input has bytes, and then every longer unrolling
    gives the same results and the same end, or it never ends: no
    unrolling, however long, reaches its end. *)
Theorem find_many_ends_or_never {V} (utf8 : bool) (mode : MatchErrorMode)
    (nodes : list (Node_T V)) (input : list Z) :
  ((find_many utf8 mode nodes input).2 ≠ gen_unfinished ∧
   ∀ fuel, length input < fuel →
     find_many_from utf8 mode fuel nodes 0 input =
       find_many utf8 mode nodes input) ∨
  (∀ fuel, (find_many_from utf8 mode fuel nodes 0 input).2 = gen_unfinished).
Proof.
  destruct (find_many_from_fuel utf8 mode nodes (length input) input
              ltac:(lia)) as [Hloop|Hsame]; [by right|left].
  unfold find_many. split.
  - intros Hend.
    pose proof (find_many_from_unfinished utf8 mode nodes _ _ _ Hend) as H1.
    rewrite (Hsame _ (S (S (length input))) 0) in Hend, H1 by lia.
    pose proof (find_many_from_unfinished utf8 mode nodes _ _ _ Hend) as H2.
    lia.
  - intros fuel Hfuel. apply Hsame; lia.
Qed.

